(** * World Tutor: the reasoning kernel of the intelligence engine

    A shallow embedding of the TypeScript engine under [src/engine]:
    working memory ([memory/working-memory.ts]), the noun-relation store
    ([store/knowledge-graph.ts]), the seven seed demons
    ([demons/*.ts]) and the hypervisor ([hypervisor/scheduler.ts]).

    Conventions of the embedding.
    - JavaScript strings are modelled by [string], one [ascii] per code
      unit (the model covers code units below 256).
    - JavaScript numbers that carry weights and confidences are exact
      rationals ([Q]); counters, ttl values and timestamps are [nat].
    - A JavaScript [Map] is an association list in insertion order.
    - [Date.now()], [nanoid(8)] and [Math.random()] are oracles kept in the
      [World], next to the SQLite tables; every call consumes one reading.
    - A thrown exception is the [None] outcome of an effectful computation;
      the tables written before the throw stay written. *)

From Stdlib Require Import List String Ascii Bool Arith ZArith QArith Qminmax Qround Lia Lqa.
From Stdlib Require Import Permutation Sorted.
Import ListNotations.

Local Open Scope string_scope.
Local Open Scope list_scope.
Local Open Scope nat_scope.

Set Implicit Arguments.
Set Warnings "-register-all".

(* ================================================================== *)
(** * Text: the string primitives the engine uses                      *)
(* ================================================================== *)

Module Text.

Definition chars (s : string) : list ascii := list_ascii_of_string s.
Definition str (l : list ascii) : string := string_of_list_ascii l.

Definition code (c : ascii) : nat := nat_of_ascii c.

(** The double quote, which the templates of the source embed. *)
Definition dq : string := String (ascii_of_nat 34) EmptyString.

Definition is_upper (c : ascii) : bool := (65 <=? code c) && (code c <=? 90).
Definition is_lower (c : ascii) : bool := (97 <=? code c) && (code c <=? 122).
Definition is_digit (c : ascii) : bool := (48 <=? code c) && (code c <=? 57).

(** [\w] of a JavaScript regular expression. *)
Definition is_word (c : ascii) : bool :=
  is_upper c || is_lower c || is_digit c || (code c =? 95).

(** [\s], and what [trim] strips: tab, LF, VT, FF, CR, space, NBSP. *)
Definition is_space (c : ascii) : bool :=
  let n := code c in
  (n =? 9) || (n =? 10) || (n =? 11) || (n =? 12) || (n =? 13) || (n =? 32) || (n =? 160).

(** Line terminators, which [.] does not match. *)
Definition is_newline (c : ascii) : bool := (code c =? 10) || (code c =? 13).

Definition lower_char (c : ascii) : ascii :=
  if is_upper c then ascii_of_nat (code c + 32) else c.

Definition toLowerCase (s : string) : string := str (map lower_char (chars s)).

Fixpoint drop_space (l : list ascii) : list ascii :=
  match l with
  | c :: t => if is_space c then drop_space t else l
  | [] => []
  end.

Definition trim (s : string) : string :=
  str (rev (drop_space (rev (drop_space (chars s))))).

(** [s.split(sep)] for a one-character separator. *)
Fixpoint split_chars (sep : ascii) (cur : list ascii) (l : list ascii) : list string :=
  match l with
  | [] => [str (rev cur)]
  | c :: t => if Ascii.eqb c sep then str (rev cur) :: split_chars sep [] t
              else split_chars sep (c :: cur) t
  end.

Definition split (sep : ascii) (s : string) : list string := split_chars sep [] (chars s).

Definition join (sep : string) (l : list string) : string := String.concat sep l.

(** [l.includes(s)] and [set.has(s)]. *)
Definition includes (l : list string) (s : string) : bool := existsb (String.eqb s) l.

(** [[...new Set(l)]]: first occurrences, in order. *)
Fixpoint dedup_acc (seen : list string) (l : list string) : list string :=
  match l with
  | [] => []
  | x :: t => if includes seen x then dedup_acc seen t else x :: dedup_acc (x :: seen) t
  end.

Definition dedup (l : list string) : list string := dedup_acc [] l.

(** [s.endsWith(t)]. *)
Fixpoint prefix_chars (p l : list ascii) : bool :=
  match p, l with
  | [], _ => true
  | a :: p', b :: l' => Ascii.eqb a b && prefix_chars p' l'
  | _ :: _, [] => false
  end.

Definition endsWith (s t : string) : bool := prefix_chars (rev (chars t)) (rev (chars s)).

(** Decimal rendering of a counter, as a template literal prints it. *)
Definition digit (n : nat) : ascii := ascii_of_nat (48 + n).

Fixpoint digits_fuel (fuel n : nat) (acc : list ascii) : list ascii :=
  match fuel with
  | 0 => acc
  | S f => let acc' := digit (n mod 10) :: acc in
           if n / 10 =? 0 then acc' else digits_fuel f (n / 10) acc'
  end.

Definition of_nat (n : nat) : string := str (digits_fuel (S n) n []).

(** [Array.prototype.sort] with a comparator, and the [ORDER BY] of the
    store: a stable sort. *)
Fixpoint sort_insert (A : Type) (cmp : A -> A -> comparison) (x : A) (l : list A) : list A :=
  match l with
  | [] => [x]
  | y :: t => match cmp x y with
              | Gt => y :: sort_insert cmp x t
              | _ => x :: l
              end
  end.

Definition sort_by (A : Type) (cmp : A -> A -> comparison) (l : list A) : list A :=
  fold_right (sort_insert cmp) [] l.

End Text.

(* ================================================================== *)
(** * Regex: the fragment of JavaScript regular expressions in use     *)
(* ================================================================== *)

Module Regex.
Import Text.

(** Abstract syntax.  [Star true r] is the greedy [r*], [Star false r]
    the lazy [r*?]; [Cap n r] is the [n]-th capturing group. *)
Inductive re : Type :=
| Eps
| Chr (c : ascii)
| Cls (p : ascii -> bool)
| Seq (a b : re)
| Alt (a b : re)
| Star (greedy : bool) (a : re)
| Cap (n : nat) (a : re)
| Bol
| Eol
| WordB.

Definition Plus (greedy : bool) (a : re) : re := Seq a (Star greedy a).
Definition Opt (a : re) : re := Alt a Eps.

Definition seqs (l : list re) : re := fold_right Seq Eps l.

Fixpoint alts (l : list re) : re :=
  match l with
  | [] => Cls (fun _ => false)
  | [r] => r
  | r :: t => Alt r (alts t)
  end.

Definition lit (s : string) : re := seqs (map Chr (chars s)).
Definition lits (l : list string) : re := alts (map lit l).
Definition oneof (s : string) : re := Cls (fun c => existsb (Ascii.eqb c) (chars s)).

Definition w : re := Cls is_word.           (* \w *)
Definition d : re := Cls is_digit.          (* \d *)
Definition ws1 : re := Plus true (Cls is_space).   (* \s+ *)
Definition ws0 : re := Star true (Cls is_space).   (* \s* *)
Definition dot : re := Cls (fun c => negb (is_newline c)).

(** The state of a match attempt: position, the character before it,
    the input still to read, and the captures so far. *)
Record mstate : Type := MState {
  m_pos : nat;
  m_prev : option ascii;
  m_rest : list ascii;
  m_caps : list (nat * string)
}.

Definition step (x : ascii) (t : list ascii) (s : mstate) : mstate :=
  MState (S (m_pos s)) (Some x) t (m_caps s).

Definition set_cap (n : nat) (from to : mstate) : mstate :=
  MState (m_pos to) (m_prev to) (m_rest to)
         ((n, str (firstn (m_pos to - m_pos from) (m_rest from))) :: m_caps to).

Definition word_at (o : option ascii) : bool :=
  match o with Some c => is_word c | None => false end.

(** Backtracking matcher in continuation-passing style: alternatives are
    tried in the priority order of the JavaScript semantics, and an
    iteration of a star that consumes nothing is rejected.  [ci] is the
    [i] flag. *)
Fixpoint mtch (R : Type) (ci : bool) (r : re) (s : mstate)
         (k : mstate -> option R) {struct r} : option R :=
  match r with
  | Eps => k s
  | Chr c =>
      match m_rest s with
      | x :: t =>
          if (if ci then Ascii.eqb (lower_char x) (lower_char c) else Ascii.eqb x c)
          then k (step x t s) else None
      | [] => None
      end
  | Cls p =>
      match m_rest s with
      | x :: t => if p x then k (step x t s) else None
      | [] => None
      end
  | Seq a b => mtch ci a s (fun s' => mtch ci b s' k)
  | Alt a b =>
      match mtch ci a s k with
      | Some x => Some x
      | None => mtch ci b s k
      end
  | Star g a =>
      (fix loop (fuel : nat) (s : mstate) {struct fuel} : option R :=
         match fuel with
         | 0 => k s
         | S f =>
             if g then
               match mtch ci a s (fun s' => if m_pos s' =? m_pos s then None else loop f s') with
               | Some x => Some x
               | None => k s
               end
             else
               match k s with
               | Some x => Some x
               | None => mtch ci a s (fun s' => if m_pos s' =? m_pos s then None else loop f s')
               end
         end) (S (List.length (m_rest s))) s
  | Cap n a => mtch ci a s (fun s' => k (set_cap n s s'))
  | Bol => if m_pos s =? 0 then k s else None
  | Eol => match m_rest s with [] => k s | _ :: _ => None end
  | WordB =>
      if xorb (word_at (m_prev s)) (word_at (hd_error (m_rest s))) then k s else None
  end.

(** A successful match: [match.index], the end index, [match[0]] and the
    groups. *)
Record rmatch : Type := RMatch {
  mt_start : nat;
  mt_end : nat;
  mt_text : string;
  mt_groups : list (nat * string)
}.

Definition try_at (ci : bool) (r : re) (prev : option ascii) (pos : nat)
           (rest : list ascii) : option rmatch :=
  match mtch ci r (MState pos prev rest []) (fun s => Some s) with
  | Some s' => Some (RMatch pos (m_pos s') (str (firstn (m_pos s' - pos) rest)) (m_caps s'))
  | None => None
  end.

(** The leftmost match at or after the current position. *)
Fixpoint search (ci : bool) (r : re) (prev : option ascii) (pos : nat)
         (rest : list ascii) {struct rest} : option rmatch :=
  match try_at ci r prev pos rest with
  | Some m => Some m
  | None =>
      match rest with
      | [] => None
      | x :: t => search ci r (Some x) (S pos) t
      end
  end.

(** [match[n]], [None] when the group did not take part. *)
Fixpoint group_in (n : nat) (caps : list (nat * string)) : option string :=
  match caps with
  | [] => None
  | (m, s) :: t => if m =? n then Some s else group_in n t
  end.

Definition group (n : nat) (m : rmatch) : string :=
  match group_in n (mt_groups m) with Some s => s | None => "" end.

(** [re.test(s)] and [s.match(re)] for a regular expression without the
    [g] flag. *)
Definition exec (ci : bool) (r : re) (s : string) : option rmatch :=
  search ci r None 0 (chars s).

Definition test (ci : bool) (r : re) (s : string) : bool :=
  match exec ci r s with Some _ => true | None => false end.

Definition last_char (prev : option ascii) (l : list ascii) : option ascii :=
  match rev l with x :: _ => Some x | [] => prev end.

(** The loop [while ((m = re.exec(s)) !== null)] over a [g] expression:
    every match restarts at the end of the previous one.  The loop of the
    source does not terminate on an empty match; the fuel stops it. *)
Fixpoint exec_loop (fuel : nat) (ci : bool) (r : re) (prev : option ascii)
         (pos : nat) (rest : list ascii) : list rmatch :=
  match fuel with
  | 0 => []
  | S f =>
      match search ci r prev pos rest with
      | None => []
      | Some m =>
          let consumed := firstn (mt_end m - pos) rest in
          m :: exec_loop f ci r (last_char prev consumed) (mt_end m)
                         (skipn (mt_end m - pos) rest)
      end
  end.

Definition exec_all (ci : bool) (r : re) (s : string) : list rmatch :=
  exec_loop (S (String.length s)) ci r None 0 (chars s).

(** [s.replace(re, rep)] for a [g] expression and a plain replacement
    text; after an empty match the scan moves on by one character. *)
Fixpoint replace_loop (fuel : nat) (r : re) (rep : list ascii) (prev : option ascii)
         (pos : nat) (rest : list ascii) : list ascii :=
  match fuel with
  | 0 => rest
  | S f =>
      match search false r prev pos rest with
      | None => rest
      | Some m =>
          let before := firstn (mt_start m - pos) rest in
          let len := mt_end m - mt_start m in
          let after := skipn (mt_end m - pos) rest in
          match len, after with
          | 0, x :: t => before ++ rep ++ x :: replace_loop f r rep (Some x) (S (mt_end m)) t
          | 0, [] => before ++ rep
          | _, _ => before ++ rep ++
                    replace_loop f r rep (last_char prev (firstn (mt_end m - pos) rest))
                                 (mt_end m) after
          end
      end
  end.

Definition replace_all (r : re) (rep : string) (s : string) : string :=
  str (replace_loop (S (String.length s)) r (chars rep) None 0 (chars s)).

End Regex.

(* ================================================================== *)
(** * Sys: the clock, the id generator and the random source           *)
(* ================================================================== *)

Module Sys.

(** The environment of a run: the successive readings of [Date.now()]
    (milliseconds), the successive results of [nanoid(8)] and the
    successive draws of [Math.random()], each with its read counter. *)
Record Env : Type := MkEnv {
  clk : nat -> nat;
  clk_i : nat;
  nano : nat -> string;
  nano_i : nat;
  rnd : nat -> Q;
  rnd_i : nat
}.

Definition Date_now (e : Env) : nat * Env :=
  (clk e (clk_i e), MkEnv (clk e) (S (clk_i e)) (nano e) (nano_i e) (rnd e) (rnd_i e)).

Definition nanoid (e : Env) : string * Env :=
  (nano e (nano_i e), MkEnv (clk e) (clk_i e) (nano e) (S (nano_i e)) (rnd e) (rnd_i e)).

Definition Math_random (e : Env) : Q * Env :=
  (rnd e (rnd_i e), MkEnv (clk e) (clk_i e) (nano e) (nano_i e) (rnd e) (S (rnd_i e))).

End Sys.

(* ================================================================== *)
(** * Js: dynamically typed values, objects and JSON                   *)
(* ================================================================== *)

Module Js.
Import Text.

(** The values a slot content can hold.  The properties of an object are
    listed in the order JavaScript enumerates them. *)
Inductive JsValue : Type :=
| JUndef
| JNull
| JBool (b : bool)
| JNum (q : Q)
| JStr (s : string)
| JArr (l : list JsValue)
| JObj (props : list (string * JsValue)).

(** The value of a counter. *)
Definition JNat (n : nat) : JsValue := JNum (inject_Z (Z.of_nat n)).

(** ** Property order

    A key that is a canonical array index (the decimal text of an integer
    below 2^32 - 1) is enumerated before every other key, in ascending
    numeric order; the other keys follow in insertion order. *)

Fixpoint digits_value (l : list ascii) (acc : N) : option N :=
  match l with
  | [] => Some acc
  | c :: t => if is_digit c
              then digits_value t (acc * 10 + N.of_nat (code c - 48))%N
              else None
  end.

Definition index_of (k : string) : option N :=
  match chars k with
  | [] => None
  | c :: t =>
      if (code c =? 48) && negb (match t with [] => true | _ => false end) then None
      else if 10 <? List.length (c :: t) then None
      else match digits_value (c :: t) 0%N with
           | Some n => if (n <? 4294967295)%N then Some n else None
           | None => None
           end
  end.

Fixpoint obj_get (props : list (string * JsValue)) (k : string) : JsValue :=
  match props with
  | [] => JUndef
  | (k', v) :: t => if String.eqb k' k then v else obj_get t k
  end.

Fixpoint obj_has (A : Type) (props : list (string * A)) (k : string) : bool :=
  match props with
  | [] => false
  | (k', _) :: t => String.eqb k' k || obj_has t k
  end.

Fixpoint obj_replace (A : Type) (k : string) (v : A) (props : list (string * A))
  : list (string * A) :=
  match props with
  | [] => []
  | (k', v') :: t => if String.eqb k' k then (k', v) :: t
                     else (k', v') :: obj_replace k v t
  end.

Fixpoint obj_insert_index (A : Type) (n : N) (k : string) (v : A)
         (props : list (string * A)) : list (string * A) :=
  match props with
  | [] => [(k, v)]
  | (k', v') :: t =>
      match index_of k' with
      | Some n' => if (n' <? n)%N then (k', v') :: obj_insert_index n k v t
                   else (k, v) :: props
      | None => (k, v) :: props
      end
  end.

(** Defining the own property [k] of an object. *)
Definition obj_set (A : Type) (k : string) (v : A) (props : list (string * A))
  : list (string * A) :=
  if obj_has props k then obj_replace k v props
  else match index_of k with
       | Some n => obj_insert_index n k v props
       | None => props ++ [(k, v)]
       end.

(** [Object.fromEntries(map)] and [Object.entries(obj)]. *)
Definition Object_fromEntries (A : Type) (entries : list (string * A)) : list (string * A) :=
  fold_left (fun acc kv => obj_set (fst kv) (snd kv) acc) entries [].

Definition Object_entries (A : Type) (props : list (string * A)) : list (string * A) := props.

(** Reading a property: [v.k] is [undefined] when absent, and throws when
    [v] is [undefined] or [null]. *)
Definition prop (v : JsValue) (k : string) : option JsValue :=
  match v with
  | JUndef | JNull => None
  | JObj props => Some (obj_get props k)
  | _ => Some JUndef
  end.

(** Truthiness. *)
Definition truthy (v : JsValue) : bool :=
  match v with
  | JUndef | JNull => false
  | JBool b => b
  | JNum q => negb (Qeq_bool q 0)
  | JStr s => negb (String.eqb s "")
  | JArr _ | JObj _ => true
  end.

(** [String(v)] and template interpolation.  A number that is a counter
    prints in decimal; the engine never prints another number of a slot. *)
Fixpoint String_ (v : JsValue) : string :=
  match v with
  | JUndef => "undefined"
  | JNull => "null"
  | JBool true => "true"
  | JBool false => "false"
  | JNum q => of_nat (Z.to_nat (Qfloor q))
  | JStr s => s
  | JArr l => join "," (map (fun x => match x with
                                     | JUndef | JNull => ""
                                     | _ => String_ x
                                     end) l)
  | JObj _ => "[object Object]"
  end.

(** Typed views of a dynamic value, exact on the shapes the demons
    write under each tag. *)
Definition as_string (v : JsValue) : option string :=
  match v with JStr s => Some s | _ => None end.

Definition as_array (v : JsValue) : option (list JsValue) :=
  match v with JArr l => Some l | _ => None end.

Definition as_num (v : JsValue) : option Q :=
  match v with JNum q => Some q | _ => None end.

Definition as_nat (v : JsValue) : option nat :=
  match v with
  | JNum (Qmake z 1) => if (0 <=? z)%Z then Some (Z.to_nat z) else None
  | _ => None
  end.

Definition strings_of (l : list JsValue) : list string := map String_ l.

(** ** JSON

    [JsonDoc] is the syntax tree of a JSON text; the members of an object
    are in the order of the text.  [JSON_stringify] and [JSON_parse] are
    the conversions between values and texts, up to the concrete syntax. *)
Inductive JsonDoc : Type :=
| DNull
| DBool (b : bool)
| DNum (q : Q)
| DStr (s : string)
| DArr (l : list JsonDoc)
| DObj (members : list (string * JsonDoc)).

(** [JSON.stringify(v)]: [None] is the result [undefined]; an [undefined]
    property is left out and an [undefined] element becomes [null]. *)
Fixpoint JSON_stringify (v : JsValue) : option JsonDoc :=
  match v with
  | JUndef => None
  | JNull => Some DNull
  | JBool b => Some (DBool b)
  | JNum q => Some (DNum q)
  | JStr s => Some (DStr s)
  | JArr l =>
      Some (DArr ((fix elems (l : list JsValue) : list JsonDoc :=
                     match l with
                     | [] => []
                     | x :: t => match JSON_stringify x with
                                 | Some dx => dx
                                 | None => DNull
                                 end :: elems t
                     end) l))
  | JObj props =>
      Some (DObj ((fix members (ps : list (string * JsValue)) : list (string * JsonDoc) :=
                     match ps with
                     | [] => []
                     | (k, x) :: t => match JSON_stringify x with
                                      | Some dx => (k, dx) :: members t
                                      | None => members t
                                      end
                     end) props))
  end.

(** [JSON.parse(text)]: the members of an object are defined one after
    the other. *)
Fixpoint JSON_parse (doc : JsonDoc) : JsValue :=
  match doc with
  | DNull => JNull
  | DBool b => JBool b
  | DNum q => JNum q
  | DStr s => JStr s
  | DArr l => JArr (map JSON_parse l)
  | DObj ms =>
      JObj ((fix build (ms : list (string * JsonDoc)) (acc : list (string * JsValue))
               : list (string * JsValue) :=
               match ms with
               | [] => acc
               | (k, x) :: t => build t (obj_set k (JSON_parse x) acc)
               end) ms [])
  end.

(** The members [JSON_stringify] gives an object, the elements it gives
    an array, and the object [JSON_parse] builds from members. *)
Definition stringify_members (ps : list (string * JsValue)) : list (string * JsonDoc) :=
  flat_map (fun kv => match JSON_stringify (snd kv) with
                      | Some dx => [(fst kv, dx)]
                      | None => []
                      end) ps.

Definition stringify_elems (l : list JsValue) : list JsonDoc :=
  map (fun x => match JSON_stringify x with Some dx => dx | None => DNull end) l.

Definition parse_members (ms : list (string * JsonDoc)) (acc : list (string * JsValue))
  : list (string * JsValue) :=
  fold_left (fun acc kv => obj_set (fst kv) (JSON_parse (snd kv)) acc) ms acc.

(** The values a JSON text can denote: no [undefined] inside, and every
    object lists its properties the way defining them in turn does. *)
Fixpoint json_representable (v : JsValue) : Prop :=
  match v with
  | JUndef => False
  | JNull | JBool _ | JNum _ | JStr _ => True
  | JArr l =>
      (fix all (l : list JsValue) : Prop :=
         match l with
         | [] => True
         | x :: t => json_representable x /\ all t
         end) l
  | JObj props =>
      Object_fromEntries props = props /\
      (fix all (ps : list (string * JsValue)) : Prop :=
         match ps with
         | [] => True
         | (_, x) :: t => json_representable x /\ all t
         end) props
  end.

End Js.

(* ================================================================== *)
(** * Memory: working memory (memory/working-memory.ts)                *)
(* ================================================================== *)

Module Memory.
Import Text Js Sys.

(** A slot of working memory ([MemSlot] of core/types.ts). *)
Record MemSlot : Type := MkSlot {
  s_id : string;
  s_noun_id : option string;
  s_content : JsValue;
  s_tag : string;
  s_confidence : Q;
  s_source_demon : string;
  s_ttl : nat;
  s_created_at : nat
}.

(** What a demon hands to [writeSlot]: a slot without [created_at] and
    with an optional [id]. *)
Record SlotData : Type := MkData {
  d_id : option string;
  d_noun_id : option string;
  d_content : JsValue;
  d_tag : string;
  d_confidence : Q;
  d_source_demon : string;
  d_ttl : nat
}.

(** [WorkingMemory]: the slots (a [Map] keyed by id), the focus list and
    the global clock tick. *)
Record WorkingMemory : Type := MkMem {
  wm_slots : list (string * MemSlot);
  wm_focus : list string;
  wm_tick : nat
}.

(** ** The [Map] operations *)

Fixpoint map_get (A : Type) (m : list (string * A)) (k : string) : option A :=
  match m with
  | [] => None
  | (k', v) :: t => if String.eqb k' k then Some v else map_get t k
  end.

Definition map_has (A : Type) (m : list (string * A)) (k : string) : bool :=
  match map_get m k with Some _ => true | None => false end.

Fixpoint map_set (A : Type) (k : string) (v : A) (m : list (string * A))
  : list (string * A) :=
  match m with
  | [] => [(k, v)]
  | (k', v') :: t => if String.eqb k' k then (k', v) :: t
                     else (k', v') :: map_set k v t
  end.

Fixpoint map_delete (A : Type) (k : string) (m : list (string * A))
  : list (string * A) :=
  match m with
  | [] => []
  | (k', v') :: t => if String.eqb k' k then t else (k', v') :: map_delete k t
  end.

Definition map_values (A : Type) (m : list (string * A)) : list A := map snd m.

Definition size (mem : WorkingMemory) : nat := List.length (wm_slots mem).

Definition createWorkingMemory : WorkingMemory := MkMem [] [] 0.

(** Write a slot into working memory. Overwrites if same ID exists. *)
Definition writeSlot (mem : WorkingMemory) (slot : SlotData) (e : Env)
  : (WorkingMemory * MemSlot) * Env :=
  let '(i, e1) := match d_id slot with
                  | Some s => if String.eqb s "" then nanoid e else (s, e)
                  | None => nanoid e
                  end in
  let '(now, e2) := Date_now e1 in
  let full := MkSlot i (d_noun_id slot) (d_content slot) (d_tag slot)
                     (d_confidence slot) (d_source_demon slot) (d_ttl slot) now in
  ((MkMem (map_set i full (wm_slots mem)) (wm_focus mem) (wm_tick mem), full), e2).

(** Read a slot by ID. *)
Definition readSlot (mem : WorkingMemory) (id : string) : option MemSlot :=
  map_get (wm_slots mem) id.

(** Find all slots matching a tag. *)
Definition findByTag (mem : WorkingMemory) (tag : string) : list MemSlot :=
  filter (fun s => String.eqb (s_tag s) tag) (map_values (wm_slots mem)).

(** Find the most recent slot with a given tag. *)
Definition latestByTag (mem : WorkingMemory) (tag : string) : option MemSlot :=
  fold_left (fun latest slot =>
               if String.eqb (s_tag slot) tag then
                 match latest with
                 | None => Some slot
                 | Some l => if s_created_at l <? s_created_at slot then Some slot else latest
                 end
               else latest)
            (map_values (wm_slots mem)) None.

(** Evict a slot by ID. *)
Definition evictSlot (mem : WorkingMemory) (id : string) : WorkingMemory * bool :=
  (MkMem (map_delete id (wm_slots mem))
         (filter (fun f => negb (String.eqb f id)) (wm_focus mem))
         (wm_tick mem),
   map_has (wm_slots mem) id).

(** Set which slots are in focus (ordered by importance). *)
Definition setFocus (mem : WorkingMemory) (slotIds : list string) : WorkingMemory :=
  MkMem (wm_slots mem) (filter (map_has (wm_slots mem)) slotIds) (wm_tick mem).

(** Get the slots currently in focus. *)
Definition getFocused (mem : WorkingMemory) : list MemSlot :=
  flat_map (fun id => match map_get (wm_slots mem) id with
                      | Some s => [s]
                      | None => []
                      end) (wm_focus mem).

Definition decay (s : MemSlot) : MemSlot :=
  MkSlot (s_id s) (s_noun_id s) (s_content s) (s_tag s) (s_confidence s)
         (s_source_demon s) (s_ttl s - 1) (s_created_at s).

(** The loop of [tick] over the entries: a positive ttl is decremented,
    and the entry is deleted when it reaches zero. *)
Fixpoint tick_slots (l : list (string * MemSlot))
  : list (string * MemSlot) * list string :=
  match l with
  | [] => ([], [])
  | (id, slot) :: t =>
      let '(kept, evicted) := tick_slots t in
      if 0 <? s_ttl slot then
        if s_ttl (decay slot) <=? 0 then (kept, id :: evicted)
        else ((id, decay slot) :: kept, evicted)
      else ((id, slot) :: kept, evicted)
  end.

(** Advance the tick counter and decay TTLs. Evicts expired slots. *)
Definition tick (mem : WorkingMemory) : WorkingMemory * list string :=
  let '(kept, evicted) := tick_slots (wm_slots mem) in
  let focus := match evicted with
               | [] => wm_focus mem
               | _ :: _ => filter (fun id => negb (includes evicted id)) (wm_focus mem)
               end in
  (MkMem kept focus (S (wm_tick mem)), evicted).

(** The comparator of [enforceLimit]: unfocused first, then by
    confidence (low first), then by age (old first). *)
Definition focus_rank (focusSet : list string) (id : string) : nat :=
  if includes focusSet id then 1 else 0.

Definition limit_cmp (focusSet : list string) (a b : string * MemSlot) : comparison :=
  let aFocused := focus_rank focusSet (fst a) in
  let bFocused := focus_rank focusSet (fst b) in
  if negb (aFocused =? bFocused) then Nat.compare aFocused bFocused
  else if negb (Qeq_bool (s_confidence (snd a)) (s_confidence (snd b)))
       then Qcompare (s_confidence (snd a)) (s_confidence (snd b))
       else Nat.compare (s_created_at (snd a)) (s_created_at (snd b)).

(** The eviction loop of [enforceLimit]. *)
Fixpoint evict_loop (sorted : list (string * MemSlot)) (slots : list (string * MemSlot))
         (maxSlots : nat) (evicted : list string)
  : list (string * MemSlot) * list string :=
  match sorted with
  | [] => (slots, evicted)
  | (id, _) :: rest =>
      if maxSlots <? List.length slots
      then evict_loop rest (map_delete id slots) maxSlots (evicted ++ [id])
      else (slots, evicted)
  end.

(** Enforce max slots by evicting oldest, lowest-confidence, unfocused slots. *)
Definition enforceLimit (m : WorkingMemory) (maxSlots : nat) : WorkingMemory * list string :=
  if size m <=? maxSlots then (m, [])
  else
    let sorted := sort_by (limit_cmp (wm_focus m)) (wm_slots m) in
    let '(slots, evicted) := evict_loop sorted (wm_slots m) maxSlots [] in
    (MkMem slots (filter (fun id => negb (includes evicted id)) (wm_focus m)) (wm_tick m),
     evicted).

(** ** Serialization *)

(** A slot as the JavaScript object it is. *)
Definition slot_value (s : MemSlot) : JsValue :=
  JObj [("id", JStr (s_id s));
        ("noun_id", match s_noun_id s with Some n => JStr n | None => JUndef end);
        ("content", s_content s);
        ("tag", JStr (s_tag s));
        ("confidence", JNum (s_confidence s));
        ("source_demon", JStr (s_source_demon s));
        ("ttl", JNat (s_ttl s));
        ("created_at", JNat (s_created_at s))].

(** The typed reading of an object as a slot. *)
Definition slot_of_value (v : JsValue) : option MemSlot :=
  match v with
  | JObj ps =>
      match as_string (obj_get ps "id"),
            (match obj_get ps "noun_id" with
             | JUndef => Some None
             | JStr n => Some (Some n)
             | _ => None
             end),
            as_string (obj_get ps "tag"),
            as_num (obj_get ps "confidence"),
            as_string (obj_get ps "source_demon"),
            as_nat (obj_get ps "ttl"),
            as_nat (obj_get ps "created_at") with
      | Some i, Some n, Some t, Some c, Some d, Some l, Some a =>
          Some (MkSlot i n (obj_get ps "content") t c d l a)
      | _, _, _, _, _, _, _ => None
      end
  | _ => None
  end.

Definition memory_value (m : WorkingMemory) : JsValue :=
  JObj [("slots", JObj (Object_fromEntries
                          (map (fun kv => (fst kv, slot_value (snd kv))) (wm_slots m))));
        ("focus", JArr (map JStr (wm_focus m)));
        ("tick", JNat (wm_tick m))].

(** Serialize working memory to JSON for persistence/debug. *)
Definition serialize (m : WorkingMemory) : JsonDoc :=
  match JSON_stringify (memory_value m) with
  | Some doc => doc
  | None => DNull
  end.

Fixpoint all_some (A : Type) (l : list (option A)) : option (list A) :=
  match l with
  | [] => Some []
  | Some x :: t => match all_some t with Some r => Some (x :: r) | None => None end
  | None :: _ => None
  end.

(** [new Map(entries)]. *)
Definition Map_of (A : Type) (entries : list (string * A)) : list (string * A) :=
  fold_left (fun acc kv => map_set (fst kv) (snd kv) acc) entries [].

(** Restore working memory from serialized JSON.  [None] when the text
    does not denote a working memory. *)
Definition deserialize (json : JsonDoc) : option WorkingMemory :=
  match JSON_parse json with
  | JObj data =>
      match obj_get data "slots", as_array (obj_get data "focus"), as_nat (obj_get data "tick") with
      | JObj slots, Some focus, Some t =>
          match all_some (map (fun kv => match slot_of_value (snd kv) with
                                         | Some s => Some (fst kv, s)
                                         | None => None
                                         end) (Object_entries slots)),
                all_some (map as_string focus) with
          | Some entries, Some f => Some (MkMem (Map_of entries) f t)
          | _, _ => None
          end
      | _, _, _ => None
      end
  | _ => None
  end.

End Memory.

(* ================================================================== *)
(** * Store: the noun-relation store (store/knowledge-graph.ts)        *)
(* ================================================================== *)

Module Store.
Import Text Js Sys.

Inductive NounType : Type :=
| Concept | Entity | Process | Property | Value | Context | Unknown.

Definition NounType_eqb (a b : NounType) : bool :=
  match a, b with
  | Concept, Concept | Entity, Entity | Process, Process | Property, Property
  | Value, Value | Context, Context | Unknown, Unknown => true
  | _, _ => false
  end.

(** The closed vocabulary of [RelationType]; a relation type travels as
    its text, in the tables and in slot contents. *)
Definition RelationType : Type := string.

Definition relation_types : list RelationType :=
  ["is_a"; "has"; "causes"; "part_of"; "used_for"; "opposes"; "requires";
   "produces"; "equals"; "greater_than"; "less_than"; "contains"; "precedes";
   "follows"; "relates_to"; "example_of"; "defined_as"].

(** A node in the knowledge graph. *)
Record Noun : Type := MkNoun {
  n_id : string;
  n_label : string;
  n_type : NounType;
  n_properties : JsValue;
  n_created_at : nat
}.

(** A directed relation between two nouns. *)
Record Relation : Type := MkRelation {
  r_id : string;
  r_from_id : string;
  r_to_id : string;
  r_type : RelationType;
  r_weight : Q;
  r_context_id : option string;
  r_properties : JsValue;
  r_created_at : nat
}.

(** The rows of the two tables; [properties] is stored as JSON text. *)
Record NounRow : Type := MkNounRow {
  nr_id : string;
  nr_label : string;
  nr_type : NounType;
  nr_properties : JsonDoc;
  nr_created_at : nat
}.

Record RelationRow : Type := MkRelationRow {
  rr_id : string;
  rr_from_id : string;
  rr_to_id : string;
  rr_type : RelationType;
  rr_weight : Q;
  rr_context_id : option string;
  rr_properties : JsonDoc;
  rr_created_at : nat
}.

(** The database: both tables in rowid order. *)
Record Graph : Type := MkGraph {
  nouns : list NounRow;
  relations : list RelationRow
}.

Definition empty_graph : Graph := MkGraph [] [].

(** The state outside working memory. *)
Record World : Type := MkWorld {
  graph : Graph;
  env : Env
}.

(** ** Effects: state passing over the world, with exceptions *)

Definition Eff (A : Type) : Type := World -> option A * World.

Definition ret (A : Type) (x : A) : Eff A := fun w => (Some x, w).

Definition bind (A B : Type) (m : Eff A) (k : A -> Eff B) : Eff B :=
  fun w => match m w with
           | (Some x, w') => k x w'
           | (None, w') => (None, w')
           end.

Definition throw (A : Type) : Eff A := fun w => (None, w).

(** [try { m } catch { h }]. *)
Definition try_catch (A : Type) (m : Eff A) (h : Eff A) : Eff A :=
  fun w => match m w with
           | (Some x, w') => (Some x, w')
           | (None, w') => h w'
           end.

Definition read (A : Type) (f : Graph -> A) : Eff A := fun w => (Some (f (graph w)), w).

(** Reading the clock of the world. *)
Definition clock (w : World) : nat * World :=
  let '(t, e) := Sys.Date_now (env w) in (t, MkWorld (graph w) e).

Definition Date_now : Eff nat :=
  fun w => let '(t, w') := clock w in (Some t, w').

Definition nanoid : Eff string :=
  fun w => let '(i, e) := Sys.nanoid (env w) in (Some i, MkWorld (graph w) e).

Definition Math_random : Eff Q :=
  fun w => let '(q, e) := Sys.Math_random (env w) in (Some q, MkWorld (graph w) e).

Declare Scope eff_scope.
Delimit Scope eff_scope with eff.
Notation "x <- m ;; k" := (bind m (fun x => k))
  (at level 61, m at next level, right associativity) : eff_scope.
Notation "m ;;; k" := (bind m (fun _ => k))
  (at level 61, right associativity) : eff_scope.

Local Open Scope eff_scope.

(** [for (const x of l) body(x)]. *)
Fixpoint for_each (A : Type) (l : list A) (body : A -> Eff unit) : Eff unit :=
  match l with
  | [] => ret tt
  | x :: t => body x ;;; for_each t body
  end.

(** ** Rows and nouns *)

Definition stringify_props (v : JsValue) : JsonDoc :=
  match JSON_stringify v with Some doc => doc | None => DNull end.

Definition noun_of_row (r : NounRow) : Noun :=
  MkNoun (nr_id r) (nr_label r) (nr_type r) (JSON_parse (nr_properties r)) (nr_created_at r).

(** [INSERT INTO nouns]: the primary key rejects a second row with the
    same id. *)
Definition insert_noun (n : Noun) : Eff unit :=
  fun w =>
    if existsb (fun r => String.eqb (nr_id r) (n_id n)) (nouns (graph w)) then (None, w)
    else (Some tt,
          MkWorld (MkGraph (nouns (graph w) ++
                              [MkNounRow (n_id n) (n_label n) (n_type n)
                                         (stringify_props (n_properties n)) (n_created_at n)])
                           (relations (graph w)))
                  (env w)).

Definition noun_exists (g : Graph) (id : string) : bool :=
  existsb (fun r => String.eqb (nr_id r) id) (nouns g).

(** [INSERT INTO relations]: the primary key and the three foreign keys
    (foreign_keys = ON) are checked. *)
Definition insert_relation (r : Relation) : Eff unit :=
  fun w =>
    let g := graph w in
    if existsb (fun x => String.eqb (rr_id x) (r_id r)) (relations g)
       || negb (noun_exists g (r_from_id r))
       || negb (noun_exists g (r_to_id r))
       || match r_context_id r with
          | Some c => if String.eqb c "" then false else negb (noun_exists g c)
          | None => false
          end
    then (None, w)
    else (Some tt,
          MkWorld (MkGraph (nouns g)
                           (relations g ++
                              [MkRelationRow (r_id r) (r_from_id r) (r_to_id r) (r_type r)
                                 (r_weight r)
                                 (match r_context_id r with
                                  | Some c => if String.eqb c "" then None else Some c
                                  | None => None
                                  end)
                                 (stringify_props (r_properties r)) (r_created_at r)]))
                  (env w)).

(** ** Noun operations *)

Definition createNoun (label : string) (type : NounType) (properties : JsValue) : Eff Noun :=
  id <- nanoid ;;
  now <- Date_now ;;
  let noun := MkNoun id (trim (toLowerCase label)) type properties now in
  insert_noun noun ;;;
  ret noun.

Definition find_noun (g : Graph) (label : string) : option Noun :=
  match find (fun r => String.eqb (nr_label r) (trim (toLowerCase label))) (nouns g) with
  | Some row => Some (noun_of_row row)
  | None => None
  end.

Definition findNoun (label : string) : Eff (option Noun) :=
  read (fun g => find_noun g label).

(** The [LIKE] operator of SQLite: [%] stands for any text, [_] for any
    character, and letters compare without case. *)
Fixpoint like (p : list ascii) : list ascii -> bool :=
  match p with
  | [] => fun s => match s with [] => true | _ :: _ => false end
  | c :: p' =>
      if Ascii.eqb c "%"%char then
        fix any (s : list ascii) : bool :=
          like p' s || match s with [] => false | _ :: s' => any s' end
      else
        fun s => match s with
                 | [] => false
                 | x :: s' =>
                     (Ascii.eqb c "_"%char || Ascii.eqb (lower_char c) (lower_char x))
                     && like p' s'
                 end
  end.

Definition search_nouns (g : Graph) (query : string) (limit : nat) : list Noun :=
  let pattern := chars ("%" ++ trim (toLowerCase query) ++ "%") in
  let rows := filter (fun r => like pattern (chars (nr_label r))) (nouns g) in
  let ordered := sort_by (fun a b => Nat.compare (nr_created_at b) (nr_created_at a)) rows in
  map noun_of_row (firstn limit ordered).

Definition searchNouns (query : string) (limit : nat) : Eff (list Noun) :=
  read (fun g => search_nouns g query limit).

(** Get or create a noun. Returns existing if label matches. *)
Definition ensureNoun (label : string) (type : NounType) (properties : JsValue) : Eff Noun :=
  existing <- findNoun label ;;
  match existing with
  | Some n => ret n
  | None => createNoun label type properties
  end.

(** ** Relation operations *)

Definition createRelation (fromId toId : string) (type : RelationType) (weight : Q)
           (contextId : option string) (properties : JsValue) : Eff Relation :=
  id <- nanoid ;;
  now <- Date_now ;;
  let rel := MkRelation id fromId toId type weight contextId properties now in
  insert_relation rel ;;;
  ret rel.

(** Link two nouns by label. Creates nouns if they don't exist. *)
Definition link (fromLabel : string) (relType : RelationType) (toLabel : string)
           (weight : Q) (contextLabel : option string)
  : Eff (Noun * Noun * Relation) :=
  from <- ensureNoun fromLabel Unknown (JObj []) ;;
  to <- ensureNoun toLabel Unknown (JObj []) ;;
  ctx <- match contextLabel with
         | Some c => if String.eqb c "" then ret None
                     else (n <- ensureNoun c Context (JObj []) ;; ret (Some n))
         | None => ret None
         end ;;
  relation <- createRelation (n_id from) (n_id to) relType weight
                             (option_map n_id ctx) (JObj []) ;;
  ret (from, to, relation).

Definition relation_of_row (r : RelationRow) : Relation :=
  MkRelation (rr_id r) (rr_from_id r) (rr_to_id r) (rr_type r) (rr_weight r)
             (rr_context_id r) (JSON_parse (rr_properties r)) (rr_created_at r).

(** The noun a joined row carries: its [created_at] is the relation's,
    which is the column the row exposes under that name. *)
Definition joined_noun (r : RelationRow) (n : NounRow) : Noun :=
  MkNoun (nr_id n) (nr_label n) (nr_type n) (JSON_parse (nr_properties n)) (rr_created_at r).

Definition type_filter (type : option RelationType) (r : RelationRow) : bool :=
  match type with
  | Some t => if String.eqb t "" then true else String.eqb (rr_type r) t
  | None => true
  end.

(** Get all relations FROM a noun: [relations JOIN nouns ON to_id]. *)
Definition relations_from (g : Graph) (nounId : string) (type : option RelationType)
  : list (Relation * Noun) :=
  flat_map (fun r =>
              if String.eqb (rr_from_id r) nounId && type_filter type r then
                map (fun n => (relation_of_row r, joined_noun r n))
                    (filter (fun n => String.eqb (nr_id n) (rr_to_id r)) (nouns g))
              else [])
           (relations g).

Definition relationsFrom (nounId : string) (type : option RelationType)
  : Eff (list (Relation * Noun)) :=
  read (fun g => relations_from g nounId type).

(** Get all relations TO a noun: [relations JOIN nouns ON from_id]. *)
Definition relations_to (g : Graph) (nounId : string) (type : option RelationType)
  : list (Relation * Noun) :=
  flat_map (fun r =>
              if String.eqb (rr_to_id r) nounId && type_filter type r then
                map (fun n => (relation_of_row r, joined_noun r n))
                    (filter (fun n => String.eqb (nr_id n) (rr_from_id r)) (nouns g))
              else [])
           (relations g).

Definition relationsTo (nounId : string) (type : option RelationType)
  : Eff (list (Relation * Noun)) :=
  read (fun g => relations_to g nounId type).

(** A pattern for querying the noun-relation store. *)
Record QueryPattern : Type := MkPattern {
  q_from_label : option string;
  q_from_type : option NounType;
  q_relation : option RelationType;
  q_to_label : option string;
  q_to_type : option NounType
}.

Definition label_filter (l : option string) (n : NounRow) : bool :=
  match l with
  | Some s => if String.eqb s "" then true
              else String.eqb (nr_label n) (trim (toLowerCase s))
  | None => true
  end.

Definition noun_type_filter (t : option NounType) (n : NounRow) : bool :=
  match t with
  | Some x => NounType_eqb (nr_type n) x
  | None => true
  end.

(** A result of [query]. *)
Record Triple : Type := MkTriple {
  t_from : Noun;
  t_relation : Relation;
  t_to : Noun
}.

(** Query the graph with a pattern. Returns matching relation paths,
    [ORDER BY r.weight DESC LIMIT 100]. *)
Definition query_graph (g : Graph) (pattern : QueryPattern) : list Triple :=
  let rows :=
    flat_map (fun r =>
      flat_map (fun fn =>
        flat_map (fun tn =>
          if String.eqb (rr_from_id r) (nr_id fn) && String.eqb (rr_to_id r) (nr_id tn)
             && label_filter (q_from_label pattern) fn
             && noun_type_filter (q_from_type pattern) fn
             && type_filter (q_relation pattern) r
             && label_filter (q_to_label pattern) tn
             && noun_type_filter (q_to_type pattern) tn
          then [(r, fn, tn)] else [])
        (nouns g))
      (nouns g))
    (relations g) in
  let ordered := sort_by (fun a b => Qcompare (rr_weight (fst (fst b)))
                                              (rr_weight (fst (fst a)))) rows in
  map (fun x => let '(r, fn, tn) := x in
                MkTriple (joined_noun r fn) (relation_of_row r) (joined_noun r tn))
      (firstn 100 ordered).

Definition query (pattern : QueryPattern) : Eff (list Triple) :=
  read (fun g => query_graph g pattern).

(** Get stats about the knowledge graph. *)
Fixpoint count_types (rows : list RelationRow) (acc : list (string * nat))
  : list (string * nat) :=
  match rows with
  | [] => acc
  | r :: t =>
      count_types t
        (obj_set (rr_type r)
                 (S (match find (fun kv => String.eqb (fst kv) (rr_type r)) acc with
                     | Some kv => snd kv
                     | None => 0
                     end)) acc)
  end.

Record GraphStats : Type := MkGraphStats {
  gs_nouns : nat;
  gs_relations : nat;
  gs_types : list (string * nat)
}.

Definition graphStats (g : Graph) : GraphStats :=
  MkGraphStats (List.length (nouns g)) (List.length (relations g))
               (count_types (relations g) []).

End Store.

(* ================================================================== *)
(** * Core: the types demons and hypervisor share (core/types.ts)      *)
(* ================================================================== *)

Module Core.
Import Js Memory Store.

Inductive DemonAction : Type :=
| respond (text : string)
| ask (question : string)
| store (noun : JsValue) (rels : JsValue)
| query_action (pattern : QueryPattern)
| log (message : string).

(** Output from a demon: memory mutations + optional actions. *)
Record DemonOutput : Type := MkOutput {
  o_write : list SlotData;
  o_evict : list string;
  o_focus : list string;
  o_actions : list DemonAction;
  o_chain : list string
}.

(** Input to a demon: the current working memory + optional trigger data. *)
Record DemonInput : Type := MkInput {
  i_memory : WorkingMemory;
  i_context : JsValue
}.

Inductive DemonTrigger : Type :=
| always
| tag_present (tag : string)
| tag_absent (tag : string)
| chain_from (from : string)
| new_input
| tick_interval (every : nat).

(** A seed demon.  [d_run] returns its output, or throws. *)
Record Demon : Type := MkDemon {
  dm_id : string;
  dm_name : string;
  dm_description : string;
  dm_triggers : list DemonTrigger;
  dm_run : DemonInput -> Eff DemonOutput
}.

(** Configuration for the hypervisor. *)
Record HypervisorConfig : Type := MkConfig {
  maxTicksPerTurn : nat;
  maxDemonsPerTick : nat;
  maxMemorySlots : nat;
  tickTimeoutMs : nat
}.

(** A record of what happened in one tick. *)
Record TickResult : Type := MkTick {
  t_tick : nat;
  t_demons_fired : list string;
  t_slots_written : list string;
  t_slots_evicted : list string;
  t_actions : list DemonAction;
  t_duration_ms : nat
}.

Definition no_output (chain : list string) : DemonOutput := MkOutput [] [] [] [] chain.

(** The content of a [relation], [context_fact] or [inferred_relation]
    slot ([RelContent] of demons/infer.ts). *)
Record RelContent : Type := MkRel {
  rc_from : string;
  rc_type : string;
  rc_to : string;
  rc_weight : Q
}.

Definition rel_props (r : RelContent) : list (string * JsValue) :=
  [("from", JStr (rc_from r)); ("type", JStr (rc_type r)); ("to", JStr (rc_to r));
   ("weight", JNum (rc_weight r))].

Definition rel_value (r : RelContent) : JsValue := JObj (rel_props r).

Definition field (v : JsValue) (k : string) : JsValue :=
  match prop v k with Some x => x | None => JUndef end.

Definition num_or_zero (v : JsValue) : Q :=
  match v with JNum q => q | _ => 0%Q end.

Definition Qlt_bool (a b : Q) : bool :=
  match Qcompare a b with Lt => true | _ => false end.

(** [slot.content as RelContent]. *)
Definition as_rel (v : JsValue) : RelContent :=
  MkRel (String_ (field v "from")) (String_ (field v "type")) (String_ (field v "to"))
        (num_or_zero (field v "weight")).

Definition slot (content : JsValue) (tag : string) (confidence : Q)
           (source_demon : string) (ttl : nat) : SlotData :=
  MkData None None content tag confidence source_demon ttl.

End Core.

(* ================================================================== *)
(** * Parse demon (demons/parse.ts)                                    *)
(* ================================================================== *)

Module Parse.
Import Text Regex Js Memory Store Core.

Definition stopWords : list string :=
  ["a"; "an"; "the"; "is"; "are"; "was"; "were"; "be"; "been"; "being";
   "have"; "has"; "had"; "do"; "does"; "did"; "will"; "would"; "could";
   "should"; "may"; "might"; "shall"; "can"; "need"; "dare"; "ought";
   "used"; "to"; "of"; "in"; "for"; "on"; "with"; "at"; "by"; "from";
   "as"; "into"; "through"; "during"; "before"; "after"; "above"; "below";
   "between"; "out"; "off"; "over"; "under"; "again"; "further"; "then";
   "once"; "here"; "there"; "when"; "where"; "why"; "how"; "all"; "each";
   "every"; "both"; "few"; "more"; "most"; "other"; "some"; "such"; "no";
   "nor"; "not"; "only"; "own"; "same"; "so"; "than"; "too"; "very";
   "just"; "because"; "but"; "and"; "or"; "if"; "while"; "that"; "this";
   "what"; "which"; "who"; "whom"; "these"; "those"; "i"; "me"; "my";
   "we"; "our"; "you"; "your"; "he"; "him"; "his"; "she"; "her"; "it";
   "its"; "they"; "them"; "their"; "about"; "up"; "it's"; "don't";
   "doesn't"; "didn't"; "won't"; "wouldn't"; "can't"; "cannot";
   "isn't"; "aren't"; "wasn't"; "weren't"].

(** The character class of the first [replace]: the thirteen marks
    ? ! . , ; : ' ( ) [ ] { } and the double quote. *)
Definition punctuation : re := oneof ("?!.,;:'()[]{}" ++ dq).

(** The loop that groups consecutive non-stop words into phrases. *)
Fixpoint group_phrases (ws : list string) (current : list string) : list string :=
  match ws with
  | [] => match current with
          | [] => []
          | _ :: _ => [join " " (rev current)]
          end
  | word :: t =>
      if includes stopWords word || (String.length word <=? 1) then
        match current with
        | [] => group_phrases t []
        | _ :: _ => join " " (rev current) :: group_phrases t []
        end
      else group_phrases t (word :: current)
  end.

(** Simple extraction of noun-like phrases from text. *)
Definition extractNounPhrases (text : string) : list string :=
  let cleaned := trim (replace_all ws1 " " (replace_all punctuation " " (toLowerCase text))) in
  let words := filter (fun w => (1 <? String.length w) && negb (includes stopWords w))
                      (split " " cleaned) in
  let phrases := group_phrases (split " " cleaned) [] in
  let atomic := filter (fun w => negb (existsb (fun p => String.eqb p w) phrases)) words in
  dedup (phrases ++ atomic).

(** Detect what kind of utterance this is. *)
Inductive IntentType : Type :=
| question | claim | request | greeting | confusion | correction | unknown_intent.

Definition intent_name (i : IntentType) : string :=
  match i with
  | question => "question"
  | claim => "claim"
  | request => "request"
  | greeting => "greeting"
  | confusion => "confusion"
  | correction => "correction"
  | unknown_intent => "unknown"
  end.

(** [/^(hi|hello|hey|good\s+(morning|afternoon|evening)|what'?s?\s+up|howdy|yo)\b/] *)
Definition greeting_re : re :=
  seqs [Bol;
        Cap 1 (alts [lit "hi"; lit "hello"; lit "hey";
                     seqs [lit "good"; ws1; Cap 2 (lits ["morning"; "afternoon"; "evening"])];
                     seqs [lit "what"; Opt (Chr "'"); Opt (Chr "s"); ws1; lit "up"];
                     lit "howdy"; lit "yo"]);
        WordB].

(** [/^(what|why|how|when|where|who|which|can|could|would|is|are|do|does|did|will)\b/] *)
Definition question_re : re :=
  seqs [Bol;
        Cap 1 (lits ["what"; "why"; "how"; "when"; "where"; "who"; "which"; "can";
                     "could"; "would"; "is"; "are"; "do"; "does"; "did"; "will"]);
        WordB].

(** [/^(i\s+don'?t\s+(understand|get|know)|confused|what\s+do\s+you\s+mean|huh|i'?m\s+lost)/i] *)
Definition confusion_re : re :=
  seqs [Bol;
        Cap 1 (alts [seqs [lit "i"; ws1; lit "don"; Opt (Chr "'"); lit "t"; ws1;
                           Cap 2 (lits ["understand"; "get"; "know"])];
                     lit "confused";
                     seqs [lit "what"; ws1; lit "do"; ws1; lit "you"; ws1; lit "mean"];
                     lit "huh";
                     seqs [lit "i"; Opt (Chr "'"); lit "m"; ws1; lit "lost"]])].

(** [/^(no|that'?s?\s+(not|wrong)|actually|wait|incorrect|i\s+meant)/i] *)
Definition correction_re : re :=
  seqs [Bol;
        Cap 1 (alts [lit "no";
                     seqs [lit "that"; Opt (Chr "'"); Opt (Chr "s"); ws1;
                           Cap 2 (lits ["not"; "wrong"])];
                     lit "actually"; lit "wait"; lit "incorrect";
                     seqs [lit "i"; ws1; lit "meant"]])].

(** [/^(explain|tell|show|teach|help|give|describe|define|solve|calculate)/i] *)
Definition request_re : re :=
  seqs [Bol;
        Cap 1 (lits ["explain"; "tell"; "show"; "teach"; "help"; "give"; "describe";
                     "define"; "solve"; "calculate"])].

Definition detectIntent (text : string) : IntentType :=
  let lower := trim (toLowerCase text) in
  if test false greeting_re lower then greeting
  else if test false question_re lower || endsWith lower "?" then question
  else if test true confusion_re lower then confusion
  else if test true correction_re lower then correction
  else if test true request_re lower then request
  else if 2 <? List.length (split " " lower) then claim
  else unknown_intent.

(** Detect subject domain from text: the table of patterns, in order. *)
Definition subjects : list (string * list re) :=
  [("mathematics",
    [lits ["math"; "algebra"; "calcul"; "equation"; "formula"; "geometr"; "trigonometr";
           "number"; "fraction"; "decimal"; "percent"; "variable"; "polynomial";
           "function"; "graph"; "slope"; "integral"; "derivat"; "matrix"; "vector";
           "probability"; "statistic"]]);
   ("physics",
    [lits ["physics"; "force"; "motion"; "energy"; "velocity"; "accelerat"; "gravity";
           "mass"; "momentum"; "wave"; "electric"; "magnet"; "quantum"; "relativity";
           "thermodynamic"; "pressure"; "friction"]]);
   ("chemistry",
    [alts [lit "chemistry"; lit "chemical"; lit "atom"; lit "molecule"; lit "element";
           lit "compound"; lit "reaction"; lit "bond"; lit "ion"; lit "acid"; lit "base";
           lit "solution"; seqs [lit "periodic"; ws1; lit "table"]; lit "electron";
           lit "proton"; lit "neutron"; lit "molar"]]);
   ("biology",
    [lits ["biology"; "cell"; "organism"; "evolution"; "dna"; "gene"; "protein";
           "ecosystem"; "species"; "photosynthesis"; "mitosis"; "meiosis"; "organ";
           "tissue"; "bacteria"; "virus"]]);
   ("history",
    [lits ["history"; "war"; "revolution"; "empire"; "dynasty"; "century"; "ancient";
           "medieval"; "colonial"; "civilization"; "democracy"; "monarch"; "president";
           "treaty"; "battle"]]);
   ("language",
    [lits ["grammar"; "verb"; "noun"; "adjective"; "sentence"; "paragraph"; "essay";
           "writing"; "read"; "literature"; "poetry"; "vocabulary"; "synonym"; "antonym";
           "metaphor"; "simile"]]);
   ("computer_science",
    [alts [lit "code"; lit "program"; lit "algorithm";
           seqs [lit "data"; ws0; lit "structure"]; lit "software"; lit "hardware";
           lit "computer"; lit "function"; lit "variable"; lit "loop"; lit "array";
           lit "class"; lit "object"; lit "database"; lit "web"; lit "api"; lit "python";
           lit "javascript"; lit "html"; lit "css"]]);
   ("geography",
    [lits ["geography"; "continent"; "country"; "ocean"; "river"; "mountain"; "climate";
           "population"; "capital"; "border"; "latitude"; "longitude"; "map"; "terrain";
           "region"]]);
   ("economics",
    [lits ["economics"; "market"; "supply"; "demand"; "price"; "inflation"; "gdp"; "trade";
           "currency"; "bank"; "invest"; "profit"; "cost"; "revenue"; "tax"; "budget"]])].

Definition detectSubject (text : string) : string :=
  let lower := toLowerCase text in
  match find (fun sp => existsb (fun pattern => test false pattern lower) (snd sp)) subjects with
  | Some sp => fst sp
  | None => "general"
  end.

(** [(.+?)] *)
Definition lazy_any (n : nat) : re := Cap n (Plus false dot).

(** [/what\s+(?:is|are)\s+(.+?)[\?]?$/] *)
Definition whatIs_re : re :=
  seqs [lit "what"; ws1; lits ["is"; "are"]; ws1; lazy_any 1; Opt (oneof "?"); Eol].

(** [/how\s+(?:does|do|did|can|could|would)\s+(.+?)(?:\s+work|\s+happen|\s+function)?[\?]?$/] *)
Definition howDoes_re : re :=
  seqs [lit "how"; ws1; lits ["does"; "do"; "did"; "can"; "could"; "would"]; ws1;
        lazy_any 1;
        Opt (alts [seqs [ws1; lit "work"]; seqs [ws1; lit "happen"]; seqs [ws1; lit "function"]]);
        Opt (oneof "?"); Eol].

(** [/why\s+(?:does|do|did|is|are|was|were)\s+(.+?)[\?]?$/] *)
Definition why_re : re :=
  seqs [lit "why"; ws1; lits ["does"; "do"; "did"; "is"; "are"; "was"; "were"]; ws1;
        lazy_any 1; Opt (oneof "?"); Eol].

(** [/(?:explain|describe|define|tell\s+me\s+about)\s+(.+?)[\?.]?$/] *)
Definition explain_re : re :=
  seqs [alts [lit "explain"; lit "describe"; lit "define";
              seqs [lit "tell"; ws1; lit "me"; ws1; lit "about"]];
        ws1; lazy_any 1; Opt (oneof "?."); Eol].

(** Extract what specific question is being asked. *)
Definition extractQuestionFocus (text : string) : string :=
  let lower := trim (toLowerCase text) in
  match exec false whatIs_re lower with
  | Some m => trim (group 1 m)
  | None =>
  match exec false howDoes_re lower with
  | Some m => trim (group 1 m)
  | None =>
  match exec false why_re lower with
  | Some m => trim (group 1 m)
  | None =>
  match exec false explain_re lower with
  | Some m => trim (group 1 m)
  | None => trim text
  end end end end.

Definition chain_of_intent (intent : IntentType) : list string :=
  match intent with
  | question | request => ["relate"; "infer"; "question"]
  | claim => ["relate"; "infer"; "decompose"]
  | confusion => ["decompose"; "analogize"; "question"]
  | correction => ["relate"; "infer"]
  | greeting => ["question"]
  | unknown_intent => ["relate"; "question"]
  end.

Definition run (input : DemonInput) : DemonOutput :=
  match latestByTag (i_memory input) "raw_input" with
  | None => no_output []
  | Some rawSlot =>
      let text := String_ (s_content rawSlot) in
      let intent := detectIntent text in
      let subject := detectSubject text in
      let nounPhrases := extractNounPhrases text in
      let questionFocus :=
        match intent with
        | question | request => Some (extractQuestionFocus text)
        | _ => None
        end in
      let slotsToWrite :=
        [slot (JStr (intent_name intent)) "intent" (8 # 10) "parse" 0;
         slot (JStr subject) "subject"
              (if String.eqb subject "general" then (3 # 10) else (7 # 10)) "parse" 0]
        ++ map (fun phrase => slot (JStr phrase) "noun_phrase" (6 # 10) "parse" 10) nounPhrases
        ++ match questionFocus with
           | Some f => if String.eqb f "" then []
                       else [slot (JStr f) "question_focus" (7 # 10) "parse" 0]
           | None => []
           end in
      MkOutput slotsToWrite [] []
               [log ("Parsed: intent=" ++ intent_name intent ++ ", subject=" ++ subject
                     ++ ", nouns=[" ++ join ", " nounPhrases ++ "]")]
               (chain_of_intent intent)
  end.

Definition parseDemon : Demon :=
  MkDemon "parse" "Parse"
          "Decomposes raw user input into structured concepts, intent, subject, and noun phrases."
          [new_input]
          (fun input => ret (run input)).

End Parse.

(* ================================================================== *)
(** * Relate demon (demons/relate.ts)                                  *)
(* ================================================================== *)

Module Relate.
Import Text Js Memory Store Core.

(** Phase 1: look up each noun in the knowledge graph. *)
Record Lookup : Type := MkLookup {
  foundNouns : list (string * Noun);
  missingNouns : list string;
  fuzzy : list SlotData
}.

Definition lookup_noun (g : Graph) (acc : Lookup) (label : string) : Lookup :=
  match find_noun g label with
  | Some found => MkLookup (map_set label found (foundNouns acc)) (missingNouns acc) (fuzzy acc)
  | None =>
      match search_nouns g label 3 with
      | first :: rest =>
          MkLookup (map_set label first (foundNouns acc)) (missingNouns acc)
                   (if String.eqb (n_label first) (trim (toLowerCase label)) then fuzzy acc
                    else fuzzy acc ++
                         [slot (JObj [("original", JStr label);
                                      ("matched", JStr (n_label first));
                                      ("alternatives",
                                       JArr (map (fun c => JStr (n_label c)) (first :: rest)))])
                               "fuzzy_match" (5 # 10) "relate" 5])
      | [] => MkLookup (foundNouns acc) (missingNouns acc ++ [label]) (fuzzy acc)
      end
  end.

(** Phase 2, for one found noun: the relations to the other found nouns. *)
Definition relations_between (g : Graph) (found : list (string * Noun))
           (entry : string * Noun) : list RelContent :=
  flat_map (fun rel =>
              flat_map (fun other =>
                          if String.eqb (r_to_id (fst rel)) (n_id (snd other))
                          then [MkRel (fst entry) (r_type (fst rel)) (fst other)
                                      (r_weight (fst rel))]
                          else [])
                       found)
           (relations_from g (n_id (snd entry)) None).

Definition hierarchy_slots (g : Graph) (entry : string * Noun) : list SlotData :=
  map (fun rel => slot (JObj [("noun", JStr (fst entry)); ("is_a", JStr (n_label (snd rel)))])
                       "hierarchy" (r_weight (fst rel)) "relate" 8)
      (relations_from g (n_id (snd entry)) (Some "is_a")).

(** Phase 5: context loading for the subject. *)
Definition context_slots (g : Graph) (m : WorkingMemory) : list SlotData :=
  match latestByTag m "subject" with
  | Some subjectSlot =>
      if String.eqb (String_ (s_content subjectSlot)) "general" then []
      else match find_noun g (String_ (s_content subjectSlot)) with
           | Some subjectNoun =>
               map (fun rel =>
                      slot (rel_value (MkRel (n_label subjectNoun) (r_type (fst rel))
                                             (n_label (snd rel)) (r_weight (fst rel))))
                           "context_fact" (r_weight (fst rel) * (7 # 10))%Q "relate" 6)
                   (firstn 10 (relations_from g (n_id subjectNoun) None))
           | None => []
           end
  | None => []
  end.

Definition run (g : Graph) (input : DemonInput) : DemonOutput :=
  let nouns := map (fun s => String_ (s_content s)) (findByTag (i_memory input) "noun_phrase") in
  match nouns with
  | [] => no_output []
  | _ :: _ =>
      let l := fold_left (lookup_noun g) nouns (MkLookup [] [] []) in
      let found := foundNouns l in
      let relationsFound := flat_map (relations_between g found) found in
      let write :=
        fuzzy l
        ++ flat_map (hierarchy_slots g) found
        ++ map (fun rel => slot (rel_value rel) "relation" (rc_weight rel) "relate" 8)
               relationsFound
        ++ match missingNouns l with
           | [] => []
           | _ :: _ => [slot (JArr (map JStr (missingNouns l))) "unknown_concepts"
                             (9 # 10) "relate" 5]
           end
        ++ context_slots g (i_memory input) in
      let actions :=
        match missingNouns l with
        | [] => []
        | _ :: _ => [log ("Unknown concepts: [" ++ join ", " (missingNouns l) ++ "]")]
        end
        ++ [log ("Relate: found=" ++ of_nat (List.length found)
                 ++ ", missing=" ++ of_nat (List.length (missingNouns l))
                 ++ ", relations=" ++ of_nat (List.length relationsFound))] in
      let chain :=
        (match relationsFound with [] => [] | _ :: _ => ["infer"] end)
        ++ (match missingNouns l with [] => [] | _ :: _ => ["question"] end)
        ++ (match found, relationsFound with
            | _ :: _, [] => ["analogize"]
            | _, _ => []
            end) in
      MkOutput write [] [] actions chain
  end.

Definition relateDemon : Demon :=
  MkDemon "relate" "Relate"
          "Queries knowledge graph for relations between concepts in working memory."
          [chain_from "parse"; tag_present "noun_phrase"]
          (fun input => read (fun g => run g input)).

End Relate.

(* ================================================================== *)
(** * Infer demon (demons/infer.ts)                                    *)
(* ================================================================== *)

Module Infer.
Import Text Js Memory Store Core.

(** The key under which an edge is remembered: [`${from}|${type}|${to}`]. *)
Definition rel_key (from type to : string) : string :=
  from ++ "|" ++ type ++ "|" ++ to.

Definition key_of (r : RelContent) : string := rel_key (rc_from r) (rc_type r) (rc_to r).

(** The state of an inference loop: the edges inferred so far and the
    set of keys already present. *)
Definition InferState : Type := (list RelContent * list string)%type.

(** The inner loop of [inferTransitive], for a fixed [r1]. *)
Definition transitive_step (r1 : RelContent) (st : InferState) (r2 : RelContent) : InferState :=
  if negb (String.eqb (rc_type r2) (rc_type r1)) then st
  else if negb (String.eqb (rc_from r2) (rc_to r1)) then st
  else if String.eqb (rc_to r2) (rc_from r1) then st
  else
    let key := rel_key (rc_from r1) (rc_type r1) (rc_to r2) in
    if includes (snd st) key then st
    else (fst st ++ [MkRel (rc_from r1) (rc_type r1) (rc_to r2)
                           (Qmin (rc_weight r1) (rc_weight r2) * (9 # 10))%Q],
          snd st ++ [key]).

(** Find transitive relations. If A→B and B→C (same type), infer A→C. *)
Definition inferTransitive (relations : list RelContent) (transitiveTypes : list string)
  : list RelContent :=
  fst (fold_left (fun st r1 =>
                    if includes transitiveTypes (rc_type r1)
                    then fold_left (transitive_step r1) relations st
                    else st)
                 relations ([], map key_of relations)).

Definition inheritance_step (isa : RelContent) (st : InferState) (p : RelContent) : InferState :=
  if negb (String.eqb (rc_from p) (rc_to isa)) then st
  else
    let key := rel_key (rc_from isa) (rc_type p) (rc_to p) in
    if includes (snd st) key then st
    else (fst st ++ [MkRel (rc_from isa) (rc_type p) (rc_to p)
                           (Qmin (rc_weight isa) (rc_weight p) * (85 # 100))%Q],
          snd st ++ [key]).

(** Inherit properties through is_a hierarchy. If A is_a B, and B has P, then A has P. *)
Definition inferInheritance (relations : list RelContent) : list RelContent :=
  let isAs := filter (fun r => String.eqb (rc_type r) "is_a") relations in
  let has := filter (fun r => String.eqb (rc_type r) "has" || String.eqb (rc_type r) "requires")
                    relations in
  fst (fold_left (fun st isa => fold_left (inheritance_step isa) has st)
                 isAs ([], map key_of relations)).

Record Contradiction : Type := MkContradiction {
  c_concept : string;
  c_claim1 : RelContent;
  c_claim2 : RelContent;
  c_reason : string
}.

(** The pairs [i < j] of the first loop of [detectContradictions]. *)
Fixpoint conflicting_equals (equals : list RelContent) : list Contradiction :=
  match equals with
  | [] => []
  | ei :: rest =>
      flat_map (fun ej =>
                  if String.eqb (rc_from ei) (rc_from ej) && negb (String.eqb (rc_to ei) (rc_to ej))
                  then [MkContradiction (rc_from ei) ei ej
                          (dq ++ rc_from ei ++ dq ++ " can't equal both " ++ dq ++ rc_to ei ++ dq
                           ++ " and " ++ dq ++ rc_to ej ++ dq)]
                  else [])
               rest
      ++ conflicting_equals rest
  end.

Definition opposed_equals (equals opposes : list RelContent) : list Contradiction :=
  flat_map (fun opp =>
    flat_map (fun eq =>
      if String.eqb (rc_to eq) (rc_from opp) || String.eqb (rc_to eq) (rc_to opp) then
        let other := if String.eqb (rc_to eq) (rc_from opp) then rc_to opp else rc_from opp in
        match find (fun e => String.eqb (rc_from e) (rc_from eq) && String.eqb (rc_to e) other)
                   equals with
        | Some otherEq =>
            [MkContradiction (rc_from eq) eq otherEq
               (dq ++ rc_from eq ++ dq ++ " can't equal both " ++ dq ++ rc_to eq ++ dq
                ++ " and " ++ dq ++ other ++ dq ++ " because they oppose each other")]
        | None => []
        end
      else [])
    equals)
  opposes.

(** Detect contradictions: same subject, contradictory relations. *)
Definition detectContradictions (relations : list RelContent) : list Contradiction :=
  let equals := filter (fun r => String.eqb (rc_type r) "equals") relations in
  let opposes := filter (fun r => String.eqb (rc_type r) "opposes") relations in
  conflicting_equals equals ++ opposed_equals equals opposes.

Record Assessment : Type := MkAssessment {
  a_supported : list RelContent;
  a_unsupported : list string;
  a_confidence : Q
}.

(** Build a confidence assessment of the student's claim. *)
Definition assessClaim (relations : list RelContent) (hierarchies : list (string * string))
  : Assessment :=
  let supported := filter (fun r => Qlt_bool (5 # 10) (rc_weight r)) relations in
  let allConcepts := dedup (map rc_from relations ++ map rc_to relations) in
  let knownConcepts :=
    dedup (map fst hierarchies
           ++ flat_map (fun r => [rc_from r; rc_to r])
                       (filter (fun r => Qlt_bool (3 # 10) (rc_weight r)) relations)) in
  let unsupported := filter (fun c => negb (includes knownConcepts c)) allConcepts in
  let confidence :=
    if 0 <? List.length allConcepts
    then (inject_Z (Z.of_nat (List.length supported))
          / inject_Z (Z.of_nat (Nat.max 1 (List.length allConcepts))))%Q
    else 0%Q in
  MkAssessment supported unsupported confidence.

Definition transitiveTypes : list string :=
  ["is_a"; "causes"; "requires"; "part_of"; "precedes"].

Definition inferred_slot (rule : string) (rel : RelContent) : SlotData :=
  slot (JObj (rel_props rel ++ [("inferred", JBool true); ("rule", JStr rule)]))
       "inferred_relation" (rc_weight rel) "infer" 6.

Definition contradiction_value (c : Contradiction) : JsValue :=
  JObj [("concept", JStr (c_concept c)); ("claim1", rel_value (c_claim1 c));
        ("claim2", rel_value (c_claim2 c)); ("reason", JStr (c_reason c))].

Definition assessment_value (a : Assessment) : JsValue :=
  JObj [("supported", JArr (map rel_value (a_supported a)));
        ("unsupported", JArr (map JStr (a_unsupported a)));
        ("confidence", JNum (a_confidence a))].

Definition run (input : DemonInput) : DemonOutput :=
  let m := i_memory input in
  let relations := map (fun s => as_rel (s_content s)) (findByTag m "relation")
                   ++ map (fun s => as_rel (s_content s)) (findByTag m "context_fact") in
  let hierarchies := map (fun s => (String_ (field (s_content s) "noun"),
                                    String_ (field (s_content s) "is_a")))
                         (findByTag m "hierarchy") in
  match relations with
  | [] => no_output ["question"]
  | _ :: _ =>
      let transitive := inferTransitive relations transitiveTypes in
      let inherited := inferInheritance relations in
      let contradictions := detectContradictions relations in
      let is_claim := match latestByTag m "intent" with
                      | Some intentSlot => String.eqb (String_ (s_content intentSlot)) "claim"
                      | None => false
                      end in
      let assessment := assessClaim relations hierarchies in
      let write :=
        map (inferred_slot "transitivity") transitive
        ++ map (inferred_slot "inheritance") inherited
        ++ map (fun c => slot (contradiction_value c) "contradiction" (9 # 10) "infer" 0)
               contradictions
        ++ (if is_claim
            then [slot (assessment_value assessment) "claim_assessment"
                       (a_confidence assessment) "infer" 0]
            else []) in
      let chain :=
        (match contradictions with [] => [] | _ :: _ => ["question"] end)
        ++ (if 0 <? List.length transitive + List.length inherited then ["decompose"] else [])
        ++ ["question"] in
      MkOutput write [] []
               [log ("Infer: transitive=" ++ of_nat (List.length transitive)
                     ++ ", inherited=" ++ of_nat (List.length inherited)
                     ++ ", contradictions=" ++ of_nat (List.length contradictions))]
               chain
  end.

Definition inferDemon : Demon :=
  MkDemon "infer" "Infer"
          "Derives new knowledge from existing relations via logical inference rules."
          [chain_from "relate"; tag_present "relation"]
          (fun input => ret (run input)).

End Infer.

(* ================================================================== *)
(** * Decompose demon (demons/decompose.ts)                            *)
(* ================================================================== *)

Module Decompose.
Import Text Js Memory Store Core.

Record GraphDecomp : Type := MkDecomp {
  parts : list (string * string);      (* label, relation *)
  prerequisites : list string;
  examples : list string
}.

(** Break a concept into its graph-based components. *)
Definition decomposeFromGraph (g : Graph) (conceptLabel : string) : GraphDecomp :=
  match find_noun g conceptLabel with
  | None => MkDecomp [] [] []
  | Some noun =>
      let rels := relations_from g (n_id noun) None in
      let typed t (rel : Relation * Noun) := String.eqb (r_type (fst rel)) t in
      let own_parts :=
        flat_map (fun rel => if typed "part_of" rel || typed "has" rel || typed "contains" rel
                             then [(n_label (snd rel), r_type (fst rel))] else []) rels in
      let prereqs := flat_map (fun rel => if typed "requires" rel then [n_label (snd rel)] else [])
                              rels in
      let own_examples :=
        flat_map (fun rel => if typed "example_of" rel then [n_label (snd rel)] else []) rels in
      let results := query_graph g (MkPattern None None (Some "part_of")
                                              (Some conceptLabel) None) in
      let exampleResults := query_graph g (MkPattern None None (Some "example_of")
                                                     (Some conceptLabel) None) in
      MkDecomp (own_parts ++ map (fun r => (n_label (t_from r), "component")) results)
               prereqs
               (own_examples ++ map (fun r => n_label (t_from r)) exampleResults)
  end.

(** Simple heuristic decomposition when the graph doesn't have enough. *)
Definition strategies : list (string * (list string * string)) :=
  [("mathematics",
    (["identify what is given (known values)";
      "identify what is asked for (unknown)";
      "determine which formula or method applies";
      "substitute known values";
      "solve step by step";
      "verify the answer makes sense"], "mathematical_problem_solving"));
   ("physics",
    (["identify the physical system and forces involved";
      "draw a diagram or model";
      "list known quantities with units";
      "identify the relevant physical laws";
      "set up equations";
      "solve and check units"], "physics_problem_solving"));
   ("biology",
    (["identify the biological system or process";
      "break into component structures";
      "understand the function of each component";
      "trace the flow of energy or information";
      "connect to larger systems"], "biological_analysis"));
   ("history",
    (["identify the time period and region";
      "understand the context and preceding events";
      "identify the key actors and their motivations";
      "trace the sequence of events";
      "analyze the consequences and lasting effects"], "historical_analysis"));
   ("language",
    (["identify the type of language task";
      "break down the sentence structure";
      "identify the parts of speech";
      "apply relevant grammar rules";
      "check for meaning and clarity"], "language_analysis"));
   ("computer_science",
    (["understand the problem requirements";
      "identify input and expected output";
      "choose an approach or algorithm";
      "break into smaller sub-problems";
      "implement step by step";
      "test with examples"], "computational_thinking"))].

Definition heuristicDecompose (concept subject : string) : list string * string :=
  match map_get strategies subject with
  | Some s => s
  | None => (["identify the key components of the concept";
              "understand how the components relate to each other";
              "find a simpler analogy or example";
              "build understanding from the simplest part up"], "general_decomposition")
  end.

(** Determine which prerequisite knowledge the student might be missing. *)
Definition identifyGaps (prereqs : list string) (knownConcepts : list string) : list string :=
  filter (fun p => negb (includes knownConcepts p)) prereqs.

Definition known_concepts (m : WorkingMemory) : list string :=
  flat_map (fun s =>
              if String.eqb (s_tag s) "noun_phrase" || String.eqb (s_tag s) "hierarchy" then
                match s_content s with
                | JStr c => [toLowerCase c]
                | JObj ps => if obj_has ps "noun" then [toLowerCase (String_ (obj_get ps "noun"))]
                             else []
                | _ => []
                end
              else [])
           (map_values (wm_slots m)).

Definition run (g : Graph) (input : DemonInput) : DemonOutput :=
  let m := i_memory input in
  let concept :=
    match latestByTag m "question_focus" with
    | Some focusSlot => String_ (s_content focusSlot)
    | None => match latestByTag m "noun_phrase" with
              | Some s => if truthy (s_content s) then String_ (s_content s) else ""
              | None => ""
              end
    end in
  let subject := match latestByTag m "subject" with
                 | Some s => String_ (s_content s)
                 | None => "general"
                 end in
  let intent := match latestByTag m "intent" with
                | Some s => String_ (s_content s)
                | None => "unknown"
                end in
  if String.eqb concept "" then no_output ["question"]
  else
    let graphDecomp := decomposeFromGraph g concept in
    let heuristic := heuristicDecompose concept subject in
    let gaps := identifyGaps (prerequisites graphDecomp) (known_concepts m) in
    let write :=
      (match parts graphDecomp with
       | [] => []
       | _ :: _ =>
           [slot (JObj [("concept", JStr concept);
                        ("parts", JArr (map (fun p => JObj [("label", JStr (fst p));
                                                            ("relation", JStr (snd p))])
                                            (parts graphDecomp)));
                        ("source", JStr "knowledge_graph")])
                 "decomposition" (8 # 10) "decompose" 0]
       end)
      ++ (match prerequisites graphDecomp with
          | [] => []
          | _ :: _ =>
              slot (JObj [("concept", JStr concept);
                          ("prerequisites", JArr (map JStr (prerequisites graphDecomp)));
                          ("gaps", JArr (map JStr gaps))])
                   "prerequisites" (7 # 10) "decompose" 0
              :: match gaps with
                 | [] => []
                 | _ :: _ => [slot (JArr (map JStr gaps)) "knowledge_gaps" (8 # 10) "decompose" 0]
                 end
          end)
      ++ (match examples graphDecomp with
          | [] => []
          | _ :: _ =>
              [slot (JObj [("concept", JStr concept);
                           ("examples", JArr (map JStr (examples graphDecomp)))])
                    "examples" (7 # 10) "decompose" 8]
          end)
      ++ [slot (JObj [("concept", JStr concept);
                      ("steps", JArr (map JStr (fst heuristic)));
                      ("approach", JStr (snd heuristic));
                      ("subject", JStr subject)])
               "solution_steps" (6 # 10) "decompose" 0]
      ++ (if String.eqb intent "confusion"
          then [slot (JObj [("simplify", JBool true);
                            ("original_concept", JStr concept);
                            ("strategy", JStr "break_into_smallest_parts")])
                     "simplification_needed" (9 # 10) "decompose" 0]
          else []) in
    MkOutput write [] []
             [log ("Decompose: parts=" ++ of_nat (List.length (parts graphDecomp))
                   ++ ", prereqs=" ++ of_nat (List.length (prerequisites graphDecomp))
                   ++ ", examples=" ++ of_nat (List.length (examples graphDecomp)))]
             ((if String.eqb intent "confusion" then ["analogize"] else []) ++ ["question"]).

Definition decomposeDemon : Demon :=
  MkDemon "decompose" "Decompose"
          "Breaks complex concepts into simpler parts, prerequisites, and steps."
          [chain_from "infer"; chain_from "parse"; tag_present "confusion"]
          (fun input => read (fun g => run g input)).

End Decompose.

(* ================================================================== *)
(** * Analogize demon (demons/analogize.ts)                            *)
(* ================================================================== *)

Module Analogize.
Import Text Js Memory Store Core.

(** A structural pattern: the set of relation types emanating from a concept. *)
Record RelationPattern : Type := MkRelPattern {
  p_noun : string;
  outgoing : list (string * list string);
  incoming : list (string * list string)
}.

Definition push_label (acc : list (string * list string)) (type label : string)
  : list (string * list string) :=
  map_set type (match map_get acc type with Some l => l | None => [] end ++ [label]) acc.

(** Extract the relation pattern of a noun from the knowledge graph. *)
Definition extractPattern (g : Graph) (nounLabel : string) : option RelationPattern :=
  match find_noun g nounLabel with
  | None => None
  | Some noun =>
      Some (MkRelPattern nounLabel
              (fold_left (fun acc rel => push_label acc (r_type (fst rel)) (n_label (snd rel)))
                         (relations_from g (n_id noun) None) [])
              (fold_left (fun acc rel => push_label acc (r_type (fst rel)) (n_label (snd rel)))
                         (relations_to g (n_id noun) None) []))
  end.

Definition ratio (a b : nat) : Q :=
  if 0 <? b then (inject_Z (Z.of_nat a) / inject_Z (Z.of_nat b))%Q else 0%Q.

(** Calculate structural similarity between two relation patterns. *)
Definition patternSimilarity (a b : RelationPattern) : Q :=
  let aOutTypes := map fst (outgoing a) in
  let bOutTypes := map fst (outgoing b) in
  let aInTypes := map fst (incoming a) in
  let bInTypes := map fst (incoming b) in
  let outUnion := dedup (aOutTypes ++ bOutTypes) in
  let outIntersect := dedup (filter (includes bOutTypes) aOutTypes) in
  let inUnion := dedup (aInTypes ++ bInTypes) in
  let inIntersect := dedup (filter (includes bInTypes) aInTypes) in
  let outSim := ratio (List.length outIntersect) (List.length outUnion) in
  let inSim := ratio (List.length inIntersect) (List.length inUnion) in
  (outSim * (6 # 10) + inSim * (4 # 10))%Q.

Record Analogy : Type := MkAnalogy {
  analog : string;
  similarity : Q;
  sharedTypes : list string;
  mapping : list (string * string * string * string)
}.

(** Find concepts that are structurally similar to the given concept. *)
Definition findAnalogies (g : Graph) (conceptLabel : string) (limit : nat) : list Analogy :=
  match extractPattern g conceptLabel with
  | None => []
  | Some pattern =>
      let candidates :=
        dedup (flat_map (fun relType =>
                           flat_map (fun r => if String.eqb (n_label (t_from r)) conceptLabel
                                              then [] else [n_label (t_from r)])
                                    (query_graph g (MkPattern None None (Some relType) None None)))
                        (map fst (outgoing pattern))) in
      let scored :=
        flat_map (fun candidateLabel =>
          match extractPattern g candidateLabel with
          | None => []
          | Some candidatePattern =>
              let sim := patternSimilarity pattern candidatePattern in
              if Qlt_bool sim (3 # 10) then []
              else
                let shared := filter (fun t => map_has (outgoing candidatePattern) t)
                                     (map fst (outgoing pattern)) in
                let mapping :=
                  flat_map (fun relType =>
                    match map_get (outgoing pattern) relType,
                          map_get (outgoing candidatePattern) relType with
                    | Some (s :: _), Some (a :: _) => [(relType, s, relType, a)]
                    | _, _ => []
                    end) shared in
                [MkAnalogy candidateLabel sim shared mapping]
          end) candidates in
      firstn limit (sort_by (fun a b => Qcompare (similarity b) (similarity a)) scored)
  end.

(** Common analogies that work across domains (hardcoded bootstrapping). *)
Definition COMMON_ANALOGIES : list (string * list (string * string)) :=
  [("electricity",
    [("water flow", "Electricity flows through wires like water flows through pipes. Voltage is like water pressure, current is like flow rate.")]);
   ("atom",
    [("solar system", "An atom is like a tiny solar system: the nucleus is the sun, and electrons orbit around it like planets.")]);
   ("cell",
    [("factory", "A cell is like a factory: it has a control center (nucleus), an energy plant (mitochondria), shipping department (Golgi body), and walls (cell membrane).")]);
   ("dna",
    [("blueprint", "DNA is like a blueprint for a building. It contains all the instructions needed to build and maintain a living thing.")]);
   ("variable",
    [("box", "A variable is like a labeled box. You can put different things inside it, but the label stays the same.")]);
   ("function",
    [("machine", "A function is like a machine: you put something in (input), the machine does something to it, and something comes out (output).")]);
   ("evolution",
    [("selective breeding",
      ("Evolution is like natural selective breeding. Instead of a farmer choosing which animals to breed, the environment "
       ++ dq ++ "chooses" ++ dq ++ " which organisms survive.")%string)]);
   ("gravity",
    [("magnet", "Gravity is like a magnet that pulls everything toward the center of a massive object. The bigger the object, the stronger the pull.")])].

(** The keys every object literal inherits: looking one of them up in
    [COMMON_ANALOGIES] yields a value that is not iterable, and the loop
    over it throws. *)
Definition inherited_keys : list string := ["constructor"; "__proto__"].

Definition common_slots (concept : string) : option (list SlotData) :=
  let conceptLower := toLowerCase concept in
  match map_get COMMON_ANALOGIES conceptLower with
  | Some common =>
      Some (map (fun analogy =>
                   slot (JObj [("concept", JStr concept);
                               ("analog", JStr (fst analogy));
                               ("explanation", JStr (snd analogy));
                               ("source", JStr "common_knowledge")])
                        "analogy" (85 # 100) "analogize" 0) common)
  | None => if includes inherited_keys conceptLower then None else Some []
  end.

Definition graph_slots (g : Graph) (concept : string) : list SlotData :=
  map (fun a =>
         slot (JObj [("concept", JStr concept);
                     ("analog", JStr (analog a));
                     ("similarity", JNum (similarity a));
                     ("sharedPatterns", JArr (map JStr (sharedTypes a)));
                     ("mapping",
                      JArr (map (fun x => let '(sr, st, ar, at_) := x in
                                          JObj [("sourceRel", JStr sr); ("sourceTarget", JStr st);
                                                ("analogRel", JStr ar); ("analogTarget", JStr at_)])
                                (mapping a)));
                     ("source", JStr "structural_analogy")])
              "analogy" (similarity a) "analogize" 0)
      (findAnalogies g concept 2).

(** The loop over the concepts; [None] when it throws. *)
Fixpoint analogy_slots (g : Graph) (concepts : list string) : option (list SlotData) :=
  match concepts with
  | [] => Some []
  | concept :: rest =>
      match common_slots concept with
      | None => None
      | Some common =>
          match analogy_slots g rest with
          | Some more => Some (common ++ graph_slots g concept ++ more)
          | None => None
          end
      end
  end.

Definition run (g : Graph) (input : DemonInput) : option DemonOutput :=
  let m := i_memory input in
  let concepts :=
    (match latestByTag m "question_focus" with
     | Some focusSlot => [String_ (s_content focusSlot)]
     | None => []
     end)
    ++ map (fun s => String_ (s_content s)) (findByTag m "noun_phrase") in
  match concepts with
  | [] => Some (no_output ["question"])
  | _ :: _ =>
      match analogy_slots g concepts with
      | None => None
      | Some write =>
          Some (MkOutput write [] []
                  [log ("Analogize: found " ++ of_nat (List.length write)
                        ++ " analogies for [" ++ join ", " concepts ++ "]")]
                  ["question"])
      end
  end.

Definition analogizeDemon : Demon :=
  MkDemon "analogize" "Analogize"
          "Finds structural analogies between concepts to aid understanding."
          [chain_from "decompose"; chain_from "relate"; tag_present "simplification_needed"]
          (fun input w => (run (graph w) input, w)).

End Analogize.

(* ================================================================== *)
(** * Question demon (demons/question.ts)                              *)
(* ================================================================== *)

Module Question.
Import Text Js Memory Store Core.

Local Open Scope eff_scope.
Local Open Scope string_scope.

(** The separator of [parts.join('\n\n')]. *)
Definition nl2 : string := String (ascii_of_nat 10) (String (ascii_of_nat 10) EmptyString).

(** Reading [v.length] and [v[i]]: exact on arrays; [None] is the
    TypeError that [undefined] and [null] raise. *)
Definition elems (v : JsValue) : option (list JsValue) :=
  match v with
  | JUndef | JNull => None
  | JArr l => Some l
  | JStr s => Some (map (fun c => JStr (String c EmptyString)) (chars s))
  | _ => Some []
  end.

Definition first (l : list JsValue) : JsValue := hd JUndef l.

Definition quoted (s : string) : string := dq ++ s ++ dq.

(** Sequencing of reads that may throw. *)
Definition and_then (A B : Type) (o : option A) (k : A -> option B) : option B :=
  match o with Some x => k x | None => None end.

Notation "x <~ o ;; k" := (and_then o (fun x => k))
  (at level 61, o at next level, right associativity).

Definition greetings : list string :=
  ["Hello! I'm here to help you learn. What would you like to explore today?";
   "Hi there! What topic are you curious about?";
   "Welcome! What would you like to understand better today?";
   "Hey! Ready to learn something new? What's on your mind?"].

(** [greetings[Math.floor(Math.random() * greetings.length)]]; an index
    outside the table gives [undefined], whose place the empty text
    takes. *)
Definition buildGreetingResponse (subject : string) : Eff string :=
  if negb (String.eqb subject "general") then
    ret ("Hello! I see you're interested in " ++ subject
         ++ ". What specifically would you like to explore?")
  else
    r <- Math_random ;;
    ret (nth (Z.to_nat (Qfloor (r * inject_Z (Z.of_nat (List.length greetings)))))
             greetings "").

Definition buildContradictionResponse (contradictions : list MemSlot) : option string :=
  first_ <~ match contradictions with
                 | c :: _ => Some (s_content c)
                 | [] => None
                 end ;;
  claim1 <~ prop first_ "claim1" ;;
  claim2 <~ prop first_ "claim2" ;;
  c1from <~ prop claim1 "from" ;;
  c1to <~ prop claim1 "to" ;;
  c2to <~ prop claim2 "to" ;;
  reason <~ prop first_ "reason" ;;
  Some ("Hmm, I notice something interesting. You mentioned that "
        ++ quoted (String_ c1from) ++ " relates to both " ++ quoted (String_ c1to)
        ++ " and " ++ quoted (String_ c2to) ++ ". But " ++ String_ reason
        ++ ". Can you think about which one is correct, and why?").

Definition analogy_part (analogies : list MemSlot) : option (list string) :=
  match analogies with
  | [] => Some []
  | a :: _ =>
      explanation <~ prop (s_content a) "explanation" ;;
      if truthy explanation then Some ["Think of it this way: " ++ String_ explanation]
      else
        Some ["It might help to think of " ++ quoted (String_ (field (s_content a) "concept"))
              ++ " as similar to " ++ quoted (String_ (field (s_content a) "analog")) ++ "."]
  end.

Definition buildConfusionResponse (focus : string) (analogies decompositions steps : list MemSlot)
  : option string :=
  fromAnalogy <~ analogy_part analogies ;;
  start <~
    match decompositions with
    | d :: _ =>
        ps <~ prop (s_content d) "parts" ;;
        parts <~ elems ps ;;
        match parts with
        | [] => Some []
        | p :: _ =>
            label <~ prop p "label" ;;
            Some ["Let's start with the simplest part: " ++ quoted (String_ label)
                  ++ ". What do you already know about it?"]
        end
    | [] =>
        if negb (String.eqb focus "")
        then Some ["Let's start from the very beginning. What do you already know about "
                   ++ focus ++ "?"]
        else Some []
    end ;;
  Some (join nl2 ("No worries — let's break this down step by step."
                  :: (fromAnalogy ++ start)%list)).

Definition buildClaimResponse (assessment : MemSlot) (relations inferred : list MemSlot)
  : option string :=
  let claim := s_content assessment in
  conf <~ prop claim "confidence" ;;
  uns <~ prop claim "unsupported" ;;
  unsupported <~ elems uns ;;
  let confidence := num_or_zero conf in
  let is_num := match conf with JNum _ => true | _ => false end in
  if is_num && Qlt_bool (7 # 10) confidence
     && match unsupported with [] => true | _ :: _ => false end then
    followUp <~
      match inferred with
      | i :: _ =>
          to <~ prop (s_content i) "to" ;;
          Some ("Now, if that's true, what does it tell us about " ++ String_ to ++ "?")
      | [] => Some "Good thinking! Can you explain *why* that is the case?"
      end ;;
    Some ("That's on the right track! " ++ followUp)
  else if is_num && Qlt_bool confidence (3 # 10) then
    match unsupported with
    | u :: _ =>
        Some ("I'm not sure about that. Let's check: what exactly do you mean by "
              ++ quoted (String_ u) ++ "? Can you explain it in your own words?")
    | [] =>
        Some "Let's slow down and think about this more carefully. What makes you think that? What evidence do you have?"
    end
  else
    match unsupported with
    | u :: _ =>
        Some ("You're partly right! But I'm curious about the part where you mention "
              ++ quoted (String_ u) ++ ". How does that connect to what we know?")
    | [] =>
        Some "Interesting! You're getting there. Can you think of a specific example that would support or challenge your idea?"
    end.

Definition buildFallbackResponse (focus subject : string) : string :=
  if negb (String.eqb focus "") then
    "Let's explore " ++ quoted focus
    ++ " together. What aspect of it interests you most? What do you already know about it?"
  else "I'd love to help you learn! What topic or question would you like to explore?".

(** The leading question for the first relation, keyed by its type. *)
Definition relation_prompt (type from to : string) : string :=
  if String.eqb type "causes" then
    "Think about what happens when " ++ quoted from
    ++ " occurs. What do you think the effect would be?"
  else if String.eqb type "is_a" then
    quoted from ++ " is a type of something larger. Can you guess what category it belongs to?"
  else if String.eqb type "has" || String.eqb type "contains" then
    quoted from ++ " is made up of different parts. What components do you think it has?"
  else if String.eqb type "requires" then
    "To understand " ++ quoted from
    ++ ", we need to first understand something else. What do you think that prerequisite might be?"
  else if String.eqb type "opposes" then
    quoted from ++ " has an opposite. What do you think that opposite is, and why?"
  else
    "Let's think about how " ++ quoted from ++ " and " ++ quoted to
    ++ " are connected. What relationship do you see between them?".

Fixpoint labels_of (parts : list JsValue) : option (list string) :=
  match parts with
  | [] => Some []
  | p :: t =>
      label <~ prop p "label" ;;
      rest <~ labels_of t ;;
      Some (quoted (String_ label) :: rest)
  end.

Definition buildQuestionResponse (focus subject : string)
           (relations inferred decompositions prerequisites knowledgeGaps analogies
            examples steps : list MemSlot) (unknownConcepts : option MemSlot)
  : option string :=
  gapsFirst <~
    match knowledgeGaps with
    | k :: _ =>
        gaps <~ elems (s_content k) ;;
        match gaps with
        | gap :: _ =>
            Some (Some ("Before we tackle " ++ quoted focus
                        ++ ", let's make sure we have the foundation. What do you know about "
                        ++ quoted (String_ gap) ++ "?"))
        | [] => Some None
        end
    | [] => Some None
    end ;;
  match gapsFirst with
  | Some text => Some text
  | None =>
    introduce <~
      match unknownConcepts with
      | Some u =>
          unknown_ <~ elems (s_content u) ;;
          if (0 <? List.length unknown_)%nat
             && existsb (fun x => match x with JStr s => String.eqb s focus | _ => false end)
                        unknown_ then
            fromAnalogy <~
              match analogies with
              | a :: _ =>
                  explanation <~ prop (s_content a) "explanation" ;;
                  Some (if truthy explanation then [String_ explanation] else [])
              | [] => Some []
              end ;;
            fromSteps <~
              match steps with
              | s :: _ =>
                  st <~ prop (s_content s) "steps" ;;
                  sts <~ elems st ;;
                  Some ["Let's start by " ++ String_ (first sts)
                        ++ ". What can you tell me about that?"]
              | [] =>
                  Some ["Let's start simple: have you encountered this idea before, even in a different context?"]
              end ;;
            Some (Some (join nl2 (("That's a great question! " ++ quoted focus
                                   ++ " is something we can explore together.")
                                  :: (fromAnalogy ++ fromSteps)%list)))
          else Some None
      | None => Some None
      end ;;
    match introduce with
    | Some text => Some text
    | None =>
      parts <~
        match relations with
        | r :: _ =>
            let rel := s_content r in
            type <~ prop rel "type" ;;
            let prompt := relation_prompt (String_ type) (String_ (field rel "from"))
                                          (String_ (field rel "to")) in
            hint <~
              match decompositions with
              | d :: _ =>
                  ps <~ prop (s_content d) "parts" ;;
                  ds <~ elems ps ;;
                  if (1 <? List.length ds)%nat then
                    labels <~ labels_of ds ;;
                    Some ["Hint: think about the different parts involved. There's "
                          ++ join ", " (firstn 3 labels) ++ ", among others."]
                  else Some []
              | [] => Some []
              end ;;
            Some (prompt :: hint)
        | [] =>
            match analogies with
            | a :: _ =>
                explanation <~ prop (s_content a) "explanation" ;;
                if truthy explanation
                then Some [String_ explanation;
                           "With that analogy in mind, what would you guess about "
                           ++ quoted focus ++ "?"]
                else Some []
            | [] =>
                match examples with
                | e :: _ =>
                    ex <~ prop (s_content e) "examples" ;;
                    exs <~ elems ex ;;
                    Some ["Let's think about some examples. Consider "
                          ++ quoted (String_ (first exs))
                          ++ ". How does that relate to the bigger idea of "
                          ++ quoted focus ++ "?"]
                | [] =>
                    Some ["That's a really interesting question about " ++ quoted focus ++ "!";
                          "Let's think about it together. What's your intuition? Even a guess is a good starting point."]
                end
            end
        end ;;
      match parts with
      | [] => Some (buildFallbackResponse focus subject)
      | _ :: _ => Some (join nl2 parts)
      end
    end
  end.

Definition buildCorrectionResponse (focus : string) (relations : list MemSlot) : string :=
  "I appreciate the correction! Let's reconsider. What specifically about " ++ quoted focus
  ++ " did I get wrong? Help me understand your reasoning.".

Definition lift (A : Type) (o : option A) : Eff A :=
  match o with Some x => ret x | None => @throw A end.

(** Build a Socratic response based on everything in working memory. *)
Definition buildResponse (input : DemonInput) : Eff string :=
  let m := i_memory input in
  let text_of (o : option MemSlot) (default : string) :=
    match o with Some s => String_ (s_content s) | None => default end in
  let intentStr := text_of (latestByTag m "intent") "unknown" in
  let subjectStr := text_of (latestByTag m "subject") "general" in
  let focusStr := text_of (latestByTag m "question_focus") "" in
  let relations := findByTag m "relation" in
  let inferred := findByTag m "inferred_relation" in
  let contradictions := findByTag m "contradiction" in
  let decompositions := findByTag m "decomposition" in
  let analogies := findByTag m "analogy" in
  let steps := findByTag m "solution_steps" in
  if String.eqb intentStr "greeting" then buildGreetingResponse subjectStr
  else if (0 <? List.length contradictions)%nat then lift (buildContradictionResponse contradictions)
  else if String.eqb intentStr "confusion"
          || match latestByTag m "simplification_needed" with Some _ => true | None => false end
       then lift (buildConfusionResponse focusStr analogies decompositions steps)
  else
    match (if String.eqb intentStr "claim" then latestByTag m "claim_assessment" else None) with
    | Some claimAssessment => lift (buildClaimResponse claimAssessment relations inferred)
    | None =>
        if String.eqb intentStr "question" || String.eqb intentStr "request" then
          lift (buildQuestionResponse focusStr subjectStr relations inferred decompositions
                  (findByTag m "prerequisites") (findByTag m "knowledge_gaps") analogies
                  (findByTag m "examples") steps (latestByTag m "unknown_concepts"))
        else if String.eqb intentStr "correction"
        then ret (buildCorrectionResponse focusStr relations)
        else ret (buildFallbackResponse focusStr subjectStr)
    end.

Definition run (input : DemonInput) : Eff DemonOutput :=
  response <- buildResponse input ;;
  ret (MkOutput [slot (JStr response) "response" (8 # 10) "question" 20] [] []
                [respond response] []).

Definition questionDemon : Demon :=
  MkDemon "question" "Question"
          "Generates Socratic responses based on everything in working memory."
          [chain_from "infer"; chain_from "decompose"; chain_from "analogize";
           chain_from "relate"; chain_from "parse"]
          run.

End Question.

(* ================================================================== *)
(** * Learn demon (demons/learn.ts)                                    *)
(* ================================================================== *)

Module Learn.
Import Text Regex Js Memory Store Core.

Local Open Scope eff_scope.

(** [/^\d+(\.\d+)?(%|°|m\/s|kg|cm|mm|km|g|mg|L|mL)?$/] *)
Definition number_re : re :=
  seqs [Bol; Plus true d;
        Opt (Cap 1 (seqs [Chr "."; Plus true d]));
        Opt (Cap 2 (alts [lit "%"; Chr (ascii_of_nat 176); lit "m/s"; lit "kg"; lit "cm";
                          lit "mm"; lit "km"; lit "g"; lit "mg"; lit "L"; lit "mL"]));
        Eol].

(** [/^(true|false|yes|no)$/] *)
Definition boolean_re : re :=
  seqs [Bol; Cap 1 (lits ["true"; "false"; "yes"; "no"]); Eol].

(** [/ing$|tion$|sis$|ment$/] *)
Definition process_re : re :=
  alts [seqs [lit "ing"; Eol]; seqs [lit "tion"; Eol]; seqs [lit "sis"; Eol];
        seqs [lit "ment"; Eol]].

(** [/ness$|ity$|ful$|ous$|ive$|able$/] *)
Definition property_re : re :=
  alts [seqs [lit "ness"; Eol]; seqs [lit "ity"; Eol]; seqs [lit "ful"; Eol];
        seqs [lit "ous"; Eol]; seqs [lit "ive"; Eol]; seqs [lit "able"; Eol]].

(** Determine noun type from context. *)
Definition inferNounType (label subject : string) : NounType :=
  let lower := toLowerCase label in
  if test false number_re lower then Value
  else if test false boolean_re lower then Value
  else if test false process_re lower then Process
  else if test false property_re lower then Property
  else if includes ["mathematics"; "physics"; "chemistry"; "biology"; "history"; "language";
                    "computer_science"; "geography"; "economics"] lower then Context
  else Concept.

(** [(\w[\w\s]*?)] as the [n]-th group, and the tail [(?:\.|,|$)]. *)
Definition phrase (n : nat) : re :=
  Cap n (seqs [w; Star false (Cls (fun c => is_word c || is_space c))]).

Definition tail : re := alts [Chr "."; Chr ","; Eol].

Definition implied (verb : re) : re := seqs [phrase 1; ws1; verb; ws1; phrase 2; tail].

(** The pattern family of [extractImpliedRelations], in source order;
    every expression carries the flags [gi]. *)
Definition patterns : list (re * RelationType) :=
  [ (* /(\w[\w\s]*?)\s+is\s+(?:a|an)\s+(\w[\w\s]*?)(?:\.|,|$)/gi *)
    (implied (seqs [lit "is"; ws1; alts [lit "a"; lit "an"]]), "is_a");
    (* /(\w[\w\s]*?)\s+(?:causes|leads?\s+to|results?\s+in)\s+(\w[\w\s]*?)(?:\.|,|$)/gi *)
    (implied (alts [lit "causes";
                    seqs [lit "lead"; Opt (Chr "s"); ws1; lit "to"];
                    seqs [lit "result"; Opt (Chr "s"); ws1; lit "in"]]), "causes");
    (* /(\w[\w\s]*?)\s+(?:has|have|contains?)\s+(\w[\w\s]*?)(?:\.|,|$)/gi *)
    (implied (alts [lit "has"; lit "have"; seqs [lit "contain"; Opt (Chr "s")]]), "has");
    (* /(\w[\w\s]*?)\s+is\s+(?:part\s+of|a\s+component\s+of)\s+(\w[\w\s]*?)(?:\.|,|$)/gi *)
    (implied (seqs [lit "is"; ws1;
                    alts [seqs [lit "part"; ws1; lit "of"];
                          seqs [lit "a"; ws1; lit "component"; ws1; lit "of"]]]), "part_of");
    (* /(\w[\w\s]*?)\s+(?:requires?|needs?)\s+(\w[\w\s]*?)(?:\.|,|$)/gi *)
    (implied (alts [seqs [lit "require"; Opt (Chr "s")];
                    seqs [lit "need"; Opt (Chr "s")]]), "requires");
    (* /(\w[\w\s]*?)\s+(?:equals?|is\s+equal\s+to|=)\s+(\w[\w\s]*?)(?:\.|,|$)/gi *)
    (implied (alts [seqs [lit "equal"; Opt (Chr "s")];
                    seqs [lit "is"; ws1; lit "equal"; ws1; lit "to"];
                    lit "="]), "equals");
    (* /(\w[\w\s]*?)\s+is\s+used\s+(?:for|to)\s+(\w[\w\s]*?)(?:\.|,|$)/gi *)
    (implied (seqs [lit "is"; ws1; lit "used"; ws1; alts [lit "for"; lit "to"]]), "used_for") ].

(** Extract plausible relations from what the student said. *)
Definition extractImpliedRelations (text : string) : list (string * RelationType * string) :=
  let lower := toLowerCase text in
  flat_map (fun p =>
              map (fun m => (trim (group 1 m), snd p, trim (group 2 m)))
                  (exec_all true (fst p) lower))
           patterns.

(** What the run accumulates. *)
Record Tally : Type := MkTally {
  storedNouns : nat;
  storedRelations : nat;
  logged : list DemonAction
}.

Definition context_of (subject : string) : option string :=
  if negb (String.eqb subject "general") then Some subject else None.

(** Phase 1: store noun phrases we encountered. *)
Fixpoint store_nouns (slots : list MemSlot) (subject : string) (t : Tally) : Eff Tally :=
  match slots with
  | [] => ret t
  | s :: rest =>
      let label := String_ (s_content s) in
      if (String.length label <? 2) || (100 <? String.length label)
      then store_nouns rest subject t
      else
        ensureNoun label (inferNounType label subject) (JObj []) ;;;
        store_nouns rest subject (MkTally (S (storedNouns t)) (storedRelations t) (logged t))
  end.

(** Phase 3: store the relations implied by the raw input, each at
    weight 0.6 under the current subject. *)
Fixpoint store_implied (rels : list (string * RelationType * string)) (subject : string)
         (t : Tally) : Eff Tally :=
  match rels with
  | [] => ret t
  | (from, type, to) :: rest =>
      t' <- try_catch
              (link from type to (6 # 10) (context_of subject) ;;;
               ret (MkTally (storedNouns t) (S (storedRelations t)) (logged t)))
              (ret (MkTally (storedNouns t) (storedRelations t)
                            (logged t ++ [log ("Learn: failed to store relation " ++ from
                                               ++ " -" ++ type ++ "-> " ++ to)]))) ;;
      store_implied rest subject t'
  end.

(** [link(rel.from, rel.type, rel.to, rel.weight, ...)] on the content of
    a slot: [link] throws at the first label that is not a text, after it
    has ensured the noun of the label before it; a missing weight takes
    the default 1.0. *)
Definition link_content (content : JsValue) (subject : string) : Eff unit :=
  match prop content "from", prop content "to" with
  | Some from, Some to =>
      match as_string from, as_string to with
      | Some f, Some t =>
          link f (String_ (field content "type")) t
               (match field content "weight" with
                | JNum q => q
                | JUndef => 1%Q
                | _ => 0%Q
                end)
               (context_of subject) ;;;
          ret tt
      | Some f, None => ensureNoun f Unknown (JObj []) ;;; @throw unit
      | None, _ => @throw unit
      end
  | _, _ => @throw unit
  end.

(** Phase 4: store confirmed relations from the reasoning chain. *)
Fixpoint store_confirmed (slots : list MemSlot) (subject : string) (t : Tally) : Eff Tally :=
  match slots with
  | [] => ret t
  | s :: rest =>
      if Qlt_bool (s_confidence s) (5 # 10) then store_confirmed rest subject t
      else
        t' <- try_catch
                (link_content (s_content s) subject ;;;
                 ret (MkTally (storedNouns t) (S (storedRelations t)) (logged t)))
                (ret t) ;;
        store_confirmed rest subject t'
  end.

Definition run (input : DemonInput) : Eff DemonOutput :=
  let m := i_memory input in
  let subject := match latestByTag m "subject" with
                 | Some s => String_ (s_content s)
                 | None => "general"
                 end in
  t1 <- store_nouns (findByTag m "noun_phrase") subject (MkTally 0 0 []) ;;
  (if negb (String.eqb subject "general")
   then ensureNoun subject Context (JObj []) ;;; ret tt
   else ret tt) ;;;
  t3 <- match latestByTag m "raw_input" with
        | Some rawSlot =>
            store_implied (extractImpliedRelations (String_ (s_content rawSlot))) subject t1
        | None => ret t1
        end ;;
  t4 <- store_confirmed (findByTag m "relation") subject t3 ;;
  let intent := match latestByTag m "intent" with
                | Some s => String_ (s_content s)
                | None => "unknown"
                end in
  let focus := match latestByTag m "question_focus" with
               | Some s => String_ (s_content s)
               | None => ""
               end in
  topic <- (if negb (String.eqb focus "") then
              studentNode <- ensureNoun "student" Entity (JObj []) ;;
              topicNode <- ensureNoun focus Concept (JObj []) ;;
              try_catch
                (match findByTag m "student_topic" with
                 | [] =>
                     now <- Date_now ;;
                     createRelation (n_id studentNode) (n_id topicNode) "relates_to" (8 # 10)
                                    None
                                    (JObj [("type", JStr "currently_studying");
                                           ("timestamp", JNat now)]) ;;;
                     ret tt
                 | _ :: _ => ret tt
                 end)
                (ret tt) ;;;
              ret [slot (JObj [("topic", JStr focus); ("subject", JStr subject);
                               ("intent", JStr intent)])
                        "student_topic" (9 # 10) "learn" 30]
            else ret []) ;;
  let confusion :=
    if String.eqb intent "confusion"
    then [slot (JObj [("confused_about", JStr focus); ("subject", JStr subject);
                      ("tick", JNat (wm_tick m))])
               "student_confusion" (9 # 10) "learn" 50]
    else [] in
  ret (MkOutput (topic ++ confusion) [] []
                (logged t4 ++ [log ("Learn: stored " ++ of_nat (storedNouns t4) ++ " nouns, "
                                    ++ of_nat (storedRelations t4) ++ " relations")])
                []).

Definition learnDemon : Demon :=
  MkDemon "learn" "Learn"
          "Persists new concepts and relations to the knowledge graph after reasoning."
          [tag_present "response"; tick_interval 5]
          run.

End Learn.

(* ================================================================== *)
(** * Demons: the registry (demons/index.ts)                           *)
(* ================================================================== *)

Module Demons.
Import Text Js Memory Store Core.

(** A registry of demons, keyed by id, in registration order. *)
Definition Registry : Type := list (string * Demon).

(** All registered demons, keyed by ID. *)
Definition DEMONS : Registry :=
  [("parse", Parse.parseDemon);
   ("relate", Relate.relateDemon);
   ("infer", Infer.inferDemon);
   ("decompose", Decompose.decomposeDemon);
   ("analogize", Analogize.analogizeDemon);
   ("question", Question.questionDemon);
   ("learn", Learn.learnDemon)].

(** Get a demon by ID. *)
Definition getDemon (reg : Registry) (id : string) : option Demon := map_get reg id.

(** The condition handed to [getTriggeredDemons]. *)
Record Condition : Type := MkCondition {
  c_type : string;
  c_tag : option string;
  c_from : option string;
  c_tick : option nat
}.

Definition trigger_type (t : DemonTrigger) : string :=
  match t with
  | always => "always"
  | tag_present _ => "tag_present"
  | tag_absent _ => "tag_absent"
  | chain_from _ => "chain"
  | new_input => "new_input"
  | tick_interval _ => "tick_interval"
  end.

Definition same (a : option string) (b : string) : bool :=
  match a with Some x => String.eqb x b | None => false end.

Definition fires (condition : Condition) (trigger : DemonTrigger) : bool :=
  String.eqb (trigger_type trigger) (c_type condition)
  && match trigger with
     | always | new_input => true
     | tag_present tag | tag_absent tag => same (c_tag condition) tag
     | chain_from from => same (c_from condition) from
     | tick_interval every =>
         match c_tick condition with
         | Some t => negb (t =? 0) && negb (every =? 0) && (t mod every =? 0)
         | None => false
         end
     end.

(** Get all demons that should fire for a given trigger condition: one
    entry for every trigger that matches. *)
Definition getTriggeredDemons (reg : Registry) (condition : Condition) : list Demon :=
  flat_map (fun entry => map (fun _ => snd entry)
                             (filter (fires condition) (dm_triggers (snd entry))))
           reg.

End Demons.

(* ================================================================== *)
(** * Hypervisor: the scheduler (hypervisor/scheduler.ts)              *)
(* ================================================================== *)

Module Hypervisor.
Import Text Js Memory Store Core Demons.

Definition DEFAULT_CONFIG : HypervisorConfig := MkConfig 20 5 100 500.

(** [Partial<HypervisorConfig>]. *)
Record PartialConfig : Type := MkPartial {
  pc_maxTicksPerTurn : option nat;
  pc_maxDemonsPerTick : option nat;
  pc_maxMemorySlots : option nat;
  pc_tickTimeoutMs : option nat
}.

Record HypervisorState : Type := MkState {
  memory : WorkingMemory;
  config : HypervisorConfig;
  history : list TickResult;
  initialized : bool
}.

Definition or_default (o : option nat) (dflt : nat) : nat :=
  match o with Some n => n | None => dflt end.

(** Create a new hypervisor state. *)
Definition createHypervisor (cfg : option PartialConfig) : HypervisorState :=
  MkState createWorkingMemory
          (match cfg with
           | Some c =>
               MkConfig (or_default (pc_maxTicksPerTurn c) (maxTicksPerTurn DEFAULT_CONFIG))
                        (or_default (pc_maxDemonsPerTick c) (maxDemonsPerTick DEFAULT_CONFIG))
                        (or_default (pc_maxMemorySlots c) (maxMemorySlots DEFAULT_CONFIG))
                        (or_default (pc_tickTimeoutMs c) (tickTimeoutMs DEFAULT_CONFIG))
           | None => DEFAULT_CONFIG
           end)
          [] false.

(** Initialize the hypervisor: [initGraph] creates the tables when they
    do not exist and leaves their rows alone. *)
Definition initHypervisor (state : HypervisorState) : HypervisorState :=
  if initialized state then state
  else MkState (memory state) (config state) (history state) true.

(** [writeSlot] on the clock and the id generator of the world. *)
Definition write_in (w : World) (m : WorkingMemory) (d : SlotData)
  : WorkingMemory * MemSlot * World :=
  let '(r, e) := writeSlot m d (env w) in (r, MkWorld (graph w) e).

Fixpoint write_all (slots : list SlotData) (m : WorkingMemory) (w : World)
         (written : list string) : WorkingMemory * list string * World :=
  match slots with
  | [] => (m, written, w)
  | d :: rest =>
      let '(m', s, w') := write_in w m d in
      write_all rest m' w' (written ++ [s_id s])
  end.

Fixpoint evict_all (ids : list string) (m : WorkingMemory) (evicted : list string)
  : WorkingMemory * list string :=
  match ids with
  | [] => (m, evicted)
  | id :: rest =>
      let '(m', had) := evictSlot m id in
      evict_all rest m' (if had then evicted ++ [id] else evicted)
  end.

(** Apply a demon's output to working memory. *)
Definition applyDemonOutput (m : WorkingMemory) (output : DemonOutput) (maxSlots : nat)
           (w : World) : WorkingMemory * (list string * list string) * World :=
  let '(m1, slotsWritten, w1) := write_all (o_write output) m w [] in
  let '(m2, slotsEvicted) := evict_all (o_evict output) m1 [] in
  let m3 := match o_focus output with
            | [] => m2
            | _ :: _ => setFocus m2 (o_focus output)
            end in
  let '(m4, overflowEvicted) := enforceLimit m3 maxSlots in
  (m4, (slotsWritten, slotsEvicted ++ overflowEvicted), w1).

(** The state of one tick while its demons fire. *)
Record TickState : Type := MkTickState {
  ts_memory : WorkingMemory;
  ts_world : World;
  ts_demonsFired : list string;
  ts_slotsWritten : list string;
  ts_slotsEvicted : list string;
  ts_tickActions : list DemonAction;
  ts_nextDemons : list string;
  ts_firedThisTick : list string;
  ts_response : string;
  ts_pendingDemons : list string
}.

(** [for (const action of output.actions) if (action.type === 'respond')
    response = action.text]. *)
Definition scan_response (response : string) (actions : list DemonAction) : string :=
  fold_left (fun r action => match action with respond text => text | _ => r end)
            actions response.

(** Collect chain suggestions, but only if no response yet; an id that
    already fired this tick is not collected. *)
Definition collect_chain (response : string) (firedThisTick chain nextDemons : list string)
  : list string :=
  if String.eqb response "" then
    nextDemons ++ filter (fun chainId => negb (includes firedThisTick chainId)) chain
  else nextDemons.

(** The body of the [try] for a demon whose [run] has returned: its
    result, and whether the loop over the batch stops here. *)
Definition after_output (cfg : HypervisorConfig) (demonId : string) (output : DemonOutput)
           (ts : TickState) (w : World) : TickState * bool :=
  let '(m, (slotsWritten, slotsEvicted), w') :=
    applyDemonOutput (ts_memory ts) output (maxMemorySlots cfg) w in
  let response := scan_response (ts_response ts) (o_actions output) in
  let nextDemons := collect_chain response (ts_firedThisTick ts) (o_chain output)
                                  (ts_nextDemons ts) in
  let terminal := negb (String.eqb response "")
                  && match o_chain output with [] => true | _ :: _ => false end in
  (MkTickState m w'
               (ts_demonsFired ts ++ [demonId])
               (ts_slotsWritten ts ++ slotsWritten)
               (ts_slotsEvicted ts ++ slotsEvicted)
               (ts_tickActions ts ++ o_actions output)
               (if terminal then [] else nextDemons)
               (ts_firedThisTick ts)
               response
               (if terminal then [] else ts_pendingDemons ts),
   terminal).

Definition with_world (ts : TickState) (w : World) : TickState :=
  MkTickState (ts_memory ts) w (ts_demonsFired ts) (ts_slotsWritten ts) (ts_slotsEvicted ts)
              (ts_tickActions ts) (ts_nextDemons ts) (ts_firedThisTick ts) (ts_response ts)
              (ts_pendingDemons ts).

Definition with_log (ts : TickState) (message : string) : TickState :=
  MkTickState (ts_memory ts) (ts_world ts) (ts_demonsFired ts) (ts_slotsWritten ts)
              (ts_slotsEvicted ts) (ts_tickActions ts ++ [log message]) (ts_nextDemons ts)
              (ts_firedThisTick ts) (ts_response ts) (ts_pendingDemons ts).

Definition mark_fired (ts : TickState) (demonId : string) : TickState :=
  MkTickState (ts_memory ts) (ts_world ts) (ts_demonsFired ts) (ts_slotsWritten ts)
              (ts_slotsEvicted ts) (ts_tickActions ts) (ts_nextDemons ts)
              (ts_firedThisTick ts ++ [demonId]) (ts_response ts) (ts_pendingDemons ts).

(** The subject handed to a demon as its context. *)
Definition context_of (m : WorkingMemory) : JsValue :=
  match findByTag m "subject" with
  | s :: _ => s_content s
  | [] => JUndef
  end.

(** The message of a caught exception is not modelled. *)
Definition error_message : string := "".

(** One iteration of the loop over the batch: the new state, and whether
    the loop stops ([break]). *)
Definition fire (reg : Registry) (cfg : HypervisorConfig) (startTime tick : nat)
           (demonId : string) (ts : TickState) : TickState * bool :=
  if includes (ts_firedThisTick ts) demonId then (ts, false)
  else
    let ts := mark_fired ts demonId in
    match getDemon reg demonId with
    | None => (ts, false)
    | Some demon =>
        let '(now, w) := clock (ts_world ts) in
        if tickTimeoutMs cfg <? now - startTime then
          (with_log (with_world ts w) ("Tick " ++ of_nat tick ++ ": timeout"), true)
        else
          match dm_run demon (MkInput (ts_memory ts) (context_of (ts_memory ts))) w with
          | (Some output, w') => after_output cfg demonId output ts w'
          | (None, w') =>
              (with_log (with_world ts w')
                        ("Demon " ++ dq ++ demonId ++ dq ++ " threw: " ++ error_message),
               false)
          end
    end.

Fixpoint fire_demons (reg : Registry) (cfg : HypervisorConfig) (startTime tick : nat)
         (toFire : list string) (ts : TickState) : TickState :=
  match toFire with
  | [] => ts
  | demonId :: rest =>
      let '(ts', stop) := fire reg cfg startTime tick demonId ts in
      if stop then ts' else fire_demons reg cfg startTime tick rest ts'
  end.

(** Set up next tick's demons from chain suggestions, without re-adding
    demons already pending. *)
Definition merge_pending (pendingDemons nextDemons : list string) : list string :=
  fold_left (fun pending id => if includes pending id then pending else pending ++ [id])
            nextDemons pendingDemons.

(** The state of a turn between two ticks. *)
Record TurnState : Type := MkTurn {
  tn_memory : WorkingMemory;
  tn_world : World;
  tn_ticks : list TickResult;
  tn_allActions : list DemonAction;
  tn_response : string;
  tn_pendingDemons : list string
}.

(** The batch of a tick: up to [maxDemonsPerTick] ids from the head of
    the queue fire, and the rest stays pending. *)
Definition fire_batch (reg : Registry) (cfg : HypervisorConfig) (t : TurnState) : TickState :=
  let '(startTime, w0) := clock (tn_world t) in
  fire_demons reg cfg startTime (wm_tick (tn_memory t))
              (firstn (maxDemonsPerTick cfg) (tn_pendingDemons t))
              (MkTickState (tn_memory t) w0 [] [] [] [] [] [] (tn_response t)
                           (skipn (maxDemonsPerTick cfg) (tn_pendingDemons t))).

(** The body of the tick loop, past the test for an empty queue. *)
Definition run_tick (reg : Registry) (cfg : HypervisorConfig) (t : TurnState) : TurnState :=
  let startTime := fst (clock (tn_world t)) in
  let ts := fire_batch reg cfg t in
  let decayed := Memory.tick (ts_memory ts) in
  let stopped := clock (ts_world ts) in
  let tickResult := MkTick (wm_tick (tn_memory t)) (ts_demonsFired ts) (ts_slotsWritten ts)
                           (ts_slotsEvicted ts ++ snd decayed) (ts_tickActions ts)
                           (fst stopped - startTime) in
  MkTurn (fst decayed) (snd stopped) (tn_ticks t ++ [tickResult])
         (tn_allActions t ++ ts_tickActions ts)
         (ts_response ts) (merge_pending (ts_pendingDemons ts) (ts_nextDemons ts)).

(** [for (let i = 0; i < maxTicksPerTurn; i++)]: the loop leaves when the
    queue is empty, and after a tick that has a response and an empty
    queue. *)
Fixpoint run_ticks (reg : Registry) (cfg : HypervisorConfig) (remaining : nat) (t : TurnState)
  : TurnState :=
  match remaining with
  | 0 => t
  | S n =>
      match tn_pendingDemons t with
      | [] => t
      | _ :: _ =>
          let t' := run_tick reg cfg t in
          if negb (String.eqb (tn_response t') "")
             && match tn_pendingDemons t' with [] => true | _ :: _ => false end
          then t'
          else run_ticks reg cfg n t'
      end
  end.

(** Step 4: fire the learn demon once; a failure is not critical. *)
Definition run_learn (reg : Registry) (cfg : HypervisorConfig) (t : TurnState) : TurnState :=
  match getDemon reg "learn" with
  | None => t
  | Some learnDemon =>
      match dm_run learnDemon (MkInput (tn_memory t) (context_of (tn_memory t))) (tn_world t) with
      | (Some learnOutput, w) =>
          let '(m, _, w') := applyDemonOutput (tn_memory t) learnOutput (maxMemorySlots cfg) w in
          MkTurn m w' (tn_ticks t) (tn_allActions t ++ o_actions learnOutput)
                 (tn_response t) (tn_pendingDemons t)
      | (None, w) =>
          MkTurn (tn_memory t) w (tn_ticks t) (tn_allActions t) (tn_response t)
                 (tn_pendingDemons t)
      end
  end.

(** Step 5: the tags of the turn-specific slots. *)
Definition tagsToEvict : list string :=
  ["raw_input"; "intent"; "noun_phrase"; "question_focus";
   "relation"; "context_fact"; "hierarchy"; "inferred_relation";
   "contradiction"; "claim_assessment"; "unknown_concepts";
   "decomposition"; "prerequisites"; "knowledge_gaps"; "examples";
   "solution_steps"; "simplification_needed"; "analogy"; "fuzzy_match"].

Definition evict_tag (m : WorkingMemory) (tag : string) : WorkingMemory :=
  fold_left (fun m s => fst (evictSlot m (s_id s))) (findByTag m tag) m.

Definition cleanup (m : WorkingMemory) : WorkingMemory := fold_left evict_tag tagsToEvict m.

Definition fallback : string :=
  "I'd love to help you learn! What topic would you like to explore?".

(** What [processInput] returns. *)
Record Turn : Type := MkResult {
  response : string;
  ticks : list TickResult;
  actions : list DemonAction
}.

Definition seed (reg : Registry) : list string :=
  map dm_id (getTriggeredDemons reg (MkCondition "new_input" None None None)).

(** The turn up to the end of the tick loop. *)
Definition run_chain (reg : Registry) (state : HypervisorState) (userInput : string)
           (w : World) : TurnState :=
  let '(m, _, w1) := write_in w (memory state)
                              (slot (JStr userInput) "raw_input" 1%Q "user" 0) in
  run_ticks reg (config state) (maxTicksPerTurn (config state))
            (MkTurn m w1 [] [] "" (seed reg)).

(** Process a user message through the full demon pipeline. *)
Definition processInput (reg : Registry) (state : HypervisorState) (userInput : string)
           (w : World) : Turn * HypervisorState * World :=
  let state := initHypervisor state in
  let t := run_learn reg (config state) (run_chain reg state userInput w) in
  (MkResult (if String.eqb (tn_response t) "" then fallback else tn_response t)
            (tn_ticks t) (tn_allActions t),
   MkState (cleanup (tn_memory t)) (config state) (history state ++ tn_ticks t)
           (initialized state),
   tn_world t).

(** Get stats about the current hypervisor state. *)
Record Stats : Type := MkStats {
  memorySlots : nat;
  focusedSlots : nat;
  totalTicks : nat;
  totalDemonsFired : nat;
  demonsRegistered : nat
}.

Definition hypervisorStats (reg : Registry) (state : HypervisorState) : Stats :=
  MkStats (size (memory state)) (List.length (wm_focus (memory state)))
          (wm_tick (memory state))
          (fold_left (fun sum t => sum + List.length (t_demons_fired t)) (history state) 0)
          (List.length reg).

End Hypervisor.

(* ================================================================== *)
(** * Engine: the public API (index.ts)                                *)
(* ================================================================== *)

Module Engine.
Import Text Js Memory Store Core Demons Hypervisor.

Record EngineStats : Type := MkEngineStats {
  es_memory_slots : nat;
  es_memory_focused : nat;
  es_memory_totalTicks : nat;
  es_graph_nouns : nat;
  es_graph_relations : nat;
  es_graph_relationTypes : list (string * nat);
  es_demons_registered : nat;
  es_demons_totalFired : nat
}.

(** The engine owns one hypervisor state; the store is in the world. *)
Definition createEngine (cfg : option PartialConfig) : HypervisorState :=
  initHypervisor (createHypervisor cfg).

(** Process user input and return a Socratic response. *)
Definition process (state : HypervisorState) (input : string) (w : World)
  : Turn * HypervisorState * World :=
  processInput DEMONS state input w.

(** Get engine statistics. *)
Definition stats (state : HypervisorState) (w : World) : EngineStats :=
  let hv := hypervisorStats DEMONS state in
  let gs := graphStats (graph w) in
  MkEngineStats (memorySlots hv) (focusedSlots hv) (totalTicks hv)
                (gs_nouns gs) (gs_relations gs) (gs_types gs)
                (demonsRegistered hv) (totalDemonsFired hv).

(** Serialize engine state for persistence/recovery. *)
Definition saveState (state : HypervisorState) : JsonDoc := serialize (memory state).

(** Restore engine state from serialized data; [None] when
    [deserialize] fails. *)
Definition loadState (state : HypervisorState) (data : JsonDoc) : option HypervisorState :=
  match deserialize data with
  | Some m => Some (MkState m (config state) (history state) (initialized state))
  | None => None
  end.

End Engine.

(* ================================================================== *)
(** * Observations: what a turn goes through                           *)
(* ================================================================== *)

Module Trace.
Import Text Js Memory Store Core Demons Hypervisor.

(** The states of a tick after each member of its batch, in the order
    of [fire_demons]. *)
Fixpoint fire_trace (reg : Registry) (cfg : HypervisorConfig) (startTime tick : nat)
         (toFire : list string) (ts : TickState) : list TickState :=
  match toFire with
  | [] => []
  | demonId :: rest =>
      let '(ts', stop) := fire reg cfg startTime tick demonId ts in
      ts' :: (if stop then [] else fire_trace reg cfg startTime tick rest ts')
  end.

(** The working memories of one tick: after each member of the batch,
    then after the decay that ends the tick. *)
Definition tick_memories (reg : Registry) (cfg : HypervisorConfig) (t : TurnState)
  : list WorkingMemory :=
  let '(startTime, w0) := clock (tn_world t) in
  map ts_memory
      (fire_trace reg cfg startTime (wm_tick (tn_memory t))
                  (firstn (maxDemonsPerTick cfg) (tn_pendingDemons t))
                  (MkTickState (tn_memory t) w0 [] [] [] [] [] [] (tn_response t)
                               (skipn (maxDemonsPerTick cfg) (tn_pendingDemons t))))
  ++ [tn_memory (run_tick reg cfg t)].

(** The working memories of the tick loop, following [run_ticks]. *)
Fixpoint loop_memories (reg : Registry) (cfg : HypervisorConfig) (remaining : nat)
         (t : TurnState) : list WorkingMemory :=
  match remaining with
  | 0 => []
  | S n =>
      match tn_pendingDemons t with
      | [] => []
      | _ :: _ =>
          let t' := run_tick reg cfg t in
          tick_memories reg cfg t
          ++ (if negb (String.eqb (tn_response t') "")
                 && match tn_pendingDemons t' with [] => true | _ :: _ => false end
              then []
              else loop_memories reg cfg n t')
      end
  end.

(** Every working memory of a turn: after the raw input is written,
    through the ticks, and after the learn pass. *)
Definition turn_memories (reg : Registry) (state : HypervisorState) (userInput : string)
           (w : World) : list WorkingMemory :=
  let state := initHypervisor state in
  let '(m, _, w1) := write_in w (memory state)
                              (slot (JStr userInput) "raw_input" 1%Q "user" 0) in
  m :: loop_memories reg (config state) (maxTicksPerTurn (config state))
                     (MkTurn m w1 [] [] "" (seed reg))
    ++ [tn_memory (run_learn reg (config state) (run_chain reg state userInput w))].

(** The slots with a given tag that exist at some point of a turn. *)
Definition slots_during (reg : Registry) (state : HypervisorState) (userInput : string)
           (w : World) (tag : string) : list MemSlot :=
  flat_map (fun m => findByTag m tag) (turn_memories reg state userInput w).

End Trace.

(* ================================================================== *)
(** * Reference definitions, written from the specification            *)
(* ================================================================== *)

Module Reference.
Import Text Js Memory Store Core.



(** A text without the separator of the edge keys. *)
Definition bar_free (s : string) : Prop := ~ In "|"%char (chars s).

Definition same_edge (from type to : string) (r : RelContent) : bool :=
  String.eqb (rc_from r) from && String.eqb (rc_type r) type && String.eqb (rc_to r) to.

(** The transitive rule as the specification words it: for [A -t-> B]
    and [B -t-> C] with [A <> C] and the edge [(A, t, C)] neither in the
    list nor emitted before, emit [A -t-> C] with weight
    [min(w1, w2) * 0.9].  [known] holds the edges of the list and the
    edges emitted so far. *)
Definition chain_step (r1 : RelContent) (st : list RelContent * list RelContent)
           (r2 : RelContent) : list RelContent * list RelContent :=
  if String.eqb (rc_type r2) (rc_type r1)
     && String.eqb (rc_from r2) (rc_to r1)
     && negb (String.eqb (rc_to r2) (rc_from r1))
     && negb (existsb (same_edge (rc_from r1) (rc_type r1) (rc_to r2)) (snd st))
  then
    let e := MkRel (rc_from r1) (rc_type r1) (rc_to r2)
                   (Qmin (rc_weight r1) (rc_weight r2) * (9 # 10))%Q in
    (fst st ++ [e], snd st ++ [e])
  else st.

Definition transitive_closure_rule (relations : list RelContent) (types : list string)
  : list RelContent :=
  fst (fold_left (fun st r1 =>
                    if includes types (rc_type r1)
                    then fold_left (chain_step r1) relations st
                    else st)
                 relations ([], relations)).

End Reference.

(* ================================================================== *)
(** * Invariants used by the proofs                                    *)
(* ================================================================== *)

Module Invariants.
Import Text Js Memory Store Core Infer Demons Hypervisor Reference.

(** The law of a keyed store: a read after a write gives the value
    written under that key and the old value under any other. *)
Definition store_law (A : Type)
           (set : string -> A -> list (string * A) -> list (string * A)) : Prop :=
  forall k' v m k,
    map_get (set k' v m) k = if String.eqb k' k then Some v else map_get m k.

(** A function applied to the values of a keyed list. *)
Definition on_values (A B : Type) (f : A -> B) (kv : string * A) : string * B :=
  (fst kv, f (snd kv)).

(** The document [JSON.stringify] gives for a slot. *)
Definition slot_doc (s : MemSlot) : JsonDoc :=
  match JSON_stringify (slot_value s) with Some d => d | None => DNull end.

(** The response of a tick is the one it started with, or the text of a
    respond action among the actions of the tick. *)
Definition answered (r0 : string) (ts : TickState) : Prop :=
  ts_response ts = r0 \/ In (respond (ts_response ts)) (ts_tickActions ts).

(** A turn has no response yet, or one of its ticks holds the respond
    action that gave it. *)
Definition replied (t : TurnState) : Prop :=
  tn_response t = ""
  \/ exists tr, In tr (tn_ticks t) /\ In (respond (tn_response t)) (t_actions tr).

(** An edge whose label of origin and whose type hold no separator. *)
Definition clean (r : RelContent) : Prop := bar_free (rc_from r) /\ bar_free (rc_type r).

(** The two states agree: the same inferred edges, and the keys are the
    keys of the known edges. *)
Definition agree (st : InferState) (st' : list RelContent * list RelContent) : Prop :=
  fst st = fst st' /\ snd st = map key_of (snd st') /\ Forall clean (snd st').

(** What a call of [createRelation] or [link] does to the table of
    relations: nothing when it throws, one more row when it returns. *)
Definition appends (A : Type) (type : RelationType) (weight : Q) (w : World)
           (r : option A * World) : Prop :=
  match fst r with
  | Some _ => exists row, relations (graph (snd r)) = relations (graph w) ++ [row]
                          /\ rr_type row = type /\ rr_weight row = weight
  | None => relations (graph (snd r)) = relations (graph w)
  end.

(** The rows that repeated calls of [link(a, t, b)] leave in an empty
    store, on the environment [e]: the noun of [a], the noun of [b]
    when its label is another, and one relation per call. *)
Definition first_noun (e : Sys.Env) (a : string) : NounRow :=
  MkNounRow (Sys.nano e (Sys.nano_i e)) (trim (toLowerCase a)) Unknown
            (stringify_props (JObj [])) (Sys.clk e (Sys.clk_i e)).

Definition second_noun (e : Sys.Env) (b : string) : NounRow :=
  MkNounRow (Sys.nano e (S (Sys.nano_i e))) (trim (toLowerCase b)) Unknown
            (stringify_props (JObj [])) (Sys.clk e (S (Sys.clk_i e))).

Definition same_label (a b : string) : bool :=
  String.eqb (trim (toLowerCase a)) (trim (toLowerCase b)).

Definition linked_nouns (e : Sys.Env) (a b : string) : list NounRow :=
  if same_label a b then [first_noun e a] else [first_noun e a; second_noun e b].

Definition target (e : Sys.Env) (a b : string) : NounRow :=
  if same_label a b then first_noun e a else second_noun e b.

Definition created (a b : string) : nat := if same_label a b then 1 else 2.

Definition edge_row (e : Sys.Env) (a t b : string) (j : nat) : RelationRow :=
  MkRelationRow (Sys.nano e (Sys.nano_i e + created a b + j))
                (nr_id (first_noun e a)) (nr_id (target e a b)) t 1%Q None
                (stringify_props (JObj [])) (Sys.clk e (Sys.clk_i e + created a b + j)).

Definition linked_world (e : Sys.Env) (a t b : string) (n : nat) : World :=
  MkWorld (MkGraph (linked_nouns e a b) (map (edge_row e a t b) (seq 0 n)))
          (Sys.MkEnv (Sys.clk e) (Sys.clk_i e + created a b + n)
                     (Sys.nano e) (Sys.nano_i e + created a b + n)
                     (Sys.rnd e) (Sys.rnd_i e)).

(** Descending weights, the order of [query]. *)
Definition heavier_first (x y : Triple) : Prop :=
  (r_weight (t_relation y) <= r_weight (t_relation x))%Q.

End Invariants.

(* ================================================================== *)
(** * Scenarios: the concrete runs of the end-to-end cases             *)
(* ================================================================== *)

Module Scenario.
Import Text Js Sys Memory Store Core Demons Hypervisor Engine.

(** An environment whose clock stands at [t0] for the whole turn, whose
    ids are [id0], [id1], ... and whose random draws are all [r]. *)
Definition steady (t0 : nat) (r : Q) : Env :=
  MkEnv (fun _ => t0) 0 (fun n => String.append "id" (of_nat n)) 0 (fun _ => r) 0.

(** The empty store. *)
Definition pristine : World := MkWorld empty_graph (steady 1000 (1 # 2)).

Definition engine : HypervisorState := createEngine None.

(** The world after an effect, whatever its outcome. *)
Definition after (A : Type) (m : Eff A) (w : World) : World := snd (m w).

(** The store after [n] calls of [link(a, t, b)]. *)
Fixpoint linked (n : nat) (a t b : string) (w : World) : World :=
  match n with
  | 0 => w
  | S k => after (link a t b 1%Q None) (linked k a t b w)
  end.

(** [link("dog","is_a","mammal")] then [link("mammal","is_a","animal")]. *)
Definition zoo : World :=
  after (link "mammal" "is_a" "animal" 1%Q None)
        (after (link "dog" "is_a" "mammal" 1%Q None) pristine).

Definition world_after (input : string) (w : World) : World :=
  snd (process engine input w).

Definition turn_of (input : string) (w : World) : Turn :=
  fst (fst (process engine input w)).

Definition state_after (input : string) (w : World) : HypervisorState :=
  snd (fst (process engine input w)).

(** The empty store on an environment whose random draws are all [r]. *)
Definition pristine_drawing (r : Q) : World := MkWorld empty_graph (steady 1000 r).

(** The store of [zoo] with the weights [w1] and [w2] on its edges. *)
Definition zoo_weighted (w1 w2 : Q) : World :=
  after (link "mammal" "is_a" "animal" w2 None)
        (after (link "dog" "is_a" "mammal" w1 None) pristine).

(** [relations_from(a, t)] by label: the edges of type [t] that leave
    the noun found under the label [a]. *)
Definition edges_from (w : World) (a t : string) : list (Relation * Noun) :=
  match find_noun (graph w) a with
  | Some n => relations_from (graph w) (n_id n) (Some t)
  | None => []
  end.

(** [query({from:{label}, relation, to:{label}})]. *)
Definition edge_query (from relation to : string) : QueryPattern :=
  MkPattern (Some from) None (Some relation) (Some to) None.

(** The turn as the tick loop finds it: the raw input written, the
    queue seeded. *)
Definition opening (input : string) (w : World) : TurnState :=
  let '(m, _, w1) := write_in w (memory engine)
                              (slot (JStr input) "raw_input" 1%Q "user" 0) in
  MkTurn m w1 [] [] "" (seed DEMONS).

(** A memory of three slots, the first in focus. *)
Definition note (id : string) (confidence : Q) (created_at : nat) : string * MemSlot :=
  (id, MkSlot id None (JStr "note") "note" confidence "user" 0 created_at).

Definition crowded : WorkingMemory :=
  MkMem [note "a" (1 # 2) 1; note "b" (1 # 2) 2; note "c" (1 # 4) 3] ["a"] 7.

(** A demon that writes nothing and suggests [chain]. *)
Definition hinting (id : string) (chain : list string) : Demon :=
  MkDemon id id "hints" [] (fun _ => ret (no_output chain)).

(** A demon that throws. *)
Definition failing (id : string) : Demon :=
  MkDemon id id "throws" [new_input] (fun _ => throw DemonOutput).

(** A tick in which [a] has fired, with nothing queued. *)
Definition fired_a : TickState :=
  MkTickState createWorkingMemory pristine ["a"] [] [] [] [] ["a"] "" [].

(** Three edges whose keys collide: the key of [ant is_a cat|is_a|dog]
    is the key of the third edge. *)
Definition colliding : list RelContent :=
  [MkRel "ant" "is_a" "bug" 1%Q;
   MkRel "bug" "is_a" "cat|is_a|dog" 1%Q;
   MkRel "ant|is_a|cat" "is_a" "dog" 1%Q].

(** A store that holds the three edges of [colliding], and an input that
    names their five nouns. *)
Definition colliding_store : World :=
  after (link "ant|is_a|cat" "is_a" "dog" 1%Q None)
        (after (link "bug" "is_a" "cat|is_a|dog" 1%Q None)
               (after (link "ant" "is_a" "bug" 1%Q None) pristine)).

Definition colliding_input : string :=
  "ant and bug and cat|is_a|dog and ant|is_a|cat and dog".

(** The same store and input with another character in the labels. *)
Definition plain_store : World :=
  after (link "ant_is_a_cat" "is_a" "dog" 1%Q None)
        (after (link "bug" "is_a" "cat_is_a_dog" 1%Q None)
               (after (link "ant" "is_a" "bug" 1%Q None) pristine)).

Definition plain_input : string :=
  "ant and bug and cat_is_a_dog and ant_is_a_cat and dog".

End Scenario.

(* ================================================================== *)
(** * Traversal: the rest of the store API (store/knowledge-graph.ts)  *)
(* ================================================================== *)

Module Traverse.
Import Text Js Memory Store.

Definition find_noun_by_id (g : Graph) (id : string) : option Noun :=
  match find (fun r => String.eqb (nr_id r) id) (nouns g) with
  | Some row => Some (noun_of_row row)
  | None => None
  end.

Definition findNounById (id : string) : Eff (option Noun) :=
  read (fun g => find_noun_by_id g id).

(** An edge of a path: a row of [relationsFrom], the relation with the
    noun it leads to. *)
Definition Hop : Type := (Relation * Noun)%type.

(** What [traverse] records for a noun it reaches. *)
Record Visit : Type := MkVisit {
  v_noun : Noun;
  v_depth : nat;
  v_path : list Hop
}.

(** An entry of the queue. *)
Record Pending : Type := MkPending {
  p_id : string;
  p_depth : nat;
  p_path : list Hop
}.

(** The body of [for (const rel of rels)]. *)
Definition visit_step (depth : nat) (path : list Hop)
           (st : list (string * Visit) * list Pending) (rel : Hop)
  : list (string * Visit) * list Pending :=
  if map_has (fst st) (r_to_id (fst rel)) then st
  else (map_set (r_to_id (fst rel)) (MkVisit (snd rel) (S depth) (path ++ [rel])) (fst st),
        snd st ++ [MkPending (r_to_id (fst rel)) (S depth) (path ++ [rel])]).

(** [while (queue.length > 0)]: one unit of fuel per round; [None] when
    the fuel runs out before the queue does. *)
Fixpoint traverse_loop (g : Graph) (maxDepth : nat) (fuel : nat) (queue : list Pending)
         (visited : list (string * Visit)) : option (list (string * Visit)) :=
  match queue with
  | [] => Some visited
  | item :: rest =>
      match fuel with
      | 0 => None
      | S fuel' =>
          if maxDepth <=? p_depth item then traverse_loop g maxDepth fuel' rest visited
          else
            let st := fold_left (visit_step (p_depth item) (p_path item))
                                (relations_from g (p_id item) None) (visited, rest) in
            traverse_loop g maxDepth fuel' (snd st) (fst st)
      end
  end.

(** Traverse the graph N hops from a starting noun. BFS. *)
Definition traverse (g : Graph) (startId : string) (maxDepth : nat)
  : option (list (string * Visit)) :=
  traverse_loop g maxDepth (S (List.length (relations g)))
                [MkPending startId 0 []]
                (match find_noun_by_id g startId with
                 | Some startNoun => map_set startId (MkVisit startNoun 0 []) []
                 | None => []
                 end).

End Traverse.

(* ================================================================== *)
(** * Conversation titles (server/lib/socratic.ts)                     *)
(* ================================================================== *)

Module Socratic.
Import Text Regex.

(** [/\n/g]. *)
Definition newline : re := Chr (ascii_of_nat 10).

(** [s.slice(0, n)]. *)
Definition slice_to (n : nat) (s : string) : string := str (firstn n (chars s)).

(** Generate a conversation title from the first user message. *)
Definition generateTitle (firstMessage : string) : string :=
  let title := slice_to 50 (trim (replace_all newline " " firstMessage)) in
  if String.length title <? String.length (trim firstMessage)
  then title ++ "..."
  else title.

End Socratic.

(* ================================================================== *)
(** * Laws: the predicates the further properties are stated with      *)
(* ================================================================== *)

Module Laws.
Import Text Js Memory Store Core Demons Hypervisor Traverse.

(** A working memory as the code builds it: a [Map] has one entry per
    key, and [writeSlot] files every slot under its own id. *)
Definition keyed (m : WorkingMemory) : Prop :=
  NoDup (map fst (wm_slots m))
  /\ Forall (fun kv => s_id (snd kv) = fst kv) (wm_slots m).

(** Every id in focus names a slot. *)
Definition focus_ok (m : WorkingMemory) : Prop :=
  Forall (fun id => map_has (wm_slots m) id = true) (wm_focus m).

(** What [tick] does to a slot: a ttl of zero never decays, a ttl of
    one expires, a larger ttl loses one. *)
Definition decayed (s : MemSlot) : option MemSlot :=
  match s_ttl s with
  | 0 => Some s
  | 1 => None
  | S (S _) => Some (decay s)
  end.

(** Referential integrity: both ends of every relation are nouns. *)
Definition integrity (g : Graph) : Prop :=
  Forall (fun r => noun_exists g (rr_from_id r) = true
                   /\ noun_exists g (rr_to_id r) = true)
         (relations g).

(** The primary keys: no two nouns and no two relations share an id. *)
Definition keys_unique (g : Graph) : Prop :=
  NoDup (map nr_id (nouns g)) /\ NoDup (map rr_id (relations g)).

(** A path that leaves [from]: every hop starts where the one before
    ends. *)
Fixpoint walks (from : string) (path : list Hop) : Prop :=
  match path with
  | [] => True
  | hop :: rest => r_from_id (fst hop) = from
                   /\ n_id (snd hop) = r_to_id (fst hop)
                   /\ walks (r_to_id (fst hop)) rest
  end.

(** Where a path that leaves [from] ends. *)
Fixpoint path_end (from : string) (path : list Hop) : string :=
  match path with
  | [] => from
  | hop :: rest => path_end (r_to_id (fst hop)) rest
  end.

(** What holds of every noun [traverse] has visited from [start]: it
    is filed under its id, at a depth of at most [maxDepth], with a path
    of that length from the start. *)
Definition reached (g : Graph) (start : string) (maxDepth : nat) (kv : string * Visit)
  : Prop :=
  v_depth (snd kv) <= maxDepth
  /\ List.length (v_path (snd kv)) = v_depth (snd kv)
  /\ walks start (v_path (snd kv))
  /\ path_end start (v_path (snd kv)) = fst kv
  /\ n_id (v_noun (snd kv)) = fst kv
  /\ noun_exists g (fst kv) = true.

(** What holds of every entry of the queue of [traverse]. *)
Definition queued (start : string) (item : Pending) : Prop :=
  List.length (p_path item) = p_depth item
  /\ walks start (p_path item)
  /\ path_end start (p_path item) = p_id item.

(** The targets of relations that [traverse] has not visited yet. *)
Definition unvisited (g : Graph) (visited : list (string * Visit)) : nat :=
  List.length (filter (fun id => negb (map_has visited id)) (map rr_to_id (relations g))).

(** The tag of a slot is one that the end of a turn evicts. *)
Definition turn_tagged (s : MemSlot) : bool := includes tagsToEvict (s_tag s).

(** A demon that never evicts a slot and never sets the focus. *)
Definition quiet (d : Demon) : Prop :=
  forall input w output w',
    dm_run d input w = (Some output, w') -> o_evict output = [] /\ o_focus output = [].

(** The place of a demon in a registry, counted from its head; the
    length of the registry when the id is not registered. *)
Fixpoint position (reg : Registry) (id : string) : nat :=
  match reg with
  | [] => 0
  | entry :: rest => if String.eqb (fst entry) id then 0 else S (position rest id)
  end.

(** The place of a seed demon in [DEMONS]: parse, relate, infer,
    decompose, analogize, question, learn. *)
Definition stage (id : string) : nat := position DEMONS id.

(** Every chain hint of an output names a demon registered after [id]
    and before learn. *)
Definition forward (id : string) (output : DemonOutput) : Prop :=
  Forall (fun next => stage id < stage next /\ stage next < stage "learn") (o_chain output).

(** The demons between parse and learn: relate, infer, decompose,
    analogize and question. *)
Definition reasoning (id : string) : Prop := 0 < stage id /\ stage id < stage "learn".

(** The demons fired in a turn, tick after tick. *)
Definition fired_in (ticks : list TickResult) : list string :=
  flat_map t_demons_fired ticks.

(** Parse fires first, and the reasoning demons after it. *)
Definition parse_first (fired : list string) : Prop :=
  fired = [] \/ exists rest, fired = "parse" :: rest /\ Forall reasoning rest.

(** A turn of the seed registry between two ticks: nothing has fired
    and the queue holds parse alone or nothing, or parse fired first and
    the queue holds reasoning demons only. *)
Definition parse_led (t : TurnState) : Prop :=
  (fired_in (tn_ticks t) = []
   /\ (tn_pendingDemons t = ["parse"] \/ tn_pendingDemons t = []))
  \/ (Forall reasoning (tn_pendingDemons t)
      /\ exists rest, fired_in (tn_ticks t) = "parse" :: rest /\ Forall reasoning rest).

(** An output that evicts nothing, sets no focus and hints forward. *)
Definition tame (id : string) (output : DemonOutput) : Prop :=
  o_evict output = [] /\ o_focus output = [] /\ forward id output.

(** What the record of a tick shows of its batch: no demon fired
    twice, at most [maxDemonsPerTick] of them fired, and each of them is
    registered. *)
Definition tick_ok (reg : Registry) (cfg : HypervisorConfig) (tr : TickResult) : Prop :=
  NoDup (t_demons_fired tr)
  /\ List.length (t_demons_fired tr) <= maxDemonsPerTick cfg
  /\ Forall (fun id => map_has reg id = true) (t_demons_fired tr).

(** The same while the batch fires: every demon that has fired is
    marked as fired this tick. *)
Definition batch_ok (reg : Registry) (ts : TickState) : Prop :=
  NoDup (ts_demonsFired ts)
  /\ Forall (fun id => In id (ts_firedThisTick ts) /\ map_has reg id = true)
            (ts_demonsFired ts).

(** The books of a turn between two ticks, for a turn that started at
    tick [first]. *)
Definition turn_ok (reg : Registry) (cfg : HypervisorConfig) (first : nat) (t : TurnState)
  : Prop :=
  wm_tick (tn_memory t) = first + List.length (tn_ticks t)
  /\ map t_tick (tn_ticks t) = seq first (List.length (tn_ticks t))
  /\ Forall (tick_ok reg cfg) (tn_ticks t)
  /\ tn_allActions t = List.concat (map t_actions (tn_ticks t)).

(** Two edges that chain into [e], at [factor] times the smaller
    weight. *)
Definition chains (factor : Q) (r1 r2 e : Core.RelContent) : Prop :=
  rc_from e = rc_from r1 /\ rc_to e = rc_to r2
  /\ rc_weight e = (Qmin (rc_weight r1) (rc_weight r2) * factor)%Q.

(** An edge the transitive rule may draw from a list: r1 of a
    transitive type, r2 of the same type leaving where r1 arrives and
    not returning to where r1 leaves. *)
Definition chained (relations : list Core.RelContent) (types : list string)
           (e : Core.RelContent) : Prop :=
  exists r1 r2,
    In r1 relations /\ In r2 relations
    /\ includes types (rc_type r1) = true
    /\ rc_type r2 = rc_type r1 /\ rc_from r2 = rc_to r1 /\ rc_to r2 <> rc_from r1
    /\ rc_type e = rc_type r1 /\ chains (9 # 10) r1 r2 e.

(** An edge the inheritance rule may draw from a list: an is_a edge
    and a has or requires edge that leaves where it arrives. *)
Definition inherited (relations : list Core.RelContent) (e : Core.RelContent) : Prop :=
  exists isa p,
    In isa relations /\ In p relations
    /\ rc_type isa = "is_a" /\ (rc_type p = "has" \/ rc_type p = "requires")
    /\ rc_from p = rc_to isa
    /\ rc_type e = rc_type p /\ chains (85 # 100) isa p e.

(** What an inference loop keeps true of its state: [sound] holds of
    every edge inferred so far, the keys of those edges are distinct and
    not keys of the list, and the key set holds them all. *)
Definition infer_kept (relations : list Core.RelContent) (sound : Core.RelContent -> Prop)
           (st : Infer.InferState) : Prop :=
  Forall sound (fst st)
  /\ Forall (fun e => ~ In (Infer.key_of e) (map Infer.key_of relations)) (fst st)
  /\ NoDup (map Infer.key_of (fst st))
  /\ (forall e, In e (fst st) -> In (Infer.key_of e) (snd st))
  /\ (forall k, In k (map Infer.key_of relations) -> In k (snd st)).

(** A contradiction that the list bears out: two equals edges of the
    list about the same concept, with different targets or with targets
    that an opposes edge of the list sets against each other. *)
Definition borne_out (relations : list Core.RelContent) (c : Infer.Contradiction) : Prop :=
  In (Infer.c_claim1 c) relations /\ In (Infer.c_claim2 c) relations
  /\ rc_type (Infer.c_claim1 c) = "equals" /\ rc_type (Infer.c_claim2 c) = "equals"
  /\ rc_from (Infer.c_claim1 c) = Infer.c_concept c
  /\ rc_from (Infer.c_claim2 c) = Infer.c_concept c
  /\ (rc_to (Infer.c_claim1 c) <> rc_to (Infer.c_claim2 c)
      \/ exists opp,
           In opp relations /\ rc_type opp = "opposes"
           /\ ((rc_to (Infer.c_claim1 c) = rc_from opp /\ rc_to (Infer.c_claim2 c) = rc_to opp)
               \/ (rc_to (Infer.c_claim1 c) = rc_to opp
                   /\ rc_to (Infer.c_claim2 c) = rc_from opp))).

(** The marks [extractNounPhrases] replaces by a space. *)
Definition is_mark (c : ascii) : bool :=
  existsb (Ascii.eqb c) (chars ("?!.,;:'()[]{}" ++ dq)).

(** A character of a word of a noun phrase: no upper-case letter, no
    mark, no space. *)
Definition plain (c : ascii) : Prop :=
  is_upper c = false /\ is_mark c = false /\ c <> " "%char.

(** A character of the cleaned text: a space or a plain character. *)
Definition clean_char (c : ascii) : Prop := c = " "%char \/ plain c.

(** A noun phrase as [extractNounPhrases] builds them: one or more
    words joined by a space, none of them a stop word or shorter than
    two characters, all of them made of plain characters. *)
Definition noun_phrase (p : string) : Prop :=
  exists ws, ws <> [] /\ p = join " " ws
             /\ Forall (fun w => 1 < String.length w /\ ~ In w Parse.stopWords
                                 /\ Forall plain (chars w)) ws.

(** The states an engine goes through: the one [createEngine] gives,
    and the one after any turn from such a state, on any input and in
    any world. *)
Inductive reachable (cfg : option PartialConfig) : HypervisorState -> Prop :=
| reach_start : reachable cfg (Engine.createEngine cfg)
| reach_turn (state : HypervisorState) (input : string) (w : World) :
    reachable cfg state ->
    reachable cfg (snd (fst (Engine.process state input w))).

(** What holds of an engine between two turns. *)
Definition settled (cfg : option PartialConfig) (state : HypervisorState) : Prop :=
  keyed (memory state)
  /\ wm_focus (memory state) = []
  /\ Forall (fun kv => turn_tagged (snd kv) = false) (wm_slots (memory state))
  /\ config state = config (Engine.createEngine cfg)
  /\ initialized state = true
  /\ wm_tick (memory state) = List.length (history state)
  /\ map t_tick (history state) = seq 0 (List.length (history state))
  /\ Forall (tick_ok DEMONS (config state)) (history state).

(** A line feed becomes a space. *)
Definition unfolded (c : ascii) : ascii :=
  if Ascii.eqb c (ascii_of_nat 10) then " "%char else c.

End Laws.

(* ================================================================== *)
(** * Further fixtures                                                 *)
(* ================================================================== *)

Module Fixtures.
Import Text Js Memory Store Core Scenario.

(** A slot that expires at the next tick, one that has two ticks left,
    and one that never decays; the first and the last are in focus. *)
Definition fading : WorkingMemory :=
  MkMem [("x", MkSlot "x" None (JStr "x") "note" (1 # 2) "user" 1 1);
         ("y", MkSlot "y" None (JStr "y") "note" (1 # 2) "user" 2 2);
         ("z", MkSlot "z" None (JStr "z") "note" (1 # 2) "user" 0 3)]
        ["x"; "z"] 3.

(** Two equals edges that give one concept two values. *)
Definition rivals : list RelContent :=
  [MkRel "x" "equals" "1" 1; MkRel "x" "equals" "2" 1].

(** The id of the noun dog in the store of [zoo]. *)
Definition dog_id : string :=
  match find_noun (graph zoo) "dog" with Some n => n_id n | None => "" end.

(** A working memory that holds the intent of a greeting and nothing else. *)
Definition greeted : WorkingMemory :=
  MkMem [("i", MkSlot "i" None (JStr "greeting") "intent" (9 # 10) "parse" 0 1)] [] 1.

End Fixtures.

(* ================================================================== *)
(** * Facts about sorting                                              *)
(* ================================================================== *)

Section Sorting.
Import Text Invariants.

Variable A : Type.
Variable cmp : A -> A -> comparison.
Variable le : A -> A -> Prop.

Hypothesis le_of_cmp : forall x y, cmp x y <> Gt -> le x y.
Hypothesis le_of_gt : forall x y, cmp x y = Gt -> le y x.
Hypothesis le_trans : forall x y z, le x y -> le y z -> le x z.

Lemma sort_insert_perm (x : A) (l : list A) : Permutation (sort_insert cmp x l) (x :: l).
Proof.
  induction l as [|y t IH]; simpl.
  - apply Permutation_refl.
  - destruct (cmp x y); try apply Permutation_refl.
    apply perm_trans with (y :: x :: t).
    + apply perm_skip, IH.
    + apply perm_swap.
Qed.

Lemma sort_by_perm (l : list A) : Permutation (sort_by cmp l) l.
Proof.
  induction l as [|x t IH]; simpl.
  - apply perm_nil.
  - apply perm_trans with (x :: sort_by cmp t).
    + apply sort_insert_perm.
    + apply perm_skip, IH.
Qed.

Lemma sort_insert_sorted (x : A) (l : list A) :
  StronglySorted le l -> StronglySorted le (sort_insert cmp x l).
Proof.
  induction 1 as [|y t Hs IH Hall]; simpl.
  - constructor; constructor.
  - destruct (cmp x y) eqn:E.
    + constructor; [constructor; assumption|].
      assert (Hxy : le x y) by (apply le_of_cmp; congruence).
      constructor; [assumption|].
      eapply Forall_impl; [|exact Hall]. intros z Hz. eapply le_trans; eauto.
    + constructor; [constructor; assumption|].
      assert (Hxy : le x y) by (apply le_of_cmp; congruence).
      constructor; [assumption|].
      eapply Forall_impl; [|exact Hall]. intros z Hz. eapply le_trans; eauto.
    + constructor; [assumption|].
      eapply Permutation_Forall.
      * apply Permutation_sym, sort_insert_perm.
      * constructor; [apply le_of_gt; assumption | assumption].
Qed.

Lemma sort_by_sorted (l : list A) : StronglySorted le (sort_by cmp l).
Proof.
  induction l as [|x t IH]; simpl.
  - constructor.
  - apply sort_insert_sorted, IH.
Qed.

End Sorting.

(* ================================================================== *)
(** * Facts about working memory                                       *)
(* ================================================================== *)

Section MemoryFacts.
Import Text Js Memory Reference Invariants.

Lemma map_delete_perm (A : Type) (k : string) (m : list (string * A)) :
  In k (map fst m) ->
  Permutation (map fst m) (k :: map fst (map_delete k m)).
Proof.
  induction m as [|[k' v] t IH]; simpl; intros Hin.
  - contradiction.
  - destruct (String.eqb k' k) eqn:E.
    + apply String.eqb_eq in E. subst. apply Permutation_refl.
    + destruct Hin as [Heq|Hin].
      * subst. rewrite String.eqb_refl in E. discriminate.
      * simpl. apply perm_trans with (k' :: k :: map fst (map_delete k t)).
        -- apply perm_skip, IH, Hin.
        -- apply perm_swap.
Qed.

Lemma map_delete_length (A : Type) (k : string) (m : list (string * A)) :
  List.length (map_delete k m) <= List.length m.
Proof.
  induction m as [|[k' v] t IH]; simpl; [lia|].
  destruct (String.eqb k' k); simpl; lia.
Qed.







(** The eviction loop removes the first [length slots - maxSlots] entries
    of the sorted list, and what stays is the rest of it. *)
Lemma evict_loop_spec (sorted slots : list (string * MemSlot)) (maxSlots : nat)
      (evicted : list string) :
  Permutation (map fst sorted) (map fst slots) ->
  let n := List.length slots - maxSlots in
  let r := evict_loop sorted slots maxSlots evicted in
  snd r = evicted ++ map fst (firstn n sorted)
  /\ Permutation (map fst (fst r)) (map fst (skipn n sorted)).
Proof.
  revert slots evicted.
  induction sorted as [|[id s] rest IH]; intros slots evicted Hperm n r; subst n r.
  - apply Permutation_nil in Hperm. destruct slots; [|discriminate]. simpl.
    rewrite app_nil_r. split; [reflexivity|apply perm_nil].
  - simpl evict_loop. destruct (maxSlots <? List.length slots) eqn:E.
    + apply Nat.ltb_lt in E.
      assert (Hin : In id (map fst slots)).
      { eapply Permutation_in; [exact Hperm|]. left. reflexivity. }
      pose proof (map_delete_perm id slots Hin) as Hdel.
      assert (Hrest : Permutation (map fst rest) (map fst (map_delete id slots))).
      { apply Permutation_cons_inv with (a := id).
        eapply perm_trans; [exact Hperm|exact Hdel]. }
      assert (Hlen : List.length slots = S (List.length (map_delete id slots))).
      { apply Permutation_length in Hdel. simpl in Hdel.
        rewrite !length_map in Hdel. exact Hdel. }
      specialize (IH (map_delete id slots) (evicted ++ [id]) Hrest).
      simpl in IH. destruct IH as [IH1 IH2].
      replace (List.length slots - maxSlots)
        with (S (List.length (map_delete id slots) - maxSlots)) by lia.
      simpl. split.
      * rewrite IH1. rewrite <- app_assoc. reflexivity.
      * exact IH2.
    + apply Nat.ltb_ge in E.
      replace (List.length slots - maxSlots) with 0 by lia.
      simpl. split.
      * rewrite app_nil_r. reflexivity.
      * apply Permutation_sym. exact Hperm.
Qed.

Lemma enforceLimit_spec (m : WorkingMemory) (maxSlots : nat) :
  let sorted := sort_by (limit_cmp (wm_focus m)) (wm_slots m) in
  let n := size m - maxSlots in
  snd (enforceLimit m maxSlots) = map fst (firstn n sorted)
  /\ Permutation (map fst (wm_slots (fst (enforceLimit m maxSlots))))
                 (map fst (skipn n sorted)).
Proof.
  intros sorted n. subst sorted n. unfold enforceLimit.
  destruct (size m <=? maxSlots) eqn:E.
  - apply Nat.leb_le in E. replace (size m - maxSlots) with 0 by lia. simpl.
    split; [reflexivity|].
    apply Permutation_map, Permutation_sym, sort_by_perm.
  - assert (Hperm : Permutation (map fst (sort_by (limit_cmp (wm_focus m)) (wm_slots m)))
                                (map fst (wm_slots m))).
    { apply Permutation_map, sort_by_perm. }
    pose proof (evict_loop_spec _ _ maxSlots [] Hperm) as H. simpl in H.
    destruct (evict_loop (sort_by (limit_cmp (wm_focus m)) (wm_slots m)) (wm_slots m)
                         maxSlots []) as [slots evicted].
    simpl in *. exact H.
Qed.

Lemma enforceLimit_size (m : WorkingMemory) (maxSlots : nat) :
  size (fst (enforceLimit m maxSlots)) <= maxSlots.
Proof.
  destruct (enforceLimit_spec m maxSlots) as [_ H].
  apply Permutation_length in H. rewrite !length_map in H.
  unfold size in *. rewrite H. rewrite length_skipn.
  pose proof (Permutation_length (sort_by_perm (limit_cmp (wm_focus m)) (wm_slots m))) as L.
  rewrite L. lia.
Qed.

End MemoryFacts.

(* ================================================================== *)
(** * Facts about the scheduler                                        *)
(* ================================================================== *)

Section SchedulerFacts.
Import Text Js Memory Store Core Demons Hypervisor Reference Invariants.

Variable reg : Registry.
Variable cfg : HypervisorConfig.

Lemma applyDemonOutput_size (m : WorkingMemory) (output : DemonOutput) (maxSlots : nat)
      (w : World) :
  size (fst (fst (applyDemonOutput m output maxSlots w))) <= maxSlots.
Proof.
  unfold applyDemonOutput.
  destruct (write_all (o_write output) m w []) as [[m1 written] w1].
  destruct (evict_all (o_evict output) m1 []) as [m2 evicted].
  set (m3 := match o_focus output with [] => m2 | _ :: _ => setFocus m2 (o_focus output) end).
  pose proof (enforceLimit_size m3 maxSlots) as H.
  destruct (enforceLimit m3 maxSlots) as [m4 overflow]. simpl in *. exact H.
Qed.

(** What firing one demon does to the fields the proofs follow. *)
Lemma after_output_fields (demonId : string) (output : DemonOutput) (ts : TickState) (w : World) :
  let r := fst (after_output cfg demonId output ts w) in
  size (ts_memory r) <= maxMemorySlots cfg
  /\ ts_demonsFired r = ts_demonsFired ts ++ [demonId]
  /\ ts_firedThisTick r = ts_firedThisTick ts
  /\ ts_tickActions r = ts_tickActions ts ++ o_actions output
  /\ ts_response r = scan_response (ts_response ts) (o_actions output).
Proof.
  unfold after_output.
  pose proof (applyDemonOutput_size (ts_memory ts) output (maxMemorySlots cfg) w) as H.
  destruct (applyDemonOutput (ts_memory ts) output (maxMemorySlots cfg) w)
    as [[m [written evicted]] w']. simpl in *.
  repeat split; try reflexivity. exact H.
Qed.






End SchedulerFacts.

Section TurnFacts.
Import Text Js Memory Store Core Demons Hypervisor Reference Invariants.

Variable reg : Registry.
Variable cfg : HypervisorConfig.

Lemma includes_In (l : list string) (x : string) : includes l x = true <-> In x l.
Proof.
  unfold includes. rewrite existsb_exists. split.
  - intros [y [Hy E]]. apply String.eqb_eq in E. subst. exact Hy.
  - intros H. exists x. split; [exact H|apply String.eqb_refl].
Qed.

Lemma includes_false (l : list string) (x : string) : includes l x = false <-> ~ In x l.
Proof.
  rewrite <- includes_In. destruct (includes l x); split; intros H; congruence.
Qed.

(** ** The tick budget *)

Lemma run_tick_ticks (t : TurnState) :
  List.length (tn_ticks (run_tick reg cfg t)) = S (List.length (tn_ticks t)).
Proof.
  unfold run_tick. cbn [tn_ticks]. rewrite length_app. simpl. apply Nat.add_1_r.
Qed.

Lemma run_ticks_step (n : nat) (t : TurnState) :
  run_ticks reg cfg (S n) t =
  match tn_pendingDemons t with
  | [] => t
  | _ :: _ =>
      if negb (String.eqb (tn_response (run_tick reg cfg t)) "")
         && match tn_pendingDemons (run_tick reg cfg t) with [] => true | _ :: _ => false end
      then run_tick reg cfg t
      else run_ticks reg cfg n (run_tick reg cfg t)
  end.
Proof. reflexivity. Qed.

Lemma run_ticks_length (n : nat) (t : TurnState) :
  List.length (tn_ticks (run_ticks reg cfg n t)) <= List.length (tn_ticks t) + n.
Proof.
  revert t. induction n as [|n IH]; intros t.
  - simpl. apply Nat.le_add_r.
  - rewrite run_ticks_step.
    destruct (tn_pendingDemons t); [apply Nat.le_add_r|].
    destruct (negb (String.eqb (tn_response (run_tick reg cfg t)) "")
              && match tn_pendingDemons (run_tick reg cfg t) with
                 | [] => true
                 | _ :: _ => false
                 end).
    + rewrite run_tick_ticks. rewrite <- Nat.add_succ_comm. apply Nat.le_add_r.
    + eapply Nat.le_trans; [apply IH|]. rewrite run_tick_ticks.
      rewrite Nat.add_succ_comm. apply Nat.le_refl.
Qed.

Lemma run_learn_ticks (t : TurnState) :
  tn_ticks (run_learn reg cfg t) = tn_ticks t
  /\ tn_response (run_learn reg cfg t) = tn_response t.
Proof.
  unfold run_learn. destruct (getDemon reg "learn") as [d|]; [|split; reflexivity].
  destruct (dm_run d _ (tn_world t)) as [[output|] w]; [|split; reflexivity].
  destruct (applyDemonOutput (tn_memory t) output (maxMemorySlots cfg) w) as [[m x] w'].
  split; reflexivity.
Qed.

Lemma run_ticks_idle (n : nat) (t : TurnState) :
  tn_pendingDemons t = [] -> run_ticks reg cfg n t = t.
Proof.
  intros H. destruct n; [reflexivity|]. rewrite run_ticks_step, H. reflexivity.
Qed.

Lemma run_ticks_stop (n : nat) (t : TurnState) :
  tn_pendingDemons t <> [] ->
  tn_pendingDemons (run_tick reg cfg t) = [] ->
  tn_response (run_tick reg cfg t) <> "" ->
  run_ticks reg cfg (S n) t = run_tick reg cfg t.
Proof.
  intros Hp Hq Hr. rewrite run_ticks_step. destruct (tn_pendingDemons t); [contradiction|].
  rewrite Hq. apply String.eqb_neq in Hr. rewrite Hr. reflexivity.
Qed.

(** ** The response *)

Lemma scan_response_cases (r : string) (acts : list DemonAction) :
  scan_response r acts = r \/ In (respond (scan_response r acts)) acts.
Proof.
  unfold scan_response. revert r. induction acts as [|a t IH]; intros r; simpl.
  - left. reflexivity.
  - destruct (IH (match a with respond text => text | _ => r end)) as [H|H].
    + rewrite H. destruct a; try (left; reflexivity). right. left. reflexivity.
    + right. right. exact H.
Qed.

Lemma fire_answered (r0 : string) (startTime tick : nat) (demonId : string) (ts : TickState) :
  answered r0 ts -> answered r0 (fst (fire reg cfg startTime tick demonId ts)).
Proof.
  unfold answered, fire. intros H.
  destruct (includes (ts_firedThisTick ts) demonId); [exact H|].
  destruct (getDemon reg demonId) as [demon|]; [|exact H].
  destruct (clock (ts_world (mark_fired ts demonId))) as [now w].
  destruct (tickTimeoutMs cfg <? now - startTime).
  { simpl. destruct H as [H|H]; [left; exact H|right; apply in_or_app; left; exact H]. }
  destruct (dm_run demon _ w) as [[output|] w'].
  - destruct (after_output_fields cfg demonId output (mark_fired ts demonId) w')
      as (_ & _ & _ & Ha & Hr).
    rewrite Ha, Hr. simpl.
    destruct (scan_response_cases (ts_response ts) (o_actions output)) as [E|E].
    + rewrite E. destruct H as [H|H]; [left; exact H|right; apply in_or_app; left; exact H].
    + right. apply in_or_app. right. exact E.
  - simpl. destruct H as [H|H]; [left; exact H|right; apply in_or_app; left; exact H].
Qed.

Lemma fire_demons_answered (r0 : string) (startTime tick : nat) (toFire : list string)
      (ts : TickState) :
  answered r0 ts -> answered r0 (fire_demons reg cfg startTime tick toFire ts).
Proof.
  revert ts. induction toFire as [|demonId rest IH]; intros ts H; simpl; [exact H|].
  pose proof (fire_answered startTime tick demonId H) as H'.
  destruct (fire reg cfg startTime tick demonId ts) as [ts' stop]. simpl in H'.
  destruct stop; [exact H'|apply IH, H'].
Qed.

Lemma run_tick_replied (t : TurnState) : replied t -> replied (run_tick reg cfg t).
Proof.
  intros H.
  assert (A : answered (tn_response t) (fire_batch reg cfg t)).
  { unfold fire_batch. destruct (clock (tn_world t)) as [startTime w0].
    apply fire_demons_answered. left. reflexivity. }
  unfold replied, run_tick. cbn [tn_response tn_ticks].
  destruct A as [A|A].
  - rewrite A. destruct H as [H|[tr [Hin Hact]]]; [left; exact H|].
    right. exists tr. split; [apply in_or_app; left; exact Hin|exact Hact].
  - right. eexists. split; [apply in_or_app; right; left; reflexivity|]. exact A.
Qed.

Lemma run_ticks_replied (n : nat) (t : TurnState) :
  replied t -> replied (run_ticks reg cfg n t).
Proof.
  revert t. induction n as [|n IH]; intros t H; [exact H|].
  rewrite run_ticks_step.
  destruct (tn_pendingDemons t); [exact H|].
  pose proof (run_tick_replied H) as H'.
  destruct (negb (String.eqb (tn_response (run_tick reg cfg t)) "")
            && match tn_pendingDemons (run_tick reg cfg t) with
               | [] => true
               | _ :: _ => false
               end); [exact H'|apply IH, H'].
Qed.

(** ** Chain hints for a demon that has fired *)

Lemma collect_chain_fired (response : string) (fired chain next : list string) (id : string) :
  In id fired ->
  In id (collect_chain response fired chain next) -> In id next.
Proof.
  unfold collect_chain. intros Hf H.
  destruct (String.eqb response ""); [|exact H].
  apply in_app_or in H. destruct H as [H|H]; [exact H|].
  apply filter_In in H. destruct H as [_ H].
  apply includes_In in Hf. rewrite Hf in H. discriminate.
Qed.

Lemma count_occ_last (l : list string) (x y : string) :
  x <> y -> count_occ string_dec (l ++ [y]) x = count_occ string_dec l x.
Proof.
  intros H. rewrite count_occ_app. simpl.
  destruct (string_dec y x); [congruence|]. apply Nat.add_0_r.
Qed.

(** What one iteration keeps for an id that has fired this tick. *)
Lemma fire_keeps (startTime tick : nat) (demonId : string) (ts : TickState) (id : string) :
  In id (ts_firedThisTick ts) ->
  let r := fst (fire reg cfg startTime tick demonId ts) in
  In id (ts_firedThisTick r)
  /\ count_occ string_dec (ts_demonsFired r) id = count_occ string_dec (ts_demonsFired ts) id
  /\ (In id (ts_nextDemons r) -> In id (ts_nextDemons ts))
  /\ (In id (ts_pendingDemons r) -> In id (ts_pendingDemons ts)).
Proof.
  intros Hf. unfold fire.
  destruct (includes (ts_firedThisTick ts) demonId) eqn:Ei.
  { simpl. repeat split; auto. }
  assert (Hne : id <> demonId).
  { intros ->. apply includes_In in Hf. congruence. }
  assert (Hf' : In id (ts_firedThisTick (mark_fired ts demonId))).
  { simpl. apply in_or_app. left. exact Hf. }
  destruct (getDemon reg demonId) as [demon|]; [|simpl; repeat split; auto].
  destruct (clock (ts_world (mark_fired ts demonId))) as [now w].
  destruct (tickTimeoutMs cfg <? now - startTime); [simpl; repeat split; auto|].
  destruct (dm_run demon _ w) as [[output|] w']; [|simpl; repeat split; auto].
  unfold after_output.
  destruct (applyDemonOutput (ts_memory (mark_fired ts demonId)) output (maxMemorySlots cfg) w')
    as [[m [written evicted]] w''].
  cbn [fst ts_firedThisTick ts_demonsFired ts_nextDemons ts_pendingDemons mark_fired].
  split; [exact Hf'|]. split; [apply count_occ_last, Hne|].
  match goal with |- context [if ?b then [] else _] => destruct b end.
  - split; intros H; destruct H.
  - split; [|auto]. intros H. eapply collect_chain_fired; [exact Hf'|exact H].
Qed.

Lemma fire_demons_keeps (startTime tick : nat) (toFire : list string) (ts : TickState)
      (id : string) :
  In id (ts_firedThisTick ts) ->
  let r := fire_demons reg cfg startTime tick toFire ts in
  count_occ string_dec (ts_demonsFired r) id = count_occ string_dec (ts_demonsFired ts) id
  /\ (In id (ts_nextDemons r) -> In id (ts_nextDemons ts))
  /\ (In id (ts_pendingDemons r) -> In id (ts_pendingDemons ts)).
Proof.
  revert ts. induction toFire as [|demonId rest IH]; intros ts Hf; simpl.
  - repeat split; auto.
  - pose proof (fire_keeps startTime tick demonId ts id Hf) as K.
    destruct (fire reg cfg startTime tick demonId ts) as [ts' stop]. simpl in K.
    destruct K as (Hf' & Hc & Hn & Hp).
    destruct stop; [repeat split; auto|].
    destruct (IH ts' Hf') as (Hc' & Hn' & Hp').
    repeat split; [congruence|auto|auto].
Qed.

Lemma merge_pending_In (pending next : list string) (id : string) :
  In id (merge_pending pending next) -> In id pending \/ In id next.
Proof.
  unfold merge_pending. revert pending.
  induction next as [|x t IH]; intros pending H; simpl in H; [left; exact H|].
  apply IH in H. destruct H as [H|H]; [|right; right; exact H].
  destruct (includes pending x); [left; exact H|].
  apply in_app_or in H. destruct H as [H|[H|[]]]; [left; exact H|right; left; exact H].
Qed.

End TurnFacts.

(* ================================================================== *)
(** * Facts about maps, objects and JSON                               *)
(* ================================================================== *)

Section Stores.
Import Text Js Memory Invariants.

Variable A : Type.

Lemma obj_has_In (props : list (string * A)) (k : string) :
  obj_has props k = true <-> In k (map fst props).
Proof.
  induction props as [|[k' v] t IH]; simpl.
  - split; [discriminate|contradiction].
  - rewrite orb_true_iff, IH, String.eqb_eq. reflexivity.
Qed.

Lemma map_get_None (m : list (string * A)) (k : string) :
  map_get m k = None <-> ~ In k (map fst m).
Proof.
  induction m as [|[k' v] t IH]; simpl.
  - split; [auto|reflexivity].
  - destruct (String.eqb k' k) eqn:E.
    + apply String.eqb_eq in E. split; [discriminate|]. intros H. exfalso. apply H. left. exact E.
    + apply String.eqb_neq in E. rewrite IH. split.
      * intros H [H'|H']; [congruence|contradiction].
      * intros H H'. apply H. right. exact H'.
Qed.

Lemma map_get_In (m : list (string * A)) (k : string) (v : A) :
  NoDup (map fst m) -> (map_get m k = Some v <-> In (k, v) m).
Proof.
  induction m as [|[k' v'] t IH]; simpl; intros Hnd.
  - split; [discriminate|contradiction].
  - inversion Hnd as [|? ? Hnot Hnd']; subst.
    destruct (String.eqb k' k) eqn:E.
    + apply String.eqb_eq in E. subst. split.
      * intros H. injection H as ->. left. reflexivity.
      * intros [H|H]; [congruence|].
        exfalso. apply Hnot. apply in_map_iff. exists (k, v). split; [reflexivity|exact H].
    + apply String.eqb_neq in E. rewrite (IH Hnd'). split.
      * intros H. right. exact H.
      * intros [H|H]; [congruence|exact H].
Qed.

Lemma map_get_rev (m : list (string * A)) (k : string) :
  NoDup (map fst m) -> map_get (rev m) k = map_get m k.
Proof.
  intros Hnd.
  assert (Hnd' : NoDup (map fst (rev m))).
  { rewrite map_rev. apply NoDup_rev, Hnd. }
  destruct (map_get m k) as [v|] eqn:E.
  - apply (map_get_In _ _ _ Hnd'). apply -> in_rev. apply (map_get_In _ _ _ Hnd). exact E.
  - apply map_get_None. apply map_get_None in E. rewrite map_rev.
    intros H. apply E. apply in_rev. exact H.
Qed.

(** ** The law of a store: reading after writing *)

Lemma map_get_app (m1 m2 : list (string * A)) (k : string) :
  map_get (m1 ++ m2) k = match map_get m1 k with
                         | Some v => Some v
                         | None => map_get m2 k
                         end.
Proof.
  induction m1 as [|[k' v] t IH]; simpl; [reflexivity|].
  destruct (String.eqb k' k); [reflexivity|exact IH].
Qed.

Lemma fold_set_get (set : string -> A -> list (string * A) -> list (string * A))
      (l acc : list (string * A)) (k : string) :
  store_law set ->
  map_get (fold_left (fun acc kv => set (fst kv) (snd kv) acc) l acc) k =
  map_get (rev l ++ acc) k.
Proof.
  intros law. revert acc. induction l as [|[k' v] t IH]; intros acc; simpl.
  - reflexivity.
  - rewrite IH. rewrite !map_get_app. rewrite law. simpl.
    destruct (map_get (rev t) k); [reflexivity|].
    destruct (String.eqb k' k); reflexivity.
Qed.

Lemma map_set_law : store_law (@map_set A).
Proof.
  intros k' v m k. induction m as [|[k0 v0] t IH]; simpl.
  - reflexivity.
  - destruct (String.eqb k0 k') eqn:E; simpl.
    + apply String.eqb_eq in E. subst. destruct (String.eqb k' k); reflexivity.
    + rewrite IH. destruct (String.eqb k0 k) eqn:E'; [|reflexivity].
      apply String.eqb_eq in E'. subst. rewrite String.eqb_sym, E. reflexivity.
Qed.

Lemma obj_replace_get (k' : string) (v : A) (m : list (string * A)) (k : string) :
  obj_has m k' = true ->
  map_get (obj_replace k' v m) k = if String.eqb k' k then Some v else map_get m k.
Proof.
  induction m as [|[k0 v0] t IH]; simpl; [discriminate|].
  destruct (String.eqb k0 k') eqn:E; simpl.
  - intros _. apply String.eqb_eq in E. subst. destruct (String.eqb k' k); reflexivity.
  - intros H. rewrite (IH H). destruct (String.eqb k0 k) eqn:E'; [|reflexivity].
    apply String.eqb_eq in E'. subst. rewrite String.eqb_sym, E. reflexivity.
Qed.

Lemma obj_insert_index_get (n : N) (k' : string) (v : A) (m : list (string * A)) (k : string) :
  obj_has m k' = false ->
  map_get (obj_insert_index n k' v m) k = if String.eqb k' k then Some v else map_get m k.
Proof.
  induction m as [|[k0 v0] t IH]; simpl; [reflexivity|].
  intros H. apply orb_false_iff in H. destruct H as [E H].
  destruct (index_of k0) as [n'|]; [destruct (n' <? n)%N|]; simpl; try reflexivity.
  rewrite (IH H). destruct (String.eqb k0 k) eqn:E'; [|reflexivity].
  apply String.eqb_eq in E'. subst. rewrite String.eqb_sym, E. reflexivity.
Qed.

Lemma obj_set_law : store_law (@obj_set A).
Proof.
  intros k' v m k. unfold obj_set. destruct (obj_has m k') eqn:H.
  - apply obj_replace_get, H.
  - destruct (index_of k') as [n|].
    + apply obj_insert_index_get, H.
    + rewrite map_get_app. simpl.
      destruct (String.eqb k' k) eqn:E.
      * apply String.eqb_eq in E. subst.
        assert (N : map_get m k = None).
        { apply map_get_None. intros Hin. apply obj_has_In in Hin. congruence. }
        rewrite N. reflexivity.
      * destruct (map_get m k); reflexivity.
Qed.

(** ** Keys stay distinct *)

Lemma map_set_keys (k : string) (v : A) (m : list (string * A)) :
  NoDup (map fst m) -> NoDup (map fst (map_set k v m)).
Proof.
  induction m as [|[k0 v0] t IH]; simpl; intros H.
  - constructor; [intros []|constructor].
  - inversion H as [|? ? Hnot Hnd]; subst.
    destruct (String.eqb k0 k) eqn:E; simpl.
    + constructor; assumption.
    + constructor; [|apply IH, Hnd].
      intros Hin. apply Hnot. clear - Hin E.
      induction t as [|[k1 v1] t IH]; simpl in *.
      * destruct Hin as [Hin|[]]. subst. rewrite String.eqb_refl in E. discriminate.
      * destruct (String.eqb k1 k); simpl in Hin; destruct Hin as [Hin|Hin]; auto.
Qed.

Lemma obj_replace_keys (k : string) (v : A) (m : list (string * A)) :
  map fst (obj_replace k v m) = map fst m.
Proof.
  induction m as [|[k0 v0] t IH]; simpl; [reflexivity|].
  destruct (String.eqb k0 k); simpl; [reflexivity|]. rewrite IH. reflexivity.
Qed.

Lemma obj_insert_index_keys (n : N) (k : string) (v : A) (m : list (string * A)) :
  Permutation (map fst (obj_insert_index n k v m)) (k :: map fst m).
Proof.
  induction m as [|[k0 v0] t IH]; simpl; [apply Permutation_refl|].
  destruct (index_of k0) as [n'|]; [destruct (n' <? n)%N|]; simpl;
    try apply Permutation_refl.
  apply perm_trans with (k0 :: k :: map fst t); [apply perm_skip, IH|apply perm_swap].
Qed.

Lemma obj_set_keys (k : string) (v : A) (m : list (string * A)) :
  NoDup (map fst m) -> NoDup (map fst (obj_set k v m)).
Proof.
  intros H. unfold obj_set. destruct (obj_has m k) eqn:E.
  - rewrite obj_replace_keys. exact H.
  - assert (Hnot : ~ In k (map fst m)).
    { intros Hin. apply obj_has_In in Hin. congruence. }
    destruct (index_of k) as [n|].
    + eapply Permutation_NoDup; [apply Permutation_sym, obj_insert_index_keys|].
      constructor; assumption.
    + rewrite map_app. simpl.
      eapply Permutation_NoDup; [apply Permutation_cons_append|].
      constructor; assumption.
Qed.

Lemma fold_keys (set : string -> A -> list (string * A) -> list (string * A))
      (l acc : list (string * A)) :
  (forall k v m, NoDup (map fst m) -> NoDup (map fst (set k v m))) ->
  NoDup (map fst acc) ->
  NoDup (map fst (fold_left (fun acc kv => set (fst kv) (snd kv) acc) l acc)).
Proof.
  intros keep. revert acc. induction l as [|[k v] t IH]; intros acc H; simpl; [exact H|].
  apply IH, keep, H.
Qed.

(** Rebuilding a store from entries with distinct keys keeps every binding. *)
Lemma rebuilt_get (set : string -> A -> list (string * A) -> list (string * A))
      (l : list (string * A)) (k : string) :
  store_law set -> NoDup (map fst l) ->
  map_get (fold_left (fun acc kv => set (fst kv) (snd kv) acc) l []) k = map_get l k.
Proof.
  intros law H. rewrite (fold_set_get _ _ _ law). rewrite app_nil_r. apply map_get_rev, H.
Qed.

End Stores.

Section JsonFacts.
Import Text Js Memory Invariants.

Lemma map_get_Some_In (A : Type) (m : list (string * A)) (k : string) (v : A) :
  map_get m k = Some v -> In (k, v) m.
Proof.
  induction m as [|[k' v'] t IH]; simpl; [discriminate|].
  destruct (String.eqb k' k) eqn:E.
  - apply String.eqb_eq in E. subst. intros H. injection H as ->. left. reflexivity.
  - intros H. right. apply IH, H.
Qed.

(** The entries of a rebuilt object come from the entries it was built from. *)
Lemma fromEntries_In (A : Type) (l : list (string * A)) (k : string) (v : A) :
  In (k, v) (Object_fromEntries l) -> In (k, v) l.
Proof.
  intros H. unfold Object_fromEntries in H.
  assert (Hnd : NoDup (map fst (fold_left (fun acc kv => obj_set (fst kv) (snd kv) acc) l []))).
  { apply fold_keys; [apply obj_set_keys|constructor]. }
  apply (map_get_In _ _ _ Hnd) in H.
  rewrite (fold_set_get _ _ _ (@obj_set_law A)) in H. rewrite app_nil_r in H.
  apply map_get_Some_In in H. apply in_rev. exact H.
Qed.

(** ** Mapping the values of an object *)

Lemma obj_has_map (A B : Type) (f : A -> B) (m : list (string * A)) (k : string) :
  obj_has (map (on_values f) m) k = obj_has m k.
Proof.
  induction m as [|[k' v] t IH]; simpl; [reflexivity|]. rewrite IH. reflexivity.
Qed.

Lemma obj_set_map (A B : Type) (f : A -> B) (k : string) (v : A) (m : list (string * A)) :
  obj_set k (f v) (map (on_values f) m) = map (on_values f) (obj_set k v m).
Proof.
  unfold obj_set. rewrite obj_has_map. destruct (obj_has m k).
  - induction m as [|[k' v'] t IH]; simpl; [reflexivity|].
    destruct (String.eqb k' k); simpl; [reflexivity|]. rewrite IH. reflexivity.
  - destruct (index_of k) as [n|].
    + induction m as [|[k' v'] t IH]; simpl; [reflexivity|].
      destruct (index_of k') as [n'|]; [destruct (n' <? n)%N|]; simpl; try reflexivity.
      rewrite IH. reflexivity.
    + rewrite map_app. reflexivity.
Qed.

Lemma fold_obj_set_map (A B : Type) (f : A -> B) (l acc : list (string * A)) :
  fold_left (fun acc kv => obj_set (fst kv) (snd kv) acc) (map (on_values f) l)
            (map (on_values f) acc)
  = map (on_values f) (fold_left (fun acc kv => obj_set (fst kv) (snd kv) acc) l acc).
Proof.
  revert acc. induction l as [|[k v] t IH]; intros acc; simpl; [reflexivity|].
  rewrite <- IH. f_equal. apply obj_set_map.
Qed.

(** ** Unfolding the two conversions *)

Lemma stringify_object (ps : list (string * JsValue)) :
  JSON_stringify (JObj ps) = Some (DObj (stringify_members ps)).
Proof.
  simpl. do 2 f_equal. induction ps as [|[k x] t IH]; simpl; [reflexivity|].
  rewrite IH. destruct (JSON_stringify x); reflexivity.
Qed.

Lemma stringify_array (l : list JsValue) :
  JSON_stringify (JArr l) = Some (DArr (stringify_elems l)).
Proof.
  reflexivity.
Qed.

Lemma parse_object (ms : list (string * JsonDoc)) :
  JSON_parse (DObj ms) = JObj (parse_members ms []).
Proof.
  simpl. f_equal. unfold parse_members. generalize (@nil (string * JsValue)).
  induction ms as [|[k x] t IH]; intros acc; simpl; [reflexivity|]. apply IH.
Qed.

Lemma representable_array (l : list JsValue) :
  json_representable (JArr l) <-> Forall json_representable l.
Proof.
  simpl. induction l as [|x t IH]; simpl.
  - split; constructor.
  - rewrite IH. split.
    + intros [H1 H2]. constructor; assumption.
    + intros H. inversion H. split; assumption.
Qed.

Lemma representable_object (ps : list (string * JsValue)) :
  json_representable (JObj ps) <->
  Object_fromEntries ps = ps /\ Forall (fun kv => json_representable (snd kv)) ps.
Proof.
  simpl. apply and_iff_compat_l. induction ps as [|[k x] t IH]; simpl.
  - split; constructor.
  - rewrite IH. split.
    + intros [H1 H2]. constructor; assumption.
    + intros H. inversion H. split; assumption.
Qed.

(** Induction over values, through the lists they nest. *)
Lemma JsValue_nested_ind (P : JsValue -> Prop) :
  P JUndef -> P JNull -> (forall b, P (JBool b)) -> (forall q, P (JNum q)) ->
  (forall s, P (JStr s)) ->
  (forall l, Forall P l -> P (JArr l)) ->
  (forall ps, Forall (fun kv => P (snd kv)) ps -> P (JObj ps)) ->
  forall v, P v.
Proof.
  intros Hu Hn Hb Hq Hs Ha Ho.
  fix IH 1. intros v. destruct v as [| |b|q|s|l|ps].
  - exact Hu.
  - exact Hn.
  - apply Hb.
  - apply Hq.
  - apply Hs.
  - apply Ha. induction l as [|x t IHl]; constructor; [apply IH|exact IHl].
  - apply Ho. induction ps as [|[k x] t IHl]; constructor; [apply IH|exact IHl].
Qed.

(** A representable value survives [JSON.parse(JSON.stringify(v))]. *)
Lemma json_roundtrip (v : JsValue) :
  json_representable v ->
  exists doc, JSON_stringify v = Some doc /\ JSON_parse doc = v.
Proof.
  induction v as [| |b|q|s|l IH|ps IH] using JsValue_nested_ind; intros R.
  - destruct R.
  - exists DNull. split; reflexivity.
  - exists (DBool b). split; reflexivity.
  - exists (DNum q). split; reflexivity.
  - exists (DStr s). split; reflexivity.
  - apply representable_array in R.
    exists (DArr (stringify_elems l)). split; [apply stringify_array|].
    simpl. f_equal. unfold stringify_elems. rewrite map_map.
    induction l as [|x t IHl]; simpl; [reflexivity|].
    inversion IH as [|? ? Hx Ht]; subst. inversion R as [|? ? Rx Rt]; subst.
    destruct (Hx Rx) as [doc [E1 E2]]. rewrite E1, E2. f_equal. apply IHl; assumption.
  - apply representable_object in R. destruct R as [Hcanon R].
    exists (DObj (stringify_members ps)). split; [apply stringify_object|].
    rewrite parse_object. f_equal. rewrite <- Hcanon at 2.
    unfold parse_members, Object_fromEntries. generalize (@nil (string * JsValue)).
    clear Hcanon. induction ps as [|[k x] t IHl]; intros acc; simpl; [reflexivity|].
    inversion IH as [|? ? Hx Ht]; subst. inversion R as [|? ? Rx Rt]; subst.
    simpl in Hx, Rx. destruct (Hx Rx) as [doc [E1 E2]].
    unfold stringify_members. simpl. rewrite E1. simpl. rewrite E2.
    apply IHl; assumption.
Qed.

End JsonFacts.

Section RoundTrip.
Import Text Js Memory Invariants.

Lemma as_nat_inject (n : nat) : as_nat (JNum (inject_Z (Z.of_nat n))) = Some n.
Proof.
  unfold as_nat, inject_Z.
  destruct (0 <=? Z.of_nat n)%Z eqn:E.
  - rewrite Nat2Z.id. reflexivity.
  - apply Z.leb_gt in E. lia.
Qed.

(** The object [JSON_parse] builds for a slot, with and without a
    [noun_id]. *)
Lemma slot_object (vi vn vc vt vq vd vl va : JsValue) :
  obj_set "created_at" va
    (obj_set "ttl" vl
       (obj_set "source_demon" vd
          (obj_set "confidence" vq
             (obj_set "tag" vt
                (obj_set "content" vc (obj_set "noun_id" vn (obj_set "id" vi [])))))))
  = [("id", vi); ("noun_id", vn); ("content", vc); ("tag", vt); ("confidence", vq);
     ("source_demon", vd); ("ttl", vl); ("created_at", va)].
Proof. reflexivity. Qed.

Lemma slot_object_plain (vi vc vt vq vd vl va : JsValue) :
  obj_set "created_at" va
    (obj_set "ttl" vl
       (obj_set "source_demon" vd
          (obj_set "confidence" vq
             (obj_set "tag" vt (obj_set "content" vc (obj_set "id" vi []))))))
  = [("id", vi); ("content", vc); ("tag", vt); ("confidence", vq);
     ("source_demon", vd); ("ttl", vl); ("created_at", va)].
Proof. reflexivity. Qed.

(** A slot survives the round trip when its content does. *)
Lemma slot_roundtrip (s : MemSlot) :
  json_representable (s_content s) ->
  exists doc, JSON_stringify (slot_value s) = Some doc
              /\ slot_of_value (JSON_parse doc) = Some s.
Proof.
  intros R. destruct (json_roundtrip _ R) as [dc [E1 E2]].
  unfold slot_value. rewrite stringify_object. unfold stringify_members.
  cbn [flat_map fst snd app]. rewrite E1.
  destruct s as [i n c t q d l a]. cbn [s_id s_noun_id s_content s_tag s_confidence
    s_source_demon s_ttl s_created_at] in *.
  destruct n as [n|].
  - eexists. split; [reflexivity|].
    cbn [JSON_stringify app JNat].
    rewrite parse_object. unfold parse_members.
    cbn [fold_left fst snd]. rewrite slot_object.
    unfold slot_of_value.
    cbn [obj_get String.eqb Ascii.eqb Bool.eqb JSON_parse as_string as_num].
    rewrite !as_nat_inject, E2. reflexivity.
  - eexists. split; [reflexivity|].
    cbn [JSON_stringify app JNat].
    rewrite parse_object. unfold parse_members.
    cbn [fold_left fst snd]. rewrite slot_object_plain.
    unfold slot_of_value.
    cbn [obj_get String.eqb Ascii.eqb Bool.eqb JSON_parse as_string as_num].
    rewrite !as_nat_inject, E2. reflexivity.
Qed.

Lemma all_some_map (A B : Type) (f : A -> option B) (g : A -> B) (l : list A) :
  (forall x, In x l -> f x = Some (g x)) ->
  all_some (map f l) = Some (map g l).
Proof.
  induction l as [|x t IH]; intros H; simpl; [reflexivity|].
  rewrite (H x (or_introl eq_refl)). rewrite IH; [reflexivity|].
  intros y Hy. apply H. right. exact Hy.
Qed.

(** The document of a slot. *)
Lemma slot_has_doc (s : MemSlot) :
  exists doc, JSON_stringify (slot_value s) = Some doc.
Proof. unfold slot_value. rewrite stringify_object. eexists. reflexivity. Qed.

End RoundTrip.

Section MemoryRoundTrip.
Import Text Js Memory Invariants.

Lemma stringify_slots (l : list (string * MemSlot)) :
  stringify_members (map (on_values slot_value) l) = map (on_values slot_doc) l.
Proof.
  unfold stringify_members. induction l as [|[k s] t IH]; [reflexivity|].
  cbn [map flat_map]. rewrite IH. unfold on_values at 1 2 4. unfold slot_doc. cbn [fst snd].
  destruct (slot_has_doc s) as [d E]. rewrite E. reflexivity.
Qed.

Lemma parse_members_map (ms : list (string * JsonDoc)) (acc : list (string * JsValue)) :
  parse_members ms acc =
  fold_left (fun acc kv => obj_set (fst kv) (snd kv) acc) (map (on_values JSON_parse) ms) acc.
Proof.
  unfold parse_members. revert acc.
  induction ms as [|[k x] t IH]; intros acc; simpl; [reflexivity|]. apply IH.
Qed.

Lemma memory_object (ds df dt : JsonDoc) :
  parse_members [("slots", ds); ("focus", df); ("tick", dt)] []
  = [("slots", JSON_parse ds); ("focus", JSON_parse df); ("tick", JSON_parse dt)].
Proof. reflexivity. Qed.

Lemma focus_roundtrip (focus : list string) :
  all_some (map as_string (map JSON_parse (stringify_elems (map JStr focus)))) = Some focus.
Proof.
  unfold stringify_elems. rewrite !map_map. simpl.
  induction focus as [|x t IH]; simpl; [reflexivity|]. rewrite IH. reflexivity.
Qed.

Lemma fromEntries_map (A B : Type) (f : A -> B) (l : list (string * A)) :
  Object_fromEntries (map (on_values f) l) = map (on_values f) (Object_fromEntries l).
Proof. apply (fold_obj_set_map f l []). Qed.

(** What [deserialize (serialize m)] is. *)
Lemma deserialize_serialize (m : WorkingMemory) :
  (forall id s, In (id, s) (wm_slots m) -> json_representable (s_content s)) ->
  deserialize (serialize m)
  = Some (MkMem (Map_of (Object_fromEntries (Object_fromEntries (wm_slots m))))
                (wm_focus m) (wm_tick m)).
Proof.
  intros R. unfold serialize, memory_value.
  change (fun kv : string * MemSlot => (fst kv, slot_value (snd kv)))
    with (on_values slot_value).
  rewrite fromEntries_map.
  rewrite stringify_object. unfold stringify_members at 1.
  cbn [flat_map fst snd app]. rewrite stringify_object, stringify_array.
  cbn [JSON_stringify JNat app]. rewrite stringify_slots.
  unfold deserialize. rewrite parse_object, memory_object.
  cbn [obj_get String.eqb Ascii.eqb Bool.eqb].
  rewrite parse_object, parse_members_map, map_map.
  change (fun x : string * MemSlot => on_values JSON_parse (on_values slot_doc x))
    with (on_values (fun s => JSON_parse (slot_doc s))).
  fold (Object_fromEntries
          (map (on_values (fun s => JSON_parse (slot_doc s)))
               (Object_fromEntries (wm_slots m)))).
  rewrite fromEntries_map.
  cbn [JSON_parse as_array]. rewrite focus_roundtrip, as_nat_inject.
  unfold Object_entries. rewrite map_map.
  rewrite (all_some_map _ (fun kv => kv)).
  - rewrite map_id. reflexivity.
  - intros [k s] Hin. unfold on_values. cbn [fst snd].
    assert (Rs : json_representable (s_content s)).
    { apply (R k). apply fromEntries_In, fromEntries_In, Hin. }
    destruct (slot_roundtrip s Rs) as [doc [E1 E2]].
    unfold slot_doc. rewrite E1, E2. reflexivity.
Qed.

Lemma NoDup_entries (A : Type) (m : list (string * A)) :
  NoDup (map fst m) -> NoDup m.
Proof. apply NoDup_map_inv. Qed.

End MemoryRoundTrip.

Section C8.
Import Text Js Memory Invariants.

Lemma rebuilt_twice (m : list (string * MemSlot)) (id : string) :
  NoDup (map fst m) ->
  map_get (Map_of (Object_fromEntries (Object_fromEntries m))) id = map_get m id
  /\ NoDup (map fst (Map_of (Object_fromEntries (Object_fromEntries m)))).
Proof.
  intros H.
  assert (H1 : NoDup (map fst (Object_fromEntries m))).
  { apply fold_keys; [apply obj_set_keys|constructor]. }
  assert (H2 : NoDup (map fst (Object_fromEntries (Object_fromEntries m)))).
  { apply fold_keys; [apply obj_set_keys|constructor]. }
  split.
  - unfold Map_of. rewrite (@rebuilt_get _ _ _ _ (@map_set_law MemSlot) H2).
    unfold Object_fromEntries at 1. rewrite (@rebuilt_get _ _ _ _ (@obj_set_law MemSlot) H1).
    unfold Object_fromEntries. apply (@rebuilt_get _ _ _ _ (@obj_set_law MemSlot) H).
  - apply fold_keys; [apply map_set_keys|constructor].
Qed.

(** C8. For every working memory whose slot contents are
    JSON-representable, [deserialize (serialize M)] is [M]: every slot is
    read back under its id with all its fields, the entries are the same,
    and the focus list and the tick counter are unchanged. *)
Theorem C8_serialize_roundtrip (m : WorkingMemory) :
  NoDup (map fst (wm_slots m)) ->
  (forall id s, In (id, s) (wm_slots m) -> json_representable (s_content s)) ->
  exists m', deserialize (serialize m) = Some m'
             /\ (forall id, readSlot m' id = readSlot m id)
             /\ Permutation (wm_slots m') (wm_slots m)
             /\ wm_focus m' = wm_focus m
             /\ wm_tick m' = wm_tick m.
Proof.
  intros Hnd R. eexists. split; [apply deserialize_serialize, R|].
  cbn [wm_slots wm_focus wm_tick]. unfold readSlot. cbn [wm_slots].
  repeat split.
  - intros id. apply rebuilt_twice, Hnd.
  - destruct (rebuilt_twice (wm_slots m) "" Hnd) as [_ Hnd'].
    apply NoDup_Permutation.
    + apply NoDup_entries, Hnd'.
    + apply NoDup_entries, Hnd.
    + intros [k s]. rewrite <- (map_get_In _ k s Hnd'), <- (map_get_In _ k s Hnd).
      rewrite (proj1 (rebuilt_twice (wm_slots m) k Hnd)). reflexivity.
Qed.

End C8.

(* ================================================================== *)
(** * Facts about the transitive rule                                  *)
(* ================================================================== *)

Section TransitiveFacts.
Import Text Js Memory Store Core Infer Reference Invariants.

Lemma bar_free_cons (c : ascii) (s : string) :
  bar_free (String c s) <-> c <> "|"%char /\ bar_free s.
Proof.
  unfold bar_free, chars. simpl. split.
  - intros H. split; intros H'; apply H; [left; exact H'|right; exact H'].
  - intros [H1 H2] [H|H]; [apply H1; exact H|apply H2, H].
Qed.

(** A key splits in one way only at its first separator. *)
Lemma split_at_bar (a a' r r' : string) :
  bar_free a -> bar_free a' ->
  (a ++ "|" ++ r)%string = (a' ++ "|" ++ r')%string -> a = a' /\ r = r'.
Proof.
  revert a'. induction a as [|c a IH]; intros a' Ha Ha' E.
  - destruct a' as [|c' a']; simpl in E.
    + injection E as E. split; [reflexivity|exact E].
    + injection E as E _. apply bar_free_cons in Ha'. destruct Ha' as [Hc _].
      exfalso. apply Hc. symmetry. exact E.
  - destruct a' as [|c' a']; simpl in E.
    + injection E as E _. apply bar_free_cons in Ha. destruct Ha as [Hc _].
      exfalso. apply Hc. exact E.
    + injection E as Ec E. subst c'.
      apply bar_free_cons in Ha. apply bar_free_cons in Ha'.
      destruct (IH a' (proj2 Ha) (proj2 Ha') E) as [E1 E2].
      split; [f_equal; exact E1|exact E2].
Qed.

Lemma rel_key_inj (f t x f' t' x' : string) :
  bar_free f -> bar_free t -> bar_free f' -> bar_free t' ->
  rel_key f t x = rel_key f' t' x' -> f = f' /\ t = t' /\ x = x'.
Proof.
  unfold rel_key. intros Hf Ht Hf' Ht' E.
  destruct (split_at_bar _ _ Hf Hf' E) as [E1 E2].
  destruct (split_at_bar _ _ Ht Ht' E2) as [E3 E4].
  repeat split; assumption.
Qed.

Lemma key_test (f t x : string) (r : RelContent) :
  bar_free f -> bar_free t -> clean r ->
  String.eqb (rel_key f t x) (key_of r) = same_edge f t x r.
Proof.
  intros Hf Ht [Hrf Hrt]. unfold same_edge, key_of.
  destruct (String.eqb (rel_key f t x) (rel_key (rc_from r) (rc_type r) (rc_to r))) eqn:E.
  - apply String.eqb_eq in E.
    destruct (rel_key_inj _ _ Hf Ht Hrf Hrt E) as (E1 & E2 & E3).
    rewrite E1, E2, E3, !String.eqb_refl. reflexivity.
  - symmetry. apply not_true_is_false. intros H.
    apply andb_true_iff in H. destruct H as [H H3].
    apply andb_true_iff in H. destruct H as [H1 H2].
    apply String.eqb_eq in H1, H2, H3. subst.
    rewrite String.eqb_refl in E. discriminate.
Qed.

Lemma includes_keys (known : list RelContent) (f t x : string) :
  bar_free f -> bar_free t -> Forall clean known ->
  includes (map key_of known) (rel_key f t x) = existsb (same_edge f t x) known.
Proof.
  intros Hf Ht H. unfold includes. induction H as [|r l Hr Hl IH]; simpl; [reflexivity|].
  rewrite IH. rewrite key_test; [reflexivity|assumption..].
Qed.

Lemma step_agrees (r1 r2 : RelContent) (st : InferState)
      (st' : list RelContent * list RelContent) :
  clean r1 -> agree st st' ->
  agree (transitive_step r1 st r2) (chain_step r1 st' r2).
Proof.
  intros [Hf Ht] (H1 & H2 & H3). unfold transitive_step, chain_step.
  destruct st as [inf keys], st' as [inf' known]. simpl in H1, H2, H3. subst inf keys.
  cbv zeta. cbn [fst snd].
  destruct (String.eqb (rc_type r2) (rc_type r1)); cbn [negb andb];
    [|repeat split; assumption || reflexivity].
  destruct (String.eqb (rc_from r2) (rc_to r1)); cbn [negb andb];
    [|repeat split; assumption || reflexivity].
  destruct (String.eqb (rc_to r2) (rc_from r1)); cbn [negb andb];
    [repeat split; assumption || reflexivity|].
  rewrite (includes_keys _ Hf Ht H3).
  destruct (existsb (same_edge (rc_from r1) (rc_type r1) (rc_to r2)) known);
    cbn [negb]; [repeat split; assumption || reflexivity|].
  repeat split; cbn [fst snd].
  - rewrite map_app. reflexivity.
  - apply Forall_app. split; [exact H3|]. constructor; [split; assumption|constructor].
Qed.

Lemma inner_agrees (r1 : RelContent) (l : list RelContent) (st : InferState)
      (st' : list RelContent * list RelContent) :
  clean r1 -> agree st st' ->
  agree (fold_left (transitive_step r1) l st) (fold_left (chain_step r1) l st').
Proof.
  intros Hc. revert st st'. induction l as [|r2 t IH]; intros st st' H; simpl; [exact H|].
  apply IH, step_agrees; assumption.
Qed.

(** On labels and types without the separator, the rule of the source is
    the rule of the specification. *)
Lemma inferTransitive_refines (relations : list RelContent) (types : list string) :
  Forall clean relations ->
  inferTransitive relations types = transitive_closure_rule relations types.
Proof.
  intros Hc. unfold inferTransitive, transitive_closure_rule.
  assert (G : forall l st st', Forall clean l -> agree st st' ->
            agree (fold_left (fun st r1 => if includes types (rc_type r1)
                                           then fold_left (transitive_step r1) relations st
                                           else st) l st)
                  (fold_left (fun st r1 => if includes types (rc_type r1)
                                           then fold_left (chain_step r1) relations st
                                           else st) l st')).
  { induction l as [|r1 t IH]; intros st st' Hl H; simpl; [exact H|].
    inversion Hl as [|? ? Hr Ht]; subst. apply IH; [exact Ht|].
    destruct (includes types (rc_type r1)); [apply inner_agrees; assumption|exact H]. }
  apply (G relations ([], map key_of relations) ([], relations) Hc).
  repeat split; assumption.
Qed.

End TransitiveFacts.

(* ================================================================== *)
(** * The memory limit                                                 *)
(* ================================================================== *)

Section TurnLimit.
Import Text Js Memory Store Core Demons Hypervisor Trace Reference Invariants.

Variable reg : Registry.
Variable cfg : HypervisorConfig.







End TurnLimit.

Section MemoryLimit.
Import Text Js Memory Store Core Demons Hypervisor Trace Reference Invariants.






End MemoryLimit.

(* ================================================================== *)
(** * The turn: its response, its ticks, its chain hints               *)
(* ================================================================== *)

Section TurnClaims.
Import Text Js Memory Store Core Demons Hypervisor Reference Invariants Scenario.

Lemma init_config (state : HypervisorState) : config (initHypervisor state) = config state.
Proof. unfold initHypervisor. destruct (initialized state); reflexivity. Qed.

Lemma run_chain_replied (reg : Registry) (state : HypervisorState) (input : string) (w : World) :
  replied (run_chain reg state input w).
Proof.
  unfold run_chain. destruct (write_in _ _ _) as [[m s] w1].
  apply run_ticks_replied. left. reflexivity.
Qed.

Lemma run_chain_length (reg : Registry) (state : HypervisorState) (input : string) (w : World) :
  List.length (tn_ticks (run_chain reg state input w)) <= maxTicksPerTurn (config state).
Proof.
  unfold run_chain. destruct (write_in _ _ _) as [[m s] w1].
  apply (run_ticks_length reg (config state) (maxTicksPerTurn (config state))
                          (MkTurn m w1 [] [] "" (seed reg))).
Qed.

(** C5. [processInput] is total: it returns a turn for every registry,
    state, input and world, also when demons throw.  The response of
    the turn is never empty: it is the fallback text, or the text of a
    respond action of one of its ticks; and it is the fallback text
    when no tick holds a respond action. *)
Theorem C5_process_replies (reg : Registry) (state : HypervisorState) (input : string)
        (w : World) :
  let r := fst (fst (processInput reg state input w)) in
  response r <> ""
  /\ (response r = fallback
      \/ exists tr, In tr (ticks r) /\ In (respond (response r)) (t_actions tr))
  /\ ((forall tr text, In tr (ticks r) -> ~ In (respond text) (t_actions tr)) ->
      response r = fallback).
Proof.
  unfold processInput. cbn [fst response ticks].
  set (st := initHypervisor state).
  destruct (run_learn_ticks reg (config st) (run_chain reg st input w)) as [Et Er].
  rewrite Et, Er.
  pose proof (run_chain_replied reg st input w) as R.
  set (t := run_chain reg st input w) in *.
  destruct (String.eqb (tn_response t) "") eqn:E.
  - split; [unfold fallback; discriminate|]. split; [left; reflexivity|reflexivity].
  - apply String.eqb_neq in E. split; [exact E|].
    destruct R as [R|[tr [H1 H2]]]; [contradiction|].
    split; [right; exists tr; split; assumption|].
    intros H. exfalso. exact (H tr (tn_response t) H1 H2).
Qed.

(** C9. A turn runs at most [maxTicksPerTurn] ticks; the loop adds at
    most one tick per round, runs no tick once the queue is empty, and
    leaves after the tick that has a response and an empty queue. *)
Theorem C9_tick_budget (reg : Registry) (state : HypervisorState) (input : string) (w : World)
        (cfg : HypervisorConfig) (n : nat) (t : TurnState) :
  List.length (ticks (fst (fst (processInput reg state input w))))
    <= maxTicksPerTurn (config state)
  /\ List.length (tn_ticks (run_ticks reg cfg n t)) <= List.length (tn_ticks t) + n
  /\ (tn_pendingDemons t = [] -> run_ticks reg cfg n t = t)
  /\ (tn_pendingDemons t <> [] ->
      tn_pendingDemons (run_tick reg cfg t) = [] ->
      tn_response (run_tick reg cfg t) <> "" ->
      run_ticks reg cfg (S n) t = run_tick reg cfg t).
Proof.
  split.
  - unfold processInput. cbn [fst ticks].
    destruct (run_learn_ticks reg (config (initHypervisor state))
                              (run_chain reg (initHypervisor state) input w)) as [Et _].
    rewrite Et. rewrite <- (init_config state). apply run_chain_length.
  - split; [apply run_ticks_length|].
    split; [apply run_ticks_idle|apply run_ticks_stop].
Qed.

(** C10. Once a demon has fired in a tick, the rest of the tick neither
    fires it again nor records a chain hint that names it: it is in the
    queue of the next tick only if it was queued or suggested before. *)
Theorem C10_chain_hint_discarded (reg : Registry) (cfg : HypervisorConfig)
        (startTime tick : nat) (toFire : list string) (ts : TickState) (id : string)
        (response : string) (chain next : list string) :
  In id (ts_firedThisTick ts) ->
  (In id (collect_chain response (ts_firedThisTick ts) chain next) -> In id next)
  /\ let r := fire_demons reg cfg startTime tick toFire ts in
     count_occ string_dec (ts_demonsFired r) id = count_occ string_dec (ts_demonsFired ts) id
     /\ (In id (ts_nextDemons r) -> In id (ts_nextDemons ts))
     /\ (In id (merge_pending (ts_pendingDemons r) (ts_nextDemons r)) ->
         In id (ts_pendingDemons ts) \/ In id (ts_nextDemons ts)).
Proof.
  intros Hf. split; [apply collect_chain_fired, Hf|].
  intros r. destruct (fire_demons_keeps reg cfg startTime tick toFire ts id Hf) as (Hc & Hn & Hp).
  split; [exact Hc|]. split; [exact Hn|].
  intros H. apply merge_pending_In in H. destruct H as [H|H]; [left; apply Hp, H|right; apply Hn, H].
Qed.

End TurnClaims.

Section Witnesses.
Import Text Js Memory Store Core Demons Hypervisor Reference Invariants Scenario.


Lemma C5_process_replies_witness :
  response (fst (fst (processInput [("parse", failing "parse")] engine "hi" pristine)))
  = fallback.
Proof.
  apply (C5_process_replies [("parse", failing "parse")] engine "hi" pristine).
  vm_compute. intros tr text [<-|[]] [H|[]]. discriminate H.
Defined.

Lemma C9_tick_budget_witness :
  run_ticks DEMONS DEFAULT_CONFIG 20 (run_tick DEMONS DEFAULT_CONFIG (opening "hi" pristine))
  = run_tick DEMONS DEFAULT_CONFIG (run_tick DEMONS DEFAULT_CONFIG (opening "hi" pristine)).
Proof.
  apply (C9_tick_budget DEMONS engine "hi" pristine DEFAULT_CONFIG 19
                        (run_tick DEMONS DEFAULT_CONFIG (opening "hi" pristine))).
  - vm_compute. discriminate.
  - vm_compute. reflexivity.
  - vm_compute. discriminate.
Defined.

Lemma C10_chain_hint_discarded_witness :
  ~ In "a" (merge_pending
              (ts_pendingDemons (fire_demons [("b", hinting "b" ["a"])] DEFAULT_CONFIG
                                             1000 0 ["b"] fired_a))
              (ts_nextDemons (fire_demons [("b", hinting "b" ["a"])] DEFAULT_CONFIG
                                          1000 0 ["b"] fired_a))).
Proof.
  intros H.
  destruct (C10_chain_hint_discarded [("b", hinting "b" ["a"])] DEFAULT_CONFIG 1000 0 ["b"]
                                     fired_a "a" "" ["a"] []) as (_ & _ & _ & K).
  - vm_compute. left. reflexivity.
  - destruct (K H) as [[]|[]].
Defined.

End Witnesses.

(* ================================================================== *)
(** * Facts about the store                                            *)
(* ================================================================== *)

Section StoreFacts.
Import Text Js Sys Memory Store Core Reference Invariants.

Lemma ensureNoun_relations (l : string) (ty : NounType) (p : JsValue) (w : World) :
  relations (graph (snd (ensureNoun l ty p w))) = relations (graph w).
Proof.
  unfold ensureNoun, bind, findNoun, read. cbn [fst snd].
  destruct (find_noun (graph w) l); [reflexivity|].
  unfold createNoun, bind, Store.nanoid, Store.Date_now, clock, insert_noun, ret. cbn.
  destruct (existsb _ _); reflexivity.
Qed.

Lemma createRelation_appends (f x : string) (t : RelationType) (wt : Q) (c : option string)
      (p : JsValue) (w : World) :
  appends t wt w (createRelation f x t wt c p w).
Proof.
  unfold appends, createRelation, bind, Store.nanoid, Store.Date_now, clock, insert_relation, ret.
  cbn. destruct (_ || _); cbn; [reflexivity|].
  eexists. split; [reflexivity|]. split; reflexivity.
Qed.

Lemma link_appends (a : string) (t : RelationType) (b : string) (wt : Q) (c : option string)
      (w : World) :
  appends t wt w (link a t b wt c w).
Proof.
  unfold link, bind.
  pose proof (ensureNoun_relations a Unknown (JObj []) w) as E1.
  destruct (ensureNoun a Unknown (JObj []) w) as [[na|] w1]; cbn [fst snd] in *;
    [|exact E1].
  pose proof (ensureNoun_relations b Unknown (JObj []) w1) as E2.
  destruct (ensureNoun b Unknown (JObj []) w1) as [[nb|] w2]; cbn [fst snd] in *;
    [|unfold appends; cbn; congruence].
  assert (E3 : forall m : Eff (option Noun),
             (m = ret None \/ exists l, m = bind (ensureNoun l Context (JObj []))
                                                 (fun n => ret (Some n))) ->
             relations (graph (snd (m w2))) = relations (graph w2)).
  { intros m [->|[l ->]]; [reflexivity|]. unfold bind.
    pose proof (ensureNoun_relations l Context (JObj []) w2) as E.
    destruct (ensureNoun l Context (JObj []) w2) as [[n|] w3]; exact E. }
  match goal with
  | |- context [match ?m w2 with _ => _ end] =>
      specialize (E3 m); destruct (m w2) as [[ctx|] w3] eqn:Em
  end; cbn [fst snd] in *.
  - assert (E : relations (graph w3) = relations (graph w)).
    { rewrite E3; [congruence|]. destruct c as [l|]; [|left; reflexivity].
      destruct (String.eqb l ""); [left; reflexivity|right; exists l; reflexivity]. }
    pose proof (createRelation_appends (n_id na) (n_id nb) t wt (option_map n_id ctx)
                                       (JObj []) w3) as K.
    destruct (createRelation _ _ _ _ _ _ w3) as [[rel|] w4]; unfold appends in *;
      cbn [fst snd ret] in *; rewrite <- E; exact K.
  - unfold appends. cbn. rewrite E3; [congruence|]. destruct c as [l|]; [|left; reflexivity].
    destruct (String.eqb l ""); [left; reflexivity|right; exists l; reflexivity].
Qed.

Lemma store_implied_weights (rels : list (string * RelationType * string)) (subject : string)
      (t : Learn.Tally) (w : World) :
  exists rows,
    relations (graph (snd (Learn.store_implied rels subject t w))) = relations (graph w) ++ rows
    /\ Forall (fun r => rr_weight r = (6 # 10)%Q) rows
    /\ List.length rows <= List.length rels.
Proof.
  revert t w. induction rels as [|[[f ty] x] rest IH]; intros t w.
  - exists []. cbn. rewrite app_nil_r. repeat split; [constructor|lia].
  - cbn [Learn.store_implied]. unfold bind at 1. unfold try_catch. unfold bind at 1.
    pose proof (link_appends f ty x (6 # 10) (Learn.context_of subject) w) as K.
    destruct (link f ty x (6 # 10) (Learn.context_of subject) w) as [[r|] w1];
      unfold appends in K; cbn [fst snd ret] in *.
    + destruct K as [row (E & _ & Hw)].
      match goal with |- context [Learn.store_implied rest subject ?t' w1] =>
        destruct (IH t' w1) as [rows (E' & Hall & Hlen)] end.
      exists (row :: rows). rewrite E', E, <- app_assoc. cbn.
      repeat split; [constructor; assumption|lia].
    + match goal with |- context [Learn.store_implied rest subject ?t' w1] =>
        destruct (IH t' w1) as [rows (E' & Hall & Hlen)] end.
      exists rows. rewrite E', K. repeat split; [assumption|cbn; lia].
Qed.

Lemma sorted_firstn (A : Type) (R : A -> A -> Prop) (n : nat) (l : list A) :
  StronglySorted R l -> StronglySorted R (firstn n l).
Proof.
  revert n. induction l as [|x t IH]; intros n H; destruct n; cbn; try constructor.
  - inversion H; subst. apply IH. assumption.
  - inversion H as [|? ? _ Hall]; subst. rewrite Forall_forall in *.
    intros y Hy. apply Hall. rewrite <- (firstn_skipn n t). apply in_or_app. left. exact Hy.
Qed.

Lemma sorted_map (A B : Type) (R : B -> B -> Prop) (f : A -> B) (l : list A) :
  StronglySorted (fun x y => R (f x) (f y)) l -> StronglySorted R (map f l).
Proof.
  induction 1 as [|x t _ IH Hall]; cbn; constructor; [exact IH|].
  rewrite Forall_forall in *. intros y Hy. apply in_map_iff in Hy.
  destruct Hy as [z [<- Hz]]. apply Hall, Hz.
Qed.

Lemma sorted_impl (A : Type) (R R' : A -> A -> Prop) (l : list A) :
  (forall x y, R x y -> R' x y) -> StronglySorted R l -> StronglySorted R' l.
Proof.
  intros H. induction 1 as [|x t _ IH Hall]; constructor; [exact IH|].
  eapply Forall_impl; [|exact Hall]. intros y. apply H.
Qed.

(** [query]: [ORDER BY r.weight DESC LIMIT 100]. *)
Lemma query_sorted (g : Graph) (pattern : QueryPattern) :
  StronglySorted heavier_first (query_graph g pattern)
  /\ List.length (query_graph g pattern) <= 100.
Proof.
  unfold query_graph. split.
  - apply sorted_map, sorted_firstn.
    eapply sorted_impl;
      [|apply (@sort_by_sorted _ _
                 (fun x y : RelationRow * NounRow * NounRow =>
                    (rr_weight (fst (fst y)) <= rr_weight (fst (fst x)))%Q))].
    + intros [[r1 f1] t1] [[r2 f2] t2] H. exact H.
    + intros x y H. apply Qle_alt. exact H.
    + intros x y H. apply Qlt_le_weak. apply Qgt_alt. exact H.
    + intros x y z H1 H2. eapply Qle_trans; eassumption.
  - rewrite length_map. apply firstn_le_length.
Qed.

End StoreFacts.

(* ================================================================== *)
(** * Repeated links                                                   *)
(* ================================================================== *)

Section Linked.
Import Text Js Sys Memory Store Core Reference Invariants Scenario.

Lemma ensureNoun_found (l : string) (ty : NounType) (p : JsValue) (w : World) (n : Noun) :
  find_noun (graph w) l = Some n -> ensureNoun l ty p w = (Some n, w).
Proof.
  intros H. unfold ensureNoun, bind, findNoun, read. rewrite H. reflexivity.
Qed.

Lemma ensureNoun_new (l : string) (ty : NounType) (p : JsValue) (w : World) :
  find_noun (graph w) l = None ->
  noun_exists (graph w) (nano (env w) (nano_i (env w))) = false ->
  ensureNoun l ty p w =
  (Some (MkNoun (nano (env w) (nano_i (env w))) (trim (toLowerCase l)) ty p
                (clk (env w) (clk_i (env w)))),
   MkWorld (MkGraph (nouns (graph w) ++
                       [MkNounRow (nano (env w) (nano_i (env w))) (trim (toLowerCase l)) ty
                                  (stringify_props p) (clk (env w) (clk_i (env w)))])
                    (relations (graph w)))
           (MkEnv (clk (env w)) (S (clk_i (env w))) (nano (env w)) (S (nano_i (env w)))
                  (rnd (env w)) (rnd_i (env w)))).
Proof.
  intros H1 H2. unfold ensureNoun, bind, findNoun, read. rewrite H1.
  unfold createNoun, bind, Store.nanoid, Store.Date_now, clock, insert_noun, ret. cbn.
  unfold noun_exists in H2. rewrite H2. reflexivity.
Qed.

Lemma createRelation_new (f x : string) (t : RelationType) (wt : Q) (p : JsValue) (w : World) :
  existsb (fun r => String.eqb (rr_id r) (nano (env w) (nano_i (env w))))
          (relations (graph w)) = false ->
  noun_exists (graph w) f = true ->
  noun_exists (graph w) x = true ->
  snd (createRelation f x t wt None p w) =
  MkWorld (MkGraph (nouns (graph w))
                   (relations (graph w) ++
                      [MkRelationRow (nano (env w) (nano_i (env w))) f x t wt None
                                     (stringify_props p) (clk (env w) (clk_i (env w)))]))
          (MkEnv (clk (env w)) (S (clk_i (env w))) (nano (env w)) (S (nano_i (env w)))
                 (rnd (env w)) (rnd_i (env w))).
Proof.
  intros H1 H2 H3.
  unfold createRelation, bind, Store.nanoid, Store.Date_now, clock, insert_relation, ret. cbn.
  rewrite H1, H2, H3. reflexivity.
Qed.

Lemma link_step (a : string) (t : RelationType) (b : string) (wt : Q) (w w1 w2 : World)
      (from to : Noun) :
  ensureNoun a Unknown (JObj []) w = (Some from, w1) ->
  ensureNoun b Unknown (JObj []) w1 = (Some to, w2) ->
  snd (link a t b wt None w) = snd (createRelation (n_id from) (n_id to) t wt None (JObj []) w2).
Proof.
  intros H1 H2. unfold link, bind. rewrite H1, H2. cbn -[createRelation].
  destruct (createRelation (n_id from) (n_id to) t wt None (JObj []) w2) as [[r|] w'];
    reflexivity.
Qed.

Variable e : Env.
Variables a t b : string.
Variable bound : nat.

Hypothesis fresh :
  forall i j, i < bound -> j < bound -> nano e (nano_i e + i) = nano e (nano_i e + j) -> i = j.

Lemma fresh_neq (i j : nat) :
  i < bound -> j < bound -> i <> j ->
  String.eqb (nano e (nano_i e + i)) (nano e (nano_i e + j)) = false.
Proof.
  intros Hi Hj Hne. apply String.eqb_neq. intros H. apply Hne, fresh; assumption.
Qed.

Lemma created_cases : created a b = 1 \/ created a b = 2.
Proof. unfold created. destruct (same_label a b); [left|right]; reflexivity. Qed.

Lemma find_first (rels : list RelationRow) :
  find_noun (MkGraph (linked_nouns e a b) rels) a = Some (noun_of_row (first_noun e a)).
Proof.
  unfold find_noun, linked_nouns. destruct (same_label a b); cbn;
    rewrite String.eqb_refl; reflexivity.
Qed.

Lemma find_target (rels : list RelationRow) :
  find_noun (MkGraph (linked_nouns e a b) rels) b = Some (noun_of_row (target e a b)).
Proof.
  unfold find_noun, linked_nouns, target. destruct (same_label a b) eqn:E; cbn.
  - unfold same_label in E. rewrite E. reflexivity.
  - unfold same_label in E. rewrite E, String.eqb_refl. reflexivity.
Qed.

Lemma first_exists (rels : list RelationRow) :
  noun_exists (MkGraph (linked_nouns e a b) rels) (nr_id (first_noun e a)) = true.
Proof.
  unfold noun_exists, linked_nouns. destruct (same_label a b); cbn;
    rewrite String.eqb_refl; reflexivity.
Qed.

Lemma target_exists (rels : list RelationRow) :
  noun_exists (MkGraph (linked_nouns e a b) rels) (nr_id (target e a b)) = true.
Proof.
  unfold noun_exists, linked_nouns, target. destruct (same_label a b); cbn;
    rewrite String.eqb_refl; [reflexivity|apply orb_true_r].
Qed.

Lemma edge_fresh (n : nat) :
  created a b + n < bound ->
  existsb (fun r => String.eqb (rr_id r) (nano e (nano_i e + created a b + n)))
          (map (edge_row e a t b) (seq 0 n)) = false.
Proof.
  intros Hb. apply not_true_is_false. intros H. apply existsb_exists in H.
  destruct H as [r [Hin Heq]]. apply in_map_iff in Hin. destruct Hin as [j [<- Hj]].
  apply in_seq in Hj. cbn in Heq. rewrite <- !Nat.add_assoc in Heq.
  rewrite fresh_neq in Heq; [discriminate|lia..].
Qed.

(** The store after [n + 1] identical calls on the empty store. *)
Lemma linked_shape (n : nat) :
  n + 3 <= bound ->
  linked (S n) a t b (MkWorld empty_graph e) = linked_world e a t b (S n).
Proof.
  induction n as [|n IH]; intros Hb.
  - cbn [linked]. unfold after.
    pose (w1 := MkWorld (MkGraph [first_noun e a] [])
                        (MkEnv (clk e) (S (clk_i e)) (nano e) (S (nano_i e))
                               (rnd e) (rnd_i e))).
    assert (E1 : ensureNoun a Unknown (JObj []) (MkWorld empty_graph e)
                 = (Some (noun_of_row (first_noun e a)), w1)).
    { rewrite ensureNoun_new; reflexivity. }
    unfold linked_world, linked_nouns, edge_row, target, created.
    destruct (same_label a b) eqn:E; unfold same_label in E.
    + assert (E2 : ensureNoun b Unknown (JObj []) w1
                   = (Some (noun_of_row (first_noun e a)), w1)).
      { apply ensureNoun_found. unfold find_noun. cbn. rewrite E. reflexivity. }
      rewrite (@link_step a t b 1 _ _ _ _ _ E1 E2).
      rewrite createRelation_new;
        [|reflexivity|cbn; rewrite String.eqb_refl; reflexivity..].
      cbn. rewrite !Nat.add_0_r, !Nat.add_1_r. reflexivity.
    + pose (w2 := MkWorld (MkGraph [first_noun e a; second_noun e b] [])
                          (MkEnv (clk e) (S (S (clk_i e))) (nano e) (S (S (nano_i e)))
                                 (rnd e) (rnd_i e))).
      assert (E2 : ensureNoun b Unknown (JObj []) w1
                   = (Some (noun_of_row (second_noun e b)), w2)).
      { rewrite ensureNoun_new; [reflexivity| |].
        - unfold find_noun. cbn. rewrite E. reflexivity.
        - cbn. rewrite <- (Nat.add_0_r (nano_i e)) at 1. rewrite <- Nat.add_1_r.
          rewrite fresh_neq; [reflexivity|lia..]. }
      rewrite (@link_step a t b 1 _ _ _ _ _ E1 E2).
      rewrite createRelation_new;
        [|reflexivity
         |cbn; rewrite String.eqb_refl; reflexivity
         |cbn; rewrite String.eqb_refl; apply orb_true_r].
      cbn. rewrite !Nat.add_0_r.
      replace (nano_i e + 2 + 1) with (S (S (S (nano_i e)))) by lia.
      replace (clk_i e + 2 + 1) with (S (S (S (clk_i e)))) by lia.
      replace (nano_i e + 2) with (S (S (nano_i e))) by lia.
      replace (clk_i e + 2) with (S (S (clk_i e))) by lia. reflexivity.
  - change (linked (S (S n)) a t b (MkWorld empty_graph e))
      with (after (link a t b 1 None) (linked (S n) a t b (MkWorld empty_graph e))).
    rewrite IH by lia. unfold after.
    assert (F1 : ensureNoun a Unknown (JObj []) (linked_world e a t b (S n))
                 = (Some (noun_of_row (first_noun e a)), linked_world e a t b (S n)))
      by (apply ensureNoun_found, find_first).
    assert (F2 : ensureNoun b Unknown (JObj []) (linked_world e a t b (S n))
                 = (Some (noun_of_row (target e a b)), linked_world e a t b (S n)))
      by (apply ensureNoun_found, find_target).
    rewrite (@link_step a t b 1 _ _ _ _ _ F1 F2).
    rewrite createRelation_new.
    + unfold linked_world. cbn [graph env nouns relations clk clk_i nano nano_i rnd rnd_i
                                 noun_of_row n_id].
      rewrite (seq_S (S n) 0), map_app. cbn [map Nat.add].
      unfold edge_row at 3.
      replace (S (nano_i e + created a b + S n)) with (nano_i e + created a b + S (S n)) by lia.
      replace (S (clk_i e + created a b + S n)) with (clk_i e + created a b + S (S n)) by lia.
      reflexivity.
    + cbn [linked_world graph env relations nano nano_i].
      apply edge_fresh. destruct created_cases as [-> | ->]; lia.
    + apply first_exists.
    + apply target_exists.
Qed.

Lemma sort_by_ties (A : Type) (cmp : A -> A -> comparison) (l : list A) :
  (forall x y, In x l -> In y l -> cmp x y <> Gt) -> sort_by cmp l = l.
Proof.
  induction l as [|x l IH]; intros H; [reflexivity|].
  cbn. fold (sort_by cmp l). rewrite IH by (intros; apply H; right; assumption).
  destruct l as [|y l']; [reflexivity|]. cbn.
  destruct (cmp x y) eqn:E; try reflexivity.
  exfalso. apply (H x y); [left; reflexivity|right; left; reflexivity|exact E].
Qed.

Lemma type_filter_edge (j : nat) : type_filter (Some t) (edge_row e a t b j) = true.
Proof. unfold type_filter. cbn. destruct (String.eqb t ""); [reflexivity|apply String.eqb_refl]. Qed.

Lemma label_filter_first : label_filter (Some a) (first_noun e a) = true.
Proof. unfold label_filter. cbn. destruct (String.eqb a ""); [reflexivity|apply String.eqb_refl]. Qed.

Lemma label_filter_target : label_filter (Some b) (target e a b) = true.
Proof.
  unfold label_filter, target. destruct (String.eqb b ""); [reflexivity|].
  destruct (same_label a b) eqn:E; [exact E|apply String.eqb_refl].
Qed.

Hypothesis two : 2 <= bound.

Lemma ids_differ :
  String.eqb (nano e (nano_i e)) (nano e (S (nano_i e))) = false
  /\ String.eqb (nano e (S (nano_i e))) (nano e (nano_i e)) = false.
Proof.
  pose proof (@fresh_neq 0 1) as D1. pose proof (@fresh_neq 1 0) as D2.
  rewrite Nat.add_0_r, Nat.add_1_r in D1, D2. split; [apply D1|apply D2]; lia.
Qed.

Lemma relations_from_linked (n : nat) :
  relations_from (graph (linked_world e a t b n)) (nr_id (first_noun e a)) (Some t)
  = map (fun j => (relation_of_row (edge_row e a t b j),
                   joined_noun (edge_row e a t b j) (target e a b)))
        (seq 0 n).
Proof.
  unfold relations_from, linked_world. cbn [graph nouns relations].
  induction (seq 0 n) as [|j l IH]; [reflexivity|].
  cbn [map flat_map]. rewrite IH, type_filter_edge.
  cbn [edge_row rr_from_id rr_to_id]. rewrite String.eqb_refl. cbn [andb].
  destruct ids_differ as [D1 D2].
  unfold linked_nouns, target. destruct (same_label a b); cbn;
    rewrite ?String.eqb_refl, ?D1, ?D2; reflexivity.
Qed.

Lemma query_linked (n : nat) :
  query_graph (graph (linked_world e a t b n)) (edge_query a t b)
  = map (fun j => MkTriple (joined_noun (edge_row e a t b j) (first_noun e a))
                           (relation_of_row (edge_row e a t b j))
                           (joined_noun (edge_row e a t b j) (target e a b)))
        (firstn 100 (seq 0 n)).
Proof.
  unfold query_graph, linked_world, edge_query.
  cbn [graph nouns relations q_from_label q_from_type q_relation q_to_label q_to_type
       noun_type_filter andb].
  assert (R : flat_map
                (fun r => flat_map
                   (fun fn => flat_map
                      (fun tn =>
                         if String.eqb (rr_from_id r) (nr_id fn)
                            && String.eqb (rr_to_id r) (nr_id tn)
                            && label_filter (Some a) fn && true
                            && type_filter (Some t) r
                            && label_filter (Some b) tn && true
                         then [(r, fn, tn)] else [])
                      (linked_nouns e a b))
                   (linked_nouns e a b))
                (map (edge_row e a t b) (seq 0 n))
              = map (fun j => (edge_row e a t b j, first_noun e a, target e a b)) (seq 0 n)).
  { induction (seq 0 n) as [|j l IH]; [reflexivity|].
    cbn [map flat_map]. rewrite IH.
    rewrite type_filter_edge.
    pose proof label_filter_first as L1. pose proof label_filter_target as L2.
    destruct ids_differ as [D1 D2].
    cbn [edge_row rr_from_id rr_to_id].
    unfold linked_nouns, target in *.
    destruct (same_label a b); cbn [flat_map app first_noun second_noun nr_id] in *;
      rewrite ?String.eqb_refl, ?D1, ?D2, ?L1, ?L2; cbn [andb app];
      rewrite ?L1, ?L2; reflexivity. }
  rewrite R. rewrite sort_by_ties.
  - rewrite firstn_map, map_map. reflexivity.
  - intros x y Hx Hy. apply in_map_iff in Hx, Hy.
    destruct Hx as [i [<- _]], Hy as [j [<- _]]. cbn. discriminate.
Qed.

End Linked.

Section LinkClaim.
Import Text Js Sys Memory Store Core Reference Invariants Scenario.

Lemma nodup_fresh (e : Env) (bound : nat) :
  NoDup (map (fun i => nano e (nano_i e + i)) (seq 0 bound)) ->
  forall i j, i < bound -> j < bound ->
              nano e (nano_i e + i) = nano e (nano_i e + j) -> i = j.
Proof.
  intros H i j Hi Hj E.
  assert (N : forall k, k < bound ->
                nth k (map (fun i => nano e (nano_i e + i)) (seq 0 bound))
                    (nano e (nano_i e + 0)) = nano e (nano_i e + k)).
  { intros k Hk. rewrite (map_nth (fun i => nano e (nano_i e + i))), seq_nth by exact Hk.
    reflexivity. }
  apply (proj1 (NoDup_nth _ (nano e (nano_i e + 0))) H);
    rewrite ?length_map, ?length_seq; try assumption.
  rewrite !N by assumption. exact E.
Qed.

(** C2. [link] keeps duplicates.  On an empty store whose id generator
    hands out distinct ids, [n + 1] identical calls of [link(a, t, b)]
    leave [n + 1] relation rows; [relations_from] returns [n + 1] edges
    from the noun of [a] to the noun of [b], and [query] returns them
    (at most 100) in the order of descending weight: each further call
    grows both results by one.  From any store, a call that returns
    adds exactly one relation row. *)
Theorem C2_link_keeps_duplicates (e : Env) (a t b : string) (n : nat) :
  NoDup (map (fun i => nano e (nano_i e + i)) (seq 0 (n + 3))) ->
  let g := graph (linked (S n) a t b (MkWorld empty_graph e)) in
  exists from to,
    find_noun g a = Some from /\ find_noun g b = Some to
    /\ List.length (relations g) = S n
    /\ List.length (relations_from g (n_id from) (Some t)) = S n
    /\ Forall (fun p => r_from_id (fst p) = n_id from /\ r_to_id (fst p) = n_id to
                        /\ r_type (fst p) = t /\ n_id (snd p) = n_id to)
              (relations_from g (n_id from) (Some t))
    /\ List.length (query_graph g (edge_query a t b)) = Nat.min 100 (S n)
    /\ StronglySorted heavier_first (query_graph g (edge_query a t b))
    /\ (forall w weight context, appends t weight w (link a t b weight context w)).
Proof.
  intros H g.
  pose proof (nodup_fresh e H) as fresh.
  assert (E : g = graph (linked_world e a t b (S n))).
  { unfold g. rewrite (@linked_shape e a t b (n + 3) fresh n); [reflexivity|lia]. }
  exists (noun_of_row (first_noun e a)), (noun_of_row (target e a b)).
  split; [rewrite E; apply find_first|].
  split; [rewrite E; apply find_target|].
  split; [rewrite E; cbn [linked_world graph relations]; rewrite length_map, length_seq;
          reflexivity|].
  assert (two : 2 <= n + 3) by lia.
  split; [rewrite E; cbn [noun_of_row n_id];
          rewrite (@relations_from_linked e a t b (n + 3) fresh two), length_map, length_seq;
          reflexivity|].
  split.
  { rewrite E. cbn [noun_of_row n_id].
    rewrite (@relations_from_linked e a t b (n + 3) fresh two).
    apply Forall_forall. intros p Hp. apply in_map_iff in Hp. destruct Hp as [j [<- _]].
    repeat split. }
  split; [rewrite E, (@query_linked e a t b (n + 3) fresh two), length_map, length_firstn,
          length_seq; reflexivity|].
  split; [apply query_sorted|].
  intros w weight context. apply link_appends.
Qed.

Lemma C2_link_keeps_duplicates_witness :
  exists from to,
    find_noun (graph (linked 3 "dog" "is_a" "mammal" pristine)) "dog" = Some from
    /\ find_noun (graph (linked 3 "dog" "is_a" "mammal" pristine)) "mammal" = Some to
    /\ List.length (relations_from (graph (linked 3 "dog" "is_a" "mammal" pristine))
                                   (n_id from) (Some "is_a")) = 3.
Proof.
  destruct (@C2_link_keeps_duplicates (steady 1000 (1 # 2)) "dog" "is_a" "mammal" 2)
    as (from & to & H1 & H2 & _ & H3 & _).
  - vm_compute. repeat constructor; cbn; intuition discriminate.
  - exists from, to. repeat split; assumption.
Defined.

Lemma C2_counterexample :
  List.length (edges_from (linked 2 "dog" "is_a" "mammal" pristine) "dog" "is_a") = 2
  /\ List.length (edges_from (linked 3 "dog" "is_a" "mammal" pristine) "dog" "is_a") = 3
  /\ List.length (query_graph (graph (linked 2 "dog" "is_a" "mammal" pristine))
                              (edge_query "dog" "is_a" "mammal")) = 2
  /\ List.length (query_graph (graph (linked 3 "dog" "is_a" "mammal" pristine))
                              (edge_query "dog" "is_a" "mammal")) = 3.
Proof. vm_compute. repeat split. Qed.

End LinkClaim.

(* ================================================================== *)
(** * The end-to-end cases                                             *)
(* ================================================================== *)

Section EndToEnd.
Import Text Js Sys Memory Store Core Demons Hypervisor Engine Trace Reference Invariants.
Import Scenario.

Lemma draw_index (r : Q) (n : nat) :
  (0 <= r)%Q -> (r < 1)%Q -> 0 < n ->
  Z.to_nat (Qfloor (r * inject_Z (Z.of_nat n))) < n.
Proof.
  intros H0 H1 Hn.
  assert (Hp : (0 < inject_Z (Z.of_nat n))%Q).
  { change 0%Q with (inject_Z 0). rewrite <- Zlt_Qlt. lia. }
  assert (Hlo : (0 <= Qfloor (r * inject_Z (Z.of_nat n)))%Z).
  { change 0%Z with (Qfloor 0). apply Qfloor_resp_le.
    apply Qmult_le_0_compat; [exact H0|apply Qlt_le_weak, Hp]. }
  assert (Hhi : (Qfloor (r * inject_Z (Z.of_nat n)) < Z.of_nat n)%Z).
  { rewrite Zlt_Qlt. eapply Qle_lt_trans; [apply Qfloor_le|].
    rewrite <- (Qmult_1_l (inject_Z (Z.of_nat n))) at 2.
    apply Qmult_lt_compat_r; assumption. }
  lia.
Qed.

(** The greeting is one of the templates whenever the draw is in [0, 1). *)
Lemma greeting_drawn (w : World) :
  (0 <= rnd (env w) (rnd_i (env w)))%Q -> (rnd (env w) (rnd_i (env w)) < 1)%Q ->
  exists s, fst (Question.buildGreetingResponse "general" w) = Some s
            /\ In s Question.greetings.
Proof.
  intros H0 H1. unfold Question.buildGreetingResponse. cbn [String.eqb Ascii.eqb negb].
  unfold bind, Store.Math_random, Sys.Math_random, ret. cbn [fst].
  eexists. split; [reflexivity|]. apply nth_In. apply draw_index; [assumption..|].
  cbn. lia.
Qed.

Lemma C1_counterexample :
  query_graph (graph (world_after "photosynthesis produces oxygen" pristine))
              (edge_query "photosynthesis" "produces" "oxygen") = [].
Proof. vm_compute. reflexivity. Qed.

(** C1. The pattern family of the learn demon has no pattern for
    "produces": the turn for "photosynthesis produces oxygen" on an
    empty store extracts no relation, leaves the table of relations
    empty, and the query returns no triple.  A sentence of the family,
    "photosynthesis requires sunlight", leaves exactly one triple, of
    weight 0.6; and every row the raw-input extraction adds to the
    table of relations has weight 0.6. *)
Theorem C1_relation_learning :
  Learn.extractImpliedRelations "photosynthesis produces oxygen" = []
  /\ relations (graph (world_after "photosynthesis produces oxygen" pristine)) = []
  /\ query_graph (graph (world_after "photosynthesis produces oxygen" pristine))
                 (edge_query "photosynthesis" "produces" "oxygen") = []
  /\ (exists tr,
        query_graph (graph (world_after "photosynthesis requires sunlight" pristine))
                    (edge_query "photosynthesis" "requires" "sunlight") = [tr]
        /\ n_label (t_from tr) = "photosynthesis"
        /\ r_type (t_relation tr) = "requires"
        /\ n_label (t_to tr) = "sunlight"
        /\ r_weight (t_relation tr) = (6 # 10)%Q)
  /\ (forall rels subject tally w,
        exists rows,
          relations (graph (snd (Learn.store_implied rels subject tally w)))
          = relations (graph w) ++ rows
          /\ Forall (fun r => rr_weight r = (6 # 10)%Q) rows
          /\ List.length rows <= List.length rels).
Proof.
  split; [vm_compute; reflexivity|].
  split; [vm_compute; reflexivity|].
  split; [vm_compute; reflexivity|].
  split; [|apply store_implied_weights].
  eexists. split; [vm_compute; reflexivity|]. repeat split.
Qed.

Lemma C3_counterexample :
  slots_during DEMONS engine "is a dog an animal?" zoo "inferred_relation" = [].
Proof. vm_compute. reflexivity. Qed.

(** C3. With dog is_a mammal and mammal is_a animal in the store, the
    turn for "is a dog an animal?" goes through no inferred_relation
    slot: the relate demon loads the hierarchy of the nouns the input
    names (dog is_a mammal) and no edge between them, so the infer demon
    has no edge to chain.  When the input names the three nouns, the
    turn holds an inferred_relation slot for dog is_a animal, with
    weight and confidence 0.9 x min(w1, w2). *)
Theorem C3_transitive_inference :
  slots_during DEMONS engine "is a dog an animal?" zoo "inferred_relation" = []
  /\ slots_during DEMONS engine "is a dog an animal?" zoo "relation" = []
  /\ (exists s, In s (slots_during DEMONS engine "is a dog an animal?" zoo "hierarchy")
                /\ s_content s = JObj [("noun", JStr "dog"); ("is_a", JStr "mammal")])
  /\ (exists s, In s (slots_during DEMONS engine "is a dog a mammal and an animal?" zoo
                                   "inferred_relation")
                /\ as_rel (s_content s)
                   = MkRel "dog" "is_a" "animal" (Qmin 1 1 * (9 # 10))%Q
                /\ s_confidence s = (Qmin 1 1 * (9 # 10))%Q)
  /\ (exists s, In s (slots_during DEMONS engine "is a dog a mammal and an animal?"
                                   (zoo_weighted (8 # 10) (5 # 10)) "inferred_relation")
                /\ as_rel (s_content s)
                   = MkRel "dog" "is_a" "animal" (Qmin (8 # 10) (5 # 10) * (9 # 10))%Q
                /\ s_confidence s = (Qmin (8 # 10) (5 # 10) * (9 # 10))%Q).
Proof.
  split; [vm_compute; reflexivity|].
  split; [vm_compute; reflexivity|].
  split; [eexists; split; [vm_compute; left; reflexivity|reflexivity]|].
  split; (eexists; split; [vm_compute; left; reflexivity|]; split; vm_compute; reflexivity).
Qed.

Lemma C6_counterexample :
  es_graph_nouns (stats (state_after "hi" pristine) (world_after "hi" pristine)) = 1.
Proof. vm_compute. reflexivity. Qed.

(** C6. On an empty store the input "hi" has the intent greeting; the
    turn runs two ticks, parse and then question, answers with the
    greeting template the random draw selects and creates no relation.
    The learn pass persists the noun phrase "hi": the graph holds one
    noun after the turn.  Whatever the draw in [0, 1), the greeting is
    one of the templates. *)
Theorem C6_greeting (k : nat) :
  k < 4 ->
  let w := pristine_drawing (Z.of_nat k # 4) in
  (Parse.detectIntent "hi" = Parse.greeting
   /\ response (turn_of "hi" w) = nth k Question.greetings ""
   /\ In (response (turn_of "hi" w)) Question.greetings
   /\ map t_demons_fired (ticks (turn_of "hi" w)) = [["parse"]; ["question"]]
   /\ relations (graph (world_after "hi" w)) = []
   /\ map nr_label (nouns (graph (world_after "hi" w))) = ["hi"]
   /\ es_graph_nouns (stats (state_after "hi" w) (world_after "hi" w)) = 1
   /\ es_graph_relations (stats (state_after "hi" w) (world_after "hi" w)) = 0)
  /\ (forall w' : World,
        (0 <= rnd (env w') (rnd_i (env w')))%Q -> (rnd (env w') (rnd_i (env w')) < 1)%Q ->
        exists s, fst (Question.buildGreetingResponse "general" w') = Some s
                  /\ In s Question.greetings).
Proof.
  intros Hk. split; [|apply greeting_drawn].
  destruct k as [|[|[|[|k]]]]; [| | | |lia];
    vm_compute; repeat split; auto 6.
Qed.

Lemma C6_greeting_witness :
  response (turn_of "hi" (pristine_drawing (2 # 4)))
  = "Welcome! What would you like to understand better today?"
  /\ es_graph_nouns (stats (state_after "hi" (pristine_drawing (2 # 4)))
                           (world_after "hi" (pristine_drawing (2 # 4)))) = 1.
Proof.
  destruct (@C6_greeting 2) as ((_ & H & _ & _ & _ & _ & N & _) & _); [lia|].
  split; [exact H|exact N].
Defined.

(** C7. On the edges [ant is_a bug], [bug is_a cat|is_a|dog] and
    [ant|is_a|cat is_a dog] the claim asks for the edge
    [ant is_a cat|is_a|dog]: its two premises are in the list, its ends
    differ and no edge of the list has its origin, type and target.  The
    rule of the source emits nothing: the key it builds for that edge,
    [ant|is_a|cat|is_a|dog], is the key of the third edge.  The list
    reaches the rule through a turn: on a store that holds the three
    edges and an input that names their nouns, the relate demon writes
    them as relation slots and the turn goes through no
    inferred_relation slot, where the same turn on labels without the
    separator infers [ant is_a cat_is_a_dog]. *)
Theorem C7_transitive_key_collision :
  In (MkRel "ant" "is_a" "bug" 1) colliding
  /\ In (MkRel "bug" "is_a" "cat|is_a|dog" 1) colliding
  /\ "ant" <> "cat|is_a|dog"
  /\ includes Infer.transitiveTypes "is_a" = true
  /\ existsb (same_edge "ant" "is_a" "cat|is_a|dog") colliding = false
  /\ Infer.rel_key "ant" "is_a" "cat|is_a|dog" = Infer.rel_key "ant|is_a|cat" "is_a" "dog"
  /\ Infer.inferTransitive colliding Infer.transitiveTypes = []
  /\ transitive_closure_rule colliding Infer.transitiveTypes
     = [MkRel "ant" "is_a" "cat|is_a|dog" (Qmin 1 1 * (9 # 10))%Q]
  /\ map (fun s => as_rel (s_content s))
         (firstn 3 (slots_during DEMONS engine colliding_input colliding_store "relation"))
     = colliding
  /\ slots_during DEMONS engine colliding_input colliding_store "inferred_relation" = []
  /\ (exists s, In s (slots_during DEMONS engine plain_input plain_store "inferred_relation")
                /\ as_rel (s_content s)
                   = MkRel "ant" "is_a" "cat_is_a_dog" (Qmin 1 1 * (9 # 10))%Q).
Proof.
  split; [left; reflexivity|].
  split; [right; left; reflexivity|].
  split; [discriminate|].
  do 7 (split; [vm_compute; reflexivity|]).
  eexists. split; [vm_compute; left; reflexivity|vm_compute; reflexivity].
Qed.

Lemma C8_serialize_roundtrip_witness :
  exists m', deserialize (serialize crowded) = Some m'
             /\ (forall id, readSlot m' id = readSlot crowded id)
             /\ Permutation (wm_slots m') (wm_slots crowded)
             /\ wm_focus m' = wm_focus crowded
             /\ wm_tick m' = wm_tick crowded.
Proof.
  apply (@C8_serialize_roundtrip crowded).
  - cbn. repeat constructor; cbn; intuition discriminate.
  - cbn. intros id s [H|[H|[H|[]]]]; injection H as _ <-; exact I.
Defined.

End EndToEnd.

(* ================================================================== *)
(** * Further properties of working memory                            *)
(* ================================================================== *)

Section MemoryLaws.
Import Text Js Sys Memory Store Core Invariants Laws.

Lemma map_get_delete (A : Type) (k : string) (m : list (string * A)) (k' : string) :
  NoDup (map fst m) ->
  map_get (map_delete k m) k' = if String.eqb k k' then None else map_get m k'.
Proof.
  induction m as [|[k0 v0] t IH]; intros Hnd; cbn.
  - destruct (String.eqb k k'); reflexivity.
  - inversion Hnd as [|? ? Hn Ht]; subst.
    destruct (String.eqb k0 k) eqn:E0.
    + apply String.eqb_eq in E0. subst k0.
      destruct (String.eqb k k') eqn:E.
      * apply String.eqb_eq in E. subst k'. apply map_get_None. exact Hn.
      * reflexivity.
    + cbn. destruct (String.eqb k0 k') eqn:E1.
      * apply String.eqb_eq in E1. subst k'.
        rewrite String.eqb_sym, E0. reflexivity.
      * apply IH, Ht.
Qed.

Lemma map_delete_other (A : Type) (k : string) (m : list (string * A)) (k' : string) :
  k <> k' -> map_get (map_delete k m) k' = map_get m k'.
Proof.
  intros Hne. induction m as [|[k0 v0] t IH]; cbn; [reflexivity|].
  destruct (String.eqb k0 k) eqn:E0.
  - apply String.eqb_eq in E0. subst k0.
    apply String.eqb_neq in Hne. rewrite Hne. reflexivity.
  - cbn. rewrite IH. reflexivity.
Qed.

Lemma map_delete_keys (A : Type) (k : string) (m : list (string * A)) :
  NoDup (map fst m) -> NoDup (map fst (map_delete k m)).
Proof.
  induction m as [|[k0 v0] t IH]; intros Hnd; cbn; [constructor|].
  inversion Hnd as [|? ? Hn Ht]; subst.
  destruct (String.eqb k0 k); [exact Ht|]. cbn. constructor; [|apply IH, Ht].
  intros Hin. apply Hn. clear - Hin.
  induction t as [|[k1 v1] t IH]; cbn in *; [contradiction|].
  destruct (String.eqb k1 k); [right; exact Hin|].
  destruct Hin as [H|H]; [left; exact H|right; apply IH, H].
Qed.

Lemma map_delete_sub (A : Type) (k : string) (m : list (string * A)) (x : string * A) :
  In x (map_delete k m) -> In x m.
Proof.
  induction m as [|[k0 v0] t IH]; cbn; [tauto|].
  destruct (String.eqb k0 k); [intros H; right; exact H|].
  intros [H|H]; [left; exact H|right; apply IH, H].
Qed.

Lemma map_set_sub (A : Type) (k : string) (v : A) (m : list (string * A)) (x : string * A) :
  In x (map_set k v m) -> x = (k, v) \/ In x m.
Proof.
  induction m as [|[k0 v0] t IH]; cbn.
  - intros [H|[]]. left. symmetry. exact H.
  - destruct (String.eqb k0 k) eqn:E.
    + apply String.eqb_eq in E. subst k0.
      intros [H|H]; [left; symmetry; exact H|right; right; exact H].
    + intros [H|H]; [right; left; exact H|].
      destruct (IH H) as [H'|H']; [left; exact H'|right; right; exact H'].
Qed.

Lemma map_has_set (A : Type) (k : string) (v : A) (m : list (string * A)) (k' : string) :
  map_has (map_set k v m) k' = String.eqb k k' || map_has m k'.
Proof.
  unfold map_has. rewrite (@map_set_law A). destruct (String.eqb k k'); reflexivity.
Qed.

(** The slot [writeSlot] builds, and the id it is filed under. *)
Lemma writeSlot_slot (m : WorkingMemory) (d : SlotData) (e : Env) :
  let r := writeSlot m d e in
  wm_slots (fst (fst r)) = map_set (s_id (snd (fst r))) (snd (fst r)) (wm_slots m)
  /\ wm_focus (fst (fst r)) = wm_focus m
  /\ wm_tick (fst (fst r)) = wm_tick m
  /\ s_noun_id (snd (fst r)) = d_noun_id d
  /\ s_content (snd (fst r)) = d_content d
  /\ s_tag (snd (fst r)) = d_tag d
  /\ s_confidence (snd (fst r)) = d_confidence d
  /\ s_source_demon (snd (fst r)) = d_source_demon d
  /\ s_ttl (snd (fst r)) = d_ttl d.
Proof.
  unfold writeSlot.
  destruct (match d_id d with
            | Some s => if String.eqb s "" then Sys.nanoid e else (s, e)
            | None => Sys.nanoid e
            end) as [i e1].
  destruct (Sys.Date_now e1) as [now e2]. cbn. repeat split.
Qed.

(** X1. A slot that [writeSlot] has written is read back under its id,
    with the fields of the data it was given; every other id reads as
    before, the focus and the tick are untouched, and the memory grows
    by one entry exactly when the id was not in use. *)
Theorem X1_write_then_read (m : WorkingMemory) (d : SlotData) (e : Env) :
  let m' := fst (fst (writeSlot m d e)) in
  let s := snd (fst (writeSlot m d e)) in
  (forall id, readSlot m' id = if String.eqb (s_id s) id then Some s else readSlot m id)
  /\ size m' = (if map_has (wm_slots m) (s_id s) then size m else S (size m))
  /\ wm_focus m' = wm_focus m /\ wm_tick m' = wm_tick m
  /\ s_id s = match d_id d with
              | Some i => if String.eqb i "" then nano e (nano_i e) else i
              | None => nano e (nano_i e)
              end
  /\ s_content s = d_content d /\ s_tag s = d_tag d /\ s_ttl s = d_ttl d
  /\ s_confidence s = d_confidence d /\ s_noun_id s = d_noun_id d
  /\ s_source_demon s = d_source_demon d.
Proof.
  intros m' s.
  destruct (writeSlot_slot m d e) as (Hs & Hf & Ht & H1 & H2 & H3 & H4 & H5 & H6).
  fold m' s in Hs, Hf, Ht, H1, H2, H3, H4, H5, H6.
  split.
  { intros id. unfold readSlot. rewrite Hs. apply (@map_set_law MemSlot). }
  split.
  { unfold size. rewrite Hs. clear. generalize (s_id s) as k. intros k.
    unfold map_has. induction (wm_slots m) as [|[k0 v0] t IH]; cbn; [reflexivity|].
    destruct (String.eqb k0 k); cbn; [reflexivity|].
    rewrite IH. destruct (map_get t k); reflexivity. }
  split; [exact Hf|]. split; [exact Ht|].
  split.
  { unfold s, writeSlot. destruct (d_id d) as [i|]; [destruct (String.eqb i "")|];
      reflexivity. }
  repeat split; assumption.
Qed.

(** X2. [evictSlot] reports whether the slot existed; afterwards the id
    reads as absent and is out of focus, and every other slot and focus
    entry is as before. *)
Theorem X2_evict_removes (m : WorkingMemory) (id : string) :
  NoDup (map fst (wm_slots m)) ->
  let m' := fst (evictSlot m id) in
  (forall id', readSlot m' id' = if String.eqb id id' then None else readSlot m id')
  /\ snd (evictSlot m id) = (match readSlot m id with Some _ => true | None => false end)
  /\ wm_focus m' = filter (fun f => negb (String.eqb f id)) (wm_focus m)
  /\ ~ In id (wm_focus m')
  /\ size m' = (if snd (evictSlot m id) then size m - 1 else size m)
  /\ wm_tick m' = wm_tick m.
Proof.
  intros Hnd m'. unfold m', evictSlot, readSlot, size, map_has. cbn [fst snd wm_slots wm_focus wm_tick].
  split; [intros id'; apply map_get_delete, Hnd|].
  split; [reflexivity|]. split; [reflexivity|].
  split.
  { intros H. apply filter_In in H. destruct H as [_ H].
    rewrite String.eqb_refl in H. discriminate. }
  split; [|reflexivity].
  clear Hnd. induction (wm_slots m) as [|[k0 v0] t IH]; cbn; [reflexivity|].
  destruct (String.eqb k0 id); cbn; [lia|].
  rewrite IH. destruct (map_get t id) eqn:E; cbn; [|reflexivity].
  destruct t; cbn in *; [discriminate E|lia].
Qed.

End MemoryLaws.

Section DecayLaws.
Import Text Js Sys Memory Store Core Invariants Laws.

Lemma tick_slots_cons (k : string) (s : MemSlot) (t : list (string * MemSlot)) :
  tick_slots ((k, s) :: t)
  = match s_ttl s with
    | 0 => ((k, s) :: fst (tick_slots t), snd (tick_slots t))
    | 1 => (fst (tick_slots t), k :: snd (tick_slots t))
    | S (S _) => ((k, decay s) :: fst (tick_slots t), snd (tick_slots t))
    end.
Proof.
  cbn [tick_slots]. destruct (tick_slots t) as [kept evicted]. cbn [fst snd].
  unfold decay at 1. cbn [s_ttl].
  destruct (s_ttl s) as [|[|n]]; reflexivity.
Qed.

Lemma tick_slots_keys (l : list (string * MemSlot)) (id : string) :
  In id (map fst (fst (tick_slots l))) -> In id (map fst l).
Proof.
  induction l as [|[k s] t IH]; [cbn; tauto|].
  rewrite tick_slots_cons.
  destruct (s_ttl s) as [|[|n]]; cbn;
    intros H; try (destruct H as [H|H]; [left; exact H|]); right; apply IH, H.
Qed.

Lemma tick_slots_get (l : list (string * MemSlot)) (id : string) :
  NoDup (map fst l) ->
  map_get (fst (tick_slots l)) id
  = match map_get l id with Some s => decayed s | None => None end.
Proof.
  induction l as [|[k s] t IH]; intros Hnd; [reflexivity|].
  inversion Hnd as [|? ? Hn Ht]; subst. specialize (IH Ht).
  pose proof (tick_slots_keys t id) as K.
  rewrite tick_slots_cons. cbn [map_get].
  destruct (String.eqb k id) eqn:E.
  - apply String.eqb_eq in E. subst k.
    assert (N : map_get (fst (tick_slots t)) id = None)
      by (apply map_get_None; intros H; apply Hn, K, H).
    unfold decayed. destruct (s_ttl s) as [|[|n]]; cbn [fst map_get];
      rewrite ?String.eqb_refl; [reflexivity|exact N|reflexivity].
  - destruct (s_ttl s) as [|[|n]]; cbn [fst map_get]; rewrite ?E; exact IH.
Qed.

Lemma tick_slots_evicted (l : list (string * MemSlot)) (id : string) :
  In id (snd (tick_slots l)) <-> exists s, In (id, s) l /\ s_ttl s = 1.
Proof.
  induction l as [|[k s] t IH].
  - cbn. split; [tauto|intros [s [[] _]]].
  - rewrite tick_slots_cons.
    assert (T : (exists s0, In (id, s0) ((k, s) :: t) /\ s_ttl s0 = 1)
                <-> ((k = id /\ s_ttl s = 1) \/ exists s0, In (id, s0) t /\ s_ttl s0 = 1)).
    { cbn [In]. split.
      - intros [s0 [[H|H] H1]]; [injection H as -> ->; left; split; [reflexivity|exact H1]
                                |right; exists s0; split; assumption].
      - intros [[-> H1]|[s0 [H H1]]]; [exists s; split; [left; reflexivity|exact H1]
                                      |exists s0; split; [right; exact H|exact H1]]. }
    rewrite T. clear T. rewrite <- IH.
    destruct (s_ttl s) as [|[|n]]; cbn [snd In].
    + split; [intros H; right; exact H|]. intros [[_ H]|H]; [discriminate H|exact H].
    + split; [intros [H|H]; [left; split; [exact H|reflexivity]|right; exact H]|].
      intros [[H _]|H]; [left; exact H|right; exact H].
    + split; [intros H; right; exact H|]. intros [[_ H]|H]; [discriminate H|exact H].
Qed.

(** X4. [tick] advances the clock by one.  A slot whose ttl is zero
    stays as it is, a slot whose ttl is one is evicted, and a larger
    ttl loses one; the evicted ids are exactly those of the slots with
    ttl one, and they leave the focus. *)
Theorem X4_tick_decays (m : WorkingMemory) :
  NoDup (map fst (wm_slots m)) ->
  let m' := fst (tick m) in
  let evicted := snd (tick m) in
  (forall id, readSlot m' id
              = match readSlot m id with Some s => decayed s | None => None end)
  /\ (forall id, In id evicted <-> exists s, readSlot m id = Some s /\ s_ttl s = 1)
  /\ wm_tick m' = S (wm_tick m)
  /\ (forall id, In id (wm_focus m') <-> In id (wm_focus m) /\ ~ In id evicted).
Proof.
  intros Hnd m' evicted. unfold m', evicted, tick, readSlot.
  pose proof (fun id => tick_slots_get (wm_slots m) id Hnd) as G.
  pose proof (tick_slots_evicted (wm_slots m)) as V.
  destruct (tick_slots (wm_slots m)) as [kept ev]. cbn [fst snd wm_slots wm_tick wm_focus] in *.
  split; [exact G|]. split.
  { intros id. rewrite V. split; intros [s [H1 H2]]; exists s; split; try exact H2.
    - apply map_get_In; assumption.
    - apply (map_get_In (wm_slots m) id s Hnd). exact H1. }
  split; [reflexivity|].
  intros id. destruct ev as [|x ev'].
  - split; [intros H; split; [exact H|intros []]|intros [H _]; exact H].
  - rewrite filter_In. split; intros [H1 H2]; split; try exact H1.
    + intros H. apply includes_In in H. rewrite H in H2. discriminate.
    + apply negb_true_iff. apply includes_false. exact H2.
Qed.

(** The fold of [latestByTag], from any candidate. *)
Lemma latest_fold (tag : string) (l : list MemSlot) (acc : option MemSlot) :
  let step := fun (latest : option MemSlot) (slot : MemSlot) =>
                if String.eqb (s_tag slot) tag then
                  match latest with
                  | None => Some slot
                  | Some l => if s_created_at l <? s_created_at slot then Some slot else latest
                  end
                else latest in
  let tagged := filter (fun s => String.eqb (s_tag s) tag) l in
  match fold_left step l acc with
  | None => acc = None /\ tagged = []
  | Some s => (acc = Some s \/ In s tagged)
              /\ (forall a, acc = Some a -> s_created_at a <= s_created_at s)
              /\ Forall (fun s' => s_created_at s' <= s_created_at s) tagged
  end.
Proof.
  intros step tagged. subst tagged. revert acc.
  induction l as [|x t IH]; intros acc.
  - cbn. destruct acc as [a|]; [|split; reflexivity].
    split; [left; reflexivity|]. split; [|constructor].
    intros a' H. injection H as <-. lia.
  - cbn [fold_left filter]. specialize (IH (step acc x)).
    destruct (fold_left step t (step acc x)) as [s|].
    + destruct IH as (H1 & H2 & H3). unfold step in H1, H2.
      destruct (String.eqb (s_tag x) tag) eqn:E.
      * destruct acc as [a|].
        -- destruct (s_created_at a <? s_created_at x) eqn:L.
           ++ apply Nat.ltb_lt in L. pose proof (H2 x eq_refl) as Hx.
              split; [right; destruct H1 as [H1|H1];
                      [injection H1 as <-; left; reflexivity|right; exact H1]|].
              split; [intros a' Ha; injection Ha as <-; lia|].
              constructor; assumption.
           ++ apply Nat.ltb_ge in L. pose proof (H2 a eq_refl) as Ha.
              split; [destruct H1 as [H1|H1]; [left; exact H1|right; right; exact H1]|].
              split; [intros a' Ha'; injection Ha' as <-; exact Ha|].
              constructor; [lia|exact H3].
        -- pose proof (H2 x eq_refl) as Hx.
           split; [right; destruct H1 as [H1|H1];
                   [injection H1 as <-; left; reflexivity|right; exact H1]|].
           split; [intros a' Ha; discriminate Ha|]. constructor; assumption.
      * split; [exact H1|]. split; [exact H2|exact H3].
    + destruct IH as (H1 & H2). unfold step in H1.
      destruct (String.eqb (s_tag x) tag) eqn:E.
      * destruct acc as [a|]; [destruct (s_created_at a <? s_created_at x)|]; discriminate H1.
      * split; assumption.
Qed.

(** X5. [latestByTag] is undefined exactly when no slot has the tag;
    otherwise it is one of the slots [findByTag] returns, and none of
    them was created later. *)
Theorem X5_latest_by_tag (m : WorkingMemory) (tag : string) :
  match latestByTag m tag with
  | None => findByTag m tag = []
  | Some s => In s (findByTag m tag)
              /\ s_tag s = tag
              /\ Forall (fun s' => s_created_at s' <= s_created_at s) (findByTag m tag)
  end.
Proof.
  unfold latestByTag, findByTag.
  pose proof (latest_fold tag (map_values (wm_slots m)) None) as L. cbn zeta in L.
  destruct (fold_left _ (map_values (wm_slots m)) None) as [s|].
  - destruct L as ([H|H] & _ & H3); [discriminate H|].
    split; [exact H|]. split; [|exact H3].
    apply filter_In in H. destruct H as [_ H]. apply String.eqb_eq. exact H.
  - destruct L as [_ H]. exact H.
Qed.

End DecayLaws.

Section FocusLaws.
Import Text Js Sys Memory Store Core Invariants Laws.

Lemma map_has_delete_other (A : Type) (k : string) (m : list (string * A)) (k' : string) :
  k <> k' -> map_has (map_delete k m) k' = map_has m k'.
Proof. intros H. unfold map_has. rewrite map_delete_other by exact H. reflexivity. Qed.

Lemma tick_slots_has (l : list (string * MemSlot)) (id : string) :
  map_has l id = true ->
  In id (snd (tick_slots l)) \/ map_has (fst (tick_slots l)) id = true.
Proof.
  unfold map_has. induction l as [|[k s] t IH]; [cbn; discriminate|].
  rewrite tick_slots_cons. cbn [map_get].
  destruct (String.eqb k id) eqn:E.
  - intros _. apply String.eqb_eq in E. subst k.
    destruct (s_ttl s) as [|[|n]]; cbn [fst snd map_get];
      rewrite ?String.eqb_refl; [right; reflexivity|left; left; reflexivity|right; reflexivity].
  - intros H. destruct (IH H) as [H'|H'];
      destruct (s_ttl s) as [|[|n]]; cbn [fst snd map_get In]; rewrite ?E; auto.
Qed.

Lemma evict_loop_has (sorted slots : list (string * MemSlot)) (maxSlots : nat)
      (acc : list string) (x : string) :
  (In x acc -> In x (snd (evict_loop sorted slots maxSlots acc)))
  /\ (map_has slots x = true ->
      In x (snd (evict_loop sorted slots maxSlots acc))
      \/ map_has (fst (evict_loop sorted slots maxSlots acc)) x = true).
Proof.
  revert slots acc. induction sorted as [|[id s] rest IH]; intros slots acc;
    cbn [evict_loop].
  - cbn [fst snd]. split; [tauto|intros H; right; exact H].
  - destruct (maxSlots <? List.length slots);
      [|cbn [fst snd]; split; [tauto|intros H; right; exact H]].
    destruct (IH (map_delete id slots) (acc ++ [id])) as [H1 H2].
    split; [intros H; apply H1, in_or_app; left; exact H|].
    intros H. destruct (String.eqb id x) eqn:E.
    + apply String.eqb_eq in E. subst x. left. apply H1, in_or_app. right. left. reflexivity.
    + apply String.eqb_neq in E. apply H2. rewrite map_has_delete_other; assumption.
Qed.

(** X3. After [setFocus] every id in focus names a slot of the memory.
    [writeSlot], [evictSlot], [tick] and [enforceLimit] keep it so, and
    [getFocused] then returns the slot of every id in focus, in the
    order of the focus. *)
Theorem X3_focus_names_slots (m : WorkingMemory) (ids : list string) (id : string)
        (d : SlotData) (e : Env) (maxSlots : nat) :
  focus_ok (setFocus m ids)
  /\ (focus_ok m ->
      focus_ok (fst (fst (writeSlot m d e)))
      /\ focus_ok (fst (evictSlot m id))
      /\ focus_ok (fst (tick m))
      /\ focus_ok (fst (enforceLimit m maxSlots))
      /\ map Some (getFocused m) = map (readSlot m) (wm_focus m)).
Proof.
  split.
  { unfold focus_ok, setFocus. cbn. apply Forall_forall. intros x H.
    apply filter_In in H. exact (proj2 H). }
  unfold focus_ok. intros F. rewrite Forall_forall in F.
  split.
  { destruct (writeSlot_slot m d e) as (Hs & Hf & _). cbn zeta in Hs, Hf.
    rewrite Hf, Hs. apply Forall_forall. intros x H.
    rewrite map_has_set, (F x H). apply orb_true_r. }
  split.
  { unfold evictSlot. cbn. apply Forall_forall. intros x H.
    apply filter_In in H. destruct H as [H1 H2].
    apply negb_true_iff, String.eqb_neq in H2.
    rewrite map_has_delete_other; [apply F, H1|]. intros E. apply H2. symmetry. exact E. }
  split.
  { unfold tick. pose proof (tick_slots_has (wm_slots m)) as T.
    destruct (tick_slots (wm_slots m)) as [kept ev]. cbn [fst snd wm_slots wm_focus] in *.
    apply Forall_forall. intros x H.
    assert (Hx : In x (wm_focus m) /\ ~ In x ev).
    { destruct ev as [|y ev']; [split; [exact H|intros []]|].
      apply filter_In in H. destruct H as [H1 H2]. split; [exact H1|].
      apply negb_true_iff in H2. apply includes_false. exact H2. }
    destruct Hx as [H1 H2]. destruct (T x (F x H1)) as [K|K]; [contradiction|exact K]. }
  split.
  { unfold enforceLimit. destruct (size m <=? maxSlots).
    - cbn. apply Forall_forall. exact F.
    - pose proof (fun x => proj2 (evict_loop_has
                    (sort_by (limit_cmp (wm_focus m)) (wm_slots m))
                    (wm_slots m) maxSlots [] x)) as L.
      destruct (evict_loop _ (wm_slots m) maxSlots []) as [slots ev].
      cbn [fst snd wm_slots wm_focus] in *.
      apply Forall_forall. intros x H. apply filter_In in H. destruct H as [H1 H2].
      apply negb_true_iff, includes_false in H2.
      destruct (L x (F x H1)) as [K|K]; [contradiction|exact K]. }
  unfold getFocused, readSlot.
  induction (wm_focus m) as [|x t IH]; [reflexivity|].
  cbn [flat_map map]. rewrite map_app, IH by (intros y Hy; apply F; right; exact Hy).
  pose proof (F x (or_introl eq_refl)) as Hx. unfold map_has in Hx.
  destruct (map_get (wm_slots m) x); [reflexivity|discriminate Hx].
Qed.

End FocusLaws.

(* ================================================================== *)
(** * Further properties of the store                                 *)
(* ================================================================== *)

Section StoreLaws.
Import Text Js Sys Memory Store Core Invariants Laws.

Lemma find_append (A : Type) (f : A -> bool) (l1 l2 : list A) :
  find f (l1 ++ l2) = match find f l1 with Some x => Some x | None => find f l2 end.
Proof.
  induction l1 as [|x t IH]; cbn; [reflexivity|]. destruct (f x); [reflexivity|exact IH].
Qed.

Lemma find_noun_label (g : Graph) (l : string) (n : Noun) :
  find_noun g l = Some n -> n_label n = trim (toLowerCase l).
Proof.
  unfold find_noun. destruct (find _ (nouns g)) as [row|] eqn:F; [|discriminate].
  intros H. injection H as <-. apply find_some in F. destruct F as [_ F].
  apply String.eqb_eq in F. exact F.
Qed.

Lemma find_noun_normal (g : Graph) (l l2 : string) :
  trim (toLowerCase l2) = trim (toLowerCase l) -> find_noun g l2 = find_noun g l.
Proof. intros H. unfold find_noun. rewrite H. reflexivity. Qed.

(** What [createNoun] does to the world. *)
Lemma createNoun_cases (l : string) (ty : NounType) (p : JsValue) (w : World) :
  let id := nano (env w) (nano_i (env w)) in
  let now := clk (env w) (clk_i (env w)) in
  let e' := MkEnv (clk (env w)) (S (clk_i (env w))) (nano (env w)) (S (nano_i (env w)))
                  (rnd (env w)) (rnd_i (env w)) in
  createNoun l ty p w
  = if noun_exists (graph w) id then (None, MkWorld (graph w) e')
    else (Some (MkNoun id (trim (toLowerCase l)) ty p now),
          MkWorld (MkGraph (nouns (graph w)
                            ++ [MkNounRow id (trim (toLowerCase l)) ty (stringify_props p) now])
                           (relations (graph w))) e').
Proof.
  unfold createNoun, bind, Store.nanoid, Store.Date_now, clock, insert_noun, ret, noun_exists.
  cbn. destruct (existsb _ _); reflexivity.
Qed.

(** X6. [ensureNoun] gets or creates: the noun it returns carries the
    label in lower case and trimmed, [findNoun] finds a noun with its
    id under every spelling of the label, and a further [ensureNoun]
    with such a spelling returns that noun and changes nothing.  When
    it throws (the generated id is taken), the tables are unchanged. *)
Theorem X6_ensureNoun_gets_or_creates (l : string) (ty : NounType) (p : JsValue) (w : World) :
  match ensureNoun l ty p w with
  | (Some n, w') =>
      n_label n = trim (toLowerCase l)
      /\ exists n', find_noun (graph w') l = Some n'
                    /\ n_id n' = n_id n /\ n_label n' = n_label n /\ n_type n' = n_type n
                    /\ forall l2 ty2 p2,
                         trim (toLowerCase l2) = trim (toLowerCase l) ->
                         ensureNoun l2 ty2 p2 w' = (Some n', w')
  | (None, w') => graph w' = graph w /\ find_noun (graph w) l = None
  end.
Proof.
  unfold ensureNoun at 1. unfold bind, findNoun, read.
  destruct (find_noun (graph w) l) as [n0|] eqn:F.
  - cbn. split; [apply (@find_noun_label (graph w) l n0 F)|].
    exists n0. repeat split; [exact F|].
    intros l2 ty2 p2 H. unfold ensureNoun, bind, findNoun, read.
    rewrite (@find_noun_normal (graph w) l l2 H), F. reflexivity.
  - rewrite createNoun_cases. cbv zeta.
    destruct (noun_exists (graph w) (nano (env w) (nano_i (env w)))).
    + cbn. split; reflexivity.
    + cbn [n_label]. split; [reflexivity|].
      eexists. split.
      { unfold find_noun in *. cbn [graph nouns]. rewrite find_append.
        destruct (find _ (nouns (graph w))); [discriminate F|].
        cbn. rewrite String.eqb_refl. reflexivity. }
      cbn. repeat split.
      intros l2 ty2 p2 H. unfold ensureNoun, bind, findNoun, read.
      unfold find_noun in *. cbn [graph nouns]. rewrite H, find_append.
      destruct (find _ (nouns (graph w))); [discriminate F|].
      cbn. rewrite String.eqb_refl. reflexivity.
Qed.

Lemma noun_exists_more (g g' : Graph) (id : string) :
  (forall r, In r (nouns g) -> In r (nouns g')) ->
  noun_exists g id = true -> noun_exists g' id = true.
Proof.
  unfold noun_exists. intros S H. apply existsb_exists in H. destruct H as [r [H1 H2]].
  apply existsb_exists. exists r. split; [apply S, H1|exact H2].
Qed.

Lemma integrity_more (g g' : Graph) :
  (forall r, In r (nouns g) -> In r (nouns g')) ->
  relations g' = relations g ->
  integrity g -> integrity g'.
Proof.
  unfold integrity. intros S E H. rewrite E. eapply Forall_impl; [|exact H].
  intros r [H1 H2]. split; eapply noun_exists_more; eassumption.
Qed.

Lemma integrity_more_nouns (g : Graph) (extra : list NounRow) :
  integrity g -> integrity (MkGraph (nouns g ++ extra) (relations g)).
Proof.
  apply integrity_more; [|reflexivity]. intros r H. cbn. apply in_or_app. left. exact H.
Qed.

Lemma createNoun_integrity (l : string) (ty : NounType) (p : JsValue) (w : World) :
  integrity (graph w) -> integrity (graph (snd (createNoun l ty p w))).
Proof.
  intros H. rewrite createNoun_cases. cbv zeta.
  destruct (noun_exists _ _); cbn; [exact H|apply integrity_more_nouns, H].
Qed.

Lemma ensureNoun_integrity (l : string) (ty : NounType) (p : JsValue) (w : World) :
  integrity (graph w) -> integrity (graph (snd (ensureNoun l ty p w))).
Proof.
  intros H. unfold ensureNoun, bind, findNoun, read.
  destruct (find_noun (graph w) l); [exact H|apply createNoun_integrity, H].
Qed.

(** What [createRelation] does to the world. *)
Lemma createRelation_cases (f x : string) (t : RelationType) (wt : Q) (c : option string)
      (p : JsValue) (w : World) :
  let id := nano (env w) (nano_i (env w)) in
  let now := clk (env w) (clk_i (env w)) in
  let e' := MkEnv (clk (env w)) (S (clk_i (env w))) (nano (env w)) (S (nano_i (env w)))
                  (rnd (env w)) (rnd_i (env w)) in
  let row := MkRelationRow id f x t wt
                           (match c with
                            | Some c0 => if String.eqb c0 "" then None else Some c0
                            | None => None
                            end)
                           (stringify_props p) now in
  (fst (createRelation f x t wt c p w) = None
   /\ snd (createRelation f x t wt c p w) = MkWorld (graph w) e')
  \/ (noun_exists (graph w) f = true /\ noun_exists (graph w) x = true
      /\ fst (createRelation f x t wt c p w) = Some (MkRelation id f x t wt c p now)
      /\ snd (createRelation f x t wt c p w)
         = MkWorld (MkGraph (nouns (graph w)) (relations (graph w) ++ [row])) e').
Proof.
  unfold createRelation, bind, Store.nanoid, Store.Date_now, clock, insert_relation, ret.
  cbn.
  destruct (existsb _ (relations (graph w))); cbn; [left; split; reflexivity|].
  destruct (noun_exists (graph w) f); cbn; [|left; split; reflexivity].
  destruct (noun_exists (graph w) x); cbn; [|left; split; reflexivity].
  destruct c as [c0|]; cbn;
    [destruct (String.eqb c0 ""); cbn; [|destruct (noun_exists (graph w) c0); cbn]|];
    first [left; split; reflexivity
          |right; split; [reflexivity|split; [reflexivity|split; reflexivity]]].
Qed.

Lemma createRelation_integrity (f x : string) (t : RelationType) (wt : Q) (c : option string)
      (p : JsValue) (w : World) :
  integrity (graph w) -> integrity (graph (snd (createRelation f x t wt c p w))).
Proof.
  intros H. destruct (createRelation_cases f x t wt c p w) as [[_ E]|(Hf & Hx & _ & E)].
  - rewrite E. exact H.
  - rewrite E. unfold integrity in *. cbn.
    apply Forall_app. split.
    + eapply Forall_impl; [|exact H]. intros r [H1 H2].
      split; eapply noun_exists_more; try eassumption; intros r0 Hr0; exact Hr0.
    + constructor; [|constructor]. cbn.
      split; eapply noun_exists_more; try eassumption; intros r0 Hr0; exact Hr0.
Qed.

Lemma link_integrity (a : string) (t : RelationType) (b : string) (wt : Q) (c : option string)
      (w : World) :
  integrity (graph w) -> integrity (graph (snd (link a t b wt c w))).
Proof.
  intros H. unfold link, bind.
  pose proof (ensureNoun_integrity a Unknown (JObj []) w H) as H1.
  destruct (ensureNoun a Unknown (JObj []) w) as [[na|] w1]; [|exact H1]. cbn [snd] in H1.
  pose proof (ensureNoun_integrity b Unknown (JObj []) w1 H1) as H2.
  destruct (ensureNoun b Unknown (JObj []) w1) as [[nb|] w2]; [|exact H2]. cbn [snd] in H2.
  assert (H3 : forall m : Eff (option Noun),
             (m = ret None \/ exists l, m = bind (ensureNoun l Context (JObj []))
                                                 (fun n => ret (Some n))) ->
             integrity (graph (snd (m w2)))).
  { intros m [->|[l ->]]; [exact H2|]. unfold bind.
    pose proof (ensureNoun_integrity l Context (JObj []) w2 H2) as E.
    destruct (ensureNoun l Context (JObj []) w2) as [[n|] w3]; exact E. }
  match goal with
  | |- context [match ?m w2 with _ => _ end] =>
      specialize (H3 m); destruct (m w2) as [[ctx|] w3] eqn:Em
  end; cbn [snd] in H3.
  - assert (I3 : integrity (graph w3)).
    { apply H3. destruct c as [l|]; [|left; reflexivity].
      destruct (String.eqb l ""); [left; reflexivity|right; exists l; reflexivity]. }
    pose proof (createRelation_integrity (n_id na) (n_id nb) t wt (option_map n_id ctx)
                                         (JObj []) w3 I3) as K.
    destruct (createRelation _ _ _ _ _ _ w3) as [[rel|] w4]; exact K.
  - apply H3. destruct c as [l|]; [|left; reflexivity].
    destruct (String.eqb l ""); [left; reflexivity|right; exists l; reflexivity].
Qed.

(** X7. The store keeps referential integrity: when both ends of every
    relation are nouns, they still are after [createNoun], [ensureNoun],
    [createRelation] and [link], whatever their outcome.
    [createRelation] throws, and leaves both tables as they are, when
    one of its two ids names no noun. *)
Theorem X7_referential_integrity (a b l : string) (t : RelationType) (ty : NounType)
        (wt : Q) (c : option string) (p : JsValue) (w : World) :
  integrity empty_graph
  /\ (integrity (graph w) ->
      integrity (graph (snd (createNoun l ty p w)))
      /\ integrity (graph (snd (ensureNoun l ty p w)))
      /\ integrity (graph (snd (createRelation a b t wt c p w)))
      /\ integrity (graph (snd (link a t b wt c w))))
  /\ (noun_exists (graph w) a && noun_exists (graph w) b = false ->
      fst (createRelation a b t wt c p w) = None
      /\ graph (snd (createRelation a b t wt c p w)) = graph w).
Proof.
  split; [constructor|]. split.
  - intros H. split; [apply createNoun_integrity, H|].
    split; [apply ensureNoun_integrity, H|].
    split; [apply createRelation_integrity, H|apply link_integrity, H].
  - intros H. destruct (createRelation_cases a b t wt c p w) as [[E1 E2]|(Ha & Hb & _)].
    + split; [exact E1|rewrite E2; reflexivity].
    + rewrite Ha, Hb in H. discriminate H.
Qed.

End StoreLaws.

Section QueryLaws.
Import Text Js Sys Memory Store Core Invariants Laws.

Lemma NounType_eqb_eq (a b : NounType) : NounType_eqb a b = true -> a = b.
Proof. destruct a, b; cbn; intros H; try reflexivity; discriminate H. Qed.

Lemma in_sorted_prefix (A : Type) (cmp : A -> A -> comparison) (n : nat) (l : list A) (x : A) :
  In x (firstn n (sort_by cmp l)) -> In x l.
Proof.
  intros H. apply (Permutation_in x (sort_by_perm cmp l)).
  rewrite <- (firstn_skipn n (sort_by cmp l)). apply in_or_app. left. exact H.
Qed.

(** X8. Every triple [query] returns is a relation row joined with the
    rows of its two nouns: the relation leaves the noun returned as
    [from] and reaches the noun returned as [to], and the triple meets
    every part of the pattern that is given (an empty label or relation
    type counts as not given). *)
Theorem X8_query_sound (g : Graph) (pattern : QueryPattern) (tr : Triple) :
  In tr (query_graph g pattern) ->
  (exists row fn tn,
      In row (relations g) /\ In fn (nouns g) /\ In tn (nouns g)
      /\ tr = MkTriple (joined_noun row fn) (relation_of_row row) (joined_noun row tn))
  /\ r_from_id (t_relation tr) = n_id (t_from tr)
  /\ r_to_id (t_relation tr) = n_id (t_to tr)
  /\ (forall l, q_from_label pattern = Some l -> l <> "" ->
                n_label (t_from tr) = trim (toLowerCase l))
  /\ (forall l, q_to_label pattern = Some l -> l <> "" ->
                n_label (t_to tr) = trim (toLowerCase l))
  /\ (forall t, q_relation pattern = Some t -> t <> "" -> r_type (t_relation tr) = t)
  /\ (forall ty, q_from_type pattern = Some ty -> n_type (t_from tr) = ty)
  /\ (forall ty, q_to_type pattern = Some ty -> n_type (t_to tr) = ty).
Proof.
  unfold query_graph. intros H. apply in_map_iff in H.
  destruct H as [[[row fn] tn] [<- H]]. apply in_sorted_prefix in H.
  apply in_flat_map in H. destruct H as [row' [Hr H]].
  apply in_flat_map in H. destruct H as [fn' [Hf H]].
  apply in_flat_map in H. destruct H as [tn' [Ht H]].
  match type of H with In _ (if ?c then _ else _) => destruct c eqn:C end; [|destruct H].
  destruct H as [H|[]]. injection H as -> -> ->.
  repeat (apply andb_true_iff in C; destruct C as [C ?]).
  split; [exists row, fn, tn; repeat split; assumption|].
  cbn [t_from t_relation t_to joined_noun relation_of_row r_from_id r_to_id r_type
       n_id n_label n_type].
  apply String.eqb_eq in C.
  match goal with K : String.eqb (rr_to_id row) _ = true |- _ => apply String.eqb_eq in K;
    rename K into C2 end.
  split; [exact C|]. split; [exact C2|].
  split.
  { intros l E Hl. unfold label_filter in *. rewrite E in *.
    apply String.eqb_neq in Hl.
    match goal with K : (if String.eqb l "" then _ else _) = true |- _ =>
      rewrite Hl in K; apply String.eqb_eq in K; exact K end. }
  split.
  { intros l E Hl. unfold label_filter in *. rewrite E in *.
    apply String.eqb_neq in Hl.
    match goal with K : (if String.eqb l "" then _ else _) = true |- _ =>
      rewrite Hl in K; apply String.eqb_eq in K; exact K end. }
  split.
  { intros t E Hl. unfold type_filter in *. rewrite E in *.
    apply String.eqb_neq in Hl.
    match goal with K : (if String.eqb t "" then _ else _) = true |- _ =>
      rewrite Hl in K; apply String.eqb_eq in K; exact K end. }
  split.
  { intros ty E. unfold noun_type_filter in *. rewrite E in *.
    match goal with K : NounType_eqb (nr_type fn) ty = true |- _ =>
      apply NounType_eqb_eq in K; exact K end. }
  intros ty E. unfold noun_type_filter in *. rewrite E in *.
  match goal with K : NounType_eqb (nr_type tn) ty = true |- _ =>
    apply NounType_eqb_eq in K; exact K end.
Qed.

Lemma like_any (p s : list ascii) :
  like ("%"%char :: p) s
  = like p s || match s with [] => false | _ :: s' => like ("%"%char :: p) s' end.
Proof. destruct s; reflexivity. Qed.

Lemma like_self (s : list ascii) : like (s ++ ["%"%char]) s = true.
Proof.
  induction s as [|c s IH].
  - reflexivity.
  - change ((c :: s) ++ ["%"%char]) with (c :: (s ++ ["%"%char])).
    destruct (Ascii.eqb c "%") eqn:E.
    + apply Ascii.eqb_eq in E. subst c. rewrite like_any.
      apply orb_true_iff. right. cbv iota beta. rewrite like_any, IH. reflexivity.
    + cbn [like]. rewrite E. rewrite Ascii.eqb_refl, orb_true_r, IH. reflexivity.
Qed.

Lemma like_contains (s : list ascii) : like ("%"%char :: s ++ ["%"%char]) s = true.
Proof. rewrite like_any, like_self. reflexivity. Qed.

Lemma chars_append (a b : string) : chars (a ++ b)%string = chars a ++ chars b.
Proof. unfold chars. induction a as [|c a IH]; cbn; [reflexivity|]. rewrite IH. reflexivity. Qed.

(** X9. [searchNouns] returns at most [limit] nouns of the store,
    newest first.  A noun whose label is the query, in lower case and
    trimmed, is one of them when the limit covers the table: the fuzzy
    search finds whatever the exact search finds. *)
Theorem X9_search_nouns (g : Graph) (query : string) (limit : nat) :
  List.length (search_nouns g query limit) <= limit
  /\ StronglySorted (fun a b => n_created_at b <= n_created_at a) (search_nouns g query limit)
  /\ (forall n, In n (search_nouns g query limit) ->
                exists row, In row (nouns g) /\ n = noun_of_row row)
  /\ (forall row, In row (nouns g) -> nr_label row = trim (toLowerCase query) ->
                  List.length (nouns g) <= limit ->
                  In (noun_of_row row) (search_nouns g query limit)).
Proof.
  unfold search_nouns. split; [rewrite length_map; apply firstn_le_length|].
  split.
  { apply sorted_map, sorted_firstn.
    apply (@sort_by_sorted _ _ (fun a b : NounRow => nr_created_at b <= nr_created_at a)).
    - intros x y H. destruct (Nat.compare_spec (nr_created_at y) (nr_created_at x));
        [lia|lia|contradiction H; reflexivity].
    - intros x y H. apply Nat.compare_gt_iff in H. lia.
    - intros x y z H1 H2. lia. }
  split.
  { intros n H. apply in_map_iff in H. destruct H as [row [<- H]].
    apply in_sorted_prefix in H. apply filter_In in H. exists row. split; [apply H|reflexivity]. }
  intros row Hin Hl Hlen. apply in_map. rewrite firstn_all2.
  - apply (Permutation_in row (Permutation_sym (sort_by_perm _ _))).
    apply filter_In. split; [exact Hin|].
    rewrite Hl, !chars_append. apply like_contains.
  - rewrite (Permutation_length (sort_by_perm _ _)).
    eapply Nat.le_trans; [apply filter_length_le|exact Hlen].
Qed.

End QueryLaws.

Section StoreKept.
Import Text Js Sys Memory Store Core Invariants Laws.

Variable I : Graph -> Prop.

Hypothesis I_noun :
  forall l ty p w, I (graph w) -> I (graph (snd (createNoun l ty p w))).
Hypothesis I_relation :
  forall f x t wt c p w, I (graph w) -> I (graph (snd (createRelation f x t wt c p w))).

Lemma ensureNoun_kept (l : string) (ty : NounType) (p : JsValue) (w : World) :
  I (graph w) -> I (graph (snd (ensureNoun l ty p w))).
Proof.
  intros H. unfold ensureNoun, bind, findNoun, read.
  destruct (find_noun (graph w) l); [exact H|apply I_noun, H].
Qed.

Lemma link_kept (a : string) (t : RelationType) (b : string) (wt : Q) (c : option string)
      (w : World) :
  I (graph w) -> I (graph (snd (link a t b wt c w))).
Proof.
  intros H. unfold link, bind.
  pose proof (@ensureNoun_kept a Unknown (JObj []) w H) as H1.
  destruct (ensureNoun a Unknown (JObj []) w) as [[na|] w1]; [|exact H1]. cbn [snd] in H1.
  pose proof (@ensureNoun_kept b Unknown (JObj []) w1 H1) as H2.
  destruct (ensureNoun b Unknown (JObj []) w1) as [[nb|] w2]; [|exact H2]. cbn [snd] in H2.
  assert (H3 : forall m : Eff (option Noun),
             (m = ret None \/ exists l, m = bind (ensureNoun l Context (JObj []))
                                                 (fun n => ret (Some n))) ->
             I (graph (snd (m w2)))).
  { intros m [->|[l ->]]; [exact H2|]. unfold bind.
    pose proof (@ensureNoun_kept l Context (JObj []) w2 H2) as E.
    destruct (ensureNoun l Context (JObj []) w2) as [[n|] w3]; exact E. }
  match goal with
  | |- context [match ?m w2 with _ => _ end] =>
      specialize (H3 m); destruct (m w2) as [[ctx|] w3] eqn:Em
  end; cbn [snd] in H3.
  - assert (I3 : I (graph w3)).
    { apply H3. destruct c as [l|]; [|left; reflexivity].
      destruct (String.eqb l ""); [left; reflexivity|right; exists l; reflexivity]. }
    pose proof (@I_relation (n_id na) (n_id nb) t wt (option_map n_id ctx)
                            (JObj []) w3 I3) as K.
    destruct (createRelation _ _ _ _ _ _ w3) as [[rel|] w4]; exact K.
  - apply H3. destruct c as [l|]; [|left; reflexivity].
    destruct (String.eqb l ""); [left; reflexivity|right; exists l; reflexivity].
Qed.

End StoreKept.

Section KeyLaws.
Import Text Js Sys Memory Store Core Invariants Laws.

Lemma nodup_map_snoc (A B : Type) (f : A -> B) (l : list A) (x : A) :
  NoDup (map f l) -> ~ In (f x) (map f l) -> NoDup (map f (l ++ [x])).
Proof.
  intros Hn Hx. rewrite map_app. apply NoDup_app; [exact Hn|repeat constructor; intros []|].
  intros a Ha [<-|[]]. contradiction.
Qed.

Lemma createNoun_keys (l : string) (ty : NounType) (p : JsValue) (w : World) :
  keys_unique (graph w) -> keys_unique (graph (snd (createNoun l ty p w))).
Proof.
  intros [Hn Hr]. rewrite createNoun_cases. cbv zeta.
  destruct (noun_exists _ _) eqn:E; cbn [snd graph]; [split; assumption|].
  split; [|exact Hr]. cbn [nouns]. apply nodup_map_snoc; [exact Hn|]. cbn [nr_id].
  intros Hin. apply in_map_iff in Hin. destruct Hin as [r [Er Hr']].
  unfold noun_exists in E. apply not_true_iff_false in E. apply E.
  apply existsb_exists. exists r. split; [exact Hr'|apply String.eqb_eq, Er].
Qed.

Lemma createRelation_keys (f x : string) (t : RelationType) (wt : Q) (c : option string)
      (p : JsValue) (w : World) :
  keys_unique (graph w) -> keys_unique (graph (snd (createRelation f x t wt c p w))).
Proof.
  intros [Hn Hr].
  unfold createRelation, bind, Store.nanoid, Store.Date_now, clock, insert_relation, ret.
  cbn.
  destruct (existsb _ (relations (graph w))) eqn:E; cbn; [split; assumption|].
  assert (Fresh : NoDup (map rr_id (relations (graph w)
                    ++ [MkRelationRow (nano (env w) (nano_i (env w))) f x t wt
                          (match c with
                           | Some c0 => if String.eqb c0 "" then None else Some c0
                           | None => None
                           end)
                          (stringify_props p) (clk (env w) (clk_i (env w)))]))).
  { apply nodup_map_snoc; [exact Hr|]. cbn [rr_id]. intros Hin.
    apply in_map_iff in Hin. destruct Hin as [r [Er Hr']].
    apply not_true_iff_false in E. apply E.
    apply existsb_exists. exists r. split; [exact Hr'|apply String.eqb_eq, Er]. }
  destruct (noun_exists (graph w) f); cbn; [|split; assumption].
  destruct (noun_exists (graph w) x); cbn; [|split; assumption].
  destruct c as [c0|]; cbn;
    [destruct (String.eqb c0 ""); cbn; [|destruct (noun_exists (graph w) c0); cbn]|];
    split; assumption.
Qed.

(** X20. The store keeps its primary keys: when no two nouns and no
    two relations share an id, that is still so after [createNoun],
    [ensureNoun], [createRelation] and [link], whatever their outcome
    and whatever ids the generator hands out. *)
Theorem X20_primary_keys (a b l : string) (t : RelationType) (ty : NounType)
        (wt : Q) (c : option string) (p : JsValue) (w : World) :
  keys_unique empty_graph
  /\ (keys_unique (graph w) ->
      keys_unique (graph (snd (createNoun l ty p w)))
      /\ keys_unique (graph (snd (ensureNoun l ty p w)))
      /\ keys_unique (graph (snd (createRelation a b t wt c p w)))
      /\ keys_unique (graph (snd (link a t b wt c w)))).
Proof.
  split; [split; constructor|]. intros H.
  split; [apply createNoun_keys, H|].
  split; [apply (@ensureNoun_kept keys_unique createNoun_keys), H|].
  split; [apply createRelation_keys, H|].
  apply (@link_kept keys_unique createNoun_keys createRelation_keys), H.
Qed.

End KeyLaws.

Section JoinLaws.
Import Text Js Sys Memory Store Core Invariants Laws.

Lemma join_one (rows : list NounRow) (id : string) :
  NoDup (map nr_id rows) ->
  existsb (fun r => String.eqb (nr_id r) id) rows = true ->
  exists n, filter (fun n => String.eqb (nr_id n) id) rows = [n].
Proof.
  induction rows as [|n rest IH]; cbn [map existsb filter]; [discriminate|].
  intros Hn He. inversion Hn as [|? ? Hnot Hrest]; subst.
  destruct (String.eqb (nr_id n) id) eqn:E.
  - exists n. f_equal. apply String.eqb_eq in E.
    assert (Hf : forall l, ~ In id (map nr_id l) ->
                 filter (fun n0 => String.eqb (nr_id n0) id) l = []).
    { induction l as [|m l IHl]; cbn [map filter]; [reflexivity|]. intros Hm.
      destruct (String.eqb (nr_id m) id) eqn:Em.
      - apply String.eqb_eq in Em. exfalso. apply Hm. left. exact Em.
      - apply IHl. intros H. apply Hm. right. exact H. }
    apply Hf. rewrite <- E. exact Hnot.
  - cbn [orb] in He. apply IH; assumption.
Qed.

Lemma join_rows (g : Graph) (keep : RelationRow -> bool) (other : RelationRow -> string)
      (rows : list RelationRow) :
  NoDup (map nr_id (nouns g)) ->
  Forall (fun r => noun_exists g (other r) = true) rows ->
  map fst (flat_map (fun r =>
                       if keep r then
                         map (fun n => (relation_of_row r, joined_noun r n))
                             (filter (fun n => String.eqb (nr_id n) (other r)) (nouns g))
                       else [])
                    rows)
  = map relation_of_row (filter keep rows).
Proof.
  intros Hn. induction rows as [|r rest IH]; intros Hf; cbn [flat_map filter map]; [reflexivity|].
  inversion Hf as [|? ? Hr Hrest]; subst. rewrite map_app, IH by exact Hrest.
  destruct (keep r); [|reflexivity].
  destruct (join_one (nouns g) (other r) Hn Hr) as [n ->]. reflexivity.
Qed.

(** X21. On a store that has referential integrity and unique noun
    ids, the joins neither drop nor repeat a relation: [relationsFrom]
    returns, in table order, exactly the relations that leave the noun,
    and [relationsTo] exactly those that arrive at it, of the given type
    when one is given.  In any store, the noun attached to a relation
    is the one at its other end, and carries the creation time of the
    relation, not its own. *)
Theorem X21_joins (g : Graph) (id : string) (ty : option RelationType) :
  (integrity g -> NoDup (map nr_id (nouns g)) ->
   map fst (relations_from g id ty)
   = map relation_of_row
         (filter (fun r => String.eqb (rr_from_id r) id && type_filter ty r) (relations g))
   /\ map fst (relations_to g id ty)
      = map relation_of_row
            (filter (fun r => String.eqb (rr_to_id r) id && type_filter ty r) (relations g)))
  /\ Forall (fun hop => r_from_id (fst hop) = id
                        /\ n_id (snd hop) = r_to_id (fst hop)
                        /\ n_created_at (snd hop) = r_created_at (fst hop))
            (relations_from g id ty)
  /\ Forall (fun hop => r_to_id (fst hop) = id
                        /\ n_id (snd hop) = r_from_id (fst hop)
                        /\ n_created_at (snd hop) = r_created_at (fst hop))
            (relations_to g id ty).
Proof.
  split; [|split].
  - intros Hi Hn. unfold relations_from, relations_to. split.
    + apply (@join_rows g (fun r => String.eqb (rr_from_id r) id && type_filter ty r)
                        rr_to_id (relations g) Hn).
      eapply Forall_impl; [|exact Hi]. intros r [_ H]. exact H.
    + apply (@join_rows g (fun r => String.eqb (rr_to_id r) id && type_filter ty r)
                        rr_from_id (relations g) Hn).
      eapply Forall_impl; [|exact Hi]. intros r [H _]. exact H.
  - apply Forall_forall. intros hop H. unfold relations_from in H.
    apply in_flat_map in H. destruct H as [row [Hr H]].
    destruct (String.eqb (rr_from_id row) id && type_filter ty row) eqn:C; [|destruct H].
    apply andb_true_iff in C. destruct C as [C _]. apply String.eqb_eq in C.
    apply in_map_iff in H. destruct H as [n [<- H]]. apply filter_In in H.
    destruct H as [_ E]. apply String.eqb_eq in E. cbn. repeat split; assumption.
  - apply Forall_forall. intros hop H. unfold relations_to in H.
    apply in_flat_map in H. destruct H as [row [Hr H]].
    destruct (String.eqb (rr_to_id row) id && type_filter ty row) eqn:C; [|destruct H].
    apply andb_true_iff in C. destruct C as [C _]. apply String.eqb_eq in C.
    apply in_map_iff in H. destruct H as [n [<- H]]. apply filter_In in H.
    destruct H as [_ E]. apply String.eqb_eq in E. cbn. repeat split; assumption.
Qed.

End JoinLaws.

(* ================================================================== *)
(** * The traversal of the graph                                      *)
(* ================================================================== *)

Section TraverseLaws.
Import Text Js Sys Memory Store Core Invariants Laws Traverse.

Variable g : Graph.
Variable start : string.
Variable maxDepth : nat.

Lemma relations_from_member (id : string) (ty : option RelationType) (hop : Hop) :
  In hop (relations_from g id ty) ->
  r_from_id (fst hop) = id
  /\ n_id (snd hop) = r_to_id (fst hop)
  /\ noun_exists g (r_to_id (fst hop)) = true
  /\ In (r_to_id (fst hop)) (map rr_to_id (relations g)).
Proof.
  unfold relations_from. intros H. apply in_flat_map in H. destruct H as [row [Hr H]].
  destruct (String.eqb (rr_from_id row) id && type_filter ty row) eqn:C; [|destruct H].
  apply andb_true_iff in C. destruct C as [C _]. apply String.eqb_eq in C.
  apply in_map_iff in H. destruct H as [n [<- H]]. apply filter_In in H.
  destruct H as [Hn E]. apply String.eqb_eq in E. cbn.
  split; [exact C|]. split; [exact E|]. split.
  - unfold noun_exists. apply existsb_exists. exists n. split; [exact Hn|].
    apply String.eqb_eq. exact E.
  - apply in_map. exact Hr.
Qed.

Lemma walks_snoc (from : string) (path : list Hop) (hop : Hop) :
  walks from (path ++ [hop])
  <-> walks from path /\ r_from_id (fst hop) = path_end from path
      /\ n_id (snd hop) = r_to_id (fst hop).
Proof.
  revert from. induction path as [|h t IH]; intros from; cbn.
  - tauto.
  - rewrite IH. tauto.
Qed.

Lemma path_end_snoc (from : string) (path : list Hop) (hop : Hop) :
  path_end from (path ++ [hop]) = r_to_id (fst hop).
Proof.
  revert from. induction path as [|h t IH]; intros from; cbn; [reflexivity|apply IH].
Qed.

Lemma map_set_fresh (A : Type) (k : string) (v : A) (m : list (string * A)) :
  map_has m k = false -> map_set k v m = m ++ [(k, v)].
Proof.
  unfold map_has. induction m as [|[k0 v0] t IH]; cbn; [reflexivity|].
  destruct (String.eqb k0 k); [discriminate|]. intros H. rewrite IH by exact H. reflexivity.
Qed.

Lemma map_has_keys (A : Type) (m : list (string * A)) (k : string) :
  map_has m k = false <-> ~ In k (map fst m).
Proof.
  unfold map_has. rewrite <- map_get_None. destruct (map_get m k); split; congruence.
Qed.

Lemma filter_shrinks (A : Type) (p q : A -> bool) (l : list A) (x : A) :
  (forall y, q y = true -> p y = true) ->
  In x l -> p x = true -> q x = false ->
  S (List.length (filter q l)) <= List.length (filter p l).
Proof.
  intros Hpq. induction l as [|y t IH]; cbn; [contradiction|].
  assert (Hle : List.length (filter q t) <= List.length (filter p t)).
  { clear IH. induction t as [|z t IHt]; cbn; [lia|].
    destruct (q z) eqn:Q; [rewrite (Hpq z Q); cbn; lia|destruct (p z); cbn; lia]. }
  intros [->|Hin] Hp Hq.
  - rewrite Hp, Hq. cbn. lia.
  - specialize (IH Hin Hp Hq).
    destruct (q y) eqn:Q; [rewrite (Hpq y Q); cbn; lia|destruct (p y); cbn; lia].
Qed.

Lemma visit_step_eq (depth : nat) (path : list Hop) (visited : list (string * Visit))
      (queue : list Pending) (hop : Hop) :
  visit_step depth path (visited, queue) hop
  = if map_has visited (r_to_id (fst hop)) then (visited, queue)
    else (map_set (r_to_id (fst hop)) (MkVisit (snd hop) (S depth) (path ++ [hop])) visited,
          queue ++ [MkPending (r_to_id (fst hop)) (S depth) (path ++ [hop])]).
Proof. reflexivity. Qed.

(** One pass over the relations that leave a noun. *)
Lemma visit_fold (depth : nat) (path : list Hop) (rels : list Hop)
      (visited : list (string * Visit)) (queue : list Pending) :
  depth < maxDepth ->
  List.length path = depth -> walks start path ->
  (forall hop, In hop rels -> r_from_id (fst hop) = path_end start path
                              /\ n_id (snd hop) = r_to_id (fst hop)
                              /\ noun_exists g (r_to_id (fst hop)) = true
                              /\ In (r_to_id (fst hop)) (map rr_to_id (relations g))) ->
  Forall (reached g start maxDepth) visited -> Forall (queued start) queue -> NoDup (map fst visited) ->
  let st := fold_left (visit_step depth path) rels (visited, queue) in
  Forall (reached g start maxDepth) (fst st) /\ Forall (queued start) (snd st) /\ NoDup (map fst (fst st))
  /\ unvisited g (fst st) + List.length (snd st) <= unvisited g visited + List.length queue
  /\ (forall k v, map_get visited k = Some v -> map_get (fst st) k = Some v)
  /\ (exists more, fst st = visited ++ more).
Proof.
  intros Hd Hl Hw. revert visited queue.
  induction rels as [|hop rels IH]; intros visited queue Hr Hv Hq Hn; cbn [fold_left].
  - cbn. split; [exact Hv|]. split; [exact Hq|]. split; [exact Hn|]. split; [lia|].
    split; [intros k v H; exact H|]. exists []. symmetry. apply app_nil_r.
  - destruct (Hr hop (or_introl eq_refl)) as (H1 & H2 & H3 & H4).
    assert (Hr' : forall h, In h rels -> r_from_id (fst h) = path_end start path
                              /\ n_id (snd h) = r_to_id (fst h)
                              /\ noun_exists g (r_to_id (fst h)) = true
                              /\ In (r_to_id (fst h)) (map rr_to_id (relations g)))
      by (intros h Hh; apply Hr; right; exact Hh).
    rewrite visit_step_eq.
    destruct (map_has visited (r_to_id (fst hop))) eqn:E.
    + apply (IH visited queue Hr' Hv Hq Hn).
    + rewrite (@map_set_fresh _ _ _ _ E).
      set (entry := MkVisit (snd hop) (S depth) (path ++ [hop])).
      set (item := MkPending (r_to_id (fst hop)) (S depth) (path ++ [hop])).
      assert (Hv' : Forall (reached g start maxDepth) (visited ++ [(r_to_id (fst hop), entry)])).
      { apply Forall_app. split; [exact Hv|]. constructor; [|constructor].
        unfold reached, entry. cbn [fst snd v_depth v_path v_noun].
        rewrite length_app, Hl, path_end_snoc. cbn [List.length].
        split; [lia|]. split; [lia|].
        split; [apply walks_snoc; repeat split; assumption|].
        split; [reflexivity|]. split; assumption. }
      assert (Hq' : Forall (queued start) (queue ++ [item])).
      { apply Forall_app. split; [exact Hq|]. constructor; [|constructor].
        unfold queued, item. cbn [p_id p_depth p_path].
        rewrite length_app, Hl, path_end_snoc. cbn [List.length].
        split; [lia|]. split; [apply walks_snoc; repeat split; assumption|reflexivity]. }
      assert (Hn' : NoDup (map fst (visited ++ [(r_to_id (fst hop), entry)]))).
      { rewrite map_app. cbn.
        apply (Permutation_NoDup (Permutation_cons_append _ _)).
        constructor; [apply map_has_keys, E|exact Hn]. }
      destruct (IH _ _ Hr' Hv' Hq' Hn') as (A1 & A2 & A3 & A4 & A5 & [more A6]).
      split; [exact A1|]. split; [exact A2|]. split; [exact A3|].
      split.
      { eapply Nat.le_trans; [exact A4|]. rewrite length_app. cbn.
        assert (K : S (unvisited g (visited ++ [(r_to_id (fst hop), entry)]))
                    <= unvisited g visited).
        { unfold unvisited. apply filter_shrinks with (x := r_to_id (fst hop)).
          - intros y Hy. apply negb_true_iff in Hy. apply negb_true_iff.
            unfold map_has in *. rewrite map_get_app in Hy.
            destruct (map_get visited y); [discriminate Hy|reflexivity].
          - exact H4.
          - rewrite E. reflexivity.
          - apply negb_false_iff. unfold map_has. rewrite map_get_app.
            destruct (map_get visited (r_to_id (fst hop))); [reflexivity|].
            cbn. rewrite String.eqb_refl. reflexivity. }
        lia. }
      split.
      { intros k v Hk. apply A5. rewrite map_get_app, Hk. reflexivity. }
      exists ((r_to_id (fst hop), entry) :: more). rewrite A6, <- app_assoc. reflexivity.
Qed.

(** The loop ends before its fuel when the fuel covers the nouns not
    yet visited and the queue; what it returns keeps what held of the
    entries. *)
Lemma traverse_loop_spec (fuel : nat) (queue : list Pending)
      (visited : list (string * Visit)) :
  unvisited g visited + List.length queue <= fuel ->
  Forall (reached g start maxDepth) visited -> Forall (queued start) queue -> NoDup (map fst visited) ->
  exists result,
    traverse_loop g maxDepth fuel queue visited = Some result
    /\ Forall (reached g start maxDepth) result /\ NoDup (map fst result)
    /\ (forall k v, map_get visited k = Some v -> map_get result k = Some v).
Proof.
  revert queue visited. induction fuel as [|fuel IH]; intros queue visited Hf Hv Hq Hn.
  - destruct queue as [|item rest]; [|cbn [List.length] in Hf; lia].
    exists visited. cbn. repeat split; auto.
  - destruct queue as [|item rest].
    + exists visited. cbn. repeat split; auto.
    + cbn [traverse_loop]. inversion Hq as [|? ? Hi Hrest]; subst.
      destruct (maxDepth <=? p_depth item) eqn:D.
      * apply IH; try assumption. cbn [List.length] in Hf. lia.
      * apply Nat.leb_gt in D. destruct Hi as (L & W & E).
        pose proof (@visit_fold (p_depth item) (p_path item)
                      (relations_from g (p_id item) None) visited rest D L W) as F.
        assert (Hr : forall hop, In hop (relations_from g (p_id item) None) ->
                       r_from_id (fst hop) = path_end start (p_path item)
                       /\ n_id (snd hop) = r_to_id (fst hop)
                       /\ noun_exists g (r_to_id (fst hop)) = true
                       /\ In (r_to_id (fst hop)) (map rr_to_id (relations g))).
        { intros hop Hh. rewrite E. apply (relations_from_member _ _ _ Hh). }
        specialize (F Hr Hv Hrest Hn). cbn zeta in F.
        set (st := fold_left (visit_step (p_depth item) (p_path item))
                             (relations_from g (p_id item) None) (visited, rest)) in *.
        destruct F as (A1 & A2 & A3 & A4 & A5 & _).
        assert (Hfuel : unvisited g (fst st) + List.length (snd st) <= fuel)
          by (cbn [List.length] in Hf; lia).
        destruct (IH (snd st) (fst st) Hfuel A1 A2 A3) as [result (R1 & R2 & R3 & R4)].
        exists result. split; [exact R1|]. split; [exact R2|]. split; [exact R3|].
        intros k v Hk. apply R4, A5, Hk.
Qed.

End TraverseLaws.

Section TraverseClaim.
Import Text Js Sys Memory Store Core Invariants Laws Traverse.

Lemma unvisited_bound (g : Graph) (visited : list (string * Visit)) :
  unvisited g visited <= List.length (relations g).
Proof.
  unfold unvisited. eapply Nat.le_trans; [apply filter_length_le|].
  rewrite length_map. lia.
Qed.

(** X10. [traverse] terminates: a number of rounds one above the number
    of relations always empties its queue.  Every noun it returns is
    filed under its own id, at a depth of at most [maxDepth], with a
    path of that length that leaves the start and ends at the noun;
    the start itself is returned at depth 0 with the empty path exactly
    when it is a noun of the store. *)
Theorem X10_traverse_reaches (g : Graph) (start : string) (maxDepth : nat) :
  exists visited,
    traverse g start maxDepth = Some visited
    /\ NoDup (map fst visited)
    /\ Forall (fun kv => v_depth (snd kv) <= maxDepth
                         /\ List.length (v_path (snd kv)) = v_depth (snd kv)
                         /\ walks start (v_path (snd kv))
                         /\ path_end start (v_path (snd kv)) = fst kv
                         /\ n_id (v_noun (snd kv)) = fst kv
                         /\ noun_exists g (fst kv) = true)
              visited
    /\ map_get visited start
       = match find_noun_by_id g start with
         | Some startNoun => Some (MkVisit startNoun 0 [])
         | None => None
         end.
Proof.
  unfold traverse.
  set (v0 := match find_noun_by_id g start with
             | Some startNoun => map_set start (MkVisit startNoun 0 []) []
             | None => []
             end).
  assert (Hv0 : Forall (reached g start maxDepth) v0 /\ NoDup (map fst v0)).
  { unfold v0, find_noun_by_id.
    destruct (find (fun r => String.eqb (nr_id r) start) (nouns g)) as [row|] eqn:F.
    - apply find_some in F. destruct F as [Hin E]. apply String.eqb_eq in E.
      split; [|cbn; constructor; [intros []|constructor]].
      constructor; [|constructor]. unfold reached. cbn.
      repeat split; [lia|exact E|].
      unfold noun_exists. apply existsb_exists. exists row. split; [exact Hin|].
      apply String.eqb_eq. exact E.
    - split; constructor. }
  destruct Hv0 as [Hv Hn].
  destruct (@traverse_loop_spec g start maxDepth (S (List.length (relations g)))
              [MkPending start 0 []] v0) as [result (R1 & R2 & R3 & R4)].
  - cbn. pose proof (unvisited_bound g v0). lia.
  - exact Hv.
  - constructor; [|constructor]. unfold queued. cbn. repeat split.
  - exact Hn.
  - exists result. split; [exact R1|]. split; [exact R3|]. split; [exact R2|].
    unfold v0 in *. unfold find_noun_by_id in *.
    destruct (find (fun r => String.eqb (nr_id r) start) (nouns g)) as [row|] eqn:F.
    + apply R4. cbn. rewrite String.eqb_refl. reflexivity.
    + destruct (map_get result start) as [v|] eqn:G; [|reflexivity].
      exfalso. apply map_get_Some_In in G. rewrite Forall_forall in R2.
      destruct (R2 _ G) as (_ & _ & _ & _ & _ & K). cbn in K.
      unfold noun_exists in K. apply existsb_exists in K. destruct K as [r [K1 K2]].
      apply (find_none _ _ F) in K1. rewrite K1 in K2. discriminate K2.
Qed.

End TraverseClaim.

(* ================================================================== *)
(** * What a turn keeps of the working memory                         *)
(* ================================================================== *)

Section KeyedLaws.
Import Text Js Sys Memory Store Core Demons Hypervisor Invariants Laws.

Lemma keyed_set (m : list (string * MemSlot)) (s : MemSlot) :
  NoDup (map fst m) -> Forall (fun kv => s_id (snd kv) = fst kv) m ->
  NoDup (map fst (map_set (s_id s) s m))
  /\ Forall (fun kv => s_id (snd kv) = fst kv) (map_set (s_id s) s m).
Proof.
  intros Hn Hf. split; [apply map_set_keys, Hn|].
  apply Forall_forall. intros x Hx. apply map_set_sub in Hx.
  destruct Hx as [->|Hx]; [reflexivity|]. rewrite Forall_forall in Hf. apply Hf, Hx.
Qed.

Lemma keyed_delete (k : string) (m : list (string * MemSlot)) :
  NoDup (map fst m) -> Forall (fun kv => s_id (snd kv) = fst kv) m ->
  NoDup (map fst (map_delete k m))
  /\ Forall (fun kv => s_id (snd kv) = fst kv) (map_delete k m).
Proof.
  intros Hn Hf. split; [apply map_delete_keys, Hn|].
  apply Forall_forall. intros x Hx. apply map_delete_sub in Hx.
  rewrite Forall_forall in Hf. apply Hf, Hx.
Qed.

Lemma keyed_write (w : World) (m : WorkingMemory) (d : SlotData) :
  keyed m -> keyed (fst (fst (write_in w m d))).
Proof.
  intros [Hn Hf]. unfold write_in.
  destruct (writeSlot_slot m d (env w)) as (Hs & _). cbv zeta in Hs.
  destruct (writeSlot m d (env w)) as [[m' s] e']. cbn [fst snd] in *.
  unfold keyed. rewrite Hs. apply keyed_set; assumption.
Qed.

Lemma keyed_evict (m : WorkingMemory) (id : string) :
  keyed m -> keyed (fst (evictSlot m id)).
Proof. intros [Hn Hf]. unfold keyed, evictSlot. cbn. apply keyed_delete; assumption. Qed.

Lemma keyed_tick (m : WorkingMemory) : keyed m -> keyed (fst (tick m)).
Proof.
  intros [Hn Hf]. unfold keyed, tick.
  assert (K : NoDup (map fst (fst (tick_slots (wm_slots m))))
              /\ Forall (fun kv => s_id (snd kv) = fst kv) (fst (tick_slots (wm_slots m)))).
  { clear - Hn Hf. induction (wm_slots m) as [|[k s] t IH]; [split; constructor|].
    inversion Hn as [|? ? Hk Ht]; subst. inversion Hf as [|? ? Hs Hft]; subst.
    destruct (IH Ht Hft) as [I1 I2]. rewrite tick_slots_cons.
    assert (Hk' : ~ In k (map fst (fst (tick_slots t))))
      by (intros H; apply Hk, tick_slots_keys, H).
    destruct (s_ttl s) as [|[|n]]; cbn [fst map]; split; try assumption;
      constructor; assumption. }
  destruct (tick_slots (wm_slots m)) as [kept ev]. cbn [fst wm_slots] in *. exact K.
Qed.

Lemma keyed_limit (m : WorkingMemory) (maxSlots : nat) :
  keyed m -> keyed (fst (enforceLimit m maxSlots)).
Proof.
  intros K. unfold enforceLimit. destruct (size m <=? maxSlots); [exact K|].
  assert (L : forall sorted slots acc,
             NoDup (map fst slots) -> Forall (fun kv => s_id (snd kv) = fst kv) slots ->
             NoDup (map fst (fst (evict_loop sorted slots maxSlots acc)))
             /\ Forall (fun kv => s_id (snd kv) = fst kv)
                       (fst (evict_loop sorted slots maxSlots acc))).
  { induction sorted as [|[id s] rest IH]; intros slots acc Hn Hf; cbn [evict_loop].
    - split; assumption.
    - destruct (maxSlots <? List.length slots); [|split; assumption].
      destruct (keyed_delete id Hn Hf) as [Hn' Hf']. apply IH; assumption. }
  destruct K as [Hn Hf].
  specialize (L (sort_by (limit_cmp (wm_focus m)) (wm_slots m)) (wm_slots m) [] Hn Hf).
  destruct (evict_loop _ (wm_slots m) maxSlots []) as [slots ev]. exact L.
Qed.

Lemma keyed_apply (m : WorkingMemory) (output : DemonOutput) (maxSlots : nat) (w : World) :
  keyed m -> keyed (fst (fst (applyDemonOutput m output maxSlots w))).
Proof.
  intros K. unfold applyDemonOutput.
  assert (W : forall slots m0 w0 written, keyed m0 ->
                keyed (fst (fst (write_all slots m0 w0 written)))).
  { induction slots as [|d rest IH]; intros m0 w0 written K0; cbn [write_all]; [exact K0|].
    pose proof (keyed_write w0 d K0) as K1.
    destruct (write_in w0 m0 d) as [[m1 s] w1]. apply IH. exact K1. }
  specialize (W (o_write output) m w [] K).
  destruct (write_all (o_write output) m w []) as [[m1 written] w1]. cbn [fst] in W.
  assert (E : forall ids m0 acc, keyed m0 -> keyed (fst (evict_all ids m0 acc))).
  { induction ids as [|id rest IH]; intros m0 acc K0; cbn [evict_all]; [exact K0|].
    pose proof (keyed_evict id K0) as K1.
    destruct (evictSlot m0 id) as [m' had]. apply IH. exact K1. }
  specialize (E (o_evict output) m1 [] W).
  destruct (evict_all (o_evict output) m1 []) as [m2 evicted]. cbn [fst] in E.
  assert (F : keyed (match o_focus output with
                     | [] => m2
                     | _ :: _ => setFocus m2 (o_focus output)
                     end)).
  { destruct (o_focus output); [exact E|exact E]. }
  pose proof (keyed_limit maxSlots F) as L.
  destruct (enforceLimit _ maxSlots) as [m4 overflow]. exact L.
Qed.

End KeyedLaws.

Section Kept.
Import Text Js Sys Memory Store Core Demons Hypervisor Invariants Laws.

Variable reg : Registry.
Variable cfg : HypervisorConfig.
Variable P : WorkingMemory -> Prop.

Hypothesis P_out :
  forall id demon m context w output w' maxSlots,
    getDemon reg id = Some demon ->
    dm_run demon (MkInput m context) w = (Some output, w') ->
    P m -> P (fst (fst (applyDemonOutput m output maxSlots w'))).

Lemma fire_kept (startTime tick : nat) (demonId : string) (ts : TickState) :
  P (ts_memory ts) -> P (ts_memory (fst (fire reg cfg startTime tick demonId ts))).
Proof.
  intros H. unfold fire.
  destruct (includes (ts_firedThisTick ts) demonId); [exact H|].
  destruct (getDemon reg demonId) as [demon|] eqn:G; [|exact H].
  destruct (clock (ts_world (mark_fired ts demonId))) as [now w].
  destruct (tickTimeoutMs cfg <? now - startTime); [exact H|].
  destruct (dm_run demon _ w) as [[output|] w'] eqn:R; [|exact H].
  unfold after_output.
  pose proof (@P_out demonId _ _ _ _ _ _ (maxMemorySlots cfg) G R H) as K.
  cbn [ts_memory mark_fired] in *.
  destruct (applyDemonOutput (ts_memory ts) output (maxMemorySlots cfg) w')
    as [[m [written evicted]] w'']. exact K.
Qed.

Lemma fire_demons_kept (startTime tick : nat) (toFire : list string) (ts : TickState) :
  P (ts_memory ts) -> P (ts_memory (fire_demons reg cfg startTime tick toFire ts)).
Proof.
  revert ts. induction toFire as [|demonId rest IH]; intros ts H; cbn [fire_demons]; [exact H|].
  pose proof (fire_kept startTime tick demonId ts H) as K.
  destruct (fire reg cfg startTime tick demonId ts) as [ts' stop].
  destruct stop; [exact K|apply IH, K].
Qed.

Lemma fire_batch_kept (t : TurnState) :
  P (tn_memory t) -> P (ts_memory (fire_batch reg cfg t)).
Proof.
  intros H. unfold fire_batch. destruct (clock (tn_world t)) as [startTime w0].
  apply fire_demons_kept. exact H.
Qed.

Hypothesis P_tick : forall m, P m -> P (fst (tick m)).

Lemma run_tick_kept (t : TurnState) : P (tn_memory t) -> P (tn_memory (run_tick reg cfg t)).
Proof. intros H. unfold run_tick. cbn [tn_memory]. apply P_tick, fire_batch_kept, H. Qed.

Lemma run_ticks_kept (n : nat) (t : TurnState) :
  P (tn_memory t) -> P (tn_memory (run_ticks reg cfg n t)).
Proof.
  revert t. induction n as [|n IH]; intros t H; [exact H|].
  rewrite run_ticks_step. destruct (tn_pendingDemons t); [exact H|].
  pose proof (run_tick_kept t H) as K.
  destruct (negb _ && _); [exact K|apply IH, K].
Qed.

Lemma run_learn_kept (t : TurnState) :
  P (tn_memory t) -> P (tn_memory (run_learn reg cfg t)).
Proof.
  intros H. unfold run_learn. destruct (getDemon reg "learn") as [d|] eqn:G; [|exact H].
  destruct (dm_run d _ (tn_world t)) as [[output|] w] eqn:R; [|exact H].
  pose proof (@P_out "learn" _ _ _ _ _ _ (maxMemorySlots cfg) G R H) as K.
  destruct (applyDemonOutput (tn_memory t) output (maxMemorySlots cfg) w) as [[m x] w'].
  exact K.
Qed.

Hypothesis P_write : forall w m d, P m -> P (fst (fst (write_in w m d))).

Lemma run_chain_kept (state : HypervisorState) (input : string) (w : World) :
  cfg = config state ->
  P (memory state) -> P (tn_memory (run_learn reg cfg (run_chain reg state input w))).
Proof.
  intros E H. apply run_learn_kept. unfold run_chain. rewrite <- E.
  pose proof (@P_write w _ (slot (JStr input) "raw_input" 1%Q "user" 0) H) as K.
  destruct (write_in w (memory state) _) as [[m s] w1]. apply run_ticks_kept. exact K.
Qed.

End Kept.

Section CleanupLaws.
Import Text Js Sys Memory Store Core Demons Hypervisor Invariants Laws.

Lemma evict_fold_clears (l : list MemSlot) (m : WorkingMemory) :
  keyed m ->
  let m' := fold_left (fun m s => fst (evictSlot m (s_id s))) l m in
  keyed m'
  /\ (forall x, In x (wm_slots m') -> In x (wm_slots m))
  /\ (forall s, In s l -> ~ In (s_id s) (map fst (wm_slots m'))).
Proof.
  revert m. induction l as [|a l IH]; intros m K; cbn [fold_left].
  - split; [exact K|]. split; [auto|intros s []].
  - pose proof (keyed_evict (s_id a) K) as K1.
    destruct (IH _ K1) as (I1 & I2 & I3).
    split; [exact I1|]. split.
    + intros x Hx. apply I2 in Hx. unfold evictSlot in Hx. cbn in Hx.
      apply map_delete_sub in Hx. exact Hx.
    + intros s [<-|Hs]; [|apply I3, Hs]. intros Hin.
      apply in_map_iff in Hin. destruct Hin as [x [Ex Hx]]. apply I2 in Hx.
      unfold evictSlot in Hx. cbn in Hx.
      assert (G : map_get (map_delete (s_id a) (wm_slots m)) (fst x) = None).
      { rewrite map_get_delete by apply K. rewrite Ex, String.eqb_refl. reflexivity. }
      apply map_get_None in G. apply G. apply in_map. exact Hx.
Qed.

Lemma evict_tag_clears (m : WorkingMemory) (tag : string) :
  keyed m ->
  keyed (evict_tag m tag)
  /\ (forall x, In x (wm_slots (evict_tag m tag)) -> In x (wm_slots m))
  /\ (forall x, In x (wm_slots (evict_tag m tag)) -> s_tag (snd x) <> tag).
Proof.
  intros K. unfold evict_tag.
  destruct (evict_fold_clears (findByTag m tag) K) as (I1 & I2 & I3).
  split; [exact I1|]. split; [exact I2|].
  intros x Hx E. pose proof (I2 x Hx) as Hm.
  assert (Hs : In (snd x) (findByTag m tag)).
  { unfold findByTag, map_values. apply filter_In. split; [apply in_map, Hm|].
    apply String.eqb_eq. exact E. }
  apply (I3 _ Hs). destruct K as [_ Kf]. rewrite Forall_forall in Kf.
  rewrite (Kf x Hm). apply in_map. exact Hx.
Qed.

Lemma evict_tags_clear (tags : list string) (m : WorkingMemory) :
  keyed m ->
  keyed (fold_left evict_tag tags m)
  /\ (forall x, In x (wm_slots (fold_left evict_tag tags m)) -> In x (wm_slots m))
  /\ (forall x, In x (wm_slots (fold_left evict_tag tags m)) -> ~ In (s_tag (snd x)) tags).
Proof.
  revert m. induction tags as [|tag tags IH]; intros m K; cbn [fold_left].
  - split; [exact K|]. split; [auto|intros x _ []].
  - destruct (evict_tag_clears tag K) as (K1 & S1 & C1).
    destruct (IH _ K1) as (I1 & I2 & I3).
    split; [exact I1|]. split; [intros x Hx; apply S1, I2, Hx|].
    intros x Hx [E|Hin]; [|exact (I3 x Hx Hin)].
    apply (C1 x (I2 x Hx)). symmetry. exact E.
Qed.

Lemma cleanup_clears (m : WorkingMemory) :
  keyed m ->
  keyed (cleanup m)
  /\ (forall x, In x (wm_slots (cleanup m)) -> ~ In (s_tag (snd x)) tagsToEvict).
Proof.
  intros K. unfold cleanup.
  destruct (evict_tags_clear tagsToEvict K) as (C1 & _ & C3). split; assumption.
Qed.

Lemma turn_result (reg : Registry) (state : HypervisorState) (input : string) (w : World) :
  memory (snd (fst (processInput reg state input w)))
  = cleanup (tn_memory (run_learn reg (config (initHypervisor state))
                                  (run_chain reg (initHypervisor state) input w))).
Proof. reflexivity. Qed.

Lemma turn_clean (reg : Registry) (state : HypervisorState) (input : string) (w : World) :
  keyed (memory state) ->
  keyed (memory (snd (fst (processInput reg state input w))))
  /\ Forall (fun kv => turn_tagged (snd kv) = false)
            (wm_slots (memory (snd (fst (processInput reg state input w))))).
Proof.
  intros K. rewrite turn_result.
  assert (Kt : keyed (tn_memory (run_learn reg (config (initHypervisor state))
                                           (run_chain reg (initHypervisor state) input w)))).
  { apply (@run_chain_kept reg (config (initHypervisor state)) keyed).
    - intros id demon m context w0 output w' maxSlots _ _. apply keyed_apply.
    - apply keyed_tick.
    - intros w0 m d. apply keyed_write.
    - reflexivity.
    - unfold initHypervisor. destruct (initialized state); exact K. }
  destruct (cleanup_clears Kt) as (C1 & C3).
  generalize dependent (cleanup (tn_memory (run_learn reg (config (initHypervisor state))
                                  (run_chain reg (initHypervisor state) input w)))).
  intros m C1 C3. split; [exact C1|].
  apply Forall_forall. intros x Hx. unfold turn_tagged. apply includes_false.
  exact (C3 x Hx).
Qed.

(** X11. A turn leaves no turn-specific slot behind: on a memory that
    holds one slot per id, each under its id, the memory after
    [processInput] is again of that form and holds no slot whose tag is
    one of [tagsToEvict], whatever its ttl; the contradiction and
    claim_assessment slots, written with a ttl of zero, go with the
    rest. *)
Theorem X11_turn_slots_cleared (reg : Registry) (state : HypervisorState) (input : string)
        (w : World) :
  keyed (memory state) ->
  let after := memory (snd (fst (processInput reg state input w))) in
  keyed after
  /\ Forall (fun kv => turn_tagged (snd kv) = false) (wm_slots after)
  /\ (forall tag, In tag tagsToEvict -> findByTag after tag = []).
Proof.
  intros K after. destruct (@turn_clean reg state input w K) as [C1 C2]. fold after in C1, C2.
  split; [exact C1|]. split; [exact C2|].
  generalize dependent after. intros m C1 C2 tag Ht. unfold findByTag, map_values.
  destruct (filter _ _) as [|s rest] eqn:F; [reflexivity|].
  assert (Hs : In s (filter (fun s => String.eqb (s_tag s) tag) (map snd (wm_slots m))))
    by (rewrite F; left; reflexivity).
  apply filter_In in Hs. destruct Hs as [Hs E]. apply String.eqb_eq in E.
  apply in_map_iff in Hs. destruct Hs as [x [<- Hx]].
  rewrite Forall_forall in C2. specialize (C2 x Hx). unfold turn_tagged in C2.
  apply includes_false in C2. exfalso. apply C2. rewrite E. exact Ht.
Qed.

End CleanupLaws.

(* ================================================================== *)
(** * The seed demons and the queue                                   *)
(* ================================================================== *)

Section SeedDemons.
Import Text Js Sys Memory Store Core Demons Hypervisor Invariants Laws.

Ltac staged :=
  repeat (apply Forall_cons; [split; apply Nat.ltb_lt; reflexivity|]); try apply Forall_nil.

Lemma bind_output (A B : Type) (m : Eff A) (k : A -> Eff B) (w w' : World) (b : B) :
  bind m k w = (Some b, w') -> exists a w1, m w = (Some a, w1) /\ k a w1 = (Some b, w').
Proof.
  unfold bind. destruct (m w) as [[a|] w1]; intros H; [|discriminate].
  exists a, w1. split; [reflexivity|exact H].
Qed.

Lemma ret_output (A : Type) (a b : A) (w w' : World) :
  ret a w = (Some b, w') -> b = a.
Proof. unfold ret. intros H. inversion H. reflexivity. Qed.

Lemma parse_tame (input : DemonInput) : tame "parse" (Parse.run input).
Proof.
  unfold Parse.run. destruct (latestByTag (i_memory input) "raw_input") as [rawSlot|].
  2:{ repeat split. apply Forall_nil. }
  split; [reflexivity|]. split; [reflexivity|]. unfold forward. cbn [o_chain].
  destruct (Parse.detectIntent _); cbn [Parse.chain_of_intent]; staged.
Qed.

Lemma relate_tame (g : Graph) (input : DemonInput) : tame "relate" (Relate.run g input).
Proof.
  unfold Relate.run.
  destruct (map _ (findByTag (i_memory input) "noun_phrase")) as [|n ns].
  { repeat split. apply Forall_nil. }
  split; [reflexivity|]. split; [reflexivity|]. unfold forward. cbn [o_chain].
  apply Forall_app; split.
  - destruct (flat_map _ _); staged.
  - apply Forall_app; split.
    + destruct (Relate.missingNouns _); staged.
    + destruct (Relate.foundNouns _); [apply Forall_nil|].
      destruct (flat_map _ _); staged.
Qed.

Lemma infer_tame (input : DemonInput) : tame "infer" (Infer.run input).
Proof.
  unfold Infer.run.
  destruct (_ ++ _) as [|r rs].
  { repeat split. cbn. staged. }
  split; [reflexivity|]. split; [reflexivity|]. unfold forward. cbn [o_chain].
  apply Forall_app; split.
  - destruct (Infer.detectContradictions _); staged.
  - apply Forall_app; split; [|staged].
    destruct (0 <? _); staged.
Qed.

Lemma decompose_tame (g : Graph) (input : DemonInput) :
  tame "decompose" (Decompose.run g input).
Proof.
  unfold Decompose.run.
  destruct (String.eqb _ "").
  { repeat split. cbn. staged. }
  split; [reflexivity|]. split; [reflexivity|]. unfold forward. cbn [o_chain].
  apply Forall_app; split; [|staged].
  destruct (String.eqb _ "confusion"); staged.
Qed.

Lemma analogize_tame (g : Graph) (input : DemonInput) (output : DemonOutput) :
  Analogize.run g input = Some output -> tame "analogize" output.
Proof.
  unfold Analogize.run.
  destruct (_ ++ _) as [|c cs].
  { intros H. inversion H. repeat split. cbn. staged. }
  destruct (Analogize.analogy_slots g _) as [write|]; intros H; inversion H.
  repeat split. cbn. staged.
Qed.

Lemma question_tame (input : DemonInput) (w w' : World) (output : DemonOutput) :
  Question.run input w = (Some output, w') -> tame "question" output.
Proof.
  unfold Question.run. intros H.
  apply bind_output in H. destruct H as (response & w1 & _ & H).
  apply ret_output in H. subst output. repeat split. apply Forall_nil.
Qed.

Lemma learn_tame (input : DemonInput) (w w' : World) (output : DemonOutput) :
  Learn.run input w = (Some output, w') -> tame "learn" output.
Proof.
  unfold Learn.run. intros H.
  apply bind_output in H. destruct H as (t1 & w1 & _ & H).
  apply bind_output in H. destruct H as (u & w2 & _ & H).
  apply bind_output in H. destruct H as (t3 & w3 & _ & H).
  apply bind_output in H. destruct H as (t4 & w4 & _ & H).
  apply bind_output in H. destruct H as (topic & w5 & _ & H).
  apply ret_output in H. subst output. repeat split. apply Forall_nil.
Qed.

Lemma seed_tame (id : string) (d : Demon) (input : DemonInput) (w w' : World)
      (output : DemonOutput) :
  getDemon DEMONS id = Some d ->
  dm_run d input w = (Some output, w') ->
  dm_id d = id /\ tame id output.
Proof.
  intros G R. unfold getDemon in G. apply map_get_Some_In in G.
  cbv [DEMONS In] in G.
  destruct G as [G|[G|[G|[G|[G|[G|[G|[]]]]]]]]; inversion G; subst id d;
    (split; [reflexivity|]).
  - cbn in R. apply ret_output in R. subst output. apply parse_tame.
  - cbn in R. unfold read in R. inversion R. apply relate_tame.
  - cbn in R. apply ret_output in R. subst output. apply infer_tame.
  - cbn in R. unfold read in R. inversion R. apply decompose_tame.
  - cbn in R. inversion R. eapply analogize_tame. eassumption.
  - eapply question_tame. exact R.
  - eapply learn_tame. exact R.
Qed.

(** X12. Every seed demon is registered under its own id, and whatever
    it returns evicts no slot, sets no focus, and hints only at demons
    registered after it and before learn: the chain hints run forward
    through parse, relate, infer, decompose, analogize, question, and
    none of them names parse, learn, or the demon that gave it. *)
Theorem X12_seed_demons_chain_forward (id : string) (d : Demon) (input : DemonInput)
        (w w' : World) (output : DemonOutput) :
  getDemon DEMONS id = Some d ->
  dm_run d input w = (Some output, w') ->
  dm_id d = id
  /\ o_evict output = [] /\ o_focus output = []
  /\ Forall (fun next => stage id < stage next /\ stage next < stage "learn"
                         /\ map_has DEMONS next = true
                         /\ next <> id /\ next <> "parse" /\ next <> "learn")
            (o_chain output).
Proof.
  intros G R. destruct (seed_tame id input w G R) as (E & He & Hf & Hc).
  split; [exact E|]. split; [exact He|]. split; [exact Hf|].
  unfold forward in Hc. eapply Forall_impl; [|exact Hc].
  intros next [H1 H2]. cbv beta. split; [exact H1|]. split; [exact H2|].
  assert (P : forall reg x, position reg x < List.length reg -> map_has reg x = true).
  { induction reg as [|[k v] rest IH]; intros x Hx; cbn in Hx; [lia|].
    unfold map_has. cbn [map_get]. destruct (String.eqb k x); [reflexivity|].
    apply IH. lia. }
  split.
  { apply P. unfold stage in H2. cbn in H2 |- *. lia. }
  split; [intros ->; lia|].
  split; intros ->; [|lia]. cbn in H1. lia.
Qed.

End SeedDemons.

Section QueueLaws.
Import Text Js Sys Memory Store Core Demons Hypervisor Invariants Laws.

Lemma dedup_acc_seen (l seen seen' : list string) :
  (forall x, includes seen x = includes seen' x) ->
  dedup_acc seen l = dedup_acc seen' l.
Proof.
  revert seen seen'. induction l as [|x t IH]; intros seen seen' H; cbn [dedup_acc]; [reflexivity|].
  rewrite <- (H x). destruct (includes seen x); [apply IH, H|].
  f_equal. apply IH. intros y. unfold includes. cbn [existsb]. f_equal. apply H.
Qed.

Lemma includes_app (l1 l2 : list string) (x : string) :
  includes (l1 ++ l2) x = includes l1 x || includes l2 x.
Proof. unfold includes. apply existsb_app. Qed.

Lemma dedup_acc_filter (l s1 s2 : list string) :
  dedup_acc (s1 ++ s2) l = filter (fun id => negb (includes s1 id)) (dedup_acc s2 l).
Proof.
  revert s1 s2. induction l as [|x t IH]; intros s1 s2; cbn [dedup_acc]; [reflexivity|].
  rewrite includes_app.
  destruct (includes s2 x) eqn:E2.
  { rewrite orb_true_r. apply IH. }
  rewrite orb_false_r. cbn [filter]. destruct (includes s1 x) eqn:E1; cbn [negb].
  - rewrite <- (IH s1 (x :: s2)). apply dedup_acc_seen. intros y.
    rewrite !includes_app. unfold includes at 4. cbn [existsb]. fold (includes s2 y).
    destruct (String.eqb y x) eqn:Ey; [|reflexivity].
    apply String.eqb_eq in Ey. subst y. rewrite E1. reflexivity.
  - f_equal. rewrite <- (IH s1 (x :: s2)). apply dedup_acc_seen. intros y.
    unfold includes. cbn [existsb]. rewrite !existsb_app. cbn [existsb].
    destruct (String.eqb y x); [rewrite orb_true_r; reflexivity|reflexivity].
Qed.

Lemma merge_pending_dedup (next pending : list string) :
  merge_pending pending next = pending ++ dedup_acc pending next.
Proof.
  unfold merge_pending. revert pending.
  induction next as [|x t IH]; intros pending; cbn [fold_left dedup_acc].
  - rewrite app_nil_r. reflexivity.
  - destruct (includes pending x) eqn:E; [apply IH|].
    rewrite IH, <- app_assoc. cbn [app]. do 2 f_equal. apply dedup_acc_seen. intros y.
    rewrite includes_app. unfold includes. cbn [existsb].
    destruct (String.eqb y x); [rewrite orb_true_r; reflexivity|rewrite !orb_false_r; reflexivity].
Qed.

Lemma dedup_acc_spec (l seen : list string) :
  NoDup (dedup_acc seen l)
  /\ (forall x, In x (dedup_acc seen l) <-> In x l /\ ~ In x seen).
Proof.
  revert seen. induction l as [|a t IH]; intros seen; cbn [dedup_acc].
  - split; [constructor|]. intros x. split; [intros []|intros [[] _]].
  - destruct (includes seen a) eqn:E.
    + destruct (IH seen) as [H1 H2]. split; [exact H1|]. intros x. rewrite H2.
      split; [intros [Hx Hs]; split; [right; exact Hx|exact Hs]|].
      intros [[<-|Hx] Hs]; [|split; assumption].
      apply includes_In in E. contradiction.
    + destruct (IH (a :: seen)) as [H1 H2]. apply includes_false in E. split.
      * constructor; [|exact H1]. rewrite H2. intros [_ H]. apply H. left. reflexivity.
      * intros x. cbn [In]. rewrite H2. cbn [In]. split.
        -- intros [<-|[Hx Hs]]; [split; [left; reflexivity|exact E]|].
           split; [right; exact Hx|]. intros H. apply Hs. right. exact H.
        -- intros [[<-|Hx] Hs]; [left; reflexivity|].
           destruct (string_dec a x) as [->|Hne]; [left; reflexivity|].
           right. split; [exact Hx|]. intros [H|H]; [contradiction|contradiction].
Qed.

(** X15. Merging the chain hints into the queue keeps the queue as it
    is and appends, in the order of their first mention, the hinted ids
    that are not queued yet: the result holds a hinted id once, holds
    exactly the ids queued or hinted, and has no duplicate when the
    queue had none. *)
Theorem X15_merge_pending (pending next : list string) :
  merge_pending pending next
  = pending ++ filter (fun id => negb (includes pending id)) (dedup next)
  /\ (forall id, In id (merge_pending pending next) <-> In id pending \/ In id next)
  /\ (NoDup pending -> NoDup (merge_pending pending next)).
Proof.
  pose proof (merge_pending_dedup next pending) as E.
  destruct (dedup_acc_spec next pending) as [Hn Hi].
  split; [|split].
  - rewrite E. f_equal. unfold dedup. rewrite <- dedup_acc_filter, app_nil_r. reflexivity.
  - intros id. rewrite E, in_app_iff, Hi. split.
    + intros [H|[H _]]; [left|right]; exact H.
    + intros [H|H]; [left; exact H|].
      destruct (in_dec string_dec id pending) as [Hp|Hp]; [left; exact Hp|].
      right. split; assumption.
  - intros Hp. rewrite E. apply NoDup_app; [exact Hp|exact Hn|].
    intros a Ha Hd. apply Hi in Hd. destruct Hd as [_ Hd]. contradiction.
Qed.

End QueueLaws.

(* ================================================================== *)
(** * Whole turns                                                     *)
(* ================================================================== *)

(** The statements of this part speak of whole turns.  Their
    arguments are all explicit: inferring implicit ones would
    evaluate the turns they mention. *)
Unset Implicit Arguments.

Section FocusKept.
Import Text Js Sys Memory Store Core Demons Hypervisor Invariants Laws.

Lemma write_in_focus (w : World) (m : WorkingMemory) (d : SlotData) :
  wm_focus (fst (fst (write_in w m d))) = wm_focus m.
Proof.
  unfold write_in, writeSlot.
  destruct (match d_id d with
            | Some s => if String.eqb s "" then Sys.nanoid (env w) else (s, env w)
            | None => Sys.nanoid (env w)
            end) as [i e1].
  destruct (Sys.Date_now e1) as [now e2]. reflexivity.
Qed.

Lemma write_all_focus (slots : list SlotData) (m : WorkingMemory) (w : World)
      (written : list string) :
  wm_focus (fst (fst (write_all slots m w written))) = wm_focus m.
Proof.
  revert m w written. induction slots as [|d rest IH]; intros m w written; cbn [write_all].
  - reflexivity.
  - pose proof (write_in_focus w m d) as E.
    destruct (write_in w m d) as [[m' s] w']. cbn [fst] in E. rewrite IH. exact E.
Qed.

Lemma enforceLimit_focus (m : WorkingMemory) (maxSlots : nat) (x : string) :
  In x (wm_focus (fst (enforceLimit m maxSlots))) -> In x (wm_focus m).
Proof.
  unfold enforceLimit. destruct (size m <=? maxSlots); [auto|].
  destruct (evict_loop _ (wm_slots m) maxSlots []) as [slots evicted]. cbn [fst wm_focus].
  intros Hx. apply filter_In in Hx. apply Hx.
Qed.

Lemma tick_focus (m : WorkingMemory) (x : string) :
  In x (wm_focus (fst (tick m))) -> In x (wm_focus m).
Proof.
  unfold tick. destruct (tick_slots (wm_slots m)) as [kept evicted]. cbn [fst wm_focus].
  destruct evicted; [auto|]. intros Hx. apply filter_In in Hx. apply Hx.
Qed.

Lemma evictSlot_focus (m : WorkingMemory) (id x : string) :
  In x (wm_focus (fst (evictSlot m id))) -> In x (wm_focus m).
Proof. intros Hx. cbn in Hx. apply filter_In in Hx. apply Hx. Qed.

Lemma evict_tag_focus (m : WorkingMemory) (tag x : string) :
  In x (wm_focus (evict_tag m tag)) -> In x (wm_focus m).
Proof.
  unfold evict_tag. generalize (findByTag m tag). intros l. revert m.
  induction l as [|s l IHl]; intros m; cbn [fold_left]; [auto|].
  intros H. apply IHl in H. eapply evictSlot_focus. exact H.
Qed.

Lemma evict_tags_focus (tags : list string) (m : WorkingMemory) (x : string) :
  In x (wm_focus (fold_left evict_tag tags m)) -> In x (wm_focus m).
Proof.
  revert m. induction tags as [|tag tags IH]; intros m; cbn [fold_left]; [auto|].
  intros H. apply IH in H. eapply evict_tag_focus. exact H.
Qed.

Lemma cleanup_focus (m : WorkingMemory) (x : string) :
  In x (wm_focus (cleanup m)) -> In x (wm_focus m).
Proof. unfold cleanup. apply evict_tags_focus. Qed.

Lemma apply_focus (m : WorkingMemory) (output : DemonOutput) (maxSlots : nat) (w : World)
      (x : string) :
  o_evict output = [] -> o_focus output = [] ->
  In x (wm_focus (fst (fst (applyDemonOutput m output maxSlots w)))) -> In x (wm_focus m).
Proof.
  intros He Hf. unfold applyDemonOutput. rewrite He, Hf.
  pose proof (write_all_focus (o_write output) m w []) as E.
  destruct (write_all (o_write output) m w []) as [[m1 written] w1]. cbn [fst] in E.
  cbn [evict_all]. pose proof (enforceLimit_focus m1 maxSlots x) as L.
  destruct (enforceLimit m1 maxSlots) as [m4 overflow]. cbn [fst] in *.
  rewrite <- E. exact L.
Qed.

Lemma quiet_focus_kept (reg : Registry) (state : HypervisorState) (input : string)
      (w : World) (x : string) :
  (forall id d, getDemon reg id = Some d -> quiet d) ->
  In x (wm_focus (memory (snd (fst (processInput reg state input w))))) ->
  In x (wm_focus (memory state)).
Proof.
  intros Q. rewrite turn_result. intros H. apply cleanup_focus in H. revert H.
  apply (@run_chain_kept reg (config (initHypervisor state))
                         (fun m => In x (wm_focus m) -> In x (wm_focus (memory state)))).
  - intros id demon m context w0 output w' maxSlots G R H Hx.
    destruct (Q id demon G (MkInput m context) w0 output w' R) as (He & Hf).
    apply H. eapply apply_focus; eassumption.
  - intros m H Hx. apply H, tick_focus, Hx.
  - intros w0 m d H. rewrite write_in_focus. exact H.
  - reflexivity.
  - unfold initHypervisor. destruct (initialized state); auto.
Qed.

Lemma seed_quiet (id : string) (d : Demon) : getDemon DEMONS id = Some d -> quiet d.
Proof.
  intros G input w output w' R.
  destruct (seed_tame id input w G R) as (_ & He & Hf & _). split; assumption.
Qed.

(** X13. No seed demon sets the focus, so a turn of the seed registry
    only ever takes ids out of focus: an id in focus after
    [processInput] was in focus before, and a memory that starts with
    nothing in focus, as [createWorkingMemory] gives it, has nothing in
    focus after any turn. *)
Theorem X13_focus_never_grows (state : HypervisorState) (input : string) (w : World) :
  let after := snd (fst (processInput DEMONS state input w)) in
  Forall (fun id => In id (wm_focus (memory state))) (wm_focus (memory after))
  /\ (wm_focus (memory state) = [] ->
      wm_focus (memory after) = [] /\ getFocused (memory after) = []
      /\ focusedSlots (hypervisorStats DEMONS after) = 0).
Proof.
  intros after.
  assert (H : forall x, In x (wm_focus (memory after)) -> In x (wm_focus (memory state))).
  { intros x. apply quiet_focus_kept. exact seed_quiet. }
  split; [apply Forall_forall; exact H|]. intros E. rewrite E in H.
  assert (E' : wm_focus (memory after) = []).
  { destruct (wm_focus (memory after)) as [|x l]; [reflexivity|]. destruct (H x).
    left. reflexivity. }
  split; [exact E'|]. split.
  - unfold getFocused. rewrite E'. reflexivity.
  - unfold hypervisorStats. cbn [focusedSlots]. rewrite E'. reflexivity.
Qed.

End FocusKept.

Section Accounting.
Import Text Js Sys Memory Store Core Demons Hypervisor Invariants Laws.

Variable reg : Registry.
Variable cfg : HypervisorConfig.

Lemma write_in_tick (w : World) (m : WorkingMemory) (d : SlotData) :
  wm_tick (fst (fst (write_in w m d))) = wm_tick m.
Proof.
  unfold write_in, writeSlot.
  destruct (match d_id d with
            | Some s => if String.eqb s "" then Sys.nanoid (env w) else (s, env w)
            | None => Sys.nanoid (env w)
            end) as [i e1].
  destruct (Sys.Date_now e1) as [now e2]. reflexivity.
Qed.

Lemma apply_tick (m : WorkingMemory) (output : DemonOutput) (maxSlots : nat) (w : World) :
  wm_tick (fst (fst (applyDemonOutput m output maxSlots w))) = wm_tick m.
Proof.
  unfold applyDemonOutput.
  assert (W : forall slots m0 w0 written,
             wm_tick (fst (fst (write_all slots m0 w0 written))) = wm_tick m0).
  { induction slots as [|d rest IH]; intros m0 w0 written; cbn [write_all]; [reflexivity|].
    pose proof (write_in_tick w0 m0 d) as E.
    destruct (write_in w0 m0 d) as [[m1 s] w1]. cbn [fst] in E. rewrite IH. exact E. }
  specialize (W (o_write output) m w []).
  destruct (write_all (o_write output) m w []) as [[m1 written] w1]. cbn [fst] in W.
  assert (E : forall ids m0 acc, wm_tick (fst (evict_all ids m0 acc)) = wm_tick m0).
  { induction ids as [|id rest IH]; intros m0 acc; cbn [evict_all]; [reflexivity|].
    unfold evictSlot. rewrite IH. reflexivity. }
  specialize (E (o_evict output) m1 []).
  destruct (evict_all (o_evict output) m1 []) as [m2 evicted]. cbn [fst] in E.
  set (m3 := match o_focus output with [] => m2 | _ :: _ => setFocus m2 (o_focus output) end).
  assert (F : wm_tick m3 = wm_tick m2) by (unfold m3; destruct (o_focus output); reflexivity).
  assert (L : wm_tick (fst (enforceLimit m3 maxSlots)) = wm_tick m3).
  { unfold enforceLimit. destruct (size m3 <=? maxSlots); [reflexivity|].
    destruct (evict_loop _ (wm_slots m3) maxSlots []) as [slots ev]. reflexivity. }
  destruct (enforceLimit m3 maxSlots) as [m4 overflow]. cbn [fst] in *. congruence.
Qed.

Lemma cleanup_tick (m : WorkingMemory) : wm_tick (cleanup m) = wm_tick m.
Proof.
  unfold cleanup.
  assert (T : forall tags m0, wm_tick (fold_left evict_tag tags m0) = wm_tick m0).
  { induction tags as [|tag tags IH]; intros m0; cbn [fold_left]; [reflexivity|].
    rewrite IH. unfold evict_tag. generalize (findByTag m0 tag). intros l. revert m0.
    induction l as [|s l IHl]; intros m0; cbn [fold_left]; [reflexivity|].
    rewrite IHl. reflexivity. }
  apply T.
Qed.

Lemma memory_tick (m : WorkingMemory) : wm_tick (fst (tick m)) = S (wm_tick m).
Proof. unfold tick. destruct (tick_slots (wm_slots m)) as [kept evicted]. reflexivity. Qed.

(** ** The record of a batch *)

Lemma fire_batch_ok (startTime tick : nat) (demonId : string) (ts : TickState) :
  batch_ok reg ts ->
  batch_ok reg (fst (fire reg cfg startTime tick demonId ts))
  /\ List.length (ts_demonsFired (fst (fire reg cfg startTime tick demonId ts)))
     <= S (List.length (ts_demonsFired ts))
  /\ ts_tickActions (fst (fire reg cfg startTime tick demonId ts))
     = ts_tickActions ts
       ++ skipn (List.length (ts_tickActions ts))
                (ts_tickActions (fst (fire reg cfg startTime tick demonId ts))).
Proof.
  intros [Hn Hf]. unfold fire.
  assert (Same : forall l : list DemonAction, l = l ++ skipn (List.length l) l).
  { intros l. rewrite skipn_all. rewrite app_nil_r. reflexivity. }
  assert (More : forall l l' : list DemonAction, l ++ l' = l ++ skipn (List.length l) (l ++ l')).
  { intros l l'. rewrite skipn_app, skipn_all, Nat.sub_diag. reflexivity. }
  destruct (includes (ts_firedThisTick ts) demonId) eqn:Ei.
  { cbn [fst]. split; [split; assumption|]. split; [lia|apply Same]. }
  assert (Hm : batch_ok reg (mark_fired ts demonId)).
  { split; [exact Hn|]. cbn [mark_fired ts_demonsFired ts_firedThisTick].
    eapply Forall_impl; [|exact Hf]. intros id [H1 H2]. split; [|exact H2].
    apply in_or_app. left. exact H1. }
  destruct (getDemon reg demonId) as [demon|] eqn:G.
  2:{ cbn [fst]. split; [exact Hm|]. split; [cbn; lia|apply Same]. }
  destruct (clock (ts_world (mark_fired ts demonId))) as [now w].
  destruct (tickTimeoutMs cfg <? now - startTime).
  { cbn [fst]. split; [exact Hm|]. split; [cbn; lia|].
    cbn [with_log with_world mark_fired ts_tickActions]. apply More. }
  destruct (dm_run demon _ w) as [[output|] w'].
  2:{ cbn [fst]. split; [exact Hm|]. split; [cbn; lia|].
      cbn [with_log with_world mark_fired ts_tickActions]. apply More. }
  destruct (after_output_fields cfg demonId output (mark_fired ts demonId) w')
    as (_ & E1 & E2 & E3 & _).
  cbv zeta in E1, E2, E3.
  destruct (after_output cfg demonId output (mark_fired ts demonId) w') as [r stop].
  cbn [fst] in *. cbn [mark_fired ts_demonsFired ts_firedThisTick ts_tickActions] in E1, E2, E3.
  split; [|split].
  - unfold batch_ok. rewrite E1, E2. split.
    + apply NoDup_app; [exact Hn|repeat constructor; intros []|].
      intros x Hx [E|[]]. subst x. rewrite Forall_forall in Hf.
      destruct (Hf demonId Hx) as [Hin _].
      apply includes_In in Hin. congruence.
    + apply Forall_app. split.
      * eapply Forall_impl; [|exact Hf]. intros id [H1 H2]. split; [|exact H2].
        apply in_or_app. left. exact H1.
      * constructor; [|constructor]. split; [apply in_or_app; right; left; reflexivity|].
        unfold getDemon in G. unfold map_has. rewrite G. reflexivity.
  - rewrite E1, length_app. cbn. lia.
  - rewrite E3. apply More.
Qed.

Lemma fire_demons_ok (startTime tick : nat) (toFire : list string) (ts : TickState) :
  batch_ok reg ts ->
  batch_ok reg (fire_demons reg cfg startTime tick toFire ts)
  /\ List.length (ts_demonsFired (fire_demons reg cfg startTime tick toFire ts))
     <= List.length (ts_demonsFired ts) + List.length toFire.
Proof.
  revert ts. induction toFire as [|demonId rest IH]; intros ts H; cbn [fire_demons].
  - split; [exact H|lia].
  - destruct (fire_batch_ok startTime tick demonId ts H) as (H1 & H2 & _).
    destruct (fire reg cfg startTime tick demonId ts) as [ts' stop]. cbn [fst] in *.
    destruct stop; [split; [exact H1|cbn; lia]|].
    destruct (IH ts' H1) as [H3 H4]. split; [exact H3|cbn; lia].
Qed.

Lemma batch_record (t : TurnState) :
  NoDup (ts_demonsFired (fire_batch reg cfg t))
  /\ List.length (ts_demonsFired (fire_batch reg cfg t)) <= maxDemonsPerTick cfg
  /\ Forall (fun id => map_has reg id = true) (ts_demonsFired (fire_batch reg cfg t)).
Proof.
  unfold fire_batch. destruct (clock (tn_world t)) as [startTime w0].
  match goal with |- context [fire_demons reg cfg ?s ?k ?l ?ts] =>
    destruct (fire_demons_ok s k l ts) as [[Hn Hf] Hl] end.
  { split; constructor. }
  split; [exact Hn|]. split.
  - cbn [ts_demonsFired List.length] in Hl. rewrite length_firstn in Hl. lia.
  - eapply Forall_impl; [|exact Hf]. intros id [_ H]. exact H.
Qed.

Lemma batch_tick (t : TurnState) :
  wm_tick (ts_memory (fire_batch reg cfg t)) = wm_tick (tn_memory t).
Proof.
  apply (@fire_batch_kept reg cfg (fun m => wm_tick m = wm_tick (tn_memory t))).
  - intros id demon m context w output w' maxSlots _ _ H. rewrite apply_tick. exact H.
  - reflexivity.
Qed.

(** ** The books of a turn *)

Lemma run_tick_ok (first : nat) (t : TurnState) :
  turn_ok reg cfg first t -> turn_ok reg cfg first (run_tick reg cfg t).
Proof.
  intros (H1 & H2 & H3 & H4). unfold turn_ok, run_tick.
  cbn [tn_memory tn_ticks tn_allActions].
  rewrite memory_tick, batch_tick, length_app, map_app, map_app, concat_app.
  cbn [List.length map t_tick t_actions List.concat].
  replace (List.length (tn_ticks t) + 1) with (S (List.length (tn_ticks t))) by lia.
  rewrite seq_S, H1, H2, H4, app_nil_r.
  split; [lia|]. split; [reflexivity|]. split; [|reflexivity].
  apply Forall_app. split; [exact H3|]. constructor; [|constructor].
  exact (batch_record t).
Qed.

Lemma run_ticks_ok (first n : nat) (t : TurnState) :
  turn_ok reg cfg first t -> turn_ok reg cfg first (run_ticks reg cfg n t).
Proof.
  revert t. induction n as [|n IH]; intros t H; [exact H|].
  rewrite run_ticks_step. destruct (tn_pendingDemons t); [exact H|].
  pose proof (run_tick_ok first t H) as K.
  destruct (negb _ && _); [exact K|apply IH, K].
Qed.

Lemma run_learn_ok (t : TurnState) :
  wm_tick (tn_memory (run_learn reg cfg t)) = wm_tick (tn_memory t)
  /\ tn_ticks (run_learn reg cfg t) = tn_ticks t
  /\ exists learned, tn_allActions (run_learn reg cfg t) = tn_allActions t ++ learned.
Proof.
  unfold run_learn. destruct (getDemon reg "learn") as [d|].
  2:{ repeat split. exists []. rewrite app_nil_r. reflexivity. }
  destruct (dm_run d _ (tn_world t)) as [[output|] w].
  2:{ repeat split. exists []. rewrite app_nil_r. reflexivity. }
  pose proof (apply_tick (tn_memory t) output (maxMemorySlots cfg) w) as E.
  destruct (applyDemonOutput (tn_memory t) output (maxMemorySlots cfg) w) as [[m x] w'].
  cbn [fst] in E. cbn [tn_memory tn_ticks tn_allActions].
  split; [exact E|]. split; [reflexivity|]. exists (o_actions output). reflexivity.
Qed.

End Accounting.

Section AccountingClaim.
Import Text Js Sys Memory Store Core Demons Hypervisor Invariants Laws.


Lemma run_chain_ok (reg : Registry) (state : HypervisorState) (input : string) (w : World) :
  turn_ok reg (config state) (wm_tick (memory state)) (run_chain reg state input w).
Proof.
  unfold run_chain.
  pose proof (write_in_tick w (memory state) (slot (JStr input) "raw_input" 1%Q "user" 0)) as E.
  destruct (write_in w (memory state) _) as [[m s] w1]. cbn [fst] in E.
  apply run_ticks_ok. unfold turn_ok. cbn [tn_memory tn_ticks tn_allActions List.length map].
  split; [lia|]. split; [reflexivity|]. split; [constructor|reflexivity].
Qed.

Lemma turn_books (reg : Registry) (state : HypervisorState) (input : string) (w : World) :
  history (snd (fst (processInput reg state input w)))
  = history state ++ ticks (fst (fst (processInput reg state input w)))
  /\ config (snd (fst (processInput reg state input w))) = config state
  /\ wm_tick (memory (snd (fst (processInput reg state input w))))
     = wm_tick (memory state)
       + List.length (ticks (fst (fst (processInput reg state input w))))
  /\ map t_tick (ticks (fst (fst (processInput reg state input w))))
     = seq (wm_tick (memory state))
           (List.length (ticks (fst (fst (processInput reg state input w)))))
  /\ Forall (tick_ok reg (config state)) (ticks (fst (fst (processInput reg state input w))))
  /\ exists learned,
       actions (fst (fst (processInput reg state input w)))
       = List.concat (map t_actions (ticks (fst (fst (processInput reg state input w)))))
         ++ learned.
Proof.
  pose proof (run_chain_ok reg (initHypervisor state) input w) as K.
  destruct (run_learn_ok reg (config (initHypervisor state))
                         (run_chain reg (initHypervisor state) input w)) as (L1 & L2 & L3).
  assert (Em : memory (initHypervisor state) = memory state)
    by (unfold initHypervisor; destruct (initialized state); reflexivity).
  assert (Eh : history (initHypervisor state) = history state)
    by (unfold initHypervisor; destruct (initialized state); reflexivity).
  rewrite init_config, Em in K. destruct K as (K1 & K2 & K3 & K4).
  assert (Et : ticks (fst (fst (processInput reg state input w)))
               = tn_ticks (run_learn reg (config (initHypervisor state))
                                     (run_chain reg (initHypervisor state) input w)))
    by reflexivity.
  assert (Ea : actions (fst (fst (processInput reg state input w)))
               = tn_allActions (run_learn reg (config (initHypervisor state))
                                          (run_chain reg (initHypervisor state) input w)))
    by reflexivity.
  assert (Hh : history (snd (fst (processInput reg state input w)))
               = history state ++ ticks (fst (fst (processInput reg state input w))))
    by (rewrite <- Eh; reflexivity).
  rewrite turn_result, cleanup_tick, L1, Ea, Et, L2.
  split; [rewrite Hh, Et, L2; reflexivity|].
  split; [apply init_config|].
  split; [exact K1|]. split; [exact K2|]. split; [exact K3|].
  destruct L3 as [learned E]. exists learned. rewrite E, K4. reflexivity.
Qed.


End AccountingClaim.

Section Hinted.
Import Text Js Sys Memory Store Core Demons Hypervisor Invariants Laws.

Variable reg : Registry.
Variable cfg : HypervisorConfig.
Variable H : string -> Prop.

Hypothesis hints :
  forall id d input w output w',
    getDemon reg id = Some d -> dm_run d input w = (Some output, w') ->
    Forall H (o_chain output).

Lemma fire_hinted (startTime tick : nat) (demonId : string) (ts : TickState) :
  Forall H (ts_nextDemons ts) ->
  Forall H (ts_nextDemons (fst (fire reg cfg startTime tick demonId ts)))
  /\ (forall x, In x (ts_pendingDemons (fst (fire reg cfg startTime tick demonId ts))) ->
                In x (ts_pendingDemons ts))
  /\ ((ts_demonsFired (fst (fire reg cfg startTime tick demonId ts)) = ts_demonsFired ts
       /\ ts_nextDemons (fst (fire reg cfg startTime tick demonId ts)) = ts_nextDemons ts)
      \/ ts_demonsFired (fst (fire reg cfg startTime tick demonId ts))
         = ts_demonsFired ts ++ [demonId]).
Proof.
  intros Hn. unfold fire.
  destruct (includes (ts_firedThisTick ts) demonId); [cbn [fst]; auto|].
  destruct (getDemon reg demonId) as [demon|] eqn:G; [|cbn; auto].
  destruct (clock (ts_world (mark_fired ts demonId))) as [now w].
  destruct (tickTimeoutMs cfg <? now - startTime); [cbn; auto|].
  destruct (dm_run demon _ w) as [[output|] w'] eqn:R; [|cbn; auto].
  pose proof (hints _ _ _ _ _ _ G R) as Hc.
  unfold after_output.
  destruct (applyDemonOutput (ts_memory (mark_fired ts demonId)) output (maxMemorySlots cfg) w')
    as [[m [written evicted]] w''].
  cbn [fst ts_nextDemons ts_pendingDemons ts_demonsFired mark_fired ts_firedThisTick
       ts_response].
  split; [|split; [|right; reflexivity]].
  - match goal with |- context [if ?b then [] else _] => destruct b end; [constructor|].
    unfold collect_chain. destruct (String.eqb _ ""); [|exact Hn].
    apply Forall_app. split; [exact Hn|].
    apply Forall_forall. intros x Hx. apply filter_In in Hx. destruct Hx as [Hx _].
    rewrite Forall_forall in Hc. apply Hc, Hx.
  - match goal with |- context [if ?b then [] else _] => destruct b end; [intros x []|auto].
Qed.

Lemma fire_demons_hinted (startTime tick : nat) (toFire : list string) (ts : TickState) :
  Forall H (ts_nextDemons ts) ->
  Forall H (ts_nextDemons (fire_demons reg cfg startTime tick toFire ts))
  /\ (forall x, In x (ts_pendingDemons (fire_demons reg cfg startTime tick toFire ts)) ->
                In x (ts_pendingDemons ts))
  /\ exists more,
       ts_demonsFired (fire_demons reg cfg startTime tick toFire ts)
       = ts_demonsFired ts ++ more
       /\ incl more toFire
       /\ (more = [] ->
           ts_nextDemons (fire_demons reg cfg startTime tick toFire ts) = ts_nextDemons ts).
Proof.
  revert ts. induction toFire as [|demonId rest IH]; intros ts Hn; cbn [fire_demons].
  - split; [exact Hn|]. split; [auto|]. exists []. split; [rewrite app_nil_r; reflexivity|].
    split; [intros x []|reflexivity].
  - destruct (fire_hinted startTime tick demonId ts Hn) as (H1 & H2 & H3).
    destruct (fire reg cfg startTime tick demonId ts) as [ts' stop]. cbn [fst] in *.
    assert (Step : exists one, ts_demonsFired ts' = ts_demonsFired ts ++ one
                               /\ incl one [demonId]
                               /\ (one = [] -> ts_nextDemons ts' = ts_nextDemons ts)).
    { destruct H3 as [[E E']|E]; [exists []|exists [demonId]].
      - split; [rewrite app_nil_r; exact E|]. split; [intros x []|intros _; exact E'].
      - split; [exact E|]. split; [apply incl_refl|discriminate]. }
    destruct Step as (one & E1 & I1 & N1).
    destruct stop.
    + split; [exact H1|]. split; [exact H2|]. exists one. split; [exact E1|]. split; [|exact N1].
      intros x Hx. destruct (I1 x Hx) as [<-|[]]. left. reflexivity.
    + destruct (IH ts' H1) as (K1 & K2 & more & E2 & I2 & N2).
      split; [exact K1|]. split; [intros x Hx; apply H2, K2, Hx|].
      exists (one ++ more). split; [rewrite E2, E1, app_assoc; reflexivity|]. split.
      * intros x Hx. apply in_app_or in Hx. destruct Hx as [Hx|Hx].
        -- destruct (I1 x Hx) as [<-|[]]. left. reflexivity.
        -- right. apply I2, Hx.
      * intros E. apply app_eq_nil in E. destruct E as [Eo Em].
        rewrite (N2 Em). apply N1, Eo.
Qed.

(** What a tick does to the queue and who fired in it. *)
Lemma run_tick_hinted (t : TurnState) :
  (forall x, In x (tn_pendingDemons (run_tick reg cfg t)) ->
             In x (skipn (maxDemonsPerTick cfg) (tn_pendingDemons t)) \/ H x)
  /\ fired_in (tn_ticks (run_tick reg cfg t))
     = fired_in (tn_ticks t) ++ ts_demonsFired (fire_batch reg cfg t)
  /\ incl (ts_demonsFired (fire_batch reg cfg t))
          (firstn (maxDemonsPerTick cfg) (tn_pendingDemons t))
  /\ (ts_demonsFired (fire_batch reg cfg t) = [] ->
      forall x, In x (tn_pendingDemons (run_tick reg cfg t)) ->
                In x (skipn (maxDemonsPerTick cfg) (tn_pendingDemons t))).
Proof.
  unfold run_tick. cbn [tn_pendingDemons tn_ticks].
  unfold fired_in. rewrite flat_map_app. cbn [flat_map t_demons_fired]. rewrite app_nil_r.
  unfold fire_batch. destruct (clock (tn_world t)) as [startTime w0].
  match goal with |- context [fire_demons reg cfg ?s ?k ?l ?ts] =>
    destruct (fire_demons_hinted s k l ts) as (H1 & H2 & more & E & I & N);
      [constructor|set (r := fire_demons reg cfg s k l ts) in *]
  end.
  cbn [ts_pendingDemons ts_demonsFired ts_nextDemons app] in H2, E, N.
  split; [|split; [reflexivity|split; [rewrite E; exact I|]]].
  - intros x Hx. apply merge_pending_In in Hx. destruct Hx as [Hx|Hx].
    + left. apply H2, Hx.
    + right. rewrite Forall_forall in H1. apply H1, Hx.
  - intros E0 x Hx. rewrite E in E0. apply merge_pending_In in Hx.
    rewrite (N E0) in Hx. destruct Hx as [Hx|[]]. apply H2, Hx.
Qed.

End Hinted.

Section Pipeline.
Import Text Js Sys Memory Store Core Demons Hypervisor Invariants Laws.

Variable cfg : HypervisorConfig.

Lemma seed_hints (id : string) (d : Demon) (input : DemonInput) (w : World)
      (output : DemonOutput) (w' : World) :
  getDemon DEMONS id = Some d -> dm_run d input w = (Some output, w') ->
  Forall reasoning (o_chain output).
Proof.
  intros G R. destruct (@seed_tame id d input w w' output G R) as (_ & _ & _ & F).
  unfold forward in F. eapply Forall_impl; [|exact F].
  intros next [H1 H2]. split; [lia|exact H2].
Qed.

Lemma idle_tick (t : TurnState) :
  firstn (maxDemonsPerTick cfg) (tn_pendingDemons t) = [] ->
  tn_pendingDemons (run_tick DEMONS cfg t) = tn_pendingDemons t
  /\ ts_demonsFired (fire_batch DEMONS cfg t) = [].
Proof.
  intros E. unfold run_tick, fire_batch. rewrite E.
  destruct (clock (tn_world t)) as [startTime w0].
  cbn [fire_demons tn_pendingDemons ts_pendingDemons ts_nextDemons
       ts_demonsFired merge_pending fold_left].
  split; [|reflexivity].
  rewrite <- (firstn_skipn (maxDemonsPerTick cfg) (tn_pendingDemons t)) at 2.
  rewrite E. reflexivity.
Qed.

Lemma run_tick_led (t : TurnState) : parse_led t -> parse_led (run_tick DEMONS cfg t).
Proof.
  intros S.
  destruct (run_tick_hinted DEMONS cfg reasoning seed_hints t) as (Hp & Ef & Hf & Hq).
  destruct (batch_record DEMONS cfg t) as (Hn & _).
  unfold parse_led. rewrite Ef.
  destruct S as [[E0 [Ep|Ep]]|[Fp [rest [E Hr]]]].
  - rewrite E0. cbn [app]. destruct (maxDemonsPerTick cfg) as [|n] eqn:Em.
    + destruct (idle_tick t) as [I1 I2]; [rewrite Em; reflexivity|].
      left. rewrite I1, I2. split; [reflexivity|left; exact Ep].
    + rewrite Ep in Hp, Hf, Hq. cbn [firstn skipn] in Hp, Hf, Hq.
      replace (firstn n []) with (@nil string) in Hf by (destruct n; reflexivity).
      replace (skipn n []) with (@nil string) in Hp, Hq by (destruct n; reflexivity).
      destruct (ts_demonsFired (fire_batch DEMONS cfg t)) as [|x l].
      * left. split; [reflexivity|]. right.
        destruct (tn_pendingDemons (run_tick DEMONS cfg t)) as [|y q]; [reflexivity|].
        destruct (Hq eq_refl y). left. reflexivity.
      * right. split.
        { apply Forall_forall. intros y Hy. destruct (Hp y Hy) as [[]|Hr]. exact Hr. }
        assert (x = "parse") as ->.
        { destruct (Hf x) as [<-|[]]; [left; reflexivity|reflexivity]. }
        exists l. split; [reflexivity|].
        destruct l as [|y l]; [constructor|]. exfalso.
        inversion Hn as [|? ? Hx _]; subst. apply Hx.
        destruct (Hf y) as [<-|[]]; [right; left; reflexivity|left; reflexivity].
  - destruct (idle_tick t) as [I1 I2]; [rewrite Ep; apply firstn_nil|].
    left. rewrite I1, I2, E0. split; [reflexivity|right; exact Ep].
  - right.
    assert (Fb : Forall reasoning (ts_demonsFired (fire_batch DEMONS cfg t))).
    { apply Forall_forall. intros x Hx. rewrite Forall_forall in Fp. apply Fp.
      apply Hf in Hx. rewrite <- (firstn_skipn (maxDemonsPerTick cfg) (tn_pendingDemons t)).
      apply in_or_app. left. exact Hx. }
    split.
    + apply Forall_forall. intros x Hx. destruct (Hp x Hx) as [Hs|Hr']; [|exact Hr'].
      rewrite Forall_forall in Fp. apply Fp.
      rewrite <- (firstn_skipn (maxDemonsPerTick cfg) (tn_pendingDemons t)).
      apply in_or_app. right. exact Hs.
    + rewrite E. exists (rest ++ ts_demonsFired (fire_batch DEMONS cfg t)).
      split; [reflexivity|apply Forall_app; split; assumption].
Qed.

Lemma run_ticks_led (n : nat) (t : TurnState) :
  parse_led t -> parse_led (run_ticks DEMONS cfg n t).
Proof.
  revert t. induction n as [|n IH]; intros t S; [exact S|].
  rewrite run_ticks_step. destruct (tn_pendingDemons t); [exact S|].
  pose proof (run_tick_led t S) as K.
  destruct (negb _ && _); [exact K|apply IH, K].
Qed.

End Pipeline.

Section PipelineClaim.
Import Text Js Sys Memory Store Core Demons Hypervisor Invariants Laws.

Lemma seed_is_parse : seed DEMONS = ["parse"].
Proof. reflexivity. Qed.

(** X23. In a turn of the seed registry, parse is the first demon to
    fire and fires once, and every demon that fires after it in the
    ticks of the turn is one of relate, infer, decompose, analogize and
    question: learn never fires inside a tick, and nothing fires when
    parse does not. *)
Theorem X23_parse_fires_first (state : HypervisorState) (input : string) (w : World) :
  let fired := fired_in (ticks (fst (fst (processInput DEMONS state input w)))) in
  parse_first fired
  /\ ~ In "learn" fired
  /\ count_occ string_dec fired "parse" <= 1.
Proof.
  intros fired.
  assert (P : parse_first fired).
  { unfold fired, processInput. cbn [fst ticks].
    destruct (run_learn_ticks DEMONS (config (initHypervisor state))
                              (run_chain DEMONS (initHypervisor state) input w)) as [-> _].
    unfold run_chain.
    destruct (write_in w (memory (initHypervisor state)) _) as [[m s] w1].
    match goal with |- parse_first (fired_in (tn_ticks (run_ticks _ ?c ?n ?t))) =>
      destruct (run_ticks_led c n t) as [[E _]|[_ [rest [E Hr]]]]
    end.
    - left. split; [reflexivity|]. left. apply seed_is_parse.
    - left. exact E.
    - right. exists rest. split; assumption. }
  assert (R : forall x, reasoning x -> x <> "learn" /\ x <> "parse").
  { intros x [H1 H2]. split; intros ->; [lia|]. cbn in H1. lia. }
  split; [exact P|]. destruct P as [->|[rest [-> Hr]]].
  - split; [intros []|cbn; lia].
  - split.
    + intros [E|Hin]; [discriminate|]. rewrite Forall_forall in Hr.
      destruct (R _ (Hr _ Hin)) as [Hl _]. apply Hl. reflexivity.
    + cbn [count_occ]. destruct (string_dec "parse" "parse") as [_|Hne]; [|contradiction].
      rewrite (proj1 (count_occ_not_In string_dec rest "parse")); [lia|].
      intros Hin. rewrite Forall_forall in Hr. destruct (R _ (Hr _ Hin)) as [_ Hp].
      apply Hp. reflexivity.
Qed.

End PipelineClaim.

Section EngineLaws.
Import Text Js Sys Memory Store Core Demons Hypervisor Engine Invariants Laws.

Lemma turn_initialized (reg : Registry) (state : HypervisorState) (input : string)
      (w : World) :
  initialized (snd (fst (processInput reg state input w))) = true.
Proof.
  unfold processInput. cbn [fst snd initialized]. unfold initHypervisor.
  destruct (initialized state) eqn:E; [exact E|reflexivity].
Qed.

Lemma start_settled (cfg : option PartialConfig) : settled cfg (createEngine cfg).
Proof.
  unfold settled, createEngine, initHypervisor, createHypervisor.
  cbn [initialized memory config history createWorkingMemory wm_slots wm_focus wm_tick
       List.length map seq].
  repeat split; constructor.
Qed.

Lemma turn_settled (cfg : option PartialConfig) (state : HypervisorState) (input : string)
      (w : World) :
  settled cfg state -> settled cfg (snd (fst (process state input w))).
Proof.
  intros (K & F & T & C & I & N & S & O). unfold process.
  destruct (@turn_clean DEMONS state input w K) as [K' T'].
  destruct (turn_books DEMONS state input w) as (B1 & B2 & B3 & B4 & B5 & _).
  unfold settled. rewrite B1, B2, B3, N, length_app, map_app, seq_app, S, B4, N.
  split; [exact K'|]. split.
  { destruct (wm_focus (memory (snd (fst (processInput DEMONS state input w)))))
      as [|x l] eqn:E; [reflexivity|].
    assert (Hx : In x (wm_focus (memory state))).
    { apply (quiet_focus_kept DEMONS state input w x seed_quiet). rewrite E. left. reflexivity. }
    rewrite F in Hx. destruct Hx. }
  split; [exact T'|]. split; [exact C|]. split; [apply turn_initialized|].
  split; [reflexivity|]. split; [reflexivity|].
  apply Forall_app. split; assumption.
Qed.

(** X24. What every state of an engine satisfies, from [createEngine]
    on and after any number of turns on any inputs: the memory holds one
    slot per id, each under its id; nothing is in focus; no slot has a
    turn-specific tag; the configuration is the one the engine was
    created with; the tick counter is the length of the history, whose
    ticks are numbered from zero; and in every tick of the history no
    demon fired twice, at most [maxDemonsPerTick] fired, and only seed
    demons. *)
Theorem X24_engine_invariants (cfg : option PartialConfig) (state : HypervisorState) :
  reachable cfg state -> settled cfg state.
Proof.
  induction 1 as [|state input w _ IH]; [apply start_settled|apply turn_settled, IH].
Qed.

End EngineLaws.

Set Implicit Arguments.

(* ================================================================== *)
(** * The inference rules                                             *)
(* ================================================================== *)

Section InferenceLaws.
Import Text Js Sys Memory Store Core Infer Invariants Laws.

Variable relations : list RelContent.

Lemma kept_add (sound : RelContent -> Prop) (st : InferState) (e : RelContent) :
  infer_kept relations sound st -> sound e -> includes (snd st) (key_of e) = false ->
  infer_kept relations sound (fst st ++ [e], snd st ++ [key_of e]).
Proof.
  intros (H1 & H2 & H3 & H4 & H5) Hs Hk. apply includes_false in Hk.
  unfold infer_kept. cbn [fst snd]. split; [|split; [|split; [|split]]].
  - apply Forall_app. split; [exact H1|]. constructor; [exact Hs|constructor].
  - apply Forall_app. split; [exact H2|]. constructor; [|constructor].
    intros H. apply Hk, H5, H.
  - rewrite map_app. apply NoDup_app; [exact H3|repeat constructor; intros []|].
    intros k Hin [<-|[]]. apply in_map_iff in Hin. destruct Hin as [e' [Ee He]].
    apply Hk. rewrite <- Ee. apply H4, He.
  - intros e' He. apply in_app_or in He. apply in_or_app.
    destruct He as [He|[<-|[]]]; [left; apply H4, He|right; left; reflexivity].
  - intros k Hin. apply in_or_app. left. apply H5, Hin.
Qed.

Lemma kept_start (sound : RelContent -> Prop) :
  infer_kept relations sound ([], map key_of relations).
Proof.
  unfold infer_kept. cbn [fst snd map]. repeat split; try constructor.
  - intros e [].
  - intros k H. exact H.
Qed.

Lemma transitive_kept (types : list string) :
  infer_kept relations (chained relations types)
       (fold_left (fun st r1 =>
                     if includes types (rc_type r1)
                     then fold_left (transitive_step r1) relations st
                     else st)
                  relations ([], map key_of relations)).
Proof.
  assert (Outer : forall l st, incl l relations -> infer_kept relations (chained relations types) st ->
            infer_kept relations (chained relations types)
                 (fold_left (fun st r1 =>
                               if includes types (rc_type r1)
                               then fold_left (transitive_step r1) relations st
                               else st) l st)).
  { induction l as [|r1 l IH]; intros st Hl K; cbn [fold_left]; [exact K|].
    apply IH; [intros x Hx; apply Hl; right; exact Hx|].
    destruct (includes types (rc_type r1)) eqn:Et; [|exact K].
    assert (H1 : In r1 relations) by (apply Hl; left; reflexivity).
    assert (Inner : forall l2 st2, incl l2 relations -> infer_kept relations (chained relations types) st2 ->
              infer_kept relations (chained relations types) (fold_left (transitive_step r1) l2 st2)).
    { induction l2 as [|r2 l2 IH2]; intros st2 Hl2 K2; cbn [fold_left]; [exact K2|].
      apply IH2; [intros x Hx; apply Hl2; right; exact Hx|].
      assert (H2 : In r2 relations) by (apply Hl2; left; reflexivity).
      unfold transitive_step.
      destruct (String.eqb (rc_type r2) (rc_type r1)) eqn:E1; cbn [negb]; [|exact K2].
      destruct (String.eqb (rc_from r2) (rc_to r1)) eqn:E2; cbn [negb]; [|exact K2].
      destruct (String.eqb (rc_to r2) (rc_from r1)) eqn:E3; [exact K2|].
      cbv zeta.
      destruct (includes (snd st2) (rel_key (rc_from r1) (rc_type r1) (rc_to r2))) eqn:E4;
        [exact K2|].
      apply (@kept_add (chained relations types) st2
               (MkRel (rc_from r1) (rc_type r1) (rc_to r2)
                      (Qmin (rc_weight r1) (rc_weight r2) * (9 # 10))%Q));
        [exact K2| |exact E4].
      exists r1, r2. apply String.eqb_eq in E1, E2. apply String.eqb_neq in E3.
      repeat split; assumption || reflexivity. }
    apply Inner; [apply incl_refl|exact K]. }
  apply Outer; [apply incl_refl|apply kept_start].
Qed.

Lemma inheritance_kept :
  infer_kept relations (inherited relations)
       (fold_left (fun st isa =>
                     fold_left (inheritance_step isa)
                               (filter (fun r => String.eqb (rc_type r) "has"
                                                 || String.eqb (rc_type r) "requires")
                                       relations) st)
                  (filter (fun r => String.eqb (rc_type r) "is_a") relations)
                  ([], map key_of relations)).
Proof.
  set (has := filter (fun r => String.eqb (rc_type r) "has" || String.eqb (rc_type r) "requires")
                     relations).
  set (isAs := filter (fun r => String.eqb (rc_type r) "is_a") relations).
  assert (Outer : forall l st, incl l isAs -> infer_kept relations (inherited relations) st ->
            infer_kept relations (inherited relations) (fold_left (fun st isa => fold_left (inheritance_step isa) has st)
                                      l st)).
  { induction l as [|isa l IH]; intros st Hl K; cbn [fold_left]; [exact K|].
    apply IH; [intros x Hx; apply Hl; right; exact Hx|].
    assert (H1 : In isa isAs) by (apply Hl; left; reflexivity).
    apply filter_In in H1. destruct H1 as [H1 T1]. apply String.eqb_eq in T1.
    assert (Inner : forall l2 st2, incl l2 has -> infer_kept relations (inherited relations) st2 ->
              infer_kept relations (inherited relations) (fold_left (inheritance_step isa) l2 st2)).
    { induction l2 as [|p l2 IH2]; intros st2 Hl2 K2; cbn [fold_left]; [exact K2|].
      apply IH2; [intros x Hx; apply Hl2; right; exact Hx|].
      assert (H2 : In p has) by (apply Hl2; left; reflexivity).
      apply filter_In in H2. destruct H2 as [H2 T2].
      unfold inheritance_step.
      destruct (String.eqb (rc_from p) (rc_to isa)) eqn:E1; cbn [negb]; [|exact K2].
      cbv zeta.
      destruct (includes (snd st2) (rel_key (rc_from isa) (rc_type p) (rc_to p))) eqn:E4;
        [exact K2|].
      apply (@kept_add (inherited relations) st2
               (MkRel (rc_from isa) (rc_type p) (rc_to p)
                      (Qmin (rc_weight isa) (rc_weight p) * (85 # 100))%Q));
        [exact K2| |exact E4].
      exists isa, p. apply String.eqb_eq in E1.
      split; [exact H1|]. split; [exact H2|]. split; [exact T1|]. split.
      { apply orb_true_iff in T2. destruct T2 as [T|T]; apply String.eqb_eq in T; auto. }
      split; [exact E1|]. repeat split. }
    apply Inner; [apply incl_refl|exact K]. }
  apply Outer; [apply incl_refl|apply kept_start].
Qed.

End InferenceLaws.

Section InferenceClaim.
Import Text Js Sys Memory Store Core Infer Invariants Laws.

(** X16. The two inference rules are sound.  Every edge
    [inferTransitive] returns chains two edges of the list, r1 of a
    transitive type and r2 of the same type leaving where r1 arrives and
    not returning to where r1 leaves, with 0.9 times the smaller weight;
    every edge [inferInheritance] returns chains an is_a edge with a has
    or requires edge that leaves where it arrives, keeps the type of the
    latter, and has 0.85 times the smaller weight.  No edge returned has
    the key of an edge of the list, and no two edges returned have the
    same key. *)
Theorem X16_inference_sound (relations : list RelContent) (types : list string) :
  Forall (fun e => chained relations types e
                   /\ ~ In (key_of e) (map key_of relations))
         (inferTransitive relations types)
  /\ Forall (fun e => inherited relations e
                      /\ ~ In (key_of e) (map key_of relations))
            (inferInheritance relations)
  /\ NoDup (map key_of (inferTransitive relations types))
  /\ NoDup (map key_of (inferInheritance relations)).
Proof.
  destruct (transitive_kept relations types) as (T1 & T2 & T3 & _).
  destruct (inheritance_kept relations) as (I1 & I2 & I3 & _).
  unfold inferTransitive, inferInheritance.
  split; [|split; [|split]].
  - rewrite Forall_forall in *. intros e He. split; [apply T1, He|apply T2, He].
  - rewrite Forall_forall in *. intros e He. split; [apply I1, He|apply I2, He].
  - exact T3.
  - exact I3.
Qed.

End InferenceClaim.

Section ContradictionLaws.
Import Text Js Sys Memory Store Core Infer Invariants Laws.

Lemma conflicting_sound (equals : list RelContent) (c : Contradiction) :
  In c (conflicting_equals equals) ->
  In (c_claim1 c) equals /\ In (c_claim2 c) equals
  /\ rc_from (c_claim1 c) = c_concept c /\ rc_from (c_claim2 c) = c_concept c
  /\ rc_to (c_claim1 c) <> rc_to (c_claim2 c).
Proof.
  induction equals as [|ei rest IH]; cbn [conflicting_equals]; [intros []|].
  intros H. apply in_app_or in H. destruct H as [H|H].
  - apply in_flat_map in H. destruct H as [ej [Hj H]].
    destruct (String.eqb (rc_from ei) (rc_from ej)) eqn:E1; cbn [andb] in H; [|destruct H].
    destruct (String.eqb (rc_to ei) (rc_to ej)) eqn:E2; cbn [negb] in H; [destruct H|].
    destruct H as [<-|[]]. cbn [c_claim1 c_claim2 c_concept].
    apply String.eqb_eq in E1. apply String.eqb_neq in E2.
    split; [left; reflexivity|]. split; [right; exact Hj|]. split; [reflexivity|].
    split; [symmetry; exact E1|exact E2].
  - destruct (IH H) as (H1 & H2 & H3). split; [right; exact H1|]. split; [right; exact H2|].
    exact H3.
Qed.

Lemma conflicting_complete (equals : list RelContent) (a b : RelContent) :
  In a equals -> In b equals -> rc_from a = rc_from b -> rc_to a <> rc_to b ->
  exists c, In c (conflicting_equals equals)
            /\ c_concept c = rc_from a
            /\ ((c_claim1 c = a /\ c_claim2 c = b) \/ (c_claim1 c = b /\ c_claim2 c = a)).
Proof.
  induction equals as [|ei rest IH]; [intros []|].
  assert (Found : forall x, In x rest -> rc_from ei = rc_from x -> rc_to ei <> rc_to x ->
            exists c, In c (conflicting_equals (ei :: rest))
                      /\ c_concept c = rc_from ei /\ c_claim1 c = ei /\ c_claim2 c = x).
  { intros x Hx Ef Et. eexists. split.
    - cbn [conflicting_equals]. apply in_or_app. left. apply in_flat_map.
      exists x. split; [exact Hx|].
      apply String.eqb_eq in Ef. apply String.eqb_neq in Et. rewrite Ef, Et. left. reflexivity.
    - cbn [c_concept c_claim1 c_claim2]. repeat split. }
  intros [Ha|Ha] [Hb|Hb] Ef Et.
  - subst a b. contradiction.
  - subst a. destruct (Found b Hb Ef Et) as (c & H1 & H2 & H3 & H4).
    exists c. split; [exact H1|]. split; [exact H2|]. left. split; assumption.
  - subst b. destruct (Found a Ha (eq_sym Ef) (fun H => Et (eq_sym H))) as (c & H1 & H2 & H3 & H4).
    exists c. split; [exact H1|]. split; [congruence|]. right. split; assumption.
  - destruct (IH Ha Hb Ef Et) as (c & H1 & H2).
    exists c. split; [|exact H2]. cbn [conflicting_equals]. apply in_or_app. right. exact H1.
Qed.

Lemma opposed_sound (equals opposes : list RelContent) (c : Contradiction) :
  In c (opposed_equals equals opposes) ->
  In (c_claim1 c) equals /\ In (c_claim2 c) equals
  /\ rc_from (c_claim1 c) = c_concept c /\ rc_from (c_claim2 c) = c_concept c
  /\ exists opp, In opp opposes
       /\ ((rc_to (c_claim1 c) = rc_from opp /\ rc_to (c_claim2 c) = rc_to opp)
           \/ (rc_to (c_claim1 c) = rc_to opp /\ rc_to (c_claim2 c) = rc_from opp)).
Proof.
  unfold opposed_equals. intros H.
  apply in_flat_map in H. destruct H as [opp [Ho H]].
  apply in_flat_map in H. destruct H as [eq [He H]].
  destruct (String.eqb (rc_to eq) (rc_from opp) || String.eqb (rc_to eq) (rc_to opp)) eqn:E;
    [|destruct H].
  cbv zeta in H.
  destruct (find _ equals) as [otherEq|] eqn:F; [|destruct H].
  destruct H as [<-|[]]. cbn [c_claim1 c_claim2 c_concept].
  apply find_some in F. destruct F as [Hin F]. apply andb_true_iff in F.
  destruct F as [F1 F2]. apply String.eqb_eq in F1, F2.
  split; [exact He|]. split; [exact Hin|]. split; [reflexivity|]. split; [exact F1|].
  exists opp. split; [exact Ho|].
  destruct (String.eqb (rc_to eq) (rc_from opp)) eqn:E1.
  - apply String.eqb_eq in E1. left. split; assumption.
  - cbn [orb] in E. apply String.eqb_eq in E. right. split; assumption.
Qed.

(** X17. Every contradiction that [detectContradictions] reports is
    borne out by the list: its two claims are equals edges of the list
    about the reported concept, and their targets differ or are the two
    ends of an opposes edge of the list.  And no conflict of equals
    edges is missed: two equals edges of the list about the same concept
    with different targets are reported, as the two claims of one
    contradiction. *)
Theorem X17_contradictions (relations : list RelContent) :
  Forall (borne_out relations) (detectContradictions relations)
  /\ (forall a b,
        In a relations -> In b relations ->
        rc_type a = "equals" -> rc_type b = "equals" ->
        rc_from a = rc_from b -> rc_to a <> rc_to b ->
        exists c, In c (detectContradictions relations)
                  /\ c_concept c = rc_from a
                  /\ ((c_claim1 c = a /\ c_claim2 c = b)
                      \/ (c_claim1 c = b /\ c_claim2 c = a))).
Proof.
  unfold detectContradictions.
  set (equals := filter (fun r => String.eqb (rc_type r) "equals") relations).
  set (opposes := filter (fun r => String.eqb (rc_type r) "opposes") relations).
  assert (Eq : forall r, In r equals <-> In r relations /\ rc_type r = "equals").
  { intros r. unfold equals. rewrite filter_In, String.eqb_eq. reflexivity. }
  assert (Op : forall r, In r opposes <-> In r relations /\ rc_type r = "opposes").
  { intros r. unfold opposes. rewrite filter_In, String.eqb_eq. reflexivity. }
  split.
  - apply Forall_forall. intros c H. apply in_app_or in H. destruct H as [H|H].
    + destruct (conflicting_sound equals c H) as (H1 & H2 & H3 & H4 & H5).
      apply Eq in H1, H2. destruct H1 as [H1 T1], H2 as [H2 T2].
      unfold borne_out. repeat split; try assumption. left. exact H5.
    + destruct (opposed_sound equals opposes c H) as (H1 & H2 & H3 & H4 & opp & Ho & H5).
      apply Eq in H1, H2. destruct H1 as [H1 T1], H2 as [H2 T2].
      apply Op in Ho. destruct Ho as [Ho To].
      unfold borne_out. repeat split; try assumption. right.
      exists opp. repeat split; assumption.
  - intros a b Ha Hb Ta Tb Ef Et.
    assert (Ha' : In a equals) by (apply Eq; split; assumption).
    assert (Hb' : In b equals) by (apply Eq; split; assumption).
    destruct (conflicting_complete equals a b Ha' Hb' Ef Et) as (c & H1 & H2).
    exists c. split; [apply in_or_app; left; exact H1|exact H2].
Qed.

End ContradictionLaws.

Section AssessLaws.
Import Text Js Sys Memory Store Core Infer Invariants Laws.

Lemma Qlt_bool_lt (a b : Q) : Qlt_bool a b = true <-> (a < b)%Q.
Proof.
  unfold Qlt_bool. rewrite Qlt_alt. destruct (a ?= b)%Q; split; congruence.
Qed.


Lemma dedup_spec (l : list string) :
  NoDup (dedup l) /\ (forall x, In x (dedup l) <-> In x l).
Proof.
  unfold dedup. destruct (dedup_acc_spec l []) as [H1 H2]. split; [exact H1|].
  intros x. rewrite H2. split; [intros [H _]; exact H|intros H; split; [exact H|intros []]].
Qed.

Lemma count_ratio (a b : nat) :
  1 <= b ->
  (0 <= inject_Z (Z.of_nat a) / inject_Z (Z.of_nat b))%Q
  /\ (inject_Z (Z.of_nat a) / inject_Z (Z.of_nat b) <= inject_Z (Z.of_nat a))%Q
  /\ ((inject_Z (Z.of_nat a) / inject_Z (Z.of_nat b) == 0)%Q <-> a = 0).
Proof.
  intros Hb.
  assert (Pb : (0 < inject_Z (Z.of_nat b))%Q).
  { change 0%Q with (inject_Z 0). rewrite <- Zlt_Qlt. lia. }
  assert (Pa : (0 <= inject_Z (Z.of_nat a))%Q).
  { change 0%Q with (inject_Z 0). rewrite <- Zle_Qle. lia. }
  split; [|split].
  - apply Qle_shift_div_l; [exact Pb|]. rewrite Qmult_0_l. exact Pa.
  - apply Qle_shift_div_r; [exact Pb|]. rewrite <- inject_Z_mult, <- Zle_Qle. nia.
  - split.
    + intros H.
      assert (E : (inject_Z (Z.of_nat a) == 0)%Q).
      { rewrite <- (Qmult_div_r (inject_Z (Z.of_nat a)) (inject_Z (Z.of_nat b))).
        - rewrite H. apply Qmult_0_r.
        - intros E. rewrite E in Pb. exact (Qlt_irrefl _ Pb). }
      unfold Qeq in E. cbn in E. lia.
    + intros ->. cbn. unfold Qdiv. apply Qmult_0_l.
Qed.

(** X18. What [assessClaim] returns.  The supported edges are the
    edges of weight above 0.5.  The unsupported concepts are, once each,
    the ends of edges that are no noun of a hierarchy and end no edge of
    weight above 0.3.  The confidence is not negative, is zero exactly
    when no edge is supported, and is at most the number of edges; it is
    the number of supported edges over the number of concepts, which one
    is not a bound for. *)
Theorem X18_assess_claim (relations : list RelContent) (hierarchies : list (string * string)) :
  let a := assessClaim relations hierarchies in
  (forall r, In r (a_supported a) <-> In r relations /\ (5 # 10 < rc_weight r)%Q)
  /\ NoDup (a_unsupported a)
  /\ (forall c,
        In c (a_unsupported a) <->
        (exists r, In r relations /\ (rc_from r = c \/ rc_to r = c))
        /\ ~ In c (map fst hierarchies)
        /\ (forall r, In r relations -> rc_from r = c \/ rc_to r = c ->
                      (rc_weight r <= 3 # 10)%Q))
  /\ (0 <= a_confidence a)%Q
  /\ (a_confidence a <= inject_Z (Z.of_nat (List.length relations)))%Q
  /\ ((a_confidence a == 0)%Q <-> a_supported a = [])
  /\ (exists edges, 1 < a_confidence (assessClaim edges hierarchies))%Q.
Proof.
  intros a. unfold a, assessClaim. cbn [a_supported a_unsupported a_confidence].
  set (supported := filter (fun r => Qlt_bool (5 # 10) (rc_weight r)) relations).
  set (all := dedup (map rc_from relations ++ map rc_to relations)).
  set (known := dedup (map fst hierarchies
                       ++ flat_map (fun r => [rc_from r; rc_to r])
                                   (filter (fun r => Qlt_bool (3 # 10) (rc_weight r))
                                           relations))).
  destruct (dedup_spec (map rc_from relations ++ map rc_to relations)) as [An Ai].
  fold all in An, Ai.
  assert (Ends : forall c, In c all <-> exists r, In r relations /\ (rc_from r = c \/ rc_to r = c)).
  { intros c. rewrite Ai, in_app_iff, !in_map_iff. split.
    - intros [[r [E H]]|[r [E H]]]; exists r; auto.
    - intros [r [H [E|E]]]; [left|right]; exists r; auto. }
  assert (Known : forall c, In c known <->
            In c (map fst hierarchies)
            \/ exists r, In r relations /\ (rc_from r = c \/ rc_to r = c)
                         /\ (3 # 10 < rc_weight r)%Q).
  { intros c. unfold known. destruct (dedup_spec (map fst hierarchies
                       ++ flat_map (fun r => [rc_from r; rc_to r])
                                   (filter (fun r => Qlt_bool (3 # 10) (rc_weight r))
                                           relations))) as [_ Ki].
    rewrite Ki, in_app_iff, in_flat_map. split.
    - intros [H|[r [Hr H]]]; [left; exact H|right].
      apply filter_In in Hr. destruct Hr as [Hr W]. apply Qlt_bool_lt in W.
      exists r. split; [exact Hr|]. split; [|exact W].
      destruct H as [H|[H|[]]]; auto.
    - intros [H|[r (Hr & E & W)]]; [left; exact H|right].
      exists r. split; [apply filter_In; split; [exact Hr|apply Qlt_bool_lt, W]|].
      destruct E as [E|E]; [left; exact E|right; left; exact E]. }
  assert (Sup : List.length supported <= List.length relations).
  { unfold supported. clear. induction relations as [|r l IH]; cbn; [lia|].
    destruct (Qlt_bool _ _); cbn; lia. }
  assert (Empty : List.length all = 0 -> relations = []).
  { intros H. destruct relations as [|r l]; [reflexivity|].
    assert (Hin : In (rc_from r) all) by (apply Ends; exists r; split; [left|left]; reflexivity).
    destruct all; [destruct Hin|discriminate]. }
  split; [|split; [|split; [|split; [|split; [|split]]]]].
  - intros r. unfold supported. rewrite filter_In, Qlt_bool_lt. reflexivity.
  - apply NoDup_filter, An.
  - intros c. rewrite filter_In, Ends, negb_true_iff, includes_false, Known. split.
    + intros [He Hk]. split; [exact He|]. split; [intros H; apply Hk; left; exact H|].
      intros r Hr E. apply Qnot_lt_le. intros W. apply Hk. right. exists r. auto.
    + intros (He & Hh & Hw). split; [exact He|]. intros [H|[r (Hr & E & W)]]; [contradiction|].
      exact (Qlt_not_le _ _ W (Hw r Hr E)).
  - destruct (0 <? List.length all) eqn:Z; [|apply Qle_refl].
    apply count_ratio. lia.
  - destruct (0 <? List.length all) eqn:Z.
    + eapply Qle_trans; [apply count_ratio; lia|]. rewrite <- Zle_Qle. lia.
    + change 0%Q with (inject_Z 0). rewrite <- Zle_Qle. lia.
  - destruct (0 <? List.length all) eqn:Z.
    + destruct (@count_ratio (List.length supported) (Nat.max 1 (List.length all)))
        as (_ & _ & H); [lia|].
      rewrite H. split; [intros E; destruct supported; [reflexivity|discriminate]|].
      intros ->. reflexivity.
    + apply Nat.ltb_ge in Z. split; [|reflexivity]. intros _.
      unfold supported. rewrite Empty by lia. reflexivity.
  - exists [MkRel "a" "is_a" "a" 1; MkRel "a" "is_a" "a" 1]. vm_compute. reflexivity.
Qed.

End AssessLaws.

(* ================================================================== *)
(** * Texts: replacement, noun phrases, titles                        *)
(* ================================================================== *)

Section RegexLaws.
Import Text Regex Invariants Laws.

Lemma chars_str (l : list ascii) : chars (str l) = l.
Proof. apply list_ascii_of_string_of_list_ascii. Qed.

Lemma str_chars (s : string) : str (chars s) = s.
Proof. apply string_of_list_ascii_of_string. Qed.

Lemma chars_length (s : string) : List.length (chars s) = String.length s.
Proof. induction s as [|c s IH]; cbn; [reflexivity|]. f_equal. exact IH. Qed.

Lemma in_firstn (A : Type) (n : nat) (l : list A) (x : A) : In x (firstn n l) -> In x l.
Proof.
  intros H. rewrite <- (firstn_skipn n l). apply in_or_app. left. exact H.
Qed.

Lemma in_skipn (A : Type) (n : nat) (l : list A) (x : A) : In x (skipn n l) -> In x l.
Proof.
  intros H. rewrite <- (firstn_skipn n l). apply in_or_app. right. exact H.
Qed.

(** Whatever the expression, a replacement only moves characters of
    the text and of the replacement. *)
Lemma replace_loop_chars (r : re) (rep : list ascii) (fuel : nat) :
  forall prev pos rest c,
    In c (replace_loop fuel r rep prev pos rest) -> In c rest \/ In c rep.
Proof.
  induction fuel as [|f IH]; intros prev pos rest c; cbn [replace_loop]; [auto|].
  destruct (search false r prev pos rest) as [m|]; [|auto].
  cbv zeta.
  assert (Tail : forall prev' pos' n,
             In c (replace_loop f r rep prev' pos' (skipn n rest)) -> In c rest \/ In c rep).
  { intros prev' pos' n H. apply IH in H. destruct H as [H|H]; [left|right; exact H].
    eapply in_skipn. exact H. }
  assert (Gen : In c (firstn (mt_start m - pos) rest ++ rep ++
                      replace_loop f r rep (last_char prev (firstn (mt_end m - pos) rest))
                                   (mt_end m) (skipn (mt_end m - pos) rest)) ->
                In c rest \/ In c rep).
  { intros H. apply in_app_or in H. destruct H as [H|H]; [left; eapply in_firstn; exact H|].
    apply in_app_or in H. destruct H as [H|H]; [right; exact H|]. eapply Tail. exact H. }
  destruct (mt_end m - mt_start m) as [|len]; [|exact Gen].
  destruct (skipn (mt_end m - pos) rest) as [|x t] eqn:E.
  - intros H. apply in_app_or in H. destruct H as [H|H]; [left; eapply in_firstn; exact H|].
    right. exact H.
  - intros H. apply in_app_or in H. destruct H as [H|H]; [left; eapply in_firstn; exact H|].
    apply in_app_or in H. destruct H as [H|H]; [right; exact H|].
    assert (Hx : forall y, In y (x :: t) -> In y rest).
    { intros y Hy. apply (@in_skipn _ (mt_end m - pos)). rewrite E. exact Hy. }
    destruct H as [<-|H]; [left; apply Hx; left; reflexivity|].
    apply IH in H. destruct H as [H|H]; [left; apply Hx; right; exact H|right; exact H].
Qed.

Lemma replace_all_chars (r : re) (rep s : string) (c : ascii) :
  In c (chars (replace_all r rep s)) -> In c (chars s) \/ In c (chars rep).
Proof. unfold replace_all. rewrite chars_str. apply replace_loop_chars. Qed.

End RegexLaws.

Section SingleChar.
Import Text Regex Invariants Laws.

Variable r : re.
Variable p : ascii -> bool.

Hypothesis single :
  forall (s : mstate) (k : mstate -> option mstate),
    mtch false r s k
    = match m_rest s with
      | x :: t => if p x then k (step x t s) else None
      | [] => None
      end.

Lemma search_single (rest : list ascii) :
  forall prev pos,
    match search false r prev pos rest with
    | None => Forall (fun x => p x = false) rest
    | Some m =>
        exists before x after,
          rest = before ++ x :: after
          /\ Forall (fun x => p x = false) before /\ p x = true
          /\ mt_start m = pos + List.length before
          /\ mt_end m = S (pos + List.length before)
    end.
Proof.
  induction rest as [|x t IH]; intros prev pos; cbn [search]; unfold try_at; rewrite single;
    cbn [m_rest].
  - constructor.
  - destruct (p x) eqn:E.
    + cbn [step m_pos m_caps mt_start mt_end]. exists [], x, t.
      cbn [app List.length]. repeat split; [constructor|exact E|lia|lia].
    + specialize (IH (Some x) (S pos)).
      destruct (search false r (Some x) (S pos) t) as [m|].
      * destruct IH as (before & y & after & E1 & E2 & E3 & E4 & E5).
        exists (x :: before), y, after. cbn [app List.length]. rewrite E1.
        repeat split; [constructor; assumption|exact E3|lia|lia].
      * constructor; assumption.
Qed.

Lemma keep_all (rep : list ascii) (l : list ascii) :
  Forall (fun x => p x = false) l ->
  flat_map (fun x => if p x then rep else [x]) l = l.
Proof.
  induction 1 as [|x l Hx _ IH]; cbn [flat_map]; [reflexivity|].
  rewrite Hx, IH. reflexivity.
Qed.

Lemma replace_single (rep : list ascii) (fuel : nat) :
  forall prev pos rest,
    List.length rest < fuel ->
    replace_loop fuel r rep prev pos rest
    = flat_map (fun x => if p x then rep else [x]) rest.
Proof.
  induction fuel as [|f IH]; intros prev pos rest Hl; [lia|]. cbn [replace_loop].
  pose proof (search_single rest prev pos) as S.
  destruct (search false r prev pos rest) as [m|]; [|symmetry; apply keep_all, S].
  destruct S as (before & x & after & E1 & E2 & E3 & E4 & E5). cbv zeta.
  replace (mt_end m - mt_start m) with 1 by lia.
  replace (mt_start m - pos) with (List.length before) by lia.
  replace (mt_end m - pos) with (S (List.length before)) by lia.
  subst rest.
  assert (Ef : firstn (List.length before) (before ++ x :: after) = before).
  { rewrite firstn_app, firstn_all, Nat.sub_diag. cbn. apply app_nil_r. }
  assert (Es : skipn (S (List.length before)) (before ++ x :: after) = after).
  { rewrite skipn_app, skipn_all2 by lia.
    replace (S (List.length before) - List.length before) with 1 by lia. reflexivity. }
  rewrite Ef, Es, flat_map_app. cbn [flat_map]. rewrite E3, (keep_all rep E2).
  f_equal. f_equal. apply IH. rewrite length_app in Hl. cbn in Hl. lia.
Qed.

Lemma replace_all_single (rep s : string) :
  chars (replace_all r rep s)
  = flat_map (fun x => if p x then chars rep else [x]) (chars s).
Proof.
  unfold replace_all. rewrite chars_str. apply replace_single.
  rewrite chars_length. lia.
Qed.

End SingleChar.

Section ParseLaws.
Import Text Regex Js Sys Memory Store Core Parse Invariants Laws.

Lemma lower_not_upper (c : ascii) : is_upper (lower_char c) = false.
Proof.
  unfold lower_char. destruct (is_upper c) eqn:E; [|exact E].
  unfold is_upper, code in *. apply andb_true_iff in E. destruct E as [E1 E2].
  apply Nat.leb_le in E1, E2. rewrite nat_ascii_embedding by lia.
  apply andb_false_iff. right. apply Nat.leb_gt. lia.
Qed.

Lemma drop_space_in (l : list ascii) (c : ascii) : In c (drop_space l) -> In c l.
Proof.
  induction l as [|x t IH]; cbn [drop_space]; [auto|].
  destruct (is_space x); [intros H; right; apply IH, H|auto].
Qed.

Lemma trim_in (s : string) (c : ascii) : In c (chars (trim s)) -> In c (chars s).
Proof.
  unfold trim. rewrite chars_str. intros H. apply in_rev in H. apply drop_space_in in H.
  apply in_rev in H. apply drop_space_in in H. exact H.
Qed.

Lemma cleaned_chars (text : string) (c : ascii) :
  In c (chars (trim (replace_all ws1 " " (replace_all punctuation " " (toLowerCase text))))) ->
  clean_char c.
Proof.
  intros H. apply trim_in in H. apply replace_all_chars in H.
  assert (Sp : forall x, In x (chars " ") -> clean_char x).
  { intros x [<-|[]]. left. reflexivity. }
  destruct H as [H|H]; [|apply Sp, H].
  rewrite (@replace_all_single punctuation is_mark) in H by reflexivity.
  apply in_flat_map in H. destruct H as [x [Hx H]].
  destruct (is_mark x) eqn:M; [apply Sp, H|]. destruct H as [<-|[]].
  unfold toLowerCase in Hx. rewrite chars_str in Hx. apply in_map_iff in Hx.
  destruct Hx as [y [<- _]].
  destruct (Ascii.eqb (lower_char y) " ") eqn:E.
  - left. apply Ascii.eqb_eq. exact E.
  - right. split; [apply lower_not_upper|]. split; [exact M|]. apply Ascii.eqb_neq. exact E.
Qed.

Lemma split_plain (l cur : list ascii) :
  Forall plain cur -> Forall clean_char l ->
  Forall (fun w => Forall plain (chars w)) (split_chars " " cur l).
Proof.
  revert cur. induction l as [|c t IH]; intros cur Hc Hl; cbn [split_chars].
  - constructor; [|constructor]. rewrite chars_str. apply Forall_rev, Hc.
  - inversion Hl as [|? ? H1 H2]; subst. destruct (Ascii.eqb c " ") eqn:E.
    + constructor; [rewrite chars_str; apply Forall_rev, Hc|]. apply IH; [constructor|exact H2].
    + apply IH; [|exact H2]. constructor; [|exact Hc].
      destruct H1 as [->|H1]; [|exact H1]. rewrite Ascii.eqb_refl in E. discriminate.
Qed.

Lemma group_phrases_ok (ws current : list string) :
  Forall (fun w => Forall plain (chars w)) ws ->
  Forall (fun w => 1 < String.length w /\ ~ In w stopWords /\ Forall plain (chars w)) current ->
  Forall noun_phrase (group_phrases ws current).
Proof.
  assert (Flush : forall current,
             current <> [] ->
             Forall (fun w => 1 < String.length w /\ ~ In w stopWords
                              /\ Forall plain (chars w)) current ->
             noun_phrase (join " " (rev current))).
  { intros c Hne Hc. exists (rev c). split; [|split; [reflexivity|apply Forall_rev, Hc]].
    intros E. apply Hne. rewrite <- (rev_involutive c), E. reflexivity. }
  revert current. induction ws as [|word t IH]; intros current Hw Hc; cbn [group_phrases].
  - destruct current as [|c cs]; [constructor|].
    constructor; [apply Flush; [discriminate|exact Hc]|constructor].
  - inversion Hw as [|? ? W1 W2]; subst.
    destruct (includes stopWords word || (String.length word <=? 1)) eqn:E.
    + destruct current as [|c cs]; [apply IH; [exact W2|constructor]|].
      constructor; [apply Flush; [discriminate|exact Hc]|apply IH; [exact W2|constructor]].
    + apply IH; [exact W2|]. constructor; [|exact Hc].
      apply orb_false_iff in E. destruct E as [E1 E2].
      apply includes_false in E1. apply Nat.leb_gt in E2. repeat split; assumption.
Qed.

(** X19. What [extractNounPhrases] returns holds no phrase twice, and
    every phrase in it is made of one or more words joined by a space:
    no word is a stop word or shorter than two characters, and no word
    holds an upper-case letter, a space, or one of the marks
    ? ! . , ; : ' ( ) [ ] { } and the double quote. *)
Theorem X19_noun_phrases (text : string) :
  NoDup (extractNounPhrases text)
  /\ Forall noun_phrase (extractNounPhrases text).
Proof.
  unfold extractNounPhrases. cbv zeta.
  pose proof (cleaned_chars text) as Hc.
  set (cleaned := trim (replace_all ws1 " " (replace_all punctuation " " (toLowerCase text))))
    in *.
  assert (Hw : Forall (fun w => Forall plain (chars w)) (split " " cleaned)).
  { unfold split. apply split_plain; [constructor|]. apply Forall_forall. exact Hc. }
  match goal with |- NoDup (dedup ?l) /\ _ =>
    assert (Hl : Forall noun_phrase l); [|generalize l Hl; clear; intros found Hl]
  end.
  - apply Forall_app. split; [apply group_phrases_ok; [exact Hw|constructor]|].
    apply Forall_forall. intros p Hp.
    apply filter_In in Hp. destruct Hp as [Hp _].
    apply filter_In in Hp. destruct Hp as [Hin Hg]. apply andb_true_iff in Hg.
    destruct Hg as [H1 H2]. apply Nat.ltb_lt in H1. apply negb_true_iff, includes_false in H2.
    rewrite Forall_forall in Hw.
    exists [p]. split; [discriminate|]. split; [reflexivity|].
    constructor; [|constructor]. split; [exact H1|]. split; [exact H2|apply Hw, Hin].
  - destruct (dedup_spec found) as [Hn Hi]. split; [exact Hn|].
    rewrite Forall_forall in *. intros p Hp. apply Hl, Hi, Hp.
Qed.

End ParseLaws.

Section TitleLaws.
Import Text Regex Socratic Invariants Laws.

Lemma unfolded_space (c : ascii) : is_space (unfolded c) = is_space c.
Proof.
  unfold unfolded. destruct (Ascii.eqb c (ascii_of_nat 10)) eqn:E; [|reflexivity].
  apply Ascii.eqb_eq in E. subst c. reflexivity.
Qed.

Lemma drop_space_map (l : list ascii) :
  drop_space (map unfolded l) = map unfolded (drop_space l).
Proof.
  induction l as [|c t IH]; cbn [map drop_space]; [reflexivity|].
  rewrite unfolded_space. destruct (is_space c); [exact IH|reflexivity].
Qed.

Lemma replace_newline (s : string) :
  chars (replace_all newline " " s) = map unfolded (chars s).
Proof.
  rewrite (@replace_all_single newline (fun x => Ascii.eqb x (ascii_of_nat 10)))
    by reflexivity.
  induction (chars s) as [|c t IH]; cbn [flat_map map]; [reflexivity|].
  rewrite IH. unfold unfolded. destruct (Ascii.eqb c (ascii_of_nat 10)); reflexivity.
Qed.

Lemma trim_unfolded (s : string) :
  chars (trim (replace_all newline " " s)) = map unfolded (chars (trim s)).
Proof.
  unfold trim. rewrite !chars_str, replace_newline.
  rewrite drop_space_map, <- map_rev, drop_space_map, <- map_rev. reflexivity.
Qed.

(** X25. [generateTitle] gives the trimmed message with every line
    feed turned into a space when that has at most 50 characters, and
    its first 50 characters followed by three dots when it has more: a
    title holds no line feed and has at most 53 characters. *)
Theorem X25_generate_title (message : string) :
  let body := map unfolded (chars (trim message)) in
  generateTitle message
  = (if 50 <? List.length body then (str (firstn 50 body) ++ "...")%string else str body)
  /\ String.length (generateTitle message) <= 53
  /\ ~ In (ascii_of_nat 10) (chars (generateTitle message)).
Proof.
  intros body.
  assert (E : generateTitle message
              = (if 50 <? List.length body then (str (firstn 50 body) ++ "...")%string
                 else str body)).
  { unfold generateTitle, slice_to. cbv zeta. rewrite trim_unfolded. fold body.
    rewrite <- !chars_length, chars_str, length_firstn.
    replace (List.length (chars (trim message))) with (List.length body)
      by (unfold body; apply length_map).
    destruct (50 <? List.length body) eqn:L.
    - apply Nat.ltb_lt in L. replace (Nat.min 50 (List.length body)) with 50 by lia.
      rewrite (proj2 (Nat.ltb_lt _ _) L). reflexivity.
    - apply Nat.ltb_ge in L. replace (Nat.min 50 (List.length body)) with (List.length body)
        by lia.
      rewrite Nat.ltb_irrefl, firstn_all2 by lia. reflexivity. }
  assert (Nl : forall l, incl l body -> ~ In (ascii_of_nat 10) l).
  { intros l Hl Hin. apply Hl in Hin. unfold body in Hin. apply in_map_iff in Hin.
    destruct Hin as [c [Ec _]]. unfold unfolded in Ec.
    destruct (Ascii.eqb c (ascii_of_nat 10)) eqn:Q; [discriminate|].
    apply Ascii.eqb_neq in Q. congruence. }
  split; [exact E|]. rewrite E. destruct (50 <? List.length body) eqn:L.
  - split.
    + rewrite <- chars_length, chars_append, length_app, chars_str, length_firstn.
      change (List.length (chars "...")) with 3. lia.
    + rewrite chars_append, chars_str. intros H. apply in_app_or in H.
      destruct H as [H|H]; [revert H; apply Nl; intros x Hx; eapply in_firstn; exact Hx|].
      cbn in H. repeat (destruct H as [H|H]; [discriminate|]). exact H.
  - apply Nat.ltb_ge in L. split.
    + rewrite <- chars_length, chars_str. lia.
    + rewrite chars_str. apply Nl, incl_refl.
Qed.

End TitleLaws.

(* ================================================================== *)
(** * Analogies                                                       *)
(* ================================================================== *)

Section AnalogyLaws.
Import Text Js Sys Memory Store Core Analogize Invariants Laws.







End AnalogyLaws.

(* ================================================================== *)
(** * The replies of the question demon                               *)
(* ================================================================== *)

Section Replies.
Import Text Js Sys Memory Store Core Question.

(** A text that begins with a character is not empty, whatever follows. *)
Lemma cons_text (c : ascii) (s t : string) : (String c s ++ t)%string <> "".
Proof. cbn. discriminate. Qed.

Lemma tail_text (s : string) (c : ascii) (t : string) : (s ++ String c t)%string <> "".
Proof. destruct s; cbn; discriminate. Qed.

Lemma append_text (s t : string) : s <> "" -> (s ++ t)%string <> "".
Proof. destruct s; [intros H; destruct (H eq_refl)|intros _; apply cons_text]. Qed.

Lemma quoted_text (s t : string) : (quoted s ++ t)%string <> "".
Proof. unfold quoted, dq. cbn. discriminate. Qed.

(** [parts.join(sep)] is empty only when every part is. *)
Lemma join_text (x : string) (rest : list string) :
  x <> "" -> join nl2 (x :: rest) <> "".
Proof.
  intros Hx. unfold join. cbn [String.concat].
  destruct rest; [exact Hx|apply append_text, Hx].
Qed.

Lemma join_texts (x y : string) (rest : list string) :
  join nl2 (x :: y :: rest) <> "".
Proof.
  unfold join. cbn [String.concat]. destruct x; cbn; discriminate.
Qed.

Ltac crack :=
  repeat match goal with
         | H : Some _ = Some _ |- _ => inversion H; clear H; subst
         | H : None = Some _ |- _ => discriminate H
         | H : and_then ?o _ = Some _ |- _ =>
             destruct o eqn:?; [cbn [and_then] in H|discriminate H]
         | H : match ?x with _ => _ end = Some _ |- _ => destruct x eqn:?
         end.

Ltac literal :=
  first [ apply quoted_text
        | apply join_texts
        | apply join_text; literal
        | apply cons_text
        | apply tail_text
        | discriminate ].

Lemma contradiction_text (contradictions : list MemSlot) (text : string) :
  buildContradictionResponse contradictions = Some text -> text <> "".
Proof.
  unfold buildContradictionResponse. intros H. crack. literal.
Qed.

Lemma confusion_text (focus : string) (analogies decompositions steps : list MemSlot)
      (text : string) :
  buildConfusionResponse focus analogies decompositions steps = Some text -> text <> "".
Proof.
  unfold buildConfusionResponse. intros H.
  destruct (analogy_part analogies); [cbn [and_then] in H|discriminate H].
  match type of H with and_then ?o _ = _ => destruct o; [cbn [and_then] in H|discriminate H] end.
  injection H as <-. literal.
Qed.

Lemma claim_text (assessment : MemSlot) (relations inferred : list MemSlot) (text : string) :
  buildClaimResponse assessment relations inferred = Some text -> text <> "".
Proof.
  unfold buildClaimResponse. intros H. cbv zeta in H. crack; literal.
Qed.

Lemma fallback_text (focus subject : string) : buildFallbackResponse focus subject <> "".
Proof. unfold buildFallbackResponse. destruct (negb _); literal. Qed.

Lemma prompt_text (type from to : string) : relation_prompt type from to <> "".
Proof.
  unfold relation_prompt.
  repeat match goal with |- context [if ?b then _ else _] => destruct b end; literal.
Qed.

Lemma question_text (focus subject : string)
      (relations inferred decompositions prerequisites knowledgeGaps analogies
       examples steps : list MemSlot) (unknownConcepts : option MemSlot) (text : string) :
  buildQuestionResponse focus subject relations inferred decompositions prerequisites
                        knowledgeGaps analogies examples steps unknownConcepts = Some text ->
  text <> "".
Proof.
  unfold buildQuestionResponse. intros H.
  match type of H with and_then ?o _ = _ =>
    destruct o as [[g|]|] eqn:G; [| |discriminate H]; cbn [and_then] in H end.
  { injection H as <-. crack; literal. }
  clear G.
  match type of H with and_then ?o _ = _ =>
    destruct o as [[g|]|] eqn:G; [| |discriminate H]; cbn [and_then] in H end.
  { injection H as <-. crack; literal. }
  clear G.
  match type of H with and_then ?o _ = _ =>
    destruct o as [parts|] eqn:G; [|discriminate H]; cbn [and_then] in H end.
  destruct parts as [|p parts].
  { injection H as <-. apply fallback_text. }
  injection H as <-.
  destruct relations as [|r relations].
  - crack; literal.
  - cbv zeta in G. crack;
      first [apply prompt_text|apply join_text, prompt_text|apply append_text, prompt_text].
Qed.

Lemma lift_some (A : Type) (o : option A) (w w' : World) (x : A) :
  lift o w = (Some x, w') -> o = Some x /\ w' = w.
Proof.
  destruct o; cbn; unfold ret, throw; intros H; inversion H; split; reflexivity.
Qed.

(** The reply that [buildResponse] returns is not empty, given a draw
    of [Math.random()] in its range, and the store is as before. *)
Lemma reply_text (input : DemonInput) (w w' : World) (text : string) :
  (0 <= rnd (env w) (rnd_i (env w)))%Q -> (rnd (env w) (rnd_i (env w)) < 1)%Q ->
  buildResponse input w = (Some text, w') -> text <> "" /\ graph w' = graph w.
Proof.
  intros H0 H1. unfold buildResponse. cbv zeta.
  destruct (String.eqb _ "greeting").
  { unfold buildGreetingResponse. destruct (negb _).
    - unfold ret. intros H. inversion H. split; [literal|reflexivity].
    - unfold bind, Math_random, Sys.Math_random, ret.
      set (s := nth _ greetings "").
      assert (Hin : In s greetings).
      { apply nth_In. apply draw_index; [assumption..|]. cbn. lia. }
      clearbody s. intros H. injection H as <- <-. split; [|reflexivity].
      unfold greetings in Hin. cbn [In] in Hin.
      repeat (destruct Hin as [<-|Hin]; [discriminate|]). destruct Hin. }
  destruct (0 <? _)%nat.
  { intros H. apply lift_some in H. destruct H as [H ->].
    split; [eapply contradiction_text, H|reflexivity]. }
  destruct (_ || _).
  { intros H. apply lift_some in H. destruct H as [H ->].
    split; [eapply confusion_text, H|reflexivity]. }
  match goal with |- context [match ?o with Some _ => _ | None => _ end] => destruct o end.
  { intros H. apply lift_some in H. destruct H as [H ->].
    split; [eapply claim_text, H|reflexivity]. }
  destruct (_ || _).
  { intros H. apply lift_some in H. destruct H as [H ->].
    split; [eapply question_text, H|reflexivity]. }
  destruct (String.eqb _ "correction"); unfold ret; intros H; inversion H;
    (split; [|reflexivity]).
  - unfold buildCorrectionResponse. literal.
  - apply fallback_text.
Qed.

(** X26.  The question demon never answers with an empty text: whenever
    [questionDemon.run] returns, on a draw of [Math.random()] in [0, 1),
    its output is one response slot (confidence 0.8, ttl 20, source
    question) and one respond action that carry the same non-empty text,
    with nothing to evict, nothing to focus and no chain hint, and the
    store is the one it started from. *)
Theorem X26_question_reply (input : DemonInput) (w w' : World) (output : DemonOutput) :
  (0 <= rnd (env w) (rnd_i (env w)))%Q -> (rnd (env w) (rnd_i (env w)) < 1)%Q ->
  Question.run input w = (Some output, w') ->
  exists text,
    text <> ""
    /\ output = MkOutput [slot (JStr text) "response" (8 # 10) "question" 20] [] []
                         [respond text] []
    /\ graph w' = graph w.
Proof.
  intros H0 H1. unfold Question.run, bind.
  destruct (buildResponse input w) as [[text|] w1] eqn:B; [|discriminate].
  unfold ret. intros H. inversion H. subst.
  destruct (@reply_text input w w' text H0 H1 B) as [T G].
  exists text. repeat split; assumption.
Qed.

End Replies.

(* ================================================================== *)
(** * Witnesses of the further properties                             *)
(* ================================================================== *)

Section FurtherWitnesses.
Import Text Js Sys Memory Store Core Infer Demons Hypervisor Engine Invariants Scenario.
Import Traverse Laws Fixtures.

Lemma X2_evict_removes_witness :
  readSlot (fst (evictSlot crowded "a")) "a" = None
  /\ ~ In "a" (wm_focus (fst (evictSlot crowded "a"))).
Proof.
  destruct (@X2_evict_removes crowded "a") as (R & _ & _ & F & _).
  - cbn. repeat constructor; cbn; intuition discriminate.
  - split; [rewrite R; reflexivity|exact F].
Defined.

Lemma X3_focus_names_slots_witness :
  focus_ok (fst (evictSlot crowded "a")) /\ focus_ok (fst (tick crowded)).
Proof.
  destruct (X3_focus_names_slots crowded [] "a" (slot JUndef "note" 1%Q "user" 0)
                                 (steady 0 0%Q) 1) as (_ & H).
  destruct H as (_ & E & T & _); [repeat constructor|].
  split; assumption.
Defined.

Lemma X4_tick_decays_witness :
  readSlot (fst (tick fading)) "x" = None /\ In "x" (snd (tick fading))
  /\ ~ In "x" (wm_focus (fst (tick fading))).
Proof.
  destruct (@X4_tick_decays fading) as (R & E & _ & F).
  - cbn. repeat constructor; cbn; intuition discriminate.
  - split; [rewrite R; reflexivity|]. split.
    + apply E. eexists. split; reflexivity.
    + intros H. apply F in H. destruct H as [_ H]. apply H, E. eexists. split; reflexivity.
Defined.

Lemma X6_ensureNoun_gets_or_creates_witness :
  exists n, ensureNoun " DOG " Entity (JObj []) zoo = (Some n, zoo) /\ n_label n = "dog".
Proof.
  pose proof (X6_ensureNoun_gets_or_creates "dog" Unknown (JObj []) zoo) as H.
  destruct (ensureNoun "dog" Unknown (JObj []) zoo) as [[n|] w'] eqn:E;
    [|vm_compute in E; discriminate E].
  assert (Ew : w' = zoo) by (vm_compute in E; injection E as _ <-; reflexivity).
  subst w'. destruct H as (L & n' & _ & _ & L' & _ & K).
  exists n'. split; [apply K; reflexivity|]. rewrite L', L. reflexivity.
Defined.

Lemma X7_referential_integrity_witness :
  integrity (graph (snd (link "cat" "is_a" "mammal" 1%Q None zoo))).
Proof.
  apply (X7_referential_integrity "cat" "mammal" "" "is_a" Unknown 1%Q None (JObj []) zoo).
  vm_compute. repeat constructor.
Defined.

Lemma X8_query_sound_witness :
  Forall (fun tr => n_label (t_from tr) = "dog" /\ r_type (t_relation tr) = "is_a")
         (query_graph (graph zoo) (edge_query " Dog" "is_a" "mammal")).
Proof.
  apply Forall_forall. intros tr H.
  destruct (@X8_query_sound (graph zoo) (edge_query " Dog" "is_a" "mammal") tr H)
    as (_ & _ & _ & L & _ & T & _).
  split.
  - apply (L " Dog"); [reflexivity|discriminate].
  - apply (T "is_a"); [reflexivity|discriminate].
Defined.

Lemma X9_search_nouns_witness :
  exists row, In row (nouns (graph zoo))
              /\ In (noun_of_row row) (search_nouns (graph zoo) " Dog" 5).
Proof.
  destruct (nouns (graph zoo)) as [|row rest] eqn:E; [vm_compute in E; discriminate E|].
  exists row. rewrite <- E.
  assert (Hin : In row (nouns (graph zoo))) by (rewrite E; left; reflexivity).
  split; [exact Hin|].
  apply (X9_search_nouns (graph zoo) " Dog" 5); [exact Hin| |vm_compute; lia].
  vm_compute in E. injection E as <- _. reflexivity.
Defined.

Lemma X11_turn_slots_cleared_witness :
  findByTag (memory (snd (fst (processInput DEMONS engine "hi" pristine)))) "raw_input" = [].
Proof.
  apply (@X11_turn_slots_cleared DEMONS engine "hi" pristine).
  - split; constructor.
  - left. reflexivity.
Defined.

Lemma X12_seed_demons_chain_forward_witness :
  o_evict (Parse.run (MkInput createWorkingMemory JUndef)) = []
  /\ o_focus (Parse.run (MkInput createWorkingMemory JUndef)) = [].
Proof.
  destruct (@X12_seed_demons_chain_forward "parse" Parse.parseDemon
              (MkInput createWorkingMemory JUndef) pristine pristine
              (Parse.run (MkInput createWorkingMemory JUndef)))
    as (_ & E & F & _); [reflexivity|reflexivity|].
  split; assumption.
Defined.

Lemma X13_focus_never_grows_witness :
  wm_focus (memory (snd (fst (processInput DEMONS engine "hi" pristine)))) = [].
Proof.
  apply (X13_focus_never_grows engine "hi" pristine). reflexivity.
Defined.

Lemma X15_merge_pending_witness : NoDup (merge_pending ["a"; "b"] ["b"; "c"; "c"]).
Proof.
  apply (X15_merge_pending ["a"; "b"] ["b"; "c"; "c"]).
  repeat constructor; cbn; intuition discriminate.
Defined.

Lemma X17_contradictions_witness :
  exists c, In c (detectContradictions rivals) /\ c_concept c = "x".
Proof.
  destruct (X17_contradictions rivals) as [_ H].
  destruct (H (MkRel "x" "equals" "1" 1) (MkRel "x" "equals" "2" 1)) as (c & H1 & H2 & _);
    try reflexivity.
  - left. reflexivity.
  - right. left. reflexivity.
  - discriminate.
  - exists c. split; assumption.
Defined.

Lemma X20_primary_keys_witness :
  keys_unique (graph (snd (link "cat" "is_a" "mammal" 1%Q None zoo))).
Proof.
  apply (X20_primary_keys "cat" "mammal" "" "is_a" Unknown 1%Q None (JObj []) zoo).
  vm_compute. split; repeat constructor; cbn; intuition discriminate.
Defined.

Lemma X21_joins_witness :
  map fst (relations_from (graph zoo) dog_id None)
  = map relation_of_row
        (filter (fun r => String.eqb (rr_from_id r) dog_id && type_filter None r)
                (relations (graph zoo))).
Proof.
  apply (X21_joins (graph zoo) dog_id None).
  - vm_compute. repeat constructor.
  - vm_compute. repeat constructor; cbn; intuition discriminate.
Defined.

Lemma X24_engine_invariants_witness :
  settled None (snd (fst (process engine "hi" pristine))).
Proof.
  apply (@X24_engine_invariants None). apply reach_turn, reach_start.
Defined.

Lemma X26_question_reply_witness :
  exists text,
    text <> ""
    /\ fst (Question.run (MkInput greeted JUndef) pristine)
       = Some (MkOutput [slot (JStr text) "response" (8 # 10) "question" 20] [] []
                        [respond text] []).
Proof.
  destruct (Question.run (MkInput greeted JUndef) pristine) as [[output|] w'] eqn:E;
    [|vm_compute in E; discriminate E].
  destruct (@X26_question_reply (MkInput greeted JUndef) pristine w' output)
    as (text & T & -> & _).
  - vm_compute. discriminate.
  - vm_compute. reflexivity.
  - exact E.
  - exists text. split; [exact T|reflexivity].
Defined.

End FurtherWitnesses.
